(** * FastWordpieceTokenizer: a shallow embedding of
      [tensorflow_text/core/kernels/fast_wordpiece_tokenizer.cc]

    The tokenizer walks a trie of the vocabulary from left to right.  When
    the trie cannot consume the next character it performs a failure
    transition: it appends the failure pops of the current node to the
    outputs and jumps through the failure link.  The embedding follows the
    C++ functions one by one and keeps their names.

    Conventions.
    - [int] values are modelled as [Z].  All arithmetic of the source is on
      sizes and offsets of the input, so no signed overflow is modelled.
    - [absl::string_view] and [std::string] are lists of bytes.
    - [std::vector] outputs are lists, appended to on the right.
    - A read [v->Get(i)] past the end of a flatbuffers vector (an assertion
      failure in the source) is the error [OutOfRange].
    - The loops that follow failure links have no bound in the source; they
      are modelled with fuel, and running out of it is the error
      [OutOfFuel]. *)

From Stdlib Require Import ZArith Ascii String Bool Lia List.
Import ListNotations.
Local Open Scope Z_scope.

(** ** Byte strings and vectors *)

Definition bytes : Type := list ascii.

Definition bytes_of (s : string) : bytes := list_ascii_of_string s.

Definition size {A : Type} (l : list A) : Z := Z.of_nat (length l).

(** [string_view::substr(pos, n)], and the view [string_view(data + pos, n)]
    inside its buffer; on a vector, the elements [[pos, pos + n)]. *)
Definition substr {A : Type} (s : list A) (pos n : Z) : list A :=
  firstn (Z.to_nat n) (skipn (Z.to_nat pos) s).

Definition push_back {A : Type} (l : list A) (x : A) : list A := l ++ [x].

(** [std::vector::resize(n)] with value-initialised new elements. *)
Definition resize {A : Type} (d : A) (n : Z) (l : list A) : list A :=
  firstn (Z.to_nat n) l ++ repeat d (Z.to_nat n - length l).

(** [v.back() = x] on a non-empty vector. *)
Definition set_back {A : Type} (x : A) (l : list A) : list A :=
  removelast l ++ [x].

(** [absl::StrJoin(parts, sep)]. *)
Fixpoint StrJoin (parts : list bytes) (sep : bytes) : bytes :=
  match parts with
  | [] => []
  | [p] => p
  | p :: rest => p ++ sep ++ StrJoin rest sep
  end.

(** ** Results *)

Inductive error : Type :=
| FailedPreconditionError
| OutOfRange
| OutOfFuel.

Inductive result (A : Type) : Type :=
| Ok (a : A)
| Err (e : error).

Arguments Ok {A} a.
Arguments Err {A} e.

Definition bind {A B : Type} (m : result A) (k : A -> result B) : result B :=
  match m with
  | Ok a => k a
  | Err e => Err e
  end.

Notation "x <- m ;; k" := (bind m (fun x => k))
  (at level 61, m at next level, right associativity).
Notation "' pat <- m ;; k" := (bind m (fun x => match x with pat => k end))
  (at level 61, pat pattern, m at next level, right associativity).

(** [v->Get(i)] on a flatbuffers vector. *)
Definition Get {A : Type} (v : list A) (i : Z) : result A :=
  if i <? 0 then Err OutOfRange
  else match nth_error v (Z.to_nat i) with
       | Some a => Ok a
       | None => Err OutOfRange
       end.

(** ** The model: [FastWordpieceTokenizerConfig] *)

Record FailureStruct : Type := {
  failure_link : Z;
  failure_pops_offset_length : Z
}.

Record FastWordpieceTokenizerConfig : Type := {
  failure_struct_array : list FailureStruct;
  failure_pops_pool : list Z;
  vocab_array : list bytes;
  vocab_is_suffix_array : list bool;
  max_bytes_per_token : Z;
  suffix_indicator : bytes;
  unk_token : bytes;
  unk_token_id : Z;
  end_to_end : bool;
  support_detokenization : bool;
  precomputed_result_for_suffix_indicator : list Z;
  trie_suffix_root : Z;
  trie_punct_failure_link_node : Z
}.

(** ** Interfaces of the code that the tokenizer calls *)

(** [trie_utils::DartsCloneTrieWrapper].  A traversal cursor is modelled by
    its [node_id]: [CreateTraversalCursorPointToRoot] is the node
    [kRootNodeId], and [SetTraversalCursor] replaces the node.
    [TryTraverseOneStep] gives the new node, or [None] when the source
    returns [false] and leaves the cursor where it was. *)
Record DartsCloneTrieWrapper : Type := {
  kRootNodeId : Z;
  TryTraverseOneStep : Z -> ascii -> option Z;
  TryGetData : Z -> option Z
}.

(** Modelled from the spec: [TryTraverseSeveralSteps] of the trie wrapper,
    whose source is not part of the files at hand.  It advances only if all
    the bytes can be consumed, and leaves the cursor unchanged otherwise. *)
Fixpoint TryTraverseSeveralSteps (trie : DartsCloneTrieWrapper) (node : Z)
  (path : bytes) : option Z :=
  match path with
  | [] => Some node
  | ch :: rest =>
      match TryTraverseOneStep trie node ch with
      | Some next => TryTraverseSeveralSteps trie next rest
      | None => None
      end
  end.

(** The helpers of [fast_wordpiece_tokenizer_utils.h]: the bit layout of an
    encoded token value and of a failure-pops reference is a contract with
    the model builder, so the helpers are an interface here. *)
Class Utils : Type := {
  kNullNode : Z;
  GetTokenId : Z -> Z;
  GetTokenLength : Z -> Z;
  IsSuffixToken : Z -> bool;
  GetFailurePopsOffsetAndLength : Z -> Z * Z;
  IsPunctuationOrChineseChar : Z -> bool
}.

(** The two ICU entry points.  [U8_NEXT s i length] gives the position after
    the code point that starts at [i], and the code point. *)
Class ICU : Type := {
  U8_NEXT : bytes -> Z -> Z -> Z * Z;
  u_isUWhiteSpace : Z -> bool
}.

Record FastWordpieceTokenizer : Type := {
  config_ : FastWordpieceTokenizerConfig;
  trie_ : DartsCloneTrieWrapper
}.

(** ** Output containers *)

Record Outputs : Type := {
  output_pieces : list bytes;
  output_ids : list Z;
  output_start_offsets : list Z;
  output_end_offsets : list Z
}.

Definition with_pieces (out : Outputs) (p : list bytes) : Outputs :=
  {| output_pieces := p;
     output_ids := output_ids out;
     output_start_offsets := output_start_offsets out;
     output_end_offsets := output_end_offsets out |}.

Definition with_ids (out : Outputs) (i : list Z) : Outputs :=
  {| output_pieces := output_pieces out;
     output_ids := i;
     output_start_offsets := output_start_offsets out;
     output_end_offsets := output_end_offsets out |}.

Definition with_offsets (out : Outputs) (s e : list Z) : Outputs :=
  {| output_pieces := output_pieces out;
     output_ids := output_ids out;
     output_start_offsets := s;
     output_end_offsets := e |}.

Definition GetCurrentOutputSize (kGetPieces : bool) (out : Outputs) : Z :=
  if kGetPieces then size (output_pieces out) else size (output_ids out).

(** ** The tokenizer *)

Section Tokenizer.

Context {utils : Utils} {icu : ICU}.
Variable this : FastWordpieceTokenizer.
Variables kGetPieces kGetIds kGetOffsets : bool.

Definition AppendTokenToOutput (input_word : bytes)
  (input_word_offset_in_text cur_offset_in_input_word encoded_token_value : Z)
  (out : Outputs) : Z * Outputs :=
  let token_id := GetTokenId encoded_token_value in
  let out :=
    if kGetIds then with_ids out (push_back (output_ids out) token_id)
    else out in
  if kGetPieces || kGetOffsets then
    let token_substr_length :=
      if (cur_offset_in_input_word =? 0) && IsSuffixToken encoded_token_value
      then GetTokenLength encoded_token_value
           + size (suffix_indicator (config_ this))
      else GetTokenLength encoded_token_value in
    let out :=
      if kGetPieces then
        let subword_str :=
          if token_id =? unk_token_id (config_ this)
          then unk_token (config_ this)
          else substr input_word cur_offset_in_input_word token_substr_length in
        with_pieces out
          (push_back (output_pieces out)
             (if cur_offset_in_input_word =? 0 then subword_str
              else suffix_indicator (config_ this) ++ subword_str))
      else out in
    let out :=
      if kGetOffsets then
        with_offsets out
          (push_back (output_start_offsets out)
             (input_word_offset_in_text + cur_offset_in_input_word))
          (push_back (output_end_offsets out)
             (input_word_offset_in_text + cur_offset_in_input_word
              + token_substr_length))
      else out in
    (cur_offset_in_input_word + token_substr_length, out)
  else (cur_offset_in_input_word, out).

(** Returns the new [original_num_tokens] and the outputs. *)
Definition ResetOutputAppendUnknownToken
  (input_word_offset_in_text input_size original_num_tokens : Z)
  (out : Outputs) : Z * Outputs :=
  let out :=
    if kGetPieces then
      with_pieces out
        (set_back (unk_token (config_ this))
           (resize [] (original_num_tokens + 1) (output_pieces out)))
    else out in
  let out :=
    if kGetIds then
      with_ids out
        (set_back (unk_token_id (config_ this))
           (resize 0 (original_num_tokens + 1) (output_ids out)))
    else out in
  let out :=
    if kGetOffsets then
      with_offsets out
        (set_back input_word_offset_in_text
           (resize 0 (original_num_tokens + 1) (output_start_offsets out)))
        (set_back (input_word_offset_in_text + input_size)
           (resize 0 (original_num_tokens + 1) (output_end_offsets out)))
    else out in
  (original_num_tokens + 1, out).

(** The [for] loop of [TryFollowFailureLinkAndCollectTokens] over the
    failure-pops pool: [n] iterations from [offset_in_pool]. *)
Fixpoint collect_failure_pops (input_word : bytes)
  (input_word_offset_in_text : Z) (n : nat) (offset_in_pool : Z)
  (cur_offset_in_input_word : Z) (out : Outputs) : result (Z * Outputs) :=
  match n with
  | O => Ok (cur_offset_in_input_word, out)
  | S n' =>
      e <- Get (failure_pops_pool (config_ this)) offset_in_pool ;;
      let '(cur, out') :=
        AppendTokenToOutput input_word input_word_offset_in_text
          cur_offset_in_input_word e out in
      collect_failure_pops input_word input_word_offset_in_text n'
        (offset_in_pool + 1) cur out'
  end.

(** Returns the boolean of the source together with the three things it
    updates through references: [cur_offset_in_input_word], the cursor
    [node] and the outputs. *)
Definition TryFollowFailureLinkAndCollectTokens (input_word : bytes)
  (input_word_offset_in_text cur_offset_in_input_word node : Z)
  (out : Outputs) : result (bool * (Z * Z * Outputs)) :=
  match TryGetData (trie_ this) node with
  | Some cur_node_data =>
      let '(cur, out') :=
        AppendTokenToOutput input_word input_word_offset_in_text
          cur_offset_in_input_word cur_node_data out in
      node_aux <- Get (failure_struct_array (config_ this)) node ;;
      Ok (true, (cur, failure_link node_aux, out'))
  | None =>
      node_aux <- Get (failure_struct_array (config_ this)) node ;;
      if failure_link node_aux =? kNullNode then
        Ok (false, (cur_offset_in_input_word, node, out))
      else
        let '(failure_pops_offset, failure_pops_length) :=
          GetFailurePopsOffsetAndLength (failure_pops_offset_length node_aux) in
        let failure_pops_end_offset :=
          failure_pops_offset + failure_pops_length in
        '(cur, out') <-
          collect_failure_pops input_word input_word_offset_in_text
            (Z.to_nat (failure_pops_end_offset - failure_pops_offset))
            failure_pops_offset cur_offset_in_input_word out ;;
        Ok (true, (cur, failure_link node_aux, out'))
  end.

(** The loop [while (!trie_->TryTraverse...(cur_node, ...)) { if
    (!TryFollowFailureLinkAndCollectTokens(...)) <leave> }] that both
    tokenizers run for each character.  [try_traverse] is the traversal
    attempted from the cursor.  The boolean is [true] when the trie consumed
    the character and [false] when no failure link could be followed. *)
Fixpoint follow_failure_links (fuel : nat) (try_traverse : Z -> option Z)
  (input_word : bytes) (input_word_offset_in_text : Z)
  (cur_offset_in_input_word cur_node : Z) (out : Outputs)
  : result (bool * (Z * Z * Outputs)) :=
  match try_traverse cur_node with
  | Some next => Ok (true, (cur_offset_in_input_word, next, out))
  | None =>
      match fuel with
      | O => Err OutOfFuel
      | S fuel' =>
          '(followed, (cur, node, out')) <-
            TryFollowFailureLinkAndCollectTokens input_word
              input_word_offset_in_text cur_offset_in_input_word cur_node out ;;
          if followed then
            follow_failure_links fuel' try_traverse input_word
              input_word_offset_in_text cur node out'
          else Ok (false, (cur, node, out'))
      end
  end.

(** Returns the boolean of the source with [cur_offset_in_input_word] and
    the outputs.  [original_num_tokens] is passed by value in the source. *)
Definition TryHandleTheInputWordBeingSuffixIndicatorItself (input_word : bytes)
  (input_word_offset_in_text cur_node cur_offset_in_input_word
   original_num_tokens : Z) (out : Outputs) : bool * (Z * Outputs) :=
  if negb (cur_node =? trie_suffix_root (config_ this)) then
    (false, (cur_offset_in_input_word, out))
  else
    let cur_num_tokens := GetCurrentOutputSize kGetPieces out in
    if negb (cur_num_tokens =? original_num_tokens) then
      (false, (cur_offset_in_input_word, out))
    else
      let precomputed :=
        precomputed_result_for_suffix_indicator (config_ this) in
      if (size precomputed =? 1)
         && (GetTokenId (nth 0 precomputed 0) =? unk_token_id (config_ this))
      then
        (true,
         (cur_offset_in_input_word,
          snd (ResetOutputAppendUnknownToken input_word_offset_in_text
                 (size input_word) original_num_tokens out)))
      else
        (true,
         fold_left
           (fun st encoded_token_value =>
              AppendTokenToOutput input_word input_word_offset_in_text
                (fst st) encoded_token_value (snd st))
           precomputed (cur_offset_in_input_word, out)).

(** The [while] loop of [HandleTheRemainingStringOnTriePath] with the two
    ways out of it.  Returns [original_num_tokens],
    [cur_offset_in_input_word], the cursor and the outputs. *)
Fixpoint collect_remaining_tokens (fuel : nat) (input_word : bytes)
  (input_word_offset_in_text original_num_tokens
   cur_offset_in_input_word cur_node : Z) (out : Outputs)
  : result (Z * Z * Z * Outputs) :=
  if negb (cur_node =? trie_suffix_root (config_ this))
     && negb (cur_node =? trie_punct_failure_link_node (config_ this))
  then
    match fuel with
    | O => Err OutOfFuel
    | S fuel' =>
        '(followed, (cur, node, out')) <-
          TryFollowFailureLinkAndCollectTokens input_word
            input_word_offset_in_text cur_offset_in_input_word cur_node out ;;
        if followed then
          collect_remaining_tokens fuel' input_word input_word_offset_in_text
            original_num_tokens cur node out'
        else
          let '(original, out'') :=
            ResetOutputAppendUnknownToken input_word_offset_in_text
              (size input_word) original_num_tokens out' in
          Ok (original, cur, node, out'')
    end
  else
    Ok (GetCurrentOutputSize kGetPieces out, cur_offset_in_input_word,
        cur_node, out).

Definition HandleTheRemainingStringOnTriePath (fuel : nat) (input_word : bytes)
  (input_word_offset_in_text cur_node original_num_tokens
   cur_offset_in_input_word : Z) (out : Outputs)
  : result (Z * Z * Z * Outputs) :=
  if cur_node =? kRootNodeId (trie_ this) then
    Ok (original_num_tokens, cur_offset_in_input_word, cur_node, out)
  else
    let '(handled, (cur, out')) :=
      TryHandleTheInputWordBeingSuffixIndicatorItself input_word
        input_word_offset_in_text cur_node cur_offset_in_input_word
        original_num_tokens out in
    if handled then
      Ok (GetCurrentOutputSize kGetPieces out', cur, cur_node, out')
    else
      collect_remaining_tokens fuel input_word input_word_offset_in_text
        original_num_tokens cur_offset_in_input_word cur_node out.

(** *** Single-word mode *)

(** The loop [for (auto ch : input_word)] over the bytes [rest] still to be
    read.  The boolean is [false] when a failure link could not be
    followed. *)
Fixpoint match_word (fuel : nat) (input_word : bytes)
  (input_word_offset_in_text : Z) (rest : bytes)
  (cur_offset_in_input_word cur_node : Z) (out : Outputs)
  : result (bool * (Z * Z * Outputs)) :=
  match rest with
  | [] => Ok (true, (cur_offset_in_input_word, cur_node, out))
  | ch :: rest' =>
      '(consumed, (cur, node, out')) <-
        follow_failure_links fuel
          (fun n => TryTraverseOneStep (trie_ this) n ch)
          input_word input_word_offset_in_text
          cur_offset_in_input_word cur_node out ;;
      if consumed then
        match_word fuel input_word input_word_offset_in_text rest' cur node out'
      else Ok (false, (cur, node, out'))
  end.

(** [max_bytes_per_token] is a positive number in every model, so the
    comparison of the source between a [size_t] and an [int] is the
    comparison of their values. *)
Definition TokenizeSingleWordImpl (fuel : nat) (input_word : bytes)
  (input_word_offset_in_text : Z) (out : Outputs) : result Outputs :=
  match input_word with
  | [] => Ok out
  | _ =>
      let input_size := size input_word in
      let original_num_tokens := GetCurrentOutputSize kGetPieces out in
      if size input_word >? max_bytes_per_token (config_ this) then
        Ok (snd (ResetOutputAppendUnknownToken input_word_offset_in_text
                   input_size original_num_tokens out))
      else
        '(matched, (cur, node, out')) <-
          match_word fuel input_word input_word_offset_in_text input_word
            0 (kRootNodeId (trie_ this)) out ;;
        if matched then
          '(_, _, _, out'') <-
            HandleTheRemainingStringOnTriePath fuel input_word
              input_word_offset_in_text node original_num_tokens cur out' ;;
          Ok out''
        else
          Ok (snd (ResetOutputAppendUnknownToken input_word_offset_in_text
                     input_size original_num_tokens out'))
  end.

(** *** End-to-end mode *)

(** Returns [end_of_word] and the updated [cur_pos]. *)
Fixpoint skip_loop (fuel : nat) (input : bytes) (cur_pos end_of_word : Z)
  : result (Z * Z) :=
  if cur_pos <? size input then
    match fuel with
    | O => Err OutOfFuel
    | S fuel' =>
        let '(next_pos, cur_unicode_char) :=
          U8_NEXT input cur_pos (size input) in
        if u_isUWhiteSpace cur_unicode_char then Ok (end_of_word, next_pos)
        else if IsPunctuationOrChineseChar cur_unicode_char then
          Ok (end_of_word, cur_pos)
        else skip_loop fuel' input next_pos next_pos
    end
  else Ok (end_of_word, cur_pos).

Definition SkipTheRemainingOfWordAndTrailingWhiteSpaces (fuel : nat)
  (input : bytes) (cur_pos : Z) : result (Z * Z) :=
  skip_loop fuel input cur_pos cur_pos.

(** The variables of [TokenizeTextImpl] that live across the iterations of
    its outer loop. *)
Record TextState : Type := {
  cur_pos : Z;
  next_pos : Z;
  prev_unicode_char : Z;
  cur_unicode_char : Z;
  original_num_tokens : Z;
  outputs : Outputs
}.

(** The variables at the label [outside_trie_match_loop]. *)
Record MatchExit : Type := {
  exit_pos : Z;
  exit_next_pos : Z;
  exit_prev_unicode_char : Z;
  exit_cur_unicode_char : Z;
  exit_node : Z;
  exit_offset_in_input_word : Z;
  exit_outputs : Outputs
}.

(** The inner loop [while (cur_pos < input_size)] of [TokenizeTextImpl]; it
    is left at the end of the input, by [break] on the length limit, or by
    [goto] when no failure link can be followed. *)
Fixpoint trie_match_loop (fuel : nat) (input_text input_substr : bytes)
  (input_word_offset_in_text : Z)
  (pos next prev cur_char word_byte_length_so_far
   cur_offset_in_input_word cur_node : Z) (out : Outputs)
  : result MatchExit :=
  if pos <? size input_text then
    match fuel with
    | O => Err OutOfFuel
    | S fuel' =>
        let prev' := cur_char in
        let '(next', cur_char') := U8_NEXT input_text pos (size input_text) in
        if word_byte_length_so_far + next' - pos
           >? max_bytes_per_token (config_ this)
        then
          Ok {| exit_pos := pos; exit_next_pos := next';
                exit_prev_unicode_char := prev';
                exit_cur_unicode_char := cur_char';
                exit_node := cur_node;
                exit_offset_in_input_word := cur_offset_in_input_word;
                exit_outputs := out |}
        else
          '(consumed, (cur, node, out')) <-
            follow_failure_links fuel'
              (fun n => TryTraverseSeveralSteps (trie_ this) n
                          (substr input_text pos (next' - pos)))
              input_substr input_word_offset_in_text
              cur_offset_in_input_word cur_node out ;;
          if consumed then
            trie_match_loop fuel' input_text input_substr
              input_word_offset_in_text next' next' prev' cur_char'
              (word_byte_length_so_far + (next' - pos)) cur node out'
          else
            Ok {| exit_pos := pos; exit_next_pos := next';
                  exit_prev_unicode_char := prev';
                  exit_cur_unicode_char := cur_char';
                  exit_node := node;
                  exit_offset_in_input_word := cur;
                  exit_outputs := out' |}
    end
  else
    Ok {| exit_pos := pos; exit_next_pos := next;
          exit_prev_unicode_char := prev;
          exit_cur_unicode_char := cur_char;
          exit_node := cur_node;
          exit_offset_in_input_word := cur_offset_in_input_word;
          exit_outputs := out |}.

(** The inner loop as the outer loop starts it for the word at [cur_pos]. *)
Definition match_next_word (fuel : nat) (input_text : bytes) (s : TextState)
  : result MatchExit :=
  trie_match_loop fuel input_text (skipn (Z.to_nat (cur_pos s)) input_text)
    (cur_pos s) (cur_pos s) (next_pos s) (prev_unicode_char s)
    (cur_unicode_char s) 0 0 (kRootNodeId (trie_ this)) (outputs s).

(** The test of [TokenizeTextImpl] for a word boundary at the character
    where the inner loop stopped. *)
Definition at_word_boundary (m : MatchExit) : bool :=
  u_isUWhiteSpace (exit_cur_unicode_char m)
  || IsPunctuationOrChineseChar (exit_cur_unicode_char m)
  || (negb (exit_pos m =? 0)
      && IsPunctuationOrChineseChar (exit_prev_unicode_char m)).

(** The branch taken at a word boundary: the word read so far is handed to
    [HandleTheRemainingStringOnTriePath], and a whitespace is skipped. *)
Definition flush_word_at_boundary (fuel : nat) (input_text : bytes)
  (s : TextState) (m : MatchExit) : result TextState :=
  '(original, _, _, out) <-
    HandleTheRemainingStringOnTriePath fuel
      (firstn (Z.to_nat (exit_pos m - cur_pos s))
         (skipn (Z.to_nat (cur_pos s)) input_text))
      (cur_pos s) (exit_node m) (original_num_tokens s)
      (exit_offset_in_input_word m) (exit_outputs m) ;;
  Ok {| cur_pos := if u_isUWhiteSpace (exit_cur_unicode_char m)
                   then exit_next_pos m else exit_pos m;
        next_pos := exit_next_pos m;
        prev_unicode_char := exit_prev_unicode_char m;
        cur_unicode_char := exit_cur_unicode_char m;
        original_num_tokens := original;
        outputs := out |}.

(** The branch taken in the middle of a word: the rest of the word is
    skipped and the whole word becomes the unknown token. *)
Definition map_word_to_unknown (fuel : nat) (input_text : bytes)
  (s : TextState) (m : MatchExit) : result TextState :=
  '(end_of_word, pos) <-
    SkipTheRemainingOfWordAndTrailingWhiteSpaces fuel input_text
      (exit_next_pos m) ;;
  let '(original, out) :=
    ResetOutputAppendUnknownToken (cur_pos s) (end_of_word - cur_pos s)
      (original_num_tokens s) (exit_outputs m) in
  Ok {| cur_pos := pos;
        next_pos := exit_next_pos m;
        prev_unicode_char := exit_prev_unicode_char m;
        cur_unicode_char := exit_cur_unicode_char m;
        original_num_tokens := original;
        outputs := out |}.

(** One iteration of the outer loop: [inl] is the state for the next
    iteration, [inr] the outputs when the loop is left by [break]. *)
Definition tokenize_next_word (fuel : nat) (input_text : bytes)
  (s : TextState) : result (TextState + Outputs) :=
  m <- match_next_word fuel input_text s ;;
  if exit_pos m >=? size input_text then
    '(_, _, _, out) <-
      HandleTheRemainingStringOnTriePath fuel
        (skipn (Z.to_nat (cur_pos s)) input_text) (cur_pos s) (exit_node m)
        (original_num_tokens s) (exit_offset_in_input_word m)
        (exit_outputs m) ;;
    Ok (inr out)
  else if at_word_boundary m then
    s' <- flush_word_at_boundary fuel input_text s m ;;
    Ok (inl s')
  else
    s' <- map_word_to_unknown fuel input_text s m ;;
    Ok (inl s').

(** The outer loop [while (cur_pos < input_size)]. *)
Fixpoint tokenize_words (fuel : nat) (input_text : bytes) (s : TextState)
  : result Outputs :=
  if cur_pos s <? size input_text then
    match fuel with
    | O => Err OutOfFuel
    | S fuel' =>
        r <- tokenize_next_word fuel' input_text s ;;
        match r with
        | inl s' => tokenize_words fuel' input_text s'
        | inr out => Ok out
        end
    end
  else Ok (outputs s).

(** The state in which [TokenizeTextImpl] enters its outer loop.
    [prev_unicode_char] has no initial value in the source and is written
    before it is read; it starts at 0 here. *)
Definition initial_text_state (out : Outputs) : TextState :=
  {| cur_pos := 0;
     next_pos := 0;
     prev_unicode_char := 0;
     cur_unicode_char := 0;
     original_num_tokens := GetCurrentOutputSize kGetPieces out;
     outputs := out |}.

Definition TokenizeTextImpl (fuel : nat) (input_text : bytes)
  (out : Outputs) : result Outputs :=
  match input_text with
  | [] => Ok out
  | _ => tokenize_words fuel input_text (initial_text_state out)
  end.

End Tokenizer.

(** *** The three overloads of [Tokenize] *)

Section Tokenize.

Context {utils : Utils} {icu : ICU}.
Variable this : FastWordpieceTokenizer.

(** Pieces, ids and offsets. *)
Definition Tokenize (fuel : nat) (input : bytes)
  (input_word_offset_in_text : Z) (out : Outputs) : result Outputs :=
  if end_to_end (config_ this) then
    TokenizeTextImpl this true true true fuel input out
  else
    TokenizeSingleWordImpl this true true true fuel input
      input_word_offset_in_text out.

(** Ids and offsets. *)
Definition Tokenize_ids_offsets (fuel : nat) (input : bytes)
  (input_word_offset_in_text : Z) (out : Outputs) : result Outputs :=
  if end_to_end (config_ this) then
    TokenizeTextImpl this false true true fuel input out
  else
    TokenizeSingleWordImpl this false true true fuel input
      input_word_offset_in_text out.

(** Ids only. *)
Definition Tokenize_ids (fuel : nat) (input : bytes)
  (input_word_offset_in_text : Z) (out : Outputs) : result Outputs :=
  if end_to_end (config_ this) then
    TokenizeTextImpl this false true false fuel input out
  else
    TokenizeSingleWordImpl this false true false fuel input
      input_word_offset_in_text out.

End Tokenize.

(** ** The detokenizer *)

Definition is_empty {A : Type} (l : list A) : bool :=
  match l with
  | [] => true
  | _ => false
  end.

(** The loop [for (int id : input)] of [DetokenizeToTokens] and the flush
    after it. *)
Fixpoint detokenize_ids (config : FastWordpieceTokenizerConfig)
  (input : list Z) (subwords output_tokens : list bytes)
  : result (list bytes) :=
  match input with
  | [] =>
      if negb (is_empty subwords)
      then Ok (push_back output_tokens (StrJoin subwords []))
      else Ok output_tokens
  | id :: rest =>
      vocab <- Get (vocab_array config) id ;;
      is_suffix <- Get (vocab_is_suffix_array config) id ;;
      let '(subwords, output_tokens) :=
        if negb (is_empty subwords) && negb is_suffix
        then ([], push_back output_tokens (StrJoin subwords []))
        else (subwords, output_tokens) in
      let subwords :=
        if is_empty subwords && is_suffix
        then push_back subwords (suffix_indicator config)
        else subwords in
      detokenize_ids config rest (push_back subwords vocab) output_tokens
  end.

Definition DetokenizeToTokens (this : FastWordpieceTokenizer)
  (input : list Z) : result (list bytes) :=
  if negb (support_detokenization (config_ this)) then
    Err FailedPreconditionError
  else detokenize_ids (config_ this) input [] [].

Definition Detokenize (this : FastWordpieceTokenizer) (input : list Z)
  : result bytes :=
  output_tokens <- DetokenizeToTokens this input ;;
  Ok (StrJoin output_tokens (bytes_of " ")).

(** ** A concrete model

    The vocabulary [a, abcd, ##b, ##bc, ##z, [UNK]] with the suffix
    indicator [##]: the trie and the failure table drawn in the comments of
    [TokenizeSingleWordImpl].  In end-to-end mode the trie has one more
    node, for the punctuation character [!], whose failure link leads to
    [trie_punct_failure_link_node]. *)

(** An instance of the helper interface: the token id above the suffix bit,
    above eight bits for the length minus one; a failure-pops reference has
    the offset above eight bits for the length minus one. *)
Definition EncodeToken (token_id token_length : Z) (is_suffix_token : bool)
  : Z :=
  Z.lor (Z.shiftl token_id 9)
    (Z.lor (Z.shiftl (Z.b2z is_suffix_token) 8) (token_length - 1)).

Definition EncodeFailurePopList (offset length : Z) : Z :=
  Z.lor (Z.shiftl offset 8) (length - 1).

Definition in_range (lo hi c : Z) : bool := (lo <=? c) && (c <=? hi).

(** ASCII punctuation and the CJK ranges. *)
Definition example_IsPunctuationOrChineseChar (c : Z) : bool :=
  in_range 33 47 c || in_range 58 64 c || in_range 91 96 c
  || in_range 123 126 c
  || in_range 19968 40959 c || in_range 13312 19903 c
  || in_range 131072 173791 c || in_range 173824 177983 c
  || in_range 177984 178207 c || in_range 178208 183983 c
  || in_range 63744 64255 c || in_range 194560 195103 c.

Definition example_utils : Utils :=
  {| kNullNode := 4294967295;
     GetTokenId := fun e => Z.shiftr e 9;
     GetTokenLength := fun e => Z.land e 255 + 1;
     IsSuffixToken := fun e => Z.testbit e 8;
     GetFailurePopsOffsetAndLength :=
       fun x => (Z.shiftr x 8, Z.land x 255 + 1);
     IsPunctuationOrChineseChar := example_IsPunctuationOrChineseChar |}.

(** The decoder on 7-bit text, where every code point is one byte, and the
    code points with the White_Space property. *)
Definition example_icu : ICU :=
  {| U8_NEXT := fun s i _ =>
       (i + 1, Z.of_nat (nat_of_ascii (nth (Z.to_nat i) s zero)));
     u_isUWhiteSpace := fun c =>
       in_range 9 13 c || (c =? 32) || (c =? 133) || (c =? 160)
       || (c =? 5760) || in_range 8192 8202 c || in_range 8232 8233 c
       || (c =? 8239) || (c =? 8287) || (c =? 12288) |}.

Definition lookup_edge (edges : list (Z * ascii * Z)) (node : Z) (ch : ascii)
  : option Z :=
  match find (fun e => (fst (fst e) =? node) && Ascii.eqb (snd (fst e)) ch)
          edges with
  | Some e => Some (snd e)
  | None => None
  end.

Definition lookup_data (data : list (Z * Z)) (node : Z) : option Z :=
  match find (fun d => fst d =? node) data with
  | Some d => Some (snd d)
  | None => None
  end.

Definition trie_of (edges : list (Z * ascii * Z)) (data : list (Z * Z))
  : DartsCloneTrieWrapper :=
  {| kRootNodeId := 0;
     TryTraverseOneStep := lookup_edge edges;
     TryGetData := lookup_data data |}.

Definition example_edges (e2e : bool) : list (Z * ascii * Z) :=
  [ (0, "#"%char, 1); (1, "#"%char, 2);
    (0, "a"%char, 3); (3, "b"%char, 4); (4, "c"%char, 5); (5, "d"%char, 6);
    (2, "b"%char, 7); (7, "c"%char, 8); (2, "z"%char, 9) ]
  ++ (if e2e then [ (0, "!"%char, 10) ] else []).

Definition example_data (e2e : bool) : list (Z * Z) :=
  [ (3, EncodeToken 0 1 false); (6, EncodeToken 1 4 false);
    (7, EncodeToken 2 1 true); (8, EncodeToken 3 2 true);
    (9, EncodeToken 4 1 true) ]
  ++ (if e2e then [ (10, EncodeToken 5 1 false) ] else []).

Definition link (node : Z) : FailureStruct :=
  {| failure_link := node; failure_pops_offset_length := 0 |}.

Definition example_config (e2e : bool) : FastWordpieceTokenizerConfig :=
  {| failure_struct_array :=
       [ link 4294967295; link 4294967295; link 4294967295;
         link 2;
         {| failure_link := 7;
            failure_pops_offset_length := EncodeFailurePopList 0 1 |};
         {| failure_link := 8;
            failure_pops_offset_length := EncodeFailurePopList 0 1 |};
         link 2; link 2; link 2; link 2;
         link 11; link 4294967295 ];
     failure_pops_pool := [ EncodeToken 0 1 false ];
     vocab_array :=
       [ bytes_of "a"; bytes_of "abcd"; bytes_of "b"; bytes_of "bc";
         bytes_of "z"; bytes_of "[UNK]" ];
     vocab_is_suffix_array := [ false; false; true; true; true; false ];
     max_bytes_per_token := 100;
     suffix_indicator := bytes_of "##";
     unk_token := bytes_of "[UNK]";
     unk_token_id := 5;
     end_to_end := e2e;
     support_detokenization := true;
     precomputed_result_for_suffix_indicator := [ EncodeToken 5 2 false ];
     trie_suffix_root := 2;
     trie_punct_failure_link_node := if e2e then 11 else 4294967295 |}.

Definition example_tokenizer (e2e : bool) : FastWordpieceTokenizer :=
  {| config_ := example_config e2e;
     trie_ := trie_of (example_edges e2e) (example_data e2e) |}.

(** A second model, with an empty suffix indicator: the vocabulary
    [a, [UNK]] in end-to-end mode.  The node reached from the root by the
    empty suffix indicator is the root, so [trie_suffix_root] is the root
    and the failure link of the node of [a] leads to it. *)
Definition bare_config : FastWordpieceTokenizerConfig :=
  {| failure_struct_array := [ link 4294967295; link 0; link 4294967295 ];
     failure_pops_pool := [];
     vocab_array := [ bytes_of "a"; bytes_of "[UNK]" ];
     vocab_is_suffix_array := [ false; false ];
     max_bytes_per_token := 100;
     suffix_indicator := [];
     unk_token := bytes_of "[UNK]";
     unk_token_id := 1;
     end_to_end := true;
     support_detokenization := true;
     precomputed_result_for_suffix_indicator := [ EncodeToken 1 1 false ];
     trie_suffix_root := 0;
     trie_punct_failure_link_node := 2 |}.

Definition bare_tokenizer : FastWordpieceTokenizer :=
  {| config_ := bare_config;
     trie_ := trie_of [ (0, "a"%char, 1) ] [ (1, EncodeToken 0 1 false) ] |}.

Definition no_outputs : Outputs :=
  {| output_pieces := []; output_ids := [];
     output_start_offsets := []; output_end_offsets := [] |}.

(** A third model, in single-word mode: the vocabulary of the first with
    the two tokens [#] and [###] in addition, which spell the suffix
    indicator, so that the precomputed result for the suffix indicator is
    these two tokens.  The node 1 of [#] holds the first token and the new
    node 12 of [###], below [trie_suffix_root], holds the second. *)
Definition hash_config : FastWordpieceTokenizerConfig :=
  {| failure_struct_array :=
       [ link 4294967295; link 2; link 4294967295;
         link 2;
         {| failure_link := 7;
            failure_pops_offset_length := EncodeFailurePopList 0 1 |};
         {| failure_link := 8;
            failure_pops_offset_length := EncodeFailurePopList 0 1 |};
         link 2; link 2; link 2; link 2;
         link 11; link 4294967295; link 2 ];
     failure_pops_pool := [ EncodeToken 0 1 false ];
     vocab_array :=
       [ bytes_of "a"; bytes_of "abcd"; bytes_of "b"; bytes_of "bc";
         bytes_of "z"; bytes_of "[UNK]"; bytes_of "#"; bytes_of "#" ];
     vocab_is_suffix_array :=
       [ false; false; true; true; true; false; false; true ];
     max_bytes_per_token := 100;
     suffix_indicator := bytes_of "##";
     unk_token := bytes_of "[UNK]";
     unk_token_id := 5;
     end_to_end := false;
     support_detokenization := true;
     precomputed_result_for_suffix_indicator :=
       [ EncodeToken 6 1 false; EncodeToken 7 1 true ];
     trie_suffix_root := 2;
     trie_punct_failure_link_node := 4294967295 |}.

Definition hash_tokenizer : FastWordpieceTokenizer :=
  {| config_ := hash_config;
     trie_ :=
       trie_of (example_edges false ++ [ (2, "#"%char, 12) ])
         (example_data false
          ++ [ (1, EncodeToken 6 1 false); (12, EncodeToken 7 1 true) ]) |}.

(** A fourth model: the first in end-to-end mode, with a length limit of
    four bytes. *)
Definition short_config : FastWordpieceTokenizerConfig :=
  {| failure_struct_array := failure_struct_array (example_config true);
     failure_pops_pool := failure_pops_pool (example_config true);
     vocab_array := vocab_array (example_config true);
     vocab_is_suffix_array := vocab_is_suffix_array (example_config true);
     max_bytes_per_token := 4;
     suffix_indicator := suffix_indicator (example_config true);
     unk_token := unk_token (example_config true);
     unk_token_id := unk_token_id (example_config true);
     end_to_end := true;
     support_detokenization := true;
     precomputed_result_for_suffix_indicator :=
       precomputed_result_for_suffix_indicator (example_config true);
     trie_suffix_root := trie_suffix_root (example_config true);
     trie_punct_failure_link_node :=
       trie_punct_failure_link_node (example_config true) |}.

Definition short_tokenizer : FastWordpieceTokenizer :=
  {| config_ := short_config; trie_ := trie_ (example_tokenizer true) |}.

(** The state of the outer loop of [TokenizeTextImpl] on the text [a b] of
    the second model after its first iteration: the token of the word [a]
    is in the outputs. *)
Definition bare_after_first_word : TextState :=
  {| cur_pos := 2; next_pos := 2;
     prev_unicode_char := 97; cur_unicode_char := 32;
     original_num_tokens := 0;
     outputs :=
       {| output_pieces := [bytes_of "a"]; output_ids := [0];
          output_start_offsets := [0]; output_end_offsets := [1] |} |}.

(** The state of the outer loop of [TokenizeTextImpl] on the text [!b] of
    the end-to-end model after its first iteration, and the exit of the
    inner loop in the second iteration. *)
Definition after_punctuation : TextState :=
  {| cur_pos := 1; next_pos := 2;
     prev_unicode_char := 33; cur_unicode_char := 98;
     original_num_tokens := 1;
     outputs :=
       {| output_pieces := [bytes_of "[UNK]"]; output_ids := [5];
          output_start_offsets := [0]; output_end_offsets := [1] |} |}.

Definition stop_after_punctuation : MatchExit :=
  {| exit_pos := 1; exit_next_pos := 2;
     exit_prev_unicode_char := 98; exit_cur_unicode_char := 98;
     exit_node := 0; exit_offset_in_input_word := 0;
     exit_outputs := outputs after_punctuation |}.


(** ** The rule of the detokenizer, as the specification words it

    The rule works on the vocabulary entries and suffix flags of the ids:
    it keeps a list of pending subwords and the list of completed words. *)

Record DetokState : Type := {
  pending : list bytes;
  words : list bytes
}.

(** A non-suffix token with a non-empty pending list completes a word; a
    suffix token with an empty pending list first pushes the suffix
    indicator; then the vocabulary entry is appended to the pending list. *)
Definition spec_detokenize_rule (indicator : bytes) (st : DetokState)
  (token : bytes * bool) : DetokState :=
  let st1 :=
    match pending st, snd token with
    | _ :: _, false =>
        {| pending := []; words := words st ++ [concat (pending st)] |}
    | _, _ => st
    end in
  let st2 :=
    match pending st1, snd token with
    | [], true => {| pending := [indicator]; words := words st1 |}
    | _, _ => st1
    end in
  {| pending := pending st2 ++ [fst token]; words := words st2 |}.

Definition spec_detokenize_flush (st : DetokState) : list bytes :=
  match pending st with
  | [] => words st
  | _ :: _ => words st ++ [concat (pending st)]
  end.

Definition spec_detokenize_to_tokens (indicator : bytes)
  (tokens : list (bytes * bool)) : list bytes :=
  spec_detokenize_flush
    (fold_left (spec_detokenize_rule indicator) tokens
       {| pending := []; words := [] |}).

(** The words with one space between neighbours. *)
Definition spec_join_with_space (ws : list bytes) : bytes :=
  match ws with
  | [] => []
  | w :: rest => w ++ flat_map (fun x => bytes_of " " ++ x) rest
  end.

(** The vocabulary entry and the suffix flag of every id. *)
Fixpoint lookup_tokens (config : FastWordpieceTokenizerConfig)
  (input : list Z) : result (list (bytes * bool)) :=
  match input with
  | [] => Ok []
  | id :: rest =>
      vocab <- Get (vocab_array config) id ;;
      is_suffix <- Get (vocab_is_suffix_array config) id ;;
      tokens <- lookup_tokens config rest ;;
      Ok ((vocab, is_suffix) :: tokens)
  end.

(** ** Vocabulary of the statements *)

(** The containers in use hold [n] tokens each. *)
Definition in_sync (kGetPieces kGetIds kGetOffsets : bool) (n : nat)
  (out : Outputs) : Prop :=
  (kGetPieces = true -> length (output_pieces out) = n)
  /\ (kGetIds = true -> length (output_ids out) = n)
  /\ (kGetOffsets = true ->
      length (output_start_offsets out) = n
      /\ length (output_end_offsets out) = n).

(** One unknown token over the bytes [[first, last)] of the text, appended
    to the containers in use. *)
Definition append_unknown_token (this : FastWordpieceTokenizer)
  (kGetPieces kGetIds kGetOffsets : bool) (first last : Z) (out : Outputs)
  : Outputs :=
  {| output_pieces :=
       if kGetPieces then output_pieces out ++ [unk_token (config_ this)]
       else output_pieces out;
     output_ids :=
       if kGetIds then output_ids out ++ [unk_token_id (config_ this)]
       else output_ids out;
     output_start_offsets :=
       if kGetOffsets then output_start_offsets out ++ [first]
       else output_start_offsets out;
     output_end_offsets :=
       if kGetOffsets then output_end_offsets out ++ [last]
       else output_end_offsets out |}.

(** The tokens appended one after the other by [AppendTokenToOutput]. *)
Definition append_tokens {utils : Utils} (this : FastWordpieceTokenizer)
  (kGetPieces kGetIds kGetOffsets : bool) (input_word : bytes)
  (input_word_offset_in_text : Z) (tokens : list Z)
  (cur_offset_in_input_word : Z) (out : Outputs) : Z * Outputs :=
  fold_left
    (fun st encoded_token_value =>
       AppendTokenToOutput this kGetPieces kGetIds kGetOffsets input_word
         input_word_offset_in_text (fst st) encoded_token_value (snd st))
    tokens (cur_offset_in_input_word, out).

(** The byte length of the surface of the encoded token [e] recorded at the
    offset [cur] of the word: the length that the token holds, and the
    length of the suffix indicator in addition when a suffix token starts
    the word. *)
Definition surface_length {utils : Utils} (this : FastWordpieceTokenizer)
  (cur e : Z) : Z :=
  GetTokenLength e
  + (if (cur =? 0) && IsSuffixToken e
     then size (suffix_indicator (config_ this)) else 0).

(** The piece of the token: the unknown token, or the bytes of the word
    under the token; after the suffix indicator unless the token starts
    the word. *)
Definition surface_piece {utils : Utils} (this : FastWordpieceTokenizer)
  (input_word : bytes) (cur e : Z) : bytes :=
  (if cur =? 0 then [] else suffix_indicator (config_ this))
  ++ (if GetTokenId e =? unk_token_id (config_ this)
      then unk_token (config_ this)
      else substr input_word cur (surface_length this cur e)).

(** The outputs with the token [e] of the word at [woff] recorded in the
    containers in use: its piece, its id, and the offsets of its surface in
    the text. *)
Definition with_token {utils : Utils} (this : FastWordpieceTokenizer)
  (kGetPieces kGetIds kGetOffsets : bool) (input_word : bytes)
  (woff cur e : Z) (out : Outputs) : Outputs :=
  {| output_pieces :=
       if kGetPieces
       then output_pieces out ++ [surface_piece this input_word cur e]
       else output_pieces out;
     output_ids :=
       if kGetIds then output_ids out ++ [GetTokenId e] else output_ids out;
     output_start_offsets :=
       if kGetOffsets then output_start_offsets out ++ [woff + cur]
       else output_start_offsets out;
     output_end_offsets :=
       if kGetOffsets
       then output_end_offsets out ++ [woff + cur + surface_length this cur e]
       else output_end_offsets out |}.

(** The offset in the word after the token; it moves when pieces or offsets
    are asked for. *)
Definition offset_after {utils : Utils} (this : FastWordpieceTokenizer)
  (kGetPieces kGetOffsets : bool) (cur e : Z) : Z :=
  if kGetPieces || kGetOffsets then cur + surface_length this cur e else cur.

(** The outputs with the tokens recorded one after the other from the
    offset [cur] of the word. *)
Fixpoint with_tokens {utils : Utils} (this : FastWordpieceTokenizer)
  (kGetPieces kGetIds kGetOffsets : bool) (input_word : bytes) (woff : Z)
  (tokens : list Z) (cur : Z) (out : Outputs) : Z * Outputs :=
  match tokens with
  | [] => (cur, out)
  | e :: rest =>
      with_tokens this kGetPieces kGetIds kGetOffsets input_word woff rest
        (offset_after this kGetPieces kGetOffsets cur e)
        (with_token this kGetPieces kGetIds kGetOffsets input_word woff cur e
           out)
  end.





(** The offsets that were appended after the first [n], moved by [w]. *)
Definition shift_from (n : nat) (w : Z) (l : list Z) : list Z :=
  firstn n l ++ map (Z.add w) (skipn n l).

Definition shift_offsets (n : nat) (w : Z) (out : Outputs) : Outputs :=
  with_offsets out (shift_from n w (output_start_offsets out))
    (shift_from n w (output_end_offsets out)).





(** Both offset containers hold at least [n] entries. *)
Definition grown (n : nat) (out : Outputs) : Prop :=
  (n <= length (output_start_offsets out))%nat
  /\ (n <= length (output_end_offsets out))%nat.


(** The word-boundary rule of the specification, on the code point [cp]
    where the inner loop stopped and the code point [prev] before it. *)
Definition spec_word_boundary {utils : Utils} {icu : ICU} (cp prev : Z)
  : bool :=
  u_isUWhiteSpace cp
  || IsPunctuationOrChineseChar cp
  || (negb (prev =? 0) && IsPunctuationOrChineseChar prev).

(** The states in which the outer loop of [TokenizeTextImpl] begins an
    iteration on [input_text], when called with the outputs [out]. *)
Inductive visited {utils : Utils} {icu : ICU} (this : FastWordpieceTokenizer)
  (kGetPieces kGetIds kGetOffsets : bool) (input_text : bytes) (out : Outputs)
  : TextState -> Prop :=
| visited_first :
    visited this kGetPieces kGetIds kGetOffsets input_text out
      (initial_text_state kGetPieces out)
| visited_next : forall fuel s s',
    visited this kGetPieces kGetIds kGetOffsets input_text out s ->
    cur_pos s < size input_text ->
    tokenize_next_word this kGetPieces kGetIds kGetOffsets fuel input_text s
    = Ok (inl s') ->
    visited this kGetPieces kGetIds kGetOffsets input_text out s'.

(** What holds of the states of the outer loop: at position 0 the last
    code point read is 0, or the code point at 0 is a punctuation or CJK
    character at which the loop stopped before. *)
Definition boundary_invariant {utils : Utils} {icu : ICU} (input_text : bytes)
  (s : TextState) : Prop :=
  0 <= cur_pos s
  /\ (cur_pos s = 0 ->
      cur_unicode_char s = 0
      \/ IsPunctuationOrChineseChar
           (snd (U8_NEXT input_text 0 (size input_text))) = true).

(** ** Models that agree with their vocabulary

    The round trip through the detokenizer needs what the model builder
    guarantees about a model.  The guarantee is stated with the help of
    [labels], which give for every node of the trie the string that leads
    to it from the root; the check below is executable. *)

Fixpoint bytes_eqb (a b : bytes) : bool :=
  match a, b with
  | [], [] => true
  | x :: a', y :: b' => Ascii.eqb x y && bytes_eqb a' b'
  | _, _ => false
  end.

Fixpoint has_prefix (prefix s : bytes) : bool :=
  match prefix, s with
  | [], _ => true
  | x :: prefix', y :: s' => Ascii.eqb x y && has_prefix prefix' s'
  | _ :: _, [] => false
  end.

Definition all_bytes : list ascii := map ascii_of_nat (seq 0 256).

Definition label_of (labels : list (Z * bytes)) (node : Z) : option bytes :=
  match find (fun l => fst l =? node) labels with
  | Some l => Some (snd l)
  | None => None
  end.

(** The vocabulary entries and suffix flags of encoded tokens. *)
Definition tokens_of {utils : Utils} (config : FastWordpieceTokenizerConfig)
  (tokens : list Z) : option (list (bytes * bool)) :=
  match lookup_tokens config (map GetTokenId tokens) with
  | Ok entries => Some entries
  | Err _ => None
  end.

(** The word that entries spell when all but the first are suffixes: the
    suffix indicator is written out before a first entry that is a
    suffix. *)
Definition one_word (indicator : bytes) (entries : list (bytes * bool))
  : option bytes :=
  match entries with
  | [] => None
  | (vocab, is_suffix) :: rest =>
      if forallb snd rest
      then Some ((if is_suffix then indicator else [])
                 ++ vocab ++ concat (map fst rest))
      else None
  end.

Definition word_of_tokens {utils : Utils}
  (config : FastWordpieceTokenizerConfig) (tokens : list Z) : option bytes :=
  match tokens_of config tokens with
  | Some entries => one_word (suffix_indicator config) entries
  | None => None
  end.

Definition starts_with_suffix (entries : list (bytes * bool)) : bool :=
  match entries with
  | (_, is_suffix) :: _ => is_suffix
  | [] => false
  end.

(** The number of bytes of a node's string that no token covers yet: the
    suffix indicator at its start stands for the tokens emitted before. *)
Definition unmatched_length (indicator s : bytes) : nat :=
  if has_prefix indicator s then length s - length indicator else length s.

Definition unmatched_at (config : FastWordpieceTokenizerConfig)
  (labels : list (Z * bytes)) (node : Z) : nat :=
  match label_of labels node with
  | Some s => unmatched_length (suffix_indicator config) s
  | None => 0
  end.

(** The failure pops [pops] and the failure link [link] of a node with the
    string [s]: the pops spell a non-empty prefix of [s], and the link leads
    to the node of the suffix indicator followed by the rest of [s]. *)
Definition check_pops {utils : Utils} (config : FastWordpieceTokenizerConfig)
  (labels : list (Z * bytes)) (s : bytes) (pops : list Z) (link : Z) : bool :=
  match label_of labels link, tokens_of config pops with
  | Some su, Some entries =>
      match one_word (suffix_indicator config) entries with
      | Some popped =>
          has_prefix (suffix_indicator config) su
          && bytes_eqb s
               (popped ++ skipn (length (suffix_indicator config)) su)
          && (length su - length (suffix_indicator config)
              <? unmatched_length (suffix_indicator config) s)%nat
          && (negb (has_prefix (suffix_indicator config) s)
              || starts_with_suffix entries)
      | None => false
      end
  | _, _ => false
  end.

(** A node: its edges lead to the nodes of the longer strings, its failure
    struct can be read, and its failure pops and link are as above. *)
Definition check_node {utils : Utils} (this : FastWordpieceTokenizer)
  (labels : list (Z * bytes)) (l : Z * bytes) : bool :=
  forallb
    (fun ch =>
       match TryTraverseOneStep (trie_ this) (fst l) ch with
       | None => true
       | Some next =>
           match label_of labels next with
           | Some s' => bytes_eqb s' (snd l ++ [ch])
           | None => false
           end
       end) all_bytes
  && match Get (failure_struct_array (config_ this)) (fst l) with
     | Err _ => false
     | Ok node_aux =>
         match TryGetData (trie_ this) (fst l) with
         | Some data =>
             check_pops (config_ this) labels (snd l) [data]
               (failure_link node_aux)
         | None =>
             (failure_link node_aux =? kNullNode)
             || (let '(offset, length) :=
                   GetFailurePopsOffsetAndLength
                     (failure_pops_offset_length node_aux) in
                 (0 <=? offset)
                 && (offset + length
                     <=? size (failure_pops_pool (config_ this)))
                 && check_pops (config_ this) labels (snd l)
                      (substr (failure_pops_pool (config_ this)) offset length)
                      (failure_link node_aux))
         end
     end.

(** The precomputed result is the unknown token or spells the suffix
    indicator. *)
Definition check_precomputed {utils : Utils}
  (config : FastWordpieceTokenizerConfig) : bool :=
  let precomputed := precomputed_result_for_suffix_indicator config in
  ((size precomputed =? 1)
   && (GetTokenId (nth 0 precomputed 0) =? unk_token_id config))
  || match word_of_tokens config precomputed with
     | Some word => bytes_eqb word (suffix_indicator config)
     | None => false
     end.

Definition consistent_model {utils : Utils} (this : FastWordpieceTokenizer)
  (labels : list (Z * bytes)) : bool :=
  match label_of labels (kRootNodeId (trie_ this)) with
  | Some s => bytes_eqb s []
  | None => false
  end
  && match label_of labels (trie_suffix_root (config_ this)) with
     | Some s => bytes_eqb s (suffix_indicator (config_ this))
     | None => false
     end
  && match label_of labels (trie_punct_failure_link_node (config_ this)) with
     | Some _ => false
     | None => true
     end
  && forallb (check_node this labels) labels
  && check_precomputed (config_ this).

(** The labels of the concrete model in single-word mode. *)
Definition example_labels : list (Z * bytes) :=
  [ (0, bytes_of ""); (1, bytes_of "#"); (2, bytes_of "##");
    (3, bytes_of "a"); (4, bytes_of "ab"); (5, bytes_of "abc");
    (6, bytes_of "abcd"); (7, bytes_of "##b"); (8, bytes_of "##bc");
    (9, bytes_of "##z") ].

(** The tokenizer has read the bytes [p] of a word, has emitted the encoded
    tokens [emitted_tokens] and stands at [node]: either nothing is emitted
    and [p] is the string of the node, or the emitted tokens spell a word
    that, with the string of the node after the suffix indicator, is [p]. *)
Definition tracks {utils : Utils} (config : FastWordpieceTokenizerConfig)
  (labels : list (Z * bytes)) (emitted_tokens : list Z) (node : Z) (p : bytes)
  : Prop :=
  (emitted_tokens = [] /\ label_of labels node = Some p)
  \/ (exists spelled s,
        word_of_tokens config emitted_tokens = Some spelled
        /\ label_of labels node = Some s
        /\ has_prefix (suffix_indicator config) s = true
        /\ p = spelled ++ skipn (length (suffix_indicator config)) s).

(** The outputs [out] are the outputs [out0] with the ids of
    [emitted_tokens] appended. *)
Definition emitted {utils : Utils} (kGetPieces : bool) (out0 out : Outputs)
  (emitted_tokens : list Z) : Prop :=
  output_ids out = output_ids out0 ++ map GetTokenId emitted_tokens
  /\ GetCurrentOutputSize kGetPieces out
     = GetCurrentOutputSize kGetPieces out0 + size emitted_tokens.

(** The ids of [out] are those of some extension of [out0], reset to the
    size of [out0] and the unknown token. *)
Definition was_reset {utils : Utils} (this : FastWordpieceTokenizer)
  (kGetPieces : bool) (out0 out : Outputs) : Prop :=
  exists out' emitted_tokens,
    emitted kGetPieces out0 out' emitted_tokens
    /\ output_ids out
       = set_back (unk_token_id (config_ this))
           (resize 0 (GetCurrentOutputSize kGetPieces out0 + 1)
              (output_ids out')).

(** The container [l'] is [l] with entries appended, and is [l] itself when
    the container is not in use. *)
Definition grows {A : Type} (in_use : bool) (l l' : list A) : Prop :=
  exists appended, l' = l ++ appended /\ (in_use = false -> appended = []).

Definition extends (kGetPieces kGetIds kGetOffsets : bool)
  (out out' : Outputs) : Prop :=
  grows kGetPieces (output_pieces out) (output_pieces out')
  /\ grows kGetIds (output_ids out) (output_ids out')
  /\ grows kGetOffsets (output_start_offsets out) (output_start_offsets out')
  /\ grows kGetOffsets (output_end_offsets out) (output_end_offsets out').

(** ** Vocabulary of the further properties *)

(** The containers in use hold the same number of tokens. *)
Definition aligned (kGetPieces kGetIds kGetOffsets : bool) (out : Outputs)
  : Prop :=
  exists n, in_sync kGetPieces kGetIds kGetOffsets n out.

(** The first [k] tokens of every container in use. *)
Definition first_tokens (kGetPieces kGetIds kGetOffsets : bool) (k : nat)
  (out : Outputs) : Outputs :=
  {| output_pieces :=
       if kGetPieces then firstn k (output_pieces out) else output_pieces out;
     output_ids :=
       if kGetIds then firstn k (output_ids out) else output_ids out;
     output_start_offsets :=
       if kGetOffsets then firstn k (output_start_offsets out)
       else output_start_offsets out;
     output_end_offsets :=
       if kGetOffsets then firstn k (output_end_offsets out)
       else output_end_offsets out |}.

(** The code point that the decoder reads at position [i] of [input], and
    the position after it. *)
Definition code_point_at {icu : ICU} (input : bytes) (i : Z) : Z :=
  snd (U8_NEXT input i (size input)).

Definition position_after {icu : ICU} (input : bytes) (i : Z) : Z :=
  fst (U8_NEXT input i (size input)).

(** The code points decoded from position [i] up to position [j] are
    neither whitespace nor punctuation or CJK characters. *)
Inductive word_characters {utils : Utils} {icu : ICU} (input : bytes)
  : Z -> Z -> Prop :=
| word_characters_none : forall i, word_characters input i i
| word_characters_next : forall i j,
    i < size input ->
    u_isUWhiteSpace (code_point_at input i) = false ->
    IsPunctuationOrChineseChar (code_point_at input i) = false ->
    word_characters input (position_after input i) j ->
    word_characters input i j.

(** The id is an index of the vocabulary and of its suffix flags. *)
Definition known_id (config : FastWordpieceTokenizerConfig) (id : Z) : bool :=
  (0 <=? id) && (id <? size (vocab_array config))
  && (id <? size (vocab_is_suffix_array config)).

(** The number of words that entries spell: one for every entry that is no
    suffix, and one for a suffix at the very start. *)
Definition count_words (entries : list (bytes * bool)) : nat :=
  (length (filter (fun entry => negb (snd entry)) entries)
   + if starts_with_suffix entries then 1 else 0)%nat.

(** The ids do not begin with a suffix token. *)
Definition begins_word (config : FastWordpieceTokenizerConfig)
  (ids : list Z) : bool :=
  match ids with
  | [] => true
  | id :: _ =>
      match Get (vocab_is_suffix_array config) id with
      | Ok is_suffix => negb is_suffix
      | Err _ => false
      end
  end.

(** Lists of words written one after the other, in normal form. *)
Ltac flatten_words :=
  repeat first [ rewrite concat_app | rewrite app_nil_r
               | rewrite <- app_assoc | progress cbn [concat app map fst] ].

(** Two runs agree: both fail with the same error, or both return, with
    related values. *)
Definition agree {A B : Type} (R : A -> B -> Prop) (ra : result A)
  (rb : result B) : Prop :=
  match ra, rb with
  | Ok a, Ok b => R a b
  | Err e, Err e' => e = e'
  | _, _ => False
  end.

(** The outputs of two instantiations of the tokenizer, one with
    [kGetPieces = kPa] and one with [kGetPieces = kPb], hold the same ids
    and the same number of tokens. *)
Definition same_ids (kPa kPb : bool) (oa ob : Outputs) : Prop :=
  output_ids oa = output_ids ob
  /\ GetCurrentOutputSize kPa oa = GetCurrentOutputSize kPb ob.

(** The same, under the values that the helper functions of the tokenizer
    return next to the outputs: the booleans, the cursors and the rollback
    markers are equal.  The offsets in the word are not compared. *)
Definition step_agrees (kPa kPb : bool) (x y : bool * (Z * Z * Outputs))
  : Prop :=
  fst x = fst y
  /\ snd (fst (snd x)) = snd (fst (snd y))
  /\ same_ids kPa kPb (snd (snd x)) (snd (snd y)).

Definition handled_agrees (kPa kPb : bool) (x y : Z * Z * Z * Outputs)
  : Prop :=
  fst (fst (fst x)) = fst (fst (fst y))
  /\ snd (fst x) = snd (fst y)
  /\ same_ids kPa kPb (snd x) (snd y).

Definition exit_agrees (kPa kPb : bool) (ma mb : MatchExit) : Prop :=
  exit_pos ma = exit_pos mb
  /\ exit_next_pos ma = exit_next_pos mb
  /\ exit_prev_unicode_char ma = exit_prev_unicode_char mb
  /\ exit_cur_unicode_char ma = exit_cur_unicode_char mb
  /\ exit_node ma = exit_node mb
  /\ same_ids kPa kPb (exit_outputs ma) (exit_outputs mb).

Definition state_agrees (kPa kPb : bool) (sa sb : TextState) : Prop :=
  cur_pos sa = cur_pos sb
  /\ next_pos sa = next_pos sb
  /\ prev_unicode_char sa = prev_unicode_char sb
  /\ cur_unicode_char sa = cur_unicode_char sb
  /\ original_num_tokens sa = original_num_tokens sb
  /\ same_ids kPa kPb (outputs sa) (outputs sb).

Definition next_agrees (kPa kPb : bool) (ra rb : TextState + Outputs)
  : Prop :=
  match ra, rb with
  | inl sa, inl sb => state_agrees kPa kPb sa sb
  | inr oa, inr ob => same_ids kPa kPb oa ob
  | _, _ => False
  end.

(** The ids of a result. *)
Definition ids_of (r : result Outputs) : result (list Z) :=
  match r with
  | Ok out => Ok (output_ids out)
  | Err e => Err e
  end.

(** The outputs [out'] are the outputs [out] with one unknown token over the
    whole word, or with tokens that [AppendTokenToOutput] appended one after
    the other from offset 0 of the word. *)
Definition all_or_unknown {utils : Utils} (this : FastWordpieceTokenizer)
  (kGetPieces kGetIds kGetOffsets : bool) (input_word : bytes)
  (input_word_offset_in_text : Z) (out out' : Outputs) : Prop :=
  out' = append_unknown_token this kGetPieces kGetIds kGetOffsets
           input_word_offset_in_text
           (input_word_offset_in_text + size input_word) out
  \/ exists tokens,
       snd (append_tokens this kGetPieces kGetIds kGetOffsets input_word
              input_word_offset_in_text tokens 0 out) = out'.

(** The tokens of the outputs, each with its piece, its id and its start and
    end offsets. *)
Definition rows (out : Outputs) : list (bytes * Z * (Z * Z)) :=
  combine (combine (output_pieces out) (output_ids out))
    (combine (output_start_offsets out) (output_end_offsets out)).

(** The tokens [tokens] lie one after the other in the word from the
    position [from] of the text: each starts where the one before it ends,
    and its piece is the unknown token or the bytes of the word between its
    offsets, after the suffix indicator unless it starts the word. *)
Fixpoint laid_out (this : FastWordpieceTokenizer) (input_word : bytes)
  (input_word_offset_in_text from : Z) (tokens : list (bytes * Z * (Z * Z)))
  : Prop :=
  match tokens with
  | [] => True
  | (piece, id, (first, last)) :: rest =>
      first = from
      /\ piece
         = (if first =? input_word_offset_in_text then []
            else suffix_indicator (config_ this))
           ++ (if id =? unk_token_id (config_ this)
               then unk_token (config_ this)
               else substr input_word (first - input_word_offset_in_text)
                      (last - first))
      /\ laid_out this input_word input_word_offset_in_text last rest
  end.

(** The code point of a 7-bit byte. *)
Definition code_of (ch : ascii) : Z := Z.of_nat (nat_of_ascii ch).

(** The decoder reads the text one byte at a time, as it does on 7-bit
    text. *)
Definition seven_bit_text {icu : ICU} (input_text : bytes) : Prop :=
  forall i, 0 <= i < size input_text ->
    U8_NEXT input_text i (size input_text)
    = (i + 1, code_of (nth (Z.to_nat i) input_text zero)).

(** A byte that is neither whitespace nor a punctuation or CJK character,
    and a byte that is a whitespace and no punctuation. *)
Definition word_byte {utils : Utils} {icu : ICU} (ch : ascii) : Prop :=
  u_isUWhiteSpace (code_of ch) = false
  /\ IsPunctuationOrChineseChar (code_of ch) = false.

Definition space_byte {utils : Utils} {icu : ICU} (ch : ascii) : Prop :=
  u_isUWhiteSpace (code_of ch) = true
  /\ IsPunctuationOrChineseChar (code_of ch) = false.

(** A word: one byte at least, word bytes only, within the length limit. *)
Definition is_word {utils : Utils} {icu : ICU} (this : FastWordpieceTokenizer)
  (w : bytes) : Prop :=
  w <> []
  /\ size w <= max_bytes_per_token (config_ this)
  /\ Forall word_byte w.

(** A node at which the failure transition fails: it carries no token and
    has no failure link. *)
Definition dead_end {utils : Utils} (this : FastWordpieceTokenizer)
  (node : Z) : Prop :=
  TryGetData (trie_ this) node = None
  /\ exists node_aux,
       Get (failure_struct_array (config_ this)) node = Ok node_aux
       /\ failure_link node_aux = kNullNode.

(** The conditions on a model and on the separator [sp] under which
    end-to-end mode is compared with single-word mode: the trie has no edge
    for the separator, no edge and no failure link leads to the root, the
    failure transition fails at [trie_suffix_root] and at
    [trie_punct_failure_link_node], and a list of failure pops is not
    empty. *)
Definition end_to_end_model {utils : Utils} (this : FastWordpieceTokenizer)
  (sp : ascii) : Prop :=
  (forall node, TryTraverseOneStep (trie_ this) node sp = None)
  /\ (forall node ch,
        TryTraverseOneStep (trie_ this) node ch
        <> Some (kRootNodeId (trie_ this)))
  /\ (forall node node_aux,
        Get (failure_struct_array (config_ this)) node = Ok node_aux ->
        failure_link node_aux <> kRootNodeId (trie_ this))
  /\ dead_end this (trie_suffix_root (config_ this))
  /\ dead_end this (trie_punct_failure_link_node (config_ this))
  /\ (forall x, 0 < snd (GetFailurePopsOffsetAndLength x)).

(** Single-word mode on the words of a text one after the other, each at
    its offset in the text; one separator lies between two words. *)
Fixpoint tokenize_each_word {utils : Utils} (this : FastWordpieceTokenizer)
  (kGetIds kGetOffsets : bool) (fuel : nat) (words : list bytes)
  (offset : Z) (out : Outputs) : result Outputs :=
  match words with
  | [] => Ok out
  | w :: rest =>
      out' <- TokenizeSingleWordImpl this false kGetIds kGetOffsets fuel w
                offset out ;;
      tokenize_each_word this kGetIds kGetOffsets fuel rest
        (offset + size w + 1) out'
  end.

(** Single-word mode on the word [w], at any offset and after any outputs,
    appends ids that the detokenizer turns back into [w]. *)
Definition word_round_trips {utils : Utils} (this : FastWordpieceTokenizer)
  (kGetOffsets : bool) (fuel : nat) (w : bytes) : Prop :=
  forall offset out,
    exists out1 new_ids,
      TokenizeSingleWordImpl this false true kGetOffsets fuel w offset out
      = Ok out1
      /\ output_ids out1 = output_ids out ++ new_ids
      /\ DetokenizeToTokens this new_ids = Ok [w].

(** A byte that is a punctuation or CJK character and no whitespace. *)
Definition punct_byte {utils : Utils} {icu : ICU} (ch : ascii) : Prop :=
  u_isUWhiteSpace (code_of ch) = false
  /\ IsPunctuationOrChineseChar (code_of ch) = true.

(** The node of a punctuation byte in the trie of an end-to-end model: the
    byte is an edge from the root and from no other node; the node it leads
    to holds a token, has no edge, and its failure link leads to
    [trie_punct_failure_link_node]. *)
Definition punctuation_node {utils : Utils} (this : FastWordpieceTokenizer)
  (pc : ascii) : Prop :=
  (forall node, node <> kRootNodeId (trie_ this) ->
     TryTraverseOneStep (trie_ this) node pc = None)
  /\ exists node encoded_token_value node_aux,
       TryTraverseOneStep (trie_ this) (kRootNodeId (trie_ this)) pc
       = Some node
       /\ (forall ch, TryTraverseOneStep (trie_ this) node ch = None)
       /\ TryGetData (trie_ this) node = Some encoded_token_value
       /\ Get (failure_struct_array (config_ this)) node = Ok node_aux
       /\ failure_link node_aux
          = trie_punct_failure_link_node (config_ this).

(** The conditions on a model and on a text under which end-to-end mode
    is compared with single-word mode on the words of the text: no
    whitespace of the text is a punctuation character or an edge of the
    trie, every punctuation character of the text has its node, the
    failure transition fails at the root, at [trie_suffix_root] and at
    [trie_punct_failure_link_node], the last of which has no edge, no edge
    and no failure link leads to the root, and a list of failure pops is
    not empty. *)
Definition end_to_end_model_of {utils : Utils} {icu : ICU}
  (this : FastWordpieceTokenizer) (input_text : bytes) : Prop :=
  (forall ch, In ch input_text -> u_isUWhiteSpace (code_of ch) = true ->
     IsPunctuationOrChineseChar (code_of ch) = false
     /\ forall node, TryTraverseOneStep (trie_ this) node ch = None)
  /\ (forall ch, In ch input_text -> punct_byte ch ->
        punctuation_node this ch)
  /\ dead_end this (kRootNodeId (trie_ this))
  /\ (forall ch,
        TryTraverseOneStep (trie_ this)
          (trie_punct_failure_link_node (config_ this)) ch = None)
  /\ (forall node ch,
        TryTraverseOneStep (trie_ this) node ch
        <> Some (kRootNodeId (trie_ this)))
  /\ (forall node node_aux,
        Get (failure_struct_array (config_ this)) node = Ok node_aux ->
        failure_link node_aux <> kRootNodeId (trie_ this))
  /\ dead_end this (trie_suffix_root (config_ this))
  /\ dead_end this (trie_punct_failure_link_node (config_ this))
  /\ (forall x, 0 < snd (GetFailurePopsOffsetAndLength x)).

(** The words of a text with their offsets: a whitespace ends a word, a
    punctuation or CJK character ends a word and is a word of its own.
    [word] holds the bytes of the word that ends at [offset]. *)
Definition pending_word (offset : Z) (word : bytes) : list (Z * bytes) :=
  match word with
  | [] => []
  | _ => [(offset - size word, word)]
  end.

Fixpoint words_of_text {utils : Utils} {icu : ICU} (rest : bytes)
  (offset : Z) (word : bytes) : list (Z * bytes) :=
  match rest with
  | [] => pending_word offset word
  | ch :: rest' =>
      if u_isUWhiteSpace (code_of ch) then
        pending_word offset word ++ words_of_text rest' (offset + 1) []
      else if IsPunctuationOrChineseChar (code_of ch) then
        pending_word offset word
        ++ (offset, [ch]) :: words_of_text rest' (offset + 1) []
      else words_of_text rest' (offset + 1) (word ++ [ch])
  end.

(** Single-word mode on a list of words, each with its offset. *)
Fixpoint tokenize_words_at {utils : Utils} (this : FastWordpieceTokenizer)
  (kGetIds kGetOffsets : bool) (fuel : nat) (words : list (Z * bytes))
  (out : Outputs) : result Outputs :=
  match words with
  | [] => Ok out
  | (offset, w) :: rest =>
      out' <- TokenizeSingleWordImpl this false kGetIds kGetOffsets fuel w
                offset out ;;
      tokenize_words_at this kGetIds kGetOffsets fuel rest out'
  end.

(** * Properties *)

(** ** Empty input *)

(** C10.  On the empty input each of the three overloads of [Tokenize], in
    single-word and in end-to-end mode, returns at once, whatever the fuel,
    and hands back the output containers as they were. *)
Theorem Tokenize_empty_input :
  forall (utils : Utils) (icu : ICU) (this : FastWordpieceTokenizer)
         (fuel : nat) (input_word_offset_in_text : Z) (out : Outputs),
    Tokenize this fuel [] input_word_offset_in_text out = Ok out
    /\ Tokenize_ids_offsets this fuel [] input_word_offset_in_text out = Ok out
    /\ Tokenize_ids this fuel [] input_word_offset_in_text out = Ok out.
Proof.
  intros utils icu this fuel w out.
  unfold Tokenize, Tokenize_ids_offsets, Tokenize_ids.
  destruct (end_to_end (config_ this)); repeat split; reflexivity.
Qed.

(** ** The detokenizer *)

Lemma bind_Ok : forall (A B : Type) (m : result A) (k : A -> result B) (b : B),
  bind m k = Ok b -> exists a, m = Ok a /\ k a = Ok b.
Proof.
  intros A B m k b Hb. destruct m as [a|e]; simpl in Hb.
  - exists a. split; [reflexivity | exact Hb].
  - discriminate.
Qed.

Lemma Get_error : forall (A : Type) (v : list A) (i : Z) (e : error),
  Get v i = Err e -> e = OutOfRange.
Proof.
  intros A v i e. unfold Get.
  destruct (i <? 0); [congruence|].
  destruct (nth_error v (Z.to_nat i)); congruence.
Qed.

Lemma detokenize_ids_error :
  forall config input subwords output_tokens e,
    detokenize_ids config input subwords output_tokens = Err e ->
    e = OutOfRange.
Proof.
  intros config input. induction input as [|id rest IH]; intros sw ot e He.
  - simpl in He. destruct (negb (is_empty sw)); discriminate.
  - simpl in He.
    destruct (Get (vocab_array config) id) as [v|e1] eqn:Hv; simpl in He.
    2:{ inversion He; subst. eapply Get_error; eauto. }
    destruct (Get (vocab_is_suffix_array config) id) as [s|e2] eqn:Hs;
      simpl in He.
    2:{ inversion He; subst. eapply Get_error; eauto. }
    destruct (negb (is_empty sw) && negb s);
      destruct s; simpl in He; try destruct (is_empty sw);
      eapply IH; eauto.
Qed.

(** C7.  [DetokenizeToTokens], and with it [Detokenize], fails with the
    precondition error exactly when the model was built without
    [support_detokenization]; a failing call yields no words. *)
Theorem Detokenize_precondition :
  forall (this : FastWordpieceTokenizer) (input : list Z),
    (DetokenizeToTokens this input = Err FailedPreconditionError
     <-> support_detokenization (config_ this) = false)
    /\ (Detokenize this input = Err FailedPreconditionError
        <-> support_detokenization (config_ this) = false)
    /\ (forall e, DetokenizeToTokens this input = Err e ->
        forall output_tokens,
          DetokenizeToTokens this input <> Ok output_tokens).
Proof.
  intros this input.
  assert (H1 : DetokenizeToTokens this input = Err FailedPreconditionError
               <-> support_detokenization (config_ this) = false).
  { unfold DetokenizeToTokens.
    destruct (support_detokenization (config_ this)); simpl; split; intro H;
      try reflexivity; try discriminate.
    apply detokenize_ids_error in H. discriminate. }
  split; [exact H1|]. split.
  - unfold Detokenize. split; intro H.
    + apply H1. destruct (DetokenizeToTokens this input); simpl in H;
        [discriminate | congruence].
    + apply H1 in H. rewrite H. reflexivity.
  - intros e He ot Hot. congruence.
Qed.

Lemma StrJoin_empty_separator : forall parts, StrJoin parts [] = concat parts.
Proof.
  induction parts as [|p rest IH]; [reflexivity|].
  destruct rest as [|q rest'].
  - simpl. rewrite app_nil_r. reflexivity.
  - change (StrJoin (p :: q :: rest') [])
      with (p ++ [] ++ StrJoin (q :: rest') []).
    rewrite IH. reflexivity.
Qed.

Lemma StrJoin_space : forall ws,
  StrJoin ws (bytes_of " ") = spec_join_with_space ws.
Proof.
  induction ws as [|w rest IH]; [reflexivity|].
  destruct rest as [|v rest'].
  - simpl. rewrite app_nil_r. reflexivity.
  - change (StrJoin (w :: v :: rest') (bytes_of " "))
      with (w ++ bytes_of " " ++ StrJoin (v :: rest') (bytes_of " ")).
    rewrite IH. reflexivity.
Qed.

Lemma detokenize_ids_rule :
  forall config input subwords output_tokens,
    detokenize_ids config input subwords output_tokens
    = (tokens <- lookup_tokens config input ;;
       Ok (spec_detokenize_flush
             (fold_left (spec_detokenize_rule (suffix_indicator config)) tokens
                {| pending := subwords; words := output_tokens |}))).
Proof.
  intros config input.
  induction input as [|id rest IH]; intros sw ot.
  - destruct sw as [|p sw']; [reflexivity|].
    cbn -[StrJoin]. unfold push_back.
    rewrite StrJoin_empty_separator. reflexivity.
  - cbn -[StrJoin].
    destruct (Get (vocab_array config) id) as [v|e1]; cbn -[StrJoin];
      [|reflexivity].
    destruct (Get (vocab_is_suffix_array config) id) as [s|e2]; cbn -[StrJoin];
      [|reflexivity].
    destruct sw as [|p sw']; destruct s; cbn -[StrJoin]; rewrite IH;
      destruct (lookup_tokens config rest); cbn -[StrJoin];
      unfold push_back; rewrite ?StrJoin_empty_separator; reflexivity.
Qed.

(** C6.  On a model with [support_detokenization], [DetokenizeToTokens]
    looks up the vocabulary entry and the suffix flag of every id and groups
    them by the rule of the specification: a non-suffix token flushes a
    non-empty pending list as a word, a suffix token on an empty pending
    list pushes the suffix indicator first, the entry is appended to the
    pending list, and the pending list is flushed at the end.  [Detokenize]
    joins these words with one space. *)
Theorem Detokenize_groups_subwords :
  forall (this : FastWordpieceTokenizer) (input : list Z),
    support_detokenization (config_ this) = true ->
    DetokenizeToTokens this input
    = (tokens <- lookup_tokens (config_ this) input ;;
       Ok (spec_detokenize_to_tokens (suffix_indicator (config_ this)) tokens))
    /\ Detokenize this input
       = (tokens <- lookup_tokens (config_ this) input ;;
          Ok (spec_join_with_space
                (spec_detokenize_to_tokens (suffix_indicator (config_ this))
                   tokens))).
Proof.
  intros this input Hsupport.
  assert (H : DetokenizeToTokens this input
              = (tokens <- lookup_tokens (config_ this) input ;;
                 Ok (spec_detokenize_to_tokens
                       (suffix_indicator (config_ this)) tokens))).
  { unfold DetokenizeToTokens. rewrite Hsupport. simpl.
    apply detokenize_ids_rule. }
  split; [exact H|].
  unfold Detokenize. rewrite H.
  destruct (lookup_tokens (config_ this) input); simpl; [|reflexivity].
  rewrite StrJoin_space. reflexivity.
Qed.

(** The ids [a, ##bc, ##z] of the concrete model detokenize to [abcz]. *)
Lemma Detokenize_groups_subwords_witness :
  DetokenizeToTokens (example_tokenizer false) [0; 3; 4]
  = Ok [bytes_of "abcz"]
  /\ Detokenize (example_tokenizer false) [0; 3; 4; 0; 2]
     = Ok (bytes_of "abcz ab").
Proof.
  destruct (Detokenize_groups_subwords (example_tokenizer false) [0; 3; 4]
              eq_refl) as [H _].
  destruct (Detokenize_groups_subwords (example_tokenizer false)
              [0; 3; 4; 0; 2] eq_refl) as [_ H'].
  rewrite H, H'. split; reflexivity.
Defined.

(** ** The failure transition *)

Lemma size_nonneg : forall (A : Type) (l : list A), 0 <= size l.
Proof. intros. unfold size. lia. Qed.

Lemma Get_in_range : forall (A : Type) (v : list A) (i : Z),
  0 <= i < size v ->
  exists a, Get v i = Ok a
            /\ skipn (Z.to_nat i) v = a :: skipn (Z.to_nat (i + 1)) v.
Proof.
  intros A v i [Hlo Hhi]. unfold Get, size in *.
  destruct (i <? 0) eqn:Hneg; [apply Z.ltb_lt in Hneg; lia|].
  replace (Z.to_nat (i + 1)) with (S (Z.to_nat i)) by lia.
  assert (Hn : (Z.to_nat i < length v)%nat) by lia.
  revert Hn. generalize (Z.to_nat i) as n. clear.
  induction v as [|x v IH]; intros n Hn; simpl in Hn; [lia|].
  destruct n as [|n].
  - exists x. split; reflexivity.
  - destruct (IH n ltac:(lia)) as [a [Ha Hs]].
    exists a. split; [exact Ha | exact Hs].
Qed.

Lemma collect_failure_pops_slice :
  forall (utils : Utils) this kGetPieces kGetIds kGetOffsets input_word
         input_word_offset_in_text n offset cur out,
    0 <= offset ->
    offset + Z.of_nat n <= size (failure_pops_pool (config_ this)) ->
    collect_failure_pops this kGetPieces kGetIds kGetOffsets input_word
      input_word_offset_in_text n offset cur out
    = Ok (append_tokens this kGetPieces kGetIds kGetOffsets input_word
            input_word_offset_in_text
            (firstn n (skipn (Z.to_nat offset)
                         (failure_pops_pool (config_ this))))
            cur out).
Proof.
  intros utils this kP kI kO w woff n.
  induction n as [|n IH]; intros offset cur out Hlo Hhi.
  - reflexivity.
  - destruct (Get_in_range _ (failure_pops_pool (config_ this)) offset
                ltac:(lia)) as [e [He Hs]].
    cbn [collect_failure_pops]. rewrite He, Hs. cbn [bind firstn].
    unfold append_tokens. cbn [fold_left fst snd].
    destruct (AppendTokenToOutput this kP kI kO w woff cur e out)
      as [cur' out'] eqn:Ha.
    rewrite IH by lia. reflexivity.
Qed.

(** C1.  The failure transition at a node whose failure struct can be read.
    If the node carries a vocabulary entry, the entry is emitted and the
    cursor moves to the failure link.  Otherwise, with a null failure link
    the transition fails and leaves the offset, the cursor and the outputs
    as they were; with a failure link, the tokens
    [failure_pops_pool[offset .. offset + length)] are emitted in pool order
    and the cursor moves to the failure link. *)
Theorem TryFollowFailureLinkAndCollectTokens_cases :
  forall (utils : Utils) (this : FastWordpieceTokenizer)
         (kGetPieces kGetIds kGetOffsets : bool) (input_word : bytes)
         (input_word_offset_in_text cur_offset_in_input_word node : Z)
         (out : Outputs) (node_aux : FailureStruct),
    Get (failure_struct_array (config_ this)) node = Ok node_aux ->
    (forall v, TryGetData (trie_ this) node = Some v ->
       TryFollowFailureLinkAndCollectTokens this kGetPieces kGetIds kGetOffsets
         input_word input_word_offset_in_text cur_offset_in_input_word node out
       = let emitted :=
           AppendTokenToOutput this kGetPieces kGetIds kGetOffsets input_word
             input_word_offset_in_text cur_offset_in_input_word v out in
         Ok (true, (fst emitted, failure_link node_aux, snd emitted)))
    /\ (TryGetData (trie_ this) node = None ->
        failure_link node_aux = kNullNode ->
        TryFollowFailureLinkAndCollectTokens this kGetPieces kGetIds
          kGetOffsets input_word input_word_offset_in_text
          cur_offset_in_input_word node out
        = Ok (false, (cur_offset_in_input_word, node, out)))
    /\ (TryGetData (trie_ this) node = None ->
        failure_link node_aux <> kNullNode ->
        forall offset length,
          GetFailurePopsOffsetAndLength (failure_pops_offset_length node_aux)
          = (offset, length) ->
          0 <= offset ->
          offset + length <= size (failure_pops_pool (config_ this)) ->
          TryFollowFailureLinkAndCollectTokens this kGetPieces kGetIds
            kGetOffsets input_word input_word_offset_in_text
            cur_offset_in_input_word node out
          = let emitted :=
              append_tokens this kGetPieces kGetIds kGetOffsets input_word
                input_word_offset_in_text
                (substr (failure_pops_pool (config_ this)) offset length)
                cur_offset_in_input_word out in
            Ok (true, (fst emitted, failure_link node_aux, snd emitted))).
Proof.
  intros utils this kP kI kO w woff cur node out aux Haux.
  unfold TryFollowFailureLinkAndCollectTokens.
  split; [|split].
  - intros v Hv. rewrite Hv, Haux.
    destruct (AppendTokenToOutput this kP kI kO w woff cur v out); reflexivity.
  - intros Hv Hnull. rewrite Hv, Haux. cbn [bind].
    rewrite Hnull, Z.eqb_refl. reflexivity.
  - intros Hv Hlink offset len Hdec Hlo Hhi. rewrite Hv, Haux. cbn [bind].
    apply Z.eqb_neq in Hlink. rewrite Hlink, Hdec.
    replace (offset + len - offset) with len by lia.
    unfold substr.
    destruct (Z.to_nat len) as [|n] eqn:Hn; [reflexivity|].
    rewrite collect_failure_pops_slice by lia.
    cbn [bind].
    destruct (append_tokens this kP kI kO w woff
                (firstn (S n)
                   (skipn (Z.to_nat offset) (failure_pops_pool (config_ this))))
                cur out); reflexivity.
Qed.

(** In the concrete model the node of [abc] carries no entry: its failure
    transition emits the pop [a] from the pool and moves to the node of
    [##bc]. *)
Lemma TryFollowFailureLinkAndCollectTokens_cases_witness :
  TryFollowFailureLinkAndCollectTokens (utils := example_utils)
    (example_tokenizer false) true true true (bytes_of "abcz") 0 0 5 no_outputs
  = Ok (true,
        (1, 8,
         {| output_pieces := [bytes_of "a"]; output_ids := [0];
            output_start_offsets := [0]; output_end_offsets := [1] |})).
Proof.
  destruct (TryFollowFailureLinkAndCollectTokens_cases example_utils
              (example_tokenizer false) true true true (bytes_of "abcz")
              0 0 5 no_outputs
              {| failure_link := 8;
                 failure_pops_offset_length := EncodeFailurePopList 0 1 |}
              eq_refl) as [_ [_ H]].
  rewrite (H eq_refl) with (offset := 0) (length := 1).
  - reflexivity.
  - discriminate.
  - reflexivity.
  - lia.
  - vm_compute. discriminate.
Defined.

(** ** Resetting the outputs to the unknown token *)

Lemma resize_set_back : forall (A : Type) (d x : A) (n : nat) (l : list A),
  (n <= length l)%nat ->
  set_back x (resize d (Z.of_nat n + 1) l) = firstn n l ++ [x].
Proof.
  intros A d x n l Hn. unfold set_back, resize.
  replace (Z.to_nat (Z.of_nat n + 1)) with (S n) by lia.
  destruct (Nat.eq_dec (length l) n) as [Heq|Hne].
  - rewrite firstn_all2 by lia.
    replace (S n - length l)%nat with 1%nat by lia.
    cbn [repeat]. rewrite removelast_last.
    rewrite firstn_all2 by lia. reflexivity.
  - replace (S n - length l)%nat with 0%nat by lia.
    cbn [repeat]. rewrite app_nil_r.
    rewrite removelast_firstn by lia. reflexivity.
Qed.

Lemma GetCurrentOutputSize_in_sync :
  forall kGetPieces kGetIds kGetOffsets n out,
    kGetPieces || kGetIds = true ->
    in_sync kGetPieces kGetIds kGetOffsets n out ->
    GetCurrentOutputSize kGetPieces out = Z.of_nat n.
Proof.
  intros kP kI kO n out Hstatic [Hp [Hi _]]. unfold GetCurrentOutputSize, size.
  destruct kP.
  - rewrite Hp; reflexivity.
  - rewrite Hi; [reflexivity | exact Hstatic].
Qed.

Lemma resize_set_back_exact :
  forall (A : Type) (d x : A) (n : nat) (l : list A),
  length l = n -> set_back x (resize d (Z.of_nat n + 1) l) = l ++ [x].
Proof.
  intros A d x n l Hn. rewrite resize_set_back by lia.
  rewrite firstn_all2 by lia. reflexivity.
Qed.

Lemma ResetOutputAppendUnknownToken_in_sync :
  forall this kGetPieces kGetIds kGetOffsets first input_size n out,
    in_sync kGetPieces kGetIds kGetOffsets n out ->
    ResetOutputAppendUnknownToken this kGetPieces kGetIds kGetOffsets
      first input_size (Z.of_nat n) out
    = (Z.of_nat n + 1,
       append_unknown_token this kGetPieces kGetIds kGetOffsets
         first (first + input_size) out).
Proof.
  intros this kP kI kO first sz n out [Hp [Hi Ho]].
  unfold ResetOutputAppendUnknownToken, append_unknown_token.
  destruct out as [ps ids ss es]. cbn [output_pieces output_ids
    output_start_offsets output_end_offsets] in *.
  destruct kP, kI, kO;
    try specialize (Hp eq_refl); try specialize (Hi eq_refl);
    try (destruct (Ho eq_refl) as [Hs He]);
    cbn [with_pieces with_ids with_offsets output_pieces output_ids
         output_start_offsets output_end_offsets];
    repeat (rewrite resize_set_back_exact by assumption);
    reflexivity.
Qed.

(** ** The word that is the suffix indicator itself *)

(** [AppendTokenToOutput] records the token as section 4.8 of the
    specification says. *)
Lemma AppendTokenToOutput_as_specified :
  forall (utils : Utils) this kGetPieces kGetIds kGetOffsets input_word woff
         cur e out,
    AppendTokenToOutput this kGetPieces kGetIds kGetOffsets input_word woff
      cur e out
    = (offset_after this kGetPieces kGetOffsets cur e,
       with_token this kGetPieces kGetIds kGetOffsets input_word woff cur e
         out).
Proof.
  intros utils this kP kI kO word woff cur e [ps ids ss es].
  unfold AppendTokenToOutput, offset_after, with_token, surface_piece,
    surface_length, push_back.
  destruct ((cur =? 0) && IsSuffixToken e) eqn:Hlead;
    destruct (cur =? 0) eqn:Hcur;
    destruct (GetTokenId e =? unk_token_id (config_ this));
    destruct kP, kI, kO;
    cbn [orb app fst snd with_ids with_pieces with_offsets output_pieces
         output_ids output_start_offsets output_end_offsets];
    rewrite ?Z.add_0_r, ?Z.add_assoc; reflexivity.
Qed.

Lemma append_tokens_as_specified :
  forall (utils : Utils) this kGetPieces kGetIds kGetOffsets input_word woff
         tokens cur out,
    append_tokens this kGetPieces kGetIds kGetOffsets input_word woff tokens
      cur out
    = with_tokens this kGetPieces kGetIds kGetOffsets input_word woff tokens
        cur out.
Proof.
  intros utils this kP kI kO word woff tokens.
  induction tokens as [|e tokens IH]; intros cur out; [reflexivity|].
  unfold append_tokens in *. cbn [fold_left with_tokens fst snd].
  rewrite AppendTokenToOutput_as_specified. cbn [fst snd]. apply IH.
Qed.

(** C5.  Let the cursor stand at [trie_suffix_root] with no token emitted
    for the word: the containers in use all hold the [original_num_tokens]
    that they held before the word.  If the precomputed result for the
    suffix indicator is a single entry whose id is [unk_token_id], the
    outputs receive exactly one unknown token that spans the word.
    Otherwise every encoded token of the precomputed result is emitted, in
    order: the containers in use receive, token after token, the id of
    the token, its piece, and the offsets of its surface, which begins
    where the surface of the token before it ends.  In both cases the
    function reports that it handled the word. *)
Theorem suffix_indicator_itself :
  forall (utils : Utils) (this : FastWordpieceTokenizer)
         (kGetPieces kGetIds kGetOffsets : bool) (input_word : bytes)
         (input_word_offset_in_text cur_node cur_offset_in_input_word : Z)
         (n : nat) (out : Outputs),
    kGetPieces || kGetIds = true ->
    cur_node = trie_suffix_root (config_ this) ->
    in_sync kGetPieces kGetIds kGetOffsets n out ->
    (forall e,
       precomputed_result_for_suffix_indicator (config_ this) = [e] ->
       GetTokenId e = unk_token_id (config_ this) ->
       TryHandleTheInputWordBeingSuffixIndicatorItself this kGetPieces kGetIds
         kGetOffsets input_word input_word_offset_in_text cur_node
         cur_offset_in_input_word (Z.of_nat n) out
       = (true,
          (cur_offset_in_input_word,
           append_unknown_token this kGetPieces kGetIds kGetOffsets
             input_word_offset_in_text
             (input_word_offset_in_text + size input_word) out)))
    /\ ((forall e,
           precomputed_result_for_suffix_indicator (config_ this) = [e] ->
           GetTokenId e <> unk_token_id (config_ this)) ->
        TryHandleTheInputWordBeingSuffixIndicatorItself this kGetPieces kGetIds
          kGetOffsets input_word input_word_offset_in_text cur_node
          cur_offset_in_input_word (Z.of_nat n) out
        = (true,
           with_tokens this kGetPieces kGetIds kGetOffsets input_word
             input_word_offset_in_text
             (precomputed_result_for_suffix_indicator (config_ this))
             cur_offset_in_input_word out)).
Proof.
  intros utils this kP kI kO w woff node cur n out Hstatic Hnode Hsync.
  unfold TryHandleTheInputWordBeingSuffixIndicatorItself.
  rewrite Hnode, Z.eqb_refl. cbn [negb].
  rewrite (GetCurrentOutputSize_in_sync kP kI kO n out Hstatic Hsync).
  rewrite Z.eqb_refl. cbn [negb].
  split.
  - intros e Hpre Hunk. rewrite Hpre.
    change (size [e] =? 1) with true. cbn [nth andb].
    rewrite Hunk, Z.eqb_refl.
    rewrite (ResetOutputAppendUnknownToken_in_sync this kP kI kO woff
               (size w) n out Hsync).
    reflexivity.
  - intros Hpre.
    destruct ((size (precomputed_result_for_suffix_indicator (config_ this))
               =? 1)
              && (GetTokenId
                    (nth 0 (precomputed_result_for_suffix_indicator
                              (config_ this)) 0)
                  =? unk_token_id (config_ this))) eqn:Hc.
    + exfalso. apply andb_true_iff in Hc. destruct Hc as [Hsz Hid].
      apply Z.eqb_eq in Hsz. apply Z.eqb_eq in Hid. unfold size in Hsz.
      destruct (precomputed_result_for_suffix_indicator (config_ this))
        as [|e [|e' rest]]; cbn [length] in Hsz; try lia.
      exact (Hpre e eq_refl Hid).
    + f_equal. apply append_tokens_as_specified.
Qed.

(** The first concrete model cannot tokenize [##]: its precomputed result
    is the unknown token, and the word [##] becomes one unknown token over
    [[0, 2)].  The third model tokenizes [##] into [#] and [###]: the two
    tokens of its precomputed result reach the outputs in this order, the
    first over [[0, 1)] and the second over [[1, 2)]. *)
Lemma suffix_indicator_itself_witness :
  TryHandleTheInputWordBeingSuffixIndicatorItself (utils := example_utils)
    (example_tokenizer false) true true true (bytes_of "##") 0 2 0 0 no_outputs
  = (true,
     (0,
      {| output_pieces := [bytes_of "[UNK]"]; output_ids := [5];
         output_start_offsets := [0]; output_end_offsets := [2] |}))
  /\ TryHandleTheInputWordBeingSuffixIndicatorItself (utils := example_utils)
       hash_tokenizer true true true (bytes_of "##") 0 2 0 0 no_outputs
     = (true,
        (2,
         {| output_pieces := [bytes_of "#"; bytes_of "###"];
            output_ids := [6; 7];
            output_start_offsets := [0; 1];
            output_end_offsets := [1; 2] |})).
Proof.
  assert (Hsync : in_sync true true true 0 no_outputs).
  { repeat split; reflexivity. }
  split.
  - destruct (suffix_indicator_itself example_utils (example_tokenizer false)
                true true true (bytes_of "##") 0 2 0 0%nat no_outputs
                eq_refl eq_refl Hsync) as [H _].
    exact (H (EncodeToken 5 2 false) eq_refl eq_refl).
  - destruct (suffix_indicator_itself example_utils hash_tokenizer
                true true true (bytes_of "##") 0 2 0 0%nat no_outputs
                eq_refl eq_refl Hsync) as [_ H].
    refine (eq_trans (H _) eq_refl).
    intros e He. cbn in He. discriminate He.
Defined.

(** ** Offsets and the word offset

    In single-word mode the offsets move with the word offset.  The
    theorem on the offsets of both modes stands at the end of the file,
    after the lemmas on the tokens that the tokenizers append. *)

Section WordOffset.

Context {utils : Utils}.
Variable this : FastWordpieceTokenizer.
Variables kGetPieces kGetIds : bool.
Variable n : nat.
Variable w : Z.






Lemma AppendTokenToOutput_grown : forall kGetOffsets input_word woff cur e out,
  grown n out ->
  grown n (snd (AppendTokenToOutput this kGetPieces kGetIds kGetOffsets
                  input_word woff cur e out)).
Proof.
  intros kO word woff cur e [ps ids ss es] [Hs He].
  cbn [output_start_offsets output_end_offsets] in Hs, He.
  unfold AppendTokenToOutput, grown, with_offsets, with_ids, with_pieces,
    push_back.
  destruct kGetIds, kGetPieces, kO;
    cbn [orb fst snd output_pieces output_ids output_start_offsets
         output_end_offsets];
    rewrite ?length_app; cbn [length]; lia.
Qed.


Lemma grown_shift : forall out, grown n out -> grown n (shift_offsets n w out).
Proof.
  intros [ps ids ss es] [Hs He]. unfold grown, shift_offsets, shift_from.
  cbn [with_offsets output_start_offsets output_end_offsets] in *.
  rewrite !length_app, !length_map, <- !length_app, !firstn_skipn.
  split; assumption.
Qed.

Lemma append_tokens_cons :
  forall kGetOffsets input_word woff e tokens cur out,
    append_tokens this kGetPieces kGetIds kGetOffsets input_word woff
      (e :: tokens) cur out
    = append_tokens this kGetPieces kGetIds kGetOffsets input_word woff tokens
        (fst (AppendTokenToOutput this kGetPieces kGetIds kGetOffsets
                input_word woff cur e out))
        (snd (AppendTokenToOutput this kGetPieces kGetIds kGetOffsets
                input_word woff cur e out)).
Proof.
  intros. unfold append_tokens. cbn [fold_left fst snd].
  destruct (AppendTokenToOutput this kGetPieces kGetIds kGetOffsets
              input_word woff cur e out); reflexivity.
Qed.


Lemma append_tokens_grown : forall kGetOffsets input_word woff tokens cur out,
  grown n out ->
  grown n (snd (append_tokens this kGetPieces kGetIds kGetOffsets input_word
                  woff tokens cur out)).
Proof.
  intros kO word woff tokens.
  induction tokens as [|e rest IH]; intros cur out Hg; [exact Hg|].
  rewrite append_tokens_cons. apply IH. apply AppendTokenToOutput_grown.
  assumption.
Qed.














End WordOffset.

(** ** Word boundaries in end-to-end mode *)

Section WordBoundary.

Context {utils : Utils} {icu : ICU}.
Variable this : FastWordpieceTokenizer.
Variables kGetPieces kGetIds kGetOffsets : bool.
Variable input_text : bytes.

(** The decoder moves forward, and the code point 0 is neither punctuation
    nor a CJK character. *)
Hypothesis U8_NEXT_advances : forall i,
  0 <= i < size input_text -> i < fst (U8_NEXT input_text i (size input_text)).
Hypothesis zero_is_no_punctuation : IsPunctuationOrChineseChar 0 = false.

Lemma trie_match_loop_exit :
  forall fuel input_substr word_offset pos next prev cur_char len cur node out
         m,
    0 <= pos ->
    trie_match_loop this kGetPieces kGetIds kGetOffsets fuel input_text
      input_substr word_offset pos next prev cur_char len cur node out = Ok m ->
    pos <= exit_pos m
    /\ (exit_pos m < size input_text ->
        U8_NEXT input_text (exit_pos m) (size input_text)
        = (exit_next_pos m, exit_cur_unicode_char m))
    /\ (exit_pos m = pos -> pos < size input_text ->
        exit_prev_unicode_char m = cur_char).
Proof.
  intros fuel input_substr word_offset.
  induction fuel as [|fuel IH];
    intros pos next prev cur_char len cur node out m Hpos;
    cbn [trie_match_loop];
    destruct (pos <? size input_text) eqn:Hlt;
    try discriminate;
    try (intro H; inversion H; subst; cbn; apply Z.ltb_ge in Hlt;
         repeat split; intros; lia).
  apply Z.ltb_lt in Hlt.
  pose proof (U8_NEXT_advances pos ltac:(lia)) as Hadv.
  destruct (U8_NEXT input_text pos (size input_text)) as [next' cp] eqn:Hdec.
  cbn [fst] in Hadv.
  destruct (len + next' - pos >? max_bytes_per_token (config_ this)).
  - intro H; inversion H; subst; cbn. repeat split; intros; auto; lia.
  - destruct (follow_failure_links this kGetPieces kGetIds kGetOffsets fuel
                (fun n => TryTraverseSeveralSteps (trie_ this) n
                            (substr input_text pos (next' - pos)))
                input_substr word_offset cur node out)
      as [[consumed [[c nd] o]]|err]; cbn [bind]; [|discriminate].
    destruct consumed.
    + intro H. apply IH in H; [|lia]. destruct H as [H1 [H2 H3]].
      repeat split; intros; auto; lia.
    + intro H; inversion H; subst; cbn. repeat split; intros; auto; lia.
Qed.

Lemma skip_loop_forward : forall fuel pos end_of_word end_of_word' pos',
  0 <= pos ->
  skip_loop fuel input_text pos end_of_word = Ok (end_of_word', pos') ->
  pos <= pos'.
Proof.
  induction fuel as [|fuel IH]; intros pos e e' pos' Hpos;
    cbn [skip_loop];
    destruct (pos <? size input_text) eqn:Hlt;
    try discriminate;
    try (intro H; inversion H; subst; lia).
  apply Z.ltb_lt in Hlt.
  pose proof (U8_NEXT_advances pos ltac:(lia)) as Hadv.
  destruct (U8_NEXT input_text pos (size input_text)) as [next' cp].
  cbn [fst] in Hadv.
  destruct (u_isUWhiteSpace cp); [intro H; inversion H; subst; lia|].
  destruct (IsPunctuationOrChineseChar cp);
    [intro H; inversion H; subst; lia|].
  intro H. apply IH in H; lia.
Qed.

Lemma at_word_boundary_as_specified : forall fuel s m,
  boundary_invariant input_text s ->
  cur_pos s < size input_text ->
  match_next_word this kGetPieces kGetIds kGetOffsets fuel input_text s
  = Ok m ->
  exit_pos m < size input_text ->
  at_word_boundary m
  = spec_word_boundary (exit_cur_unicode_char m) (exit_prev_unicode_char m).
Proof.
  intros fuel s m [Hpos Hzero] Hlt Hm Hexit.
  unfold match_next_word in Hm.
  apply trie_match_loop_exit in Hm; [|exact Hpos].
  destruct Hm as [Hle [Hdec Hprev]].
  specialize (Hdec Hexit).
  unfold at_word_boundary, spec_word_boundary.
  destruct (u_isUWhiteSpace (exit_cur_unicode_char m)); [reflexivity|].
  destruct (IsPunctuationOrChineseChar (exit_cur_unicode_char m)) eqn:Hcp;
    [reflexivity|].
  cbn [orb].
  destruct (exit_prev_unicode_char m =? 0) eqn:Hp0.
  - apply Z.eqb_eq in Hp0. rewrite Hp0, zero_is_no_punctuation.
    cbn [negb andb]. apply andb_false_r.
  - cbn [negb andb].
    destruct (exit_pos m =? 0) eqn:He0; [|reflexivity].
    cbn [negb andb]. apply Z.eqb_eq in He0. apply Z.eqb_neq in Hp0.
    assert (Hs0 : cur_pos s = 0) by lia.
    rewrite Hprev in Hp0 by lia.
    destruct (Hzero Hs0) as [Hc|Hc]; [contradiction|].
    rewrite He0 in Hdec. rewrite Hdec in Hc. cbn [snd] in Hc. congruence.
Qed.

Lemma flush_word_at_boundary_pos : forall fuel s m s',
  flush_word_at_boundary this kGetPieces kGetIds kGetOffsets fuel input_text
    s m = Ok s' ->
  cur_pos s' = (if u_isUWhiteSpace (exit_cur_unicode_char m)
                then exit_next_pos m else exit_pos m)
  /\ cur_unicode_char s' = exit_cur_unicode_char m.
Proof.
  intros fuel s m s'. unfold flush_word_at_boundary.
  destruct (HandleTheRemainingStringOnTriePath this kGetPieces kGetIds
              kGetOffsets fuel
              (firstn (Z.to_nat (exit_pos m - cur_pos s))
                 (skipn (Z.to_nat (cur_pos s)) input_text))
              (cur_pos s) (exit_node m) (original_num_tokens s)
              (exit_offset_in_input_word m) (exit_outputs m))
    as [[[[orig c] nd] o]|err]; cbn [bind]; [|discriminate].
  intro H; inversion H; subst. split; reflexivity.
Qed.

Lemma visited_boundary_invariant : forall out s,
  visited this kGetPieces kGetIds kGetOffsets input_text out s ->
  boundary_invariant input_text s.
Proof.
  intros out s Hv. induction Hv as [|fuel s s' Hv IH Hlt Hstep].
  - split; [cbn; lia|]. intros _. left. reflexivity.
  - unfold tokenize_next_word in Hstep.
    destruct (match_next_word this kGetPieces kGetIds kGetOffsets fuel
                input_text s) as [m|err] eqn:Hm; cbn [bind] in Hstep;
      [|discriminate].
    pose proof Hm as Hm'. unfold match_next_word in Hm'.
    apply trie_match_loop_exit in Hm'; [|apply IH].
    destruct Hm' as [Hle [Hdec Hprev]].
    destruct IH as [Hpos Hzero].
    destruct (exit_pos m >=? size input_text) eqn:Hend.
    { destruct (HandleTheRemainingStringOnTriePath this kGetPieces kGetIds
                  kGetOffsets fuel (skipn (Z.to_nat (cur_pos s)) input_text)
                  (cur_pos s) (exit_node m) (original_num_tokens s)
                  (exit_offset_in_input_word m) (exit_outputs m))
        as [[[[orig c] nd] o]|err]; cbn [bind] in Hstep; discriminate. }
    assert (Hexit : exit_pos m < size input_text).
    { destruct (Z.geb_spec (exit_pos m) (size input_text));
        [discriminate | lia]. }
    specialize (Hdec Hexit).
    pose proof (U8_NEXT_advances (exit_pos m) ltac:(lia)) as Hadv.
    rewrite Hdec in Hadv. cbn [fst] in Hadv.
    destruct (at_word_boundary m) eqn:Hb.
    + destruct (flush_word_at_boundary this kGetPieces kGetIds kGetOffsets
                  fuel input_text s m) as [s1|err] eqn:Hf;
        cbn [bind] in Hstep; [|discriminate].
      inversion Hstep; subst s1.
      apply flush_word_at_boundary_pos in Hf. destruct Hf as [Hp' Hc'].
      unfold at_word_boundary in Hb.
      destruct (u_isUWhiteSpace (exit_cur_unicode_char m)).
      * split; [lia|]. intro H0. lia.
      * split; [lia|]. intro H0. right.
        assert (He0 : exit_pos m = 0) by lia.
        rewrite He0 in Hb, Hdec. rewrite Hdec. cbn [snd].
        cbn [orb negb andb Z.eqb] in Hb. rewrite orb_false_r in Hb.
        exact Hb.
    + unfold map_word_to_unknown,
        SkipTheRemainingOfWordAndTrailingWhiteSpaces in Hstep.
      destruct (skip_loop fuel input_text (exit_next_pos m) (exit_next_pos m))
        as [[e p]|err] eqn:Hs; cbn [bind] in Hstep; [|discriminate].
      apply skip_loop_forward in Hs; [|lia].
      destruct (ResetOutputAppendUnknownToken this kGetPieces kGetIds
                  kGetOffsets (cur_pos s) (e - cur_pos s)
                  (original_num_tokens s) (exit_outputs m)) as [orig o].
      inversion Hstep; subst s'.
      split; cbn [cur_pos cur_unicode_char]; [lia|]. intro H0. lia.
Qed.

End WordBoundary.

(** When the inner loop has consumed a code point of the word before it
    stops, [prev_unicode_char] is the code point that ends where the loop
    stops: the code point before [cur_unicode_char] in the text. *)
Lemma trie_match_loop_exit_prev :
  forall (utils : Utils) (icu : ICU) this kGetPieces kGetIds kGetOffsets
         input_text,
    (forall i, 0 <= i < size input_text ->
               i < fst (U8_NEXT input_text i (size input_text))) ->
    forall fuel input_substr word_offset pos next prev cur_char len cur node
           out m,
      0 <= pos ->
      trie_match_loop this kGetPieces kGetIds kGetOffsets fuel input_text
        input_substr word_offset pos next prev cur_char len cur node out
      = Ok m ->
      exit_pos m < size input_text ->
      pos < exit_pos m ->
      exists q,
        pos <= q < exit_pos m
        /\ U8_NEXT input_text q (size input_text)
           = (exit_pos m, exit_prev_unicode_char m).
Proof.
  intros utils icu this kP kI kO text Hadv fuel input_substr word_offset.
  induction fuel as [|fuel IH];
    intros pos next prev cur_char len cur node out m Hpos;
    cbn [trie_match_loop];
    destruct (pos <? size text) eqn:Hlt;
    try discriminate;
    try (intro H; inversion H; subst; cbn; intros; exfalso; lia).
  apply Z.ltb_lt in Hlt.
  pose proof (Hadv pos ltac:(lia)) as Hnext.
  destruct (U8_NEXT text pos (size text)) as [next' cp] eqn:Hdec.
  cbn [fst] in Hnext.
  destruct (len + next' - pos >? max_bytes_per_token (config_ this)).
  { intro H; inversion H; subst; cbn; intros; exfalso; lia. }
  destruct (follow_failure_links this kP kI kO fuel
              (fun n => TryTraverseSeveralSteps (trie_ this) n
                          (substr text pos (next' - pos)))
              input_substr word_offset cur node out)
    as [[consumed [[c nd] o]]|err]; cbn [bind]; [|discriminate].
  destruct consumed; [|intro H; inversion H; subst; cbn; intros; exfalso; lia].
  intros Hm Hexit Hmoved.
  assert (Hnext0 : 0 <= next') by lia.
  pose proof (trie_match_loop_exit this kP kI kO text Hadv _ _ _ _ _ _ _ _ _
                _ _ _ Hnext0 Hm) as [Hle [_ Hsame]].
  destruct (Z.eq_dec (exit_pos m) next') as [Heq|Hne].
  - exists pos. split; [lia|].
    rewrite Hsame by lia. rewrite Heq. exact Hdec.
  - assert (Hmoved' : next' < exit_pos m) by lia.
    destruct (IH _ _ _ _ _ _ _ _ _ Hnext0 Hm Hexit Hmoved')
      as [q [Hq Hdecq]].
    exists q. split; [lia | exact Hdecq].
Qed.

(** C3, as stated, fails after a punctuation character.  The concrete
    end-to-end model reads [!b]: the first iteration of the outer loop
    flushes the word [!] and leaves [cur_pos] on [b]; the second stops at
    [b] again, which is neither a whitespace nor a punctuation character.
    The code point before [b] in the text is [!], a punctuation character
    that is not 0, so the rule of the claim declares a word boundary.  The
    code looks at [prev_unicode_char], which holds [b] itself, declares no
    boundary and maps [b] to the unknown token. *)
Lemma no_word_boundary_after_punctuation :
  tokenize_next_word (utils := example_utils) (icu := example_icu)
    (example_tokenizer true) true true true 50 (bytes_of "!b")
    (initial_text_state true no_outputs)
  = Ok (inl after_punctuation)
  /\ match_next_word (utils := example_utils) (icu := example_icu)
       (example_tokenizer true) true true true 50 (bytes_of "!b")
       after_punctuation
     = Ok stop_after_punctuation
  /\ U8_NEXT (ICU := example_icu) (bytes_of "!b") 0 (size (bytes_of "!b"))
     = (exit_pos stop_after_punctuation, 33)
  /\ spec_word_boundary (utils := example_utils) (icu := example_icu)
       (exit_cur_unicode_char stop_after_punctuation) 33 = true
  /\ at_word_boundary (utils := example_utils) (icu := example_icu)
       stop_after_punctuation = false
  /\ tokenize_next_word (utils := example_utils) (icu := example_icu)
       (example_tokenizer true) true true true 50 (bytes_of "!b")
       after_punctuation
     = Ok (inl {| cur_pos := 2; next_pos := 2;
                  prev_unicode_char := 98; cur_unicode_char := 98;
                  original_num_tokens := 2;
                  outputs :=
                    {| output_pieces := [bytes_of "[UNK]"; bytes_of "[UNK]"];
                       output_ids := [5; 5];
                       output_start_offsets := [0; 1];
                       output_end_offsets := [1; 2] |} |}).
Proof. repeat split; reflexivity. Qed.

(** C3, amended.  Let the outer loop of [TokenizeTextImpl] begin an
    iteration, and let the inner loop stop before the end of the text, at
    the code point [cp], with [prev] the value of [prev_unicode_char].
    When the inner loop has consumed a code point of the word, [prev] is
    the code point before [cp] in the text.  When it stops at the first
    code point of the word, [prev] is what the iterations before left in
    [cur_unicode_char]: 0 at first, and then the code point at which the
    last iteration stopped, which is [cp] itself when that iteration left
    [cur_pos] on it.  A word boundary is declared exactly when [cp] is a
    whitespace, or [cp] is a punctuation or CJK character, or [prev] is not
    0 and is a punctuation or CJK character.  At a boundary the word read
    so far is handed to [HandleTheRemainingStringOnTriePath], and the next
    iteration starts after [cp] if [cp] is a whitespace and at [cp]
    otherwise.  Without a boundary the rest of the word is skipped and the
    word is mapped to the unknown token.  The decoder is assumed to move
    forward, and the code point 0 to be neither punctuation nor a CJK
    character. *)
Theorem word_boundary_rule :
  forall (utils : Utils) (icu : ICU) (this : FastWordpieceTokenizer)
         (kGetPieces kGetIds kGetOffsets : bool) (input_text : bytes)
         (out : Outputs) (fuel : nat) (s : TextState) (m : MatchExit),
    (forall i, 0 <= i < size input_text ->
               i < fst (U8_NEXT input_text i (size input_text))) ->
    IsPunctuationOrChineseChar 0 = false ->
    visited this kGetPieces kGetIds kGetOffsets input_text out s ->
    cur_pos s < size input_text ->
    match_next_word this kGetPieces kGetIds kGetOffsets fuel input_text s
    = Ok m ->
    exit_pos m < size input_text ->
    let cp := exit_cur_unicode_char m in
    let prev := exit_prev_unicode_char m in
    U8_NEXT input_text (exit_pos m) (size input_text) = (exit_next_pos m, cp)
    /\ exit_pos m < exit_next_pos m
    /\ (cur_pos s < exit_pos m ->
        exists q,
          cur_pos s <= q < exit_pos m
          /\ U8_NEXT input_text q (size input_text) = (exit_pos m, prev))
    /\ (exit_pos m <= cur_pos s -> prev = cur_unicode_char s)
    /\ tokenize_next_word this kGetPieces kGetIds kGetOffsets fuel input_text s
       = (if spec_word_boundary cp prev then
            '(original, _, _, out') <-
              HandleTheRemainingStringOnTriePath this kGetPieces kGetIds
                kGetOffsets fuel
                (substr input_text (cur_pos s) (exit_pos m - cur_pos s))
                (cur_pos s) (exit_node m) (original_num_tokens s)
                (exit_offset_in_input_word m) (exit_outputs m) ;;
            Ok (inl {| cur_pos := if u_isUWhiteSpace cp
                                  then exit_next_pos m else exit_pos m;
                       next_pos := exit_next_pos m;
                       prev_unicode_char := prev;
                       cur_unicode_char := cp;
                       original_num_tokens := original;
                       outputs := out' |})
          else
            '(end_of_word, pos) <-
              SkipTheRemainingOfWordAndTrailingWhiteSpaces fuel input_text
                (exit_next_pos m) ;;
            Ok (inl {| cur_pos := pos;
                       next_pos := exit_next_pos m;
                       prev_unicode_char := prev;
                       cur_unicode_char := cp;
                       original_num_tokens :=
                         fst (ResetOutputAppendUnknownToken this kGetPieces
                                kGetIds kGetOffsets (cur_pos s)
                                (end_of_word - cur_pos s)
                                (original_num_tokens s) (exit_outputs m));
                       outputs :=
                         snd (ResetOutputAppendUnknownToken this kGetPieces
                                kGetIds kGetOffsets (cur_pos s)
                                (end_of_word - cur_pos s)
                                (original_num_tokens s) (exit_outputs m))
                    |})).
Proof.
  intros utils icu this kP kI kO text out fuel s m Hadv Hzero Hv Hlt Hm Hexit
         cp prev.
  pose proof (visited_boundary_invariant this kP kI kO text Hadv out s Hv)
    as Hinv.
  pose proof Hm as Hm'. unfold match_next_word in Hm'.
  pose proof (trie_match_loop_exit_prev utils icu this kP kI kO text Hadv _ _
                _ _ _ _ _ _ _ _ _ _ (proj1 Hinv) Hm' Hexit) as Hbefore.
  apply (trie_match_loop_exit this kP kI kO text Hadv) in Hm';
    [|apply Hinv].
  destruct Hm' as [Hle [Hdec Hsame]]. specialize (Hdec Hexit).
  split; [exact Hdec|]. split; [|split; [exact Hbefore|split]].
  - pose proof (Hadv (exit_pos m) ltac:(destruct Hinv; lia)) as H.
    rewrite Hdec in H. exact H.
  - intro Hstay. apply Hsame; lia.
  - unfold tokenize_next_word. rewrite Hm. cbn [bind].
    destruct (Z.geb_spec (exit_pos m) (size text)) as [Hge|_]; [lia|].
    rewrite (at_word_boundary_as_specified this kP kI kO text Hadv Hzero
               fuel s m Hinv Hlt Hm Hexit).
    fold cp prev.
    destruct (spec_word_boundary cp prev).
    + unfold flush_word_at_boundary, substr.
      destruct (HandleTheRemainingStringOnTriePath this kP kI kO fuel
                  (firstn (Z.to_nat (exit_pos m - cur_pos s))
                     (skipn (Z.to_nat (cur_pos s)) text))
                  (cur_pos s) (exit_node m) (original_num_tokens s)
                  (exit_offset_in_input_word m) (exit_outputs m))
        as [[[[orig c] nd] o]|err]; reflexivity.
    + unfold map_word_to_unknown.
      destruct (SkipTheRemainingOfWordAndTrailingWhiteSpaces fuel text
                  (exit_next_pos m)) as [[e p]|err]; cbn [bind];
        [|reflexivity].
      destruct (ResetOutputAppendUnknownToken this kP kI kO (cur_pos s)
                  (e - cur_pos s) (original_num_tokens s) (exit_outputs m));
        reflexivity.
Qed.

(** The fourth model on the text [abcz x]: the inner loop stops at the
    space, where the length limit is reached, with the token [##z] still on
    the trie path; the word is flushed, [HandleTheRemainingStringOnTriePath]
    emits [##z], and the space is skipped.  The end-to-end model on the text
    [a!b]: the inner loop stops at [!], the word [a] is flushed and the
    next iteration starts at [!]. *)
Lemma word_boundary_rule_witness :
  tokenize_next_word (utils := example_utils) (icu := example_icu)
    short_tokenizer true true true 50 (bytes_of "abcz x")
    (initial_text_state true no_outputs)
  = Ok (inl {| cur_pos := 5; next_pos := 5;
               prev_unicode_char := 122; cur_unicode_char := 32;
               original_num_tokens := 3;
               outputs :=
                 {| output_pieces :=
                      [bytes_of "a"; bytes_of "##bc"; bytes_of "##z"];
                    output_ids := [0; 3; 4];
                    output_start_offsets := [0; 1; 3];
                    output_end_offsets := [1; 3; 4] |} |})
  /\ tokenize_next_word (utils := example_utils) (icu := example_icu)
       (example_tokenizer true) true true true 50 (bytes_of "a!b")
       (initial_text_state true no_outputs)
     = Ok (inl {| cur_pos := 1; next_pos := 2;
                  prev_unicode_char := 97; cur_unicode_char := 33;
                  original_num_tokens := 1;
                  outputs :=
                    {| output_pieces := [bytes_of "a"]; output_ids := [0];
                       output_start_offsets := [0];
                       output_end_offsets := [1] |} |}).
Proof.
  assert (Hadv : forall text i, 0 <= i < size text ->
                 i < fst (U8_NEXT (ICU := example_icu) text i (size text))).
  { intros text i _. cbn [U8_NEXT example_icu fst]. lia. }
  split.
  - destruct (word_boundary_rule example_utils example_icu
                short_tokenizer true true true (bytes_of "abcz x")
                no_outputs 50
                (initial_text_state true no_outputs)
                {| exit_pos := 4; exit_next_pos := 5;
                   exit_prev_unicode_char := 122; exit_cur_unicode_char := 32;
                   exit_node := 9; exit_offset_in_input_word := 3;
                   exit_outputs :=
                     {| output_pieces := [bytes_of "a"; bytes_of "##bc"];
                        output_ids := [0; 3];
                        output_start_offsets := [0; 1];
                        output_end_offsets := [1; 3] |} |}
                (Hadv _) eq_refl
                (visited_first short_tokenizer true true true
                   (bytes_of "abcz x") no_outputs)
                eq_refl eq_refl eq_refl) as [_ [_ [_ [_ H]]]].
    rewrite H. reflexivity.
  - destruct (word_boundary_rule example_utils example_icu
                (example_tokenizer true) true true true (bytes_of "a!b")
                no_outputs 50
                (initial_text_state true no_outputs)
                {| exit_pos := 1; exit_next_pos := 2;
                   exit_prev_unicode_char := 97; exit_cur_unicode_char := 33;
                   exit_node := 2; exit_offset_in_input_word := 1;
                   exit_outputs :=
                     {| output_pieces := [bytes_of "a"]; output_ids := [0];
                        output_start_offsets := [0];
                        output_end_offsets := [1] |} |}
                (Hadv _) eq_refl
                (visited_first (example_tokenizer true) true true true
                   (bytes_of "a!b") no_outputs)
                eq_refl eq_refl eq_refl) as [_ [_ [_ [_ H]]]].
    rewrite H. reflexivity.
Defined.

(** ** The rollback marker when the suffix root is the trie root *)

Lemma resize_length : forall (A : Type) (d : A) (n : Z) (l : list A),
  length (resize d n l) = Z.to_nat n.
Proof.
  intros A d n l. unfold resize.
  rewrite length_app, length_firstn, repeat_length. lia.
Qed.

Lemma set_back_length : forall (A : Type) (x : A) (l : list A),
  l <> [] -> length (set_back x l) = length l.
Proof.
  intros A x l Hl. unfold set_back.
  destruct (exists_last Hl) as [l' [y Hy]]. subst l.
  rewrite removelast_last, !length_app. reflexivity.
Qed.

Lemma ResetOutputAppendUnknownToken_size :
  forall this kGetPieces kGetIds kGetOffsets first input_size original out,
    kGetPieces || kGetIds = true ->
    0 <= original ->
    GetCurrentOutputSize kGetPieces
      (snd (ResetOutputAppendUnknownToken this kGetPieces kGetIds kGetOffsets
              first input_size original out))
    = original + 1.
Proof.
  intros this kP kI kO first sz orig [ps ids ss es] Hstatic Horig.
  assert (Hlen : forall (A : Type) (d x : A) (l : list A),
            size (set_back x (resize d (orig + 1) l)) = orig + 1).
  { intros A d x l. unfold size. rewrite set_back_length.
    - rewrite resize_length. lia.
    - intro Hnil. apply (f_equal (@length A)) in Hnil.
      rewrite resize_length in Hnil. cbn [length] in Hnil. lia. }
  unfold ResetOutputAppendUnknownToken, GetCurrentOutputSize.
  destruct kP, kI, kO; try discriminate;
    cbn [snd with_pieces with_ids with_offsets output_pieces output_ids];
    apply Hlen.
Qed.

(** Every way out of [HandleTheRemainingStringOnTriePath] other than the
    return at the trie root leaves [original_num_tokens] at the size of the
    outputs. *)
Lemma HandleTheRemainingStringOnTriePath_advances_marker :
  forall (utils : Utils) this kGetPieces kGetIds kGetOffsets fuel input_word
         woff node original cur out original' cur' node' out',
    kGetPieces || kGetIds = true ->
    0 <= original ->
    node <> kRootNodeId (trie_ this) ->
    HandleTheRemainingStringOnTriePath this kGetPieces kGetIds kGetOffsets
      fuel input_word woff node original cur out
    = Ok (original', cur', node', out') ->
    original' = GetCurrentOutputSize kGetPieces out'.
Proof.
  intros utils this kP kI kO fuel word woff node orig cur out orig' cur'
         node' out' Hstatic Horig Hroot.
  unfold HandleTheRemainingStringOnTriePath.
  apply Z.eqb_neq in Hroot. rewrite Hroot.
  destruct (TryHandleTheInputWordBeingSuffixIndicatorItself this kP kI kO
              word woff node cur orig out) as [handled [c o]].
  destruct handled; [intro H; inversion H; subst; reflexivity|].
  clear c o Hroot. revert cur node out.
  induction fuel as [|fuel IH]; intros cur node out;
    cbn [collect_remaining_tokens];
    destruct (negb (node =? trie_suffix_root (config_ this))
              && negb (node =? trie_punct_failure_link_node (config_ this)));
    try discriminate;
    try (intro H; inversion H; subst; reflexivity).
  destruct (TryFollowFailureLinkAndCollectTokens this kP kI kO word woff cur
              node out) as [[followed [[c nd] o]]|err]; cbn [bind];
    [|discriminate].
  destruct followed; [apply IH|].
  pose proof (ResetOutputAppendUnknownToken_size this kP kI kO woff
                (size word) orig o Hstatic Horig) as Hsize.
  destruct (ResetOutputAppendUnknownToken this kP kI kO woff (size word) orig o)
    as [orig1 o1] eqn:Hr.
  assert (Horig1 : orig1 = orig + 1).
  { unfold ResetOutputAppendUnknownToken in Hr. inversion Hr. reflexivity. }
  cbn [snd] in Hsize. intro H; inversion H; subst. lia.
Qed.

(** C9.  The property fails on the model with the empty suffix indicator.
    On the text [a b] the word [a] is flushed with the cursor at the trie
    root, which is also [trie_suffix_root]:
    [HandleTheRemainingStringOnTriePath] returns at its first test and
    [original_num_tokens] stays 0 although the outputs hold one token.  The
    unknown word [b] then resets the outputs to that marker, and the token
    of [a] is lost: the result is the single unknown token over [[2, 3)]. *)
Theorem rollback_marker_stale_at_root :
  tokenize_next_word (utils := example_utils) (icu := example_icu)
    bare_tokenizer true true true 50 (bytes_of "a b")
    (initial_text_state true no_outputs)
  = Ok (inl bare_after_first_word)
  /\ GetCurrentOutputSize true (outputs bare_after_first_word) = 1
  /\ original_num_tokens bare_after_first_word = 0
  /\ Tokenize (utils := example_utils) (icu := example_icu) bare_tokenizer 50
       (bytes_of "a b") 0 no_outputs
     = Ok {| output_pieces := [bytes_of "[UNK]"]; output_ids := [1];
             output_start_offsets := [2]; output_end_offsets := [3] |}.
Proof. repeat split; reflexivity. Qed.

(** C2.  The property fails on the same model and text, by the defect shown
    for C9.  When the word [b] begins, the outputs hold the token of [a].
    The word triggers the unknown-token policy; the outputs are cut back to
    no token at all rather than to the one token they held, so the result
    is not the outputs before the word with one unknown token appended. *)
Theorem unknown_word_resets_past_its_start :
  tokenize_next_word (utils := example_utils) (icu := example_icu)
    bare_tokenizer true true true 50 (bytes_of "a b") bare_after_first_word
  = Ok (inl {| cur_pos := 3; next_pos := 3;
               prev_unicode_char := 32; cur_unicode_char := 98;
               original_num_tokens := 1;
               outputs :=
                 {| output_pieces := [bytes_of "[UNK]"]; output_ids := [1];
                    output_start_offsets := [2];
                    output_end_offsets := [3] |} |})
  /\ append_unknown_token bare_tokenizer true true true 2 3
       (outputs bare_after_first_word)
     = {| output_pieces := [bytes_of "a"; bytes_of "[UNK]"];
          output_ids := [0; 1];
          output_start_offsets := [0; 2];
          output_end_offsets := [1; 3] |}
  /\ {| output_pieces := [bytes_of "[UNK]"]; output_ids := [1];
        output_start_offsets := [2]; output_end_offsets := [3] |}
     <> append_unknown_token bare_tokenizer true true true 2 3
          (outputs bare_after_first_word).
Proof. repeat split; try reflexivity. discriminate. Qed.

(** ** From a word to its tokens and back *)

Lemma bytes_eqb_eq : forall a b, bytes_eqb a b = true -> a = b.
Proof.
  induction a as [|x a IH]; destruct b as [|y b]; cbn [bytes_eqb];
    try discriminate; [reflexivity|].
  intro H. apply andb_true_iff in H. destruct H as [Hxy Hab].
  apply Ascii.eqb_eq in Hxy. apply IH in Hab. congruence.
Qed.

Lemma has_prefix_split : forall prefix s,
  has_prefix prefix s = true -> s = prefix ++ skipn (length prefix) s.
Proof.
  induction prefix as [|x prefix IH]; destruct s as [|y s]; cbn [has_prefix];
    try discriminate; try reflexivity.
  intro H. apply andb_true_iff in H. destruct H as [Hxy Hp].
  apply Ascii.eqb_eq in Hxy. subst y. cbn [length skipn app].
  f_equal. apply IH. exact Hp.
Qed.

Lemma has_prefix_length : forall prefix s,
  has_prefix prefix s = true -> (length prefix <= length s)%nat.
Proof.
  intros prefix s H. apply has_prefix_split in H.
  rewrite H, length_app. lia.
Qed.

Lemma has_prefix_app : forall prefix s t,
  has_prefix prefix s = true -> has_prefix prefix (s ++ t) = true.
Proof.
  induction prefix as [|x prefix IH]; destruct s as [|y s];
    cbn [has_prefix app];
    try discriminate; try reflexivity.
  intros t H. apply andb_true_iff in H. destruct H as [Hxy Hp].
  rewrite Hxy. cbn [andb]. apply IH. exact Hp.
Qed.

Lemma has_prefix_nil : forall prefix,
  has_prefix prefix [] = true -> prefix = [].
Proof. intros [|x prefix]; [reflexivity | discriminate]. Qed.

Lemma In_all_bytes : forall ch, In ch all_bytes.
Proof.
  intro ch. unfold all_bytes. apply in_map_iff.
  exists (nat_of_ascii ch). split; [apply ascii_nat_embedding|].
  apply in_seq. pose proof (nat_ascii_bounded ch). lia.
Qed.

Lemma label_of_In : forall labels node s,
  label_of labels node = Some s -> In (node, s) labels.
Proof.
  intros labels node s. unfold label_of.
  destruct (find (fun l => fst l =? node) labels) as [[v t]|] eqn:Hf;
    [|discriminate].
  intro H. inversion H; subst. apply find_some in Hf.
  destruct Hf as [Hin Hv]. cbn [fst] in Hv. apply Z.eqb_eq in Hv.
  subst. exact Hin.
Qed.

Lemma lookup_tokens_app : forall config a b ta tb,
  lookup_tokens config a = Ok ta ->
  lookup_tokens config b = Ok tb ->
  lookup_tokens config (a ++ b) = Ok (ta ++ tb).
Proof.
  intros config a. induction a as [|id a IH]; intros b ta tb Ha Hb.
  - cbn in Ha. inversion Ha; subst. exact Hb.
  - cbn [lookup_tokens app] in *.
    destruct (Get (vocab_array config) id) as [v|]; cbn [bind] in *;
      [|discriminate].
    destruct (Get (vocab_is_suffix_array config) id) as [f|]; cbn [bind] in *;
      [|discriminate].
    destruct (lookup_tokens config a) as [ta'|] eqn:Hta; cbn [bind] in *;
      [|discriminate].
    inversion Ha; subst. rewrite (IH b ta' tb eq_refl Hb). reflexivity.
Qed.

Section RoundTrip.

Context {utils : Utils}.
Variable this : FastWordpieceTokenizer.
Variable labels : list (Z * bytes).

Lemma tokens_of_app : forall a b ta tb,
  tokens_of (config_ this) a = Some ta ->
  tokens_of (config_ this) b = Some tb ->
  tokens_of (config_ this) (a ++ b) = Some (ta ++ tb).
Proof.
  intros a b ta tb. unfold tokens_of. rewrite map_app.
  destruct (lookup_tokens (config_ this) (map GetTokenId a)) as [ta'|] eqn:Ha;
    [|discriminate].
  destruct (lookup_tokens (config_ this) (map GetTokenId b)) as [tb'|] eqn:Hb;
    [|discriminate].
  intros H1 H2. inversion H1; inversion H2; subst.
  rewrite (lookup_tokens_app _ _ _ _ _ Ha Hb). reflexivity.
Qed.

Lemma one_word_app : forall ea eb spelled,
  one_word (suffix_indicator (config_ this)) ea = Some spelled ->
  forallb snd eb = true ->
  one_word (suffix_indicator (config_ this)) (ea ++ eb)
  = Some (spelled ++ concat (map fst eb)).
Proof.
  intros [|[v f] rest] eb spelled; cbn [one_word app]; [discriminate|].
  destruct (forallb snd rest) eqn:Hrest; [|discriminate].
  intros H Heb. inversion H; subst.
  rewrite forallb_app, Hrest, Heb. cbn [andb].
  rewrite map_app, concat_app, <- !app_assoc. reflexivity.
Qed.

Lemma one_word_of_suffixes : forall entries spelled,
  one_word (suffix_indicator (config_ this)) entries = Some spelled ->
  starts_with_suffix entries = true ->
  forallb snd entries = true
  /\ spelled = (suffix_indicator (config_ this)) ++ concat (map fst entries).
Proof.
  intros [|[v f] rest] spelled; cbn [one_word starts_with_suffix];
    [discriminate|].
  destruct (forallb snd rest) eqn:Hrest; [|discriminate].
  intros H Hf. subst f. inversion H; subst.
  cbn [forallb snd map fst concat]. rewrite Hrest. split; reflexivity.
Qed.

Lemma detokenize_suffixes : forall entries st,
  forallb snd entries = true ->
  pending st <> [] ->
  fold_left (spec_detokenize_rule (suffix_indicator (config_ this))) entries st
  = {| pending := pending st ++ map fst entries; words := words st |}.
Proof.
  induction entries as [|[v f] rest IH]; intros [pend ws] Hall Hpend.
  - cbn. rewrite app_nil_r. reflexivity.
  - cbn [forallb snd] in Hall. apply andb_true_iff in Hall.
    destruct Hall as [Hf Hrest]. subst f.
    cbn [fold_left]. cbn [pending] in Hpend.
    destruct pend as [|q pend]; [contradiction|].
    unfold spec_detokenize_rule at 2. cbn [pending words fst snd].
    rewrite IH; [|exact Hrest|cbn; discriminate].
    cbn [pending words map fst]. rewrite <- app_assoc. reflexivity.
Qed.

Lemma DetokenizeToTokens_one_word : forall tokens entries spelled,
  support_detokenization (config_ this) = true ->
  tokens_of (config_ this) tokens = Some entries ->
  one_word (suffix_indicator (config_ this)) entries = Some spelled ->
  DetokenizeToTokens this (map GetTokenId tokens) = Ok [spelled].
Proof.
  intros tokens entries spelled Hsupport Htok Hword.
  unfold DetokenizeToTokens. rewrite Hsupport. cbn [negb].
  rewrite detokenize_ids_rule. unfold tokens_of in Htok.
  destruct (lookup_tokens (config_ this) (map GetTokenId tokens)) as [e|];
    [|discriminate].
  inversion Htok; subst e. cbn [bind]. f_equal.
  destruct entries as [|[v f] rest]; [discriminate|].
  cbn [one_word] in Hword.
  destruct (forallb snd rest) eqn:Hrest; [|discriminate].
  inversion Hword; subst spelled.
  unfold spec_detokenize_to_tokens. cbn [fold_left].
  destruct f; unfold spec_detokenize_rule at 2; cbn [pending words fst snd];
    (rewrite detokenize_suffixes; [|exact Hrest|cbn; discriminate]);
    unfold spec_detokenize_flush; cbn [pending words app];
    rewrite ?concat_app; cbn [concat app map]; rewrite ?app_nil_r;
    reflexivity.
Qed.

Hypothesis consistent : consistent_model this labels = true.

Lemma consistent_parts :
  label_of labels (kRootNodeId (trie_ this)) = Some []
  /\ label_of labels (trie_suffix_root (config_ this))
     = Some (suffix_indicator (config_ this))
  /\ label_of labels (trie_punct_failure_link_node (config_ this)) = None
  /\ forallb (check_node this labels) labels = true
  /\ check_precomputed (config_ this) = true.
Proof.
  pose proof consistent as H. unfold consistent_model in H.
  apply andb_true_iff in H. destruct H as [H Hpre].
  apply andb_true_iff in H. destruct H as [H Hnodes].
  apply andb_true_iff in H. destruct H as [H Hpunct].
  apply andb_true_iff in H. destruct H as [Hroot Hsuffix].
  destruct (label_of labels (kRootNodeId (trie_ this))) as [r|];
    [|discriminate].
  destruct (label_of labels (trie_suffix_root (config_ this))) as [q|];
    [|discriminate].
  destruct (label_of labels (trie_punct_failure_link_node (config_ this)));
    [discriminate|].
  apply bytes_eqb_eq in Hroot. apply bytes_eqb_eq in Hsuffix. subst.
  repeat split; assumption.
Qed.

Lemma consistent_root : label_of labels (kRootNodeId (trie_ this)) = Some [].
Proof. apply consistent_parts. Qed.

Lemma consistent_suffix_root :
  label_of labels (trie_suffix_root (config_ this))
  = Some (suffix_indicator (config_ this)).
Proof. apply consistent_parts. Qed.

Lemma consistent_punct :
  label_of labels (trie_punct_failure_link_node (config_ this)) = None.
Proof. apply consistent_parts. Qed.

Lemma consistent_node : forall node s,
  label_of labels node = Some s -> check_node this labels (node, s) = true.
Proof.
  intros node s Hl. apply label_of_In in Hl.
  destruct consistent_parts as [_ [_ [_ [H _]]]].
  rewrite forallb_forall in H. apply (H _ Hl).
Qed.

Lemma consistent_precomputed : check_precomputed (config_ this) = true.
Proof. apply consistent_parts. Qed.

Lemma step_label : forall node s ch next,
  label_of labels node = Some s ->
  TryTraverseOneStep (trie_ this) node ch = Some next ->
  label_of labels next = Some (s ++ [ch]).
Proof.
  intros node s ch next Hl Hstep.
  pose proof (consistent_node node s Hl) as Hc. unfold check_node in Hc.
  apply andb_true_iff in Hc. destruct Hc as [Hedges _].
  rewrite forallb_forall in Hedges.
  specialize (Hedges ch (In_all_bytes ch)). cbn [fst snd] in Hedges.
  rewrite Hstep in Hedges.
  destruct (label_of labels next) as [s'|]; [|discriminate].
  apply bytes_eqb_eq in Hedges. rewrite Hedges. reflexivity.
Qed.

Lemma tracks_label : forall tokens node p,
  tracks (config_ this) labels tokens node p ->
  exists s, label_of labels node = Some s.
Proof.
  intros tokens node p [[_ H]|[spelled [s [_ [H _]]]]]; eauto.
Qed.

Lemma tracks_step : forall tokens node p ch next,
  tracks (config_ this) labels tokens node p ->
  TryTraverseOneStep (trie_ this) node ch = Some next ->
  tracks (config_ this) labels tokens next (p ++ [ch]).
Proof.
  intros tokens node p ch next [[Hnil Hl]|[spelled [s [Hw [Hl [Hp Heq]]]]]]
         Hstep.
  - left. split; [exact Hnil|]. eapply step_label; eauto.
  - right. exists spelled, (s ++ [ch]).
    split; [exact Hw|]. split; [eapply step_label; eauto|].
    split; [apply has_prefix_app; exact Hp|].
    rewrite skipn_app.
    pose proof (has_prefix_length _ _ Hp) as Hlen.
    replace (length (suffix_indicator (config_ this)) - length s)%nat with 0%nat
      by lia.
    cbn [skipn]. rewrite Heq, <- app_assoc. reflexivity.
Qed.

Lemma unmatched_length_le : forall s,
  (unmatched_length (suffix_indicator (config_ this)) s <= length s)%nat.
Proof.
  intro s. unfold unmatched_length.
  destruct (has_prefix (suffix_indicator (config_ this)) s); lia.
Qed.

Lemma tracks_bound : forall tokens node p,
  tracks (config_ this) labels tokens node p ->
  (unmatched_at (config_ this) labels node <= length p)%nat.
Proof.
  intros tokens node p [[_ Hl]|[spelled [s [_ [Hl [Hp Heq]]]]]];
    unfold unmatched_at; rewrite Hl.
  - apply unmatched_length_le.
  - unfold unmatched_length. rewrite Hp.
    rewrite Heq, length_app, length_skipn. lia.
Qed.

Lemma AppendTokenToOutput_emitted :
  forall kGetPieces kGetOffsets input_word woff cur e out0 out tokens,
    emitted kGetPieces out0 out tokens ->
    emitted kGetPieces out0
      (snd (AppendTokenToOutput this kGetPieces true kGetOffsets input_word
              woff cur e out))
      (tokens ++ [e]).
Proof.
  intros kP kO word woff cur e out0 [ps ids ss es] tokens [Hids Hsize].
  unfold emitted, AppendTokenToOutput, GetCurrentOutputSize, size in *.
  cbn [output_ids output_pieces] in *.
  rewrite map_app, app_assoc, <- Hids. cbn [map].
  rewrite !length_app. cbn [length].
  destruct kP, kO;
    cbn [orb fst snd with_ids with_pieces with_offsets output_pieces
         output_ids push_back] in *;
    unfold push_back; rewrite ?length_app; cbn [length];
    split; try reflexivity; lia.
Qed.

Lemma append_tokens_emitted :
  forall kGetPieces kGetOffsets input_word woff pops cur out0 out tokens,
    emitted kGetPieces out0 out tokens ->
    emitted kGetPieces out0
      (snd (append_tokens this kGetPieces true kGetOffsets input_word woff
              pops cur out))
      (tokens ++ pops).
Proof.
  intros kP kO word woff pops.
  induction pops as [|e pops IH]; intros cur out0 out tokens He.
  - rewrite app_nil_r. exact He.
  - rewrite append_tokens_cons.
    replace (tokens ++ e :: pops) with ((tokens ++ [e]) ++ pops)
      by (rewrite <- app_assoc; reflexivity).
    apply IH. apply AppendTokenToOutput_emitted. exact He.
Qed.

Lemma skipn_exact : forall (A : Type) (a b : list A),
  skipn (length a) (a ++ b) = b.
Proof.
  intros A a b. rewrite skipn_app, skipn_all, Nat.sub_diag. reflexivity.
Qed.

Lemma pops_track : forall tokens node p s pops link,
  label_of labels node = Some s ->
  check_pops (config_ this) labels s pops link = true ->
  tracks (config_ this) labels tokens node p ->
  tracks (config_ this) labels (tokens ++ pops) link p
  /\ tokens ++ pops <> []
  /\ (unmatched_at (config_ this) labels link
      < unmatched_at (config_ this) labels node)%nat.
Proof.
  intros tokens node p s pops link Hl Hc Ht.
  unfold check_pops in Hc.
  destruct (label_of labels link) as [su|] eqn:Hlu; [|discriminate].
  destruct (tokens_of (config_ this) pops) as [entries|] eqn:Hpops;
    [|discriminate].
  destruct (one_word (suffix_indicator (config_ this)) entries)
    as [popped|] eqn:Hw;
    [|discriminate].
  apply andb_true_iff in Hc. destruct Hc as [Hc Hhead].
  apply andb_true_iff in Hc. destruct Hc as [Hc Hlt].
  apply andb_true_iff in Hc. destruct Hc as [Hpre Heq].
  apply bytes_eqb_eq in Heq. apply Nat.ltb_lt in Hlt.
  assert (Hne : pops <> []).
  { intro Hnil. subst pops. cbn in Hpops. inversion Hpops; subst entries.
    discriminate. }
  split; [|split].
  - destruct Ht as [[Hnil Hlp]|[spelled [s' [Hwt [Hl' [Hp Hpeq]]]]]].
    + subst tokens. cbn [app]. right. exists popped, su.
      unfold word_of_tokens. rewrite Hpops.
      repeat split; try assumption. congruence.
    + assert (s' = s) by congruence. subst s'.
      rewrite Hp in Hhead. cbn [negb orb] in Hhead.
      destruct (one_word_of_suffixes _ _ Hw Hhead) as [Hall Hpopped].
      unfold word_of_tokens in Hwt.
      destruct (tokens_of (config_ this) tokens) as [te|] eqn:Hte;
        [|discriminate].
      right. exists (spelled ++ concat (map fst entries)), su.
      unfold word_of_tokens.
      rewrite (tokens_of_app _ _ _ _ Hte Hpops).
      split; [apply one_word_app; assumption|].
      split; [exact Hlu|]. split; [exact Hpre|].
      rewrite Hpeq, Heq, Hpopped.
      rewrite <- !app_assoc, skipn_exact. reflexivity.
  - intro H. apply app_eq_nil in H. destruct H as [_ H]. contradiction.
  - unfold unmatched_at. rewrite Hlu, Hl.
    unfold unmatched_length at 1. rewrite Hpre. exact Hlt.
Qed.

Lemma failure_transition :
  forall node s kGetPieces kGetOffsets input_word woff cur out,
    label_of labels node = Some s ->
    TryFollowFailureLinkAndCollectTokens this kGetPieces true kGetOffsets
      input_word woff cur node out = Ok (false, (cur, node, out))
    \/ exists pops link,
         check_pops (config_ this) labels s pops link = true
         /\ TryFollowFailureLinkAndCollectTokens this kGetPieces true
              kGetOffsets input_word woff cur node out
            = Ok (true,
                  (fst (append_tokens this kGetPieces true kGetOffsets
                          input_word woff pops cur out),
                   link,
                   snd (append_tokens this kGetPieces true kGetOffsets
                          input_word woff pops cur out))).
Proof.
  intros node s kP kO word woff cur out Hl.
  pose proof (consistent_node node s Hl) as Hc. unfold check_node in Hc.
  apply andb_true_iff in Hc. destruct Hc as [_ Hc]. cbn [fst snd] in Hc.
  unfold TryFollowFailureLinkAndCollectTokens.
  destruct (Get (failure_struct_array (config_ this)) node) as [aux|] eqn:Haux;
    [|discriminate].
  destruct (TryGetData (trie_ this) node) as [data|].
  - right. exists [data], (failure_link aux). split; [exact Hc|].
    unfold append_tokens. cbn [fold_left fst snd bind].
    destruct (AppendTokenToOutput this kP true kO word woff cur data out);
      reflexivity.
  - cbn [bind].
    destruct (failure_link aux =? kNullNode); [left; reflexivity|].
    cbn [orb] in Hc.
    destruct (GetFailurePopsOffsetAndLength (failure_pops_offset_length aux))
      as [offset len].
    apply andb_true_iff in Hc. destruct Hc as [Hc Hpops].
    apply andb_true_iff in Hc. destruct Hc as [Hlo Hhi].
    apply Z.leb_le in Hlo. apply Z.leb_le in Hhi.
    right. exists (substr (failure_pops_pool (config_ this)) offset len),
      (failure_link aux).
    split; [exact Hpops|].
    replace (offset + len - offset) with len by lia.
    unfold substr.
    destruct (Z.to_nat len) as [|k] eqn:Hk.
    + cbn [collect_failure_pops firstn bind]. reflexivity.
    + rewrite collect_failure_pops_slice by lia. cbn [bind].
      destruct (append_tokens this kP true kO word woff
                  (firstn (S k)
                     (skipn (Z.to_nat offset)
                        (failure_pops_pool (config_ this)))) cur out);
        reflexivity.
Qed.

Lemma TryFollowFailureLinkAndCollectTokens_tracks :
  forall kGetPieces kGetOffsets input_word woff cur node out out0 tokens p,
    tracks (config_ this) labels tokens node p ->
    emitted kGetPieces out0 out tokens ->
    TryFollowFailureLinkAndCollectTokens this kGetPieces true kGetOffsets
      input_word woff cur node out = Ok (false, (cur, node, out))
    \/ exists cur' link out' tokens',
         TryFollowFailureLinkAndCollectTokens this kGetPieces true kGetOffsets
           input_word woff cur node out = Ok (true, (cur', link, out'))
         /\ tracks (config_ this) labels tokens' link p
         /\ emitted kGetPieces out0 out' tokens'
         /\ tokens' <> []
         /\ (unmatched_at (config_ this) labels link
             < unmatched_at (config_ this) labels node)%nat.
Proof.
  intros kP kO word woff cur node out out0 tokens p Ht He.
  destruct (tracks_label _ _ _ Ht) as [s Hl].
  destruct (failure_transition node s kP kO word woff cur out Hl)
    as [Hf|[pops [link [Hc Hf]]]]; [left; exact Hf|].
  right.
  destruct (pops_track tokens node p s pops link Hl Hc Ht) as [Ht' [Hne Hlt]].
  eexists _, link, _, (tokens ++ pops).
  split; [exact Hf|]. split; [exact Ht'|].
  split; [apply append_tokens_emitted; exact He|].
  split; assumption.
Qed.

Lemma follow_failure_links_tracks :
  forall fuel ch kGetPieces kGetOffsets input_word woff cur node out out0
         tokens p,
    (unmatched_at (config_ this) labels node < fuel)%nat ->
    tracks (config_ this) labels tokens node p ->
    emitted kGetPieces out0 out tokens ->
    exists consumed cur' node' out' tokens',
      follow_failure_links this kGetPieces true kGetOffsets fuel
        (fun n => TryTraverseOneStep (trie_ this) n ch) input_word woff cur
        node out = Ok (consumed, (cur', node', out'))
      /\ emitted kGetPieces out0 out' tokens'
      /\ (consumed = true ->
          tracks (config_ this) labels tokens' node' (p ++ [ch])).
Proof.
  induction fuel as [|fuel IH];
    intros ch kP kO word woff cur node out out0 tokens p Hfuel Ht He;
    [lia|].
  cbn [follow_failure_links].
  destruct (TryTraverseOneStep (trie_ this) node ch) as [next|] eqn:Hstep.
  - exists true, cur, next, out, tokens.
    split; [reflexivity|]. split; [exact He|].
    intros _. eapply tracks_step; eauto.
  - destruct (TryFollowFailureLinkAndCollectTokens_tracks kP kO word woff cur
                node out out0 tokens p Ht He)
      as [Hf|[cur' [link [out' [tokens' [Hf [Ht' [He' [_ Hlt]]]]]]]]];
      rewrite Hf; cbn [bind].
    + exists false, cur, node, out, tokens.
      split; [reflexivity|]. split; [exact He|]. discriminate.
    + apply (IH ch kP kO word woff cur' link out' out0 tokens' p);
        [lia | exact Ht' | exact He'].
Qed.

Lemma match_word_tracks :
  forall fuel kGetPieces kGetOffsets input_word woff rest p cur node out out0
         tokens,
    p ++ rest = input_word ->
    (length input_word < fuel)%nat ->
    tracks (config_ this) labels tokens node p ->
    emitted kGetPieces out0 out tokens ->
    exists matched cur' node' out' tokens',
      match_word this kGetPieces true kGetOffsets fuel input_word woff rest
        cur node out = Ok (matched, (cur', node', out'))
      /\ emitted kGetPieces out0 out' tokens'
      /\ (matched = true ->
          tracks (config_ this) labels tokens' node' input_word).
Proof.
  intros fuel kP kO word woff rest.
  induction rest as [|ch rest IH];
    intros p cur node out out0 tokens Hword Hfuel Ht He.
  - rewrite app_nil_r in Hword. subst p.
    exists true, cur, node, out, tokens.
    split; [reflexivity|]. split; [exact He|]. intros _. exact Ht.
  - cbn [match_word].
    pose proof (tracks_bound _ _ _ Ht) as Hb.
    assert (Hp : (length p <= length word)%nat).
    { rewrite <- Hword, length_app. lia. }
    destruct (follow_failure_links_tracks fuel ch kP kO word woff cur node out
                out0 tokens p ltac:(lia) Ht He)
      as [consumed [cur' [node' [out' [tokens' [Hf [He' Ht']]]]]]].
    rewrite Hf. cbn [bind]. destruct consumed.
    + apply (IH (p ++ [ch]) cur' node' out' out0 tokens'); auto.
      rewrite <- app_assoc. exact Hword.
    + exists false, cur', node', out', tokens'.
      split; [reflexivity|]. split; [exact He'|]. discriminate.
Qed.

Lemma ResetOutputAppendUnknownToken_ids :
  forall kGetPieces kGetOffsets first input_size original out,
    output_ids (snd (ResetOutputAppendUnknownToken this kGetPieces true
                       kGetOffsets first input_size original out))
    = set_back (unk_token_id (config_ this))
        (resize 0 (original + 1) (output_ids out)).
Proof.
  intros kP kO first sz orig [ps ids ss es].
  unfold ResetOutputAppendUnknownToken.
  destruct kP, kO; reflexivity.
Qed.

Lemma ResetOutputAppendUnknownToken_was_reset :
  forall kGetPieces kGetOffsets first input_size out0 out tokens,
    emitted kGetPieces out0 out tokens ->
    was_reset this kGetPieces out0
      (snd (ResetOutputAppendUnknownToken this kGetPieces true kGetOffsets
              first input_size (GetCurrentOutputSize kGetPieces out0) out)).
Proof.
  intros kP kO first sz out0 out tokens He.
  exists out, tokens. split; [exact He|].
  apply ResetOutputAppendUnknownToken_ids.
Qed.

Lemma collect_remaining_tokens_tracks :
  forall fuel kGetPieces kGetOffsets input_word woff cur node out out0 tokens,
    (unmatched_at (config_ this) labels node < fuel)%nat ->
    tracks (config_ this) labels tokens node input_word ->
    emitted kGetPieces out0 out tokens ->
    exists original cur' node' out',
      collect_remaining_tokens this kGetPieces true kGetOffsets fuel
        input_word woff (GetCurrentOutputSize kGetPieces out0) cur node out
      = Ok (original, cur', node', out')
      /\ (was_reset this kGetPieces out0 out'
          \/ exists tokens',
               emitted kGetPieces out0 out' tokens'
               /\ tracks (config_ this) labels tokens'
                    (trie_suffix_root (config_ this)) input_word
               /\ (tokens' = [] ->
                   tokens = [] /\ node = trie_suffix_root (config_ this))).
Proof.
  induction fuel as [|fuel IH];
    intros kP kO word woff cur node out out0 tokens Hfuel Ht He; [lia|].
  cbn [collect_remaining_tokens].
  destruct (node =? trie_suffix_root (config_ this)) eqn:Hs.
  - apply Z.eqb_eq in Hs. subst node. cbn [negb andb].
    eexists _, cur, _, out. split; [reflexivity|].
    right. exists tokens. split; [exact He|]. split; [exact Ht|].
    intro H. split; [exact H | reflexivity].
  - destruct (node =? trie_punct_failure_link_node (config_ this)) eqn:Hp.
    + apply Z.eqb_eq in Hp. subst node.
      destruct (tracks_label _ _ _ Ht) as [s Hl].
      rewrite consistent_punct in Hl. discriminate.
    + cbn [negb andb].
      destruct (TryFollowFailureLinkAndCollectTokens_tracks kP kO word woff
                  cur node out out0 tokens word Ht He)
        as [Hf|[cur' [link [out' [tokens' [Hf [Ht' [He' [Hne Hlt]]]]]]]]];
        rewrite Hf; cbn [bind].
      * destruct (ResetOutputAppendUnknownToken this kP true kO woff
                    (size word) (GetCurrentOutputSize kP out0) out)
          as [orig o] eqn:Hr.
        exists orig, cur, node, o. split; [reflexivity|]. left.
        pose proof (ResetOutputAppendUnknownToken_was_reset kP kO woff
                      (size word) out0 out tokens He) as Hw.
        rewrite Hr in Hw. exact Hw.
      * destruct (IH kP kO word woff cur' link out' out0 tokens'
                    ltac:(lia) Ht' He')
          as [orig [c [nd [o [Hc [Hw|[tokens'' [He'' [Ht'' Hnil]]]]]]]]].
        -- exists orig, c, nd, o. split; [exact Hc|]. left. exact Hw.
        -- exists orig, c, nd, o. split; [exact Hc|]. right.
           exists tokens''. split; [exact He''|]. split; [exact Ht''|].
           intro H. destruct (Hnil H) as [H' _]. contradiction.
Qed.

Lemma tracks_at_suffix_root : forall tokens input_word,
  tokens <> [] ->
  tracks (config_ this) labels tokens (trie_suffix_root (config_ this))
    input_word ->
  word_of_tokens (config_ this) tokens = Some input_word.
Proof.
  intros tokens word Hne [[Hnil _]|[spelled [s [Hw [Hl [_ Heq]]]]]];
    [contradiction|].
  rewrite consistent_suffix_root in Hl. inversion Hl; subst s.
  rewrite skipn_all, app_nil_r in Heq.
  congruence.
Qed.

Lemma size_zero_nil : forall (A : Type) (l : list A), size l = 0 -> l = [].
Proof. intros A [|x l]; unfold size; cbn [length]; [reflexivity | lia]. Qed.

Lemma HandleTheRemainingStringOnTriePath_tracks :
  forall fuel kGetPieces kGetOffsets input_word woff cur node out out0 tokens,
    input_word <> [] ->
    (length input_word < fuel)%nat ->
    tracks (config_ this) labels tokens node input_word ->
    emitted kGetPieces out0 out tokens ->
    exists original cur' node' out',
      HandleTheRemainingStringOnTriePath this kGetPieces true kGetOffsets fuel
        input_word woff node (GetCurrentOutputSize kGetPieces out0) cur out
      = Ok (original, cur', node', out')
      /\ (was_reset this kGetPieces out0 out'
          \/ exists tokens',
               emitted kGetPieces out0 out' tokens'
               /\ word_of_tokens (config_ this) tokens' = Some input_word).
Proof.
  intros fuel kP kO word woff cur node out out0 tokens Hword Hfuel Ht He.
  pose proof (tracks_bound _ _ _ Ht) as Hbound.
  assert (Hloop :
    ~ (tokens = [] /\ node = trie_suffix_root (config_ this)) ->
    exists original cur' node' out',
      collect_remaining_tokens this kP true kO fuel word woff
        (GetCurrentOutputSize kP out0) cur node out
      = Ok (original, cur', node', out')
      /\ (was_reset this kP out0 out'
          \/ exists tokens',
               emitted kP out0 out' tokens'
               /\ word_of_tokens (config_ this) tokens' = Some word)).
  { intro Hnot.
    destruct (collect_remaining_tokens_tracks fuel kP kO word woff cur node
                out out0 tokens ltac:(lia) Ht He)
      as [orig [c [nd [o [Hc [Hw|[tokens' [He' [Ht' Hnil]]]]]]]]];
      exists orig, c, nd, o; (split; [exact Hc|]); [left; exact Hw|].
    right. exists tokens'. split; [exact He'|].
    apply tracks_at_suffix_root; [|exact Ht'].
    intro H. apply Hnot. apply Hnil. exact H. }
  unfold HandleTheRemainingStringOnTriePath.
  destruct (node =? kRootNodeId (trie_ this)) eqn:Hr.
  - apply Z.eqb_eq in Hr. subst node.
    eexists _, _, _, out. split; [reflexivity|]. right. exists tokens.
    split; [exact He|].
    destruct Ht as [[Hnil Hl]|[spelled [s [Hw [Hl [Hp Heq]]]]]];
      rewrite consistent_root in Hl; inversion Hl; subst.
    + contradiction.
    + rewrite skipn_nil, app_nil_r. exact Hw.
  - unfold TryHandleTheInputWordBeingSuffixIndicatorItself.
    destruct (node =? trie_suffix_root (config_ this)) eqn:Hs; cbn [negb].
    2:{ apply Hloop. intros [_ H]. apply Z.eqb_neq in Hs. contradiction. }
    destruct (GetCurrentOutputSize kP out =? GetCurrentOutputSize kP out0)
      eqn:Hsz; cbn [negb].
    2:{ apply Hloop. intros [H _]. subst tokens.
        destruct He as [_ He]. apply Z.eqb_neq in Hsz.
        unfold size in He. cbn [length] in He. lia. }
    apply Z.eqb_eq in Hs. apply Z.eqb_eq in Hsz. subst node.
    assert (Hnil : tokens = []).
    { destruct He as [_ He]. apply size_zero_nil. lia. }
    subst tokens.
    assert (Hind : word = (suffix_indicator (config_ this))).
    { destruct Ht as [[_ Hl]|[spelled [s [Hw _]]]]; [|discriminate].
      rewrite consistent_suffix_root in Hl. congruence. }
    pose proof consistent_precomputed as Hpre. unfold check_precomputed in Hpre.
    destruct ((size (precomputed_result_for_suffix_indicator (config_ this))
               =? 1)
              && (GetTokenId
                    (nth 0
                       (precomputed_result_for_suffix_indicator
                          (config_ this)) 0)
                  =? unk_token_id (config_ this))).
    + eexists _, _, _, _. split; [reflexivity|]. left.
      eapply ResetOutputAppendUnknownToken_was_reset; eauto.
    + cbn [orb] in Hpre.
      destruct (word_of_tokens (config_ this)
                  (precomputed_result_for_suffix_indicator (config_ this)))
        as [spelled|] eqn:Hw; [|discriminate].
      apply bytes_eqb_eq in Hpre. subst spelled.
      pose proof (append_tokens_emitted kP kO word woff
                    (precomputed_result_for_suffix_indicator (config_ this))
                    cur out0
                    out [] He) as He'.
      unfold append_tokens in He'. cbn [app] in He'.
      destruct (fold_left
                  (fun st encoded_token_value =>
                     AppendTokenToOutput this kP true kO word woff (fst st)
                       encoded_token_value (snd st))
                  (precomputed_result_for_suffix_indicator (config_ this))
                  (cur, out))
        as [c o] eqn:Hfold.
      cbn [snd] in He'.
      eexists _, _, _, _. split; [reflexivity|]. right.
      exists (precomputed_result_for_suffix_indicator (config_ this)).
      split; [exact He'|]. rewrite Hw, Hind. reflexivity.
Qed.

Lemma TokenizeSingleWordImpl_tracks :
  forall fuel kGetPieces kGetOffsets input_word woff out,
    input_word <> [] ->
    (length input_word < fuel)%nat ->
    exists out',
      TokenizeSingleWordImpl this kGetPieces true kGetOffsets fuel input_word
        woff out = Ok out'
      /\ (was_reset this kGetPieces out out'
          \/ exists tokens',
               emitted kGetPieces out out' tokens'
               /\ word_of_tokens (config_ this) tokens' = Some input_word).
Proof.
  intros fuel kP kO word woff out Hword Hfuel.
  assert (He : emitted kP out out []).
  { split; [cbn [map]; rewrite app_nil_r; reflexivity|].
    unfold size. cbn [length]. lia. }
  unfold TokenizeSingleWordImpl.
  destruct word as [|ch word']; [contradiction|].
  set (word := ch :: word') in *.
  destruct (size word >? max_bytes_per_token (config_ this)).
  - eexists. split; [reflexivity|]. left.
    eapply ResetOutputAppendUnknownToken_was_reset; eauto.
  - destruct (match_word_tracks fuel kP kO word woff word [] 0
                (kRootNodeId (trie_ this)) out out [] eq_refl Hfuel
                ltac:(left; split; [reflexivity | apply consistent_root]) He)
      as [matched [cur [node [out' [tokens [Hm [He' Ht]]]]]]].
    rewrite Hm. cbn [bind]. destruct matched.
    + destruct (HandleTheRemainingStringOnTriePath_tracks fuel kP kO word woff
                  cur node out' out tokens Hword Hfuel (Ht eq_refl) He')
        as [orig [c [nd [o [Hh Hres]]]]].
      rewrite Hh. cbn [bind]. exists o. split; [reflexivity | exact Hres].
    + eexists. split; [reflexivity|]. left.
      eapply ResetOutputAppendUnknownToken_was_reset; eauto.
Qed.

End RoundTrip.

(** C8, as stated, fails for the empty word: [Tokenize] emits nothing for
    it, so no unknown token is emitted, and the detokenizer turns the empty
    id sequence into no word at all, not into the one empty word. *)
Lemma empty_word_does_not_round_trip :
  Tokenize_ids (utils := example_utils) (icu := example_icu)
    (example_tokenizer false) 50 [] 0 no_outputs = Ok no_outputs
  /\ ~ In (unk_token_id (config_ (example_tokenizer false)))
         (output_ids no_outputs)
  /\ DetokenizeToTokens (example_tokenizer false) (output_ids no_outputs)
     = Ok []
  /\ DetokenizeToTokens (example_tokenizer false) (output_ids no_outputs)
     <> Ok [ [] ].
Proof.
  repeat split; try reflexivity.
  - intros [].
  - discriminate.
Qed.

(** C8, amended.  Let the model support detokenization and agree with its
    vocabulary: with the strings [labels] of the trie nodes, the failure
    pops of every node spell a prefix of the node's string, the failure
    link leads to the node of the rest, and the precomputed result spells
    the suffix indicator unless it is the unknown token.  Then
    [TokenizeSingleWordImpl] returns for every non-empty word when the fuel
    exceeds the length of the word, in each output mode that yields ids;
    and if none of the ids it appends is [unk_token_id], then
    [DetokenizeToTokens] of these ids is the one-element list of the
    word. *)
Theorem detokenize_tokenized_word :
  forall (utils : Utils) (this : FastWordpieceTokenizer)
         (labels : list (Z * bytes)) (kGetPieces kGetOffsets : bool)
         (fuel : nat) (input_word : bytes) (input_word_offset_in_text : Z)
         (n : nat) (out : Outputs),
    consistent_model this labels = true ->
    support_detokenization (config_ this) = true ->
    input_word <> [] ->
    in_sync kGetPieces true kGetOffsets n out ->
    (length input_word < fuel)%nat ->
    exists out',
      TokenizeSingleWordImpl this kGetPieces true kGetOffsets fuel input_word
        input_word_offset_in_text out = Ok out'
      /\ (~ In (unk_token_id (config_ this)) (skipn n (output_ids out')) ->
          DetokenizeToTokens this (skipn n (output_ids out'))
          = Ok [input_word]).
Proof.
  intros utils this labels kP kO fuel word woff n out Hcons Hsupport Hword
         Hsync Hfuel.
  destruct (TokenizeSingleWordImpl_tracks this labels Hcons fuel kP kO word
              woff out Hword Hfuel) as [out' [Htok Hres]].
  exists out'. split; [exact Htok|]. intro Hunk.
  assert (Hn : length (output_ids out) = n).
  { destruct Hsync as [_ [Hi _]]. apply Hi. reflexivity. }
  destruct Hres as [[out'' [tokens [[Hids _] Hreset]]]|[tokens [[Hids _] Hw]]].
  - exfalso. apply Hunk.
    rewrite (GetCurrentOutputSize_in_sync kP true kO n out
               (orb_true_r kP) Hsync) in Hreset.
    rewrite resize_set_back in Hreset
      by (rewrite Hids, length_app; lia).
    rewrite Hids, firstn_app, firstn_all2 in Hreset by lia.
    replace (n - length (output_ids out))%nat with 0%nat in Hreset by lia.
    cbn [firstn] in Hreset. rewrite app_nil_r in Hreset.
    rewrite Hreset, <- Hn, skipn_exact. left. reflexivity.
  - rewrite Hids, <- Hn, skipn_exact.
    unfold word_of_tokens in Hw.
    destruct (tokens_of (config_ this) tokens) as [entries|] eqn:He;
      [|discriminate].
    eapply DetokenizeToTokens_one_word; eauto.
Qed.

(** The concrete model agrees with its vocabulary; the ids of [abcz]
    detokenize to [abcz]. *)
Lemma detokenize_tokenized_word_witness :
  DetokenizeToTokens (example_tokenizer false) [0; 3; 4]
  = Ok [bytes_of "abcz"].
Proof.
  assert (Hsync : in_sync true true true 0 no_outputs).
  { repeat split; reflexivity. }
  assert (Hword : bytes_of "abcz" <> []) by discriminate.
  assert (Hfuel : (length (bytes_of "abcz") < 50)%nat) by (cbn; lia).
  destruct (detokenize_tokenized_word example_utils (example_tokenizer false)
              example_labels true true 50 (bytes_of "abcz") 0 0%nat no_outputs
              eq_refl eq_refl Hword Hsync Hfuel) as [out' [Htok Hdetok]].
  assert (Hout : out'
                 = {| output_pieces :=
                        [bytes_of "a"; bytes_of "##bc"; bytes_of "##z"];
                      output_ids := [0; 3; 4];
                      output_start_offsets := [0; 1; 3];
                      output_end_offsets := [1; 3; 4] |}).
  { assert (H : Ok out'
                = Ok {| output_pieces :=
                          [bytes_of "a"; bytes_of "##bc"; bytes_of "##z"];
                        output_ids := [0; 3; 4];
                        output_start_offsets := [0; 1; 3];
                        output_end_offsets := [1; 3; 4] |}).
    { rewrite <- Htok. reflexivity. }
    inversion H. reflexivity. }
  subst out'. apply Hdetok.
  cbn. intros [H|[H|[H|[]]]]; discriminate.
Defined.

(** ** The unknown token in single-word mode *)

(** X3.  In single-word mode a word longer than [max_bytes_per_token], a
    positive number, yields exactly one unknown token over the whole word,
    without a step in the trie: no fuel is needed. *)
Lemma single_word_too_long_is_unknown :
  forall (utils : Utils) this kGetPieces kGetIds kGetOffsets fuel input_word
         woff n out,
    kGetPieces || kGetIds = true ->
    in_sync kGetPieces kGetIds kGetOffsets n out ->
    0 < max_bytes_per_token (config_ this) ->
    size input_word > max_bytes_per_token (config_ this) ->
    TokenizeSingleWordImpl this kGetPieces kGetIds kGetOffsets fuel input_word
      woff out
    = Ok (append_unknown_token this kGetPieces kGetIds kGetOffsets woff
            (woff + size input_word) out).
Proof.
  intros utils this kP kI kO fuel word woff n out Hstatic Hsync Hmax Hlong.
  unfold TokenizeSingleWordImpl.
  destruct word as [|ch word'].
  - change (size (@nil ascii)) with 0 in Hlong. lia.
  - set (word := ch :: word') in *.
    apply Z.gt_lt, Z.gtb_lt in Hlong. rewrite Hlong.
    rewrite (GetCurrentOutputSize_in_sync _ _ _ _ _ Hstatic Hsync).
    rewrite (ResetOutputAppendUnknownToken_in_sync this kP kI kO woff
               (size word) n out Hsync).
    reflexivity.
Qed.

(** The concrete model, whose limit is 100 bytes, reads a word of 101 bytes
    at word offset 7 with no fuel at all. *)
Lemma single_word_too_long_is_unknown_witness :
  TokenizeSingleWordImpl (utils := example_utils) (example_tokenizer false)
    true true true 0 (repeat "a"%char 101) 7 no_outputs
  = Ok {| output_pieces := [bytes_of "[UNK]"]; output_ids := [5];
          output_start_offsets := [7]; output_end_offsets := [108] |}.
Proof.
  rewrite (single_word_too_long_is_unknown example_utils
             (example_tokenizer false) true true true 0
             (repeat "a"%char 101) 7 0%nat no_outputs).
  - reflexivity.
  - reflexivity.
  - repeat split; reflexivity.
  - reflexivity.
  - reflexivity.
Defined.

Lemma grows_refl : forall (A : Type) (in_use : bool) (l : list A),
  grows in_use l l.
Proof.
  intros A in_use l. exists []. split; [symmetry; apply app_nil_r|].
  reflexivity.
Qed.

Lemma grows_trans : forall (A : Type) (in_use : bool) (l l' l'' : list A),
  grows in_use l l' -> grows in_use l' l'' -> grows in_use l l''.
Proof.
  intros A in_use l l' l'' [a [Ha Ha']] [b [Hb Hb']].
  exists (a ++ b). split.
  - rewrite Hb, Ha, app_assoc. reflexivity.
  - intro H. rewrite (Ha' H), (Hb' H). reflexivity.
Qed.

Lemma grows_push_back : forall (A : Type) (l : list A) (x : A),
  grows true l (push_back l x).
Proof.
  intros A l x. exists [x]. split; [reflexivity | discriminate].
Qed.

Lemma grows_reset : forall (A : Type) (in_use : bool) (d x : A) (n : nat)
                           (l l' : list A),
  length l = n -> grows in_use l l' ->
  set_back x (resize d (Z.of_nat n + 1) l') = l ++ [x].
Proof.
  intros A in_use d x n l l' Hn [a [Ha _]]. subst l'.
  rewrite resize_set_back by (rewrite length_app; lia).
  rewrite firstn_app, firstn_all2 by lia.
  replace (n - length l)%nat with 0%nat by lia.
  cbn [firstn]. rewrite app_nil_r. reflexivity.
Qed.

Lemma grows_unused : forall (A : Type) (l l' : list A),
  grows false l l' -> l' = l.
Proof.
  intros A l l' [a [Ha Hnil]]. rewrite Ha, (Hnil eq_refl).
  apply app_nil_r.
Qed.

Section SingleWordUnknown.

Context {utils : Utils}.
Variable this : FastWordpieceTokenizer.
Variables kGetPieces kGetIds kGetOffsets : bool.
Variable input_word : bytes.
Variable woff : Z.

Lemma extends_refl : forall out,
  extends kGetPieces kGetIds kGetOffsets out out.
Proof. intro out. repeat split; apply grows_refl. Qed.

Lemma extends_trans : forall out out' out'',
  extends kGetPieces kGetIds kGetOffsets out out' ->
  extends kGetPieces kGetIds kGetOffsets out' out'' ->
  extends kGetPieces kGetIds kGetOffsets out out''.
Proof.
  intros out out' out'' [H1 [H2 [H3 H4]]] [G1 [G2 [G3 G4]]].
  repeat split; eapply grows_trans; eauto.
Qed.

Lemma AppendTokenToOutput_extends : forall cur e out,
  extends kGetPieces kGetIds kGetOffsets out
    (snd (AppendTokenToOutput this kGetPieces kGetIds kGetOffsets input_word
            woff cur e out)).
Proof.
  intros cur e [ps ids ss es]. unfold AppendTokenToOutput, extends.
  destruct kGetPieces, kGetIds, kGetOffsets;
    cbn [orb fst snd with_ids with_pieces with_offsets output_pieces
         output_ids output_start_offsets output_end_offsets];
    repeat split;
    first [apply grows_refl | apply grows_push_back].
Qed.

Lemma collect_failure_pops_extends : forall k offset cur out cur' out',
  collect_failure_pops this kGetPieces kGetIds kGetOffsets input_word woff k
    offset cur out = Ok (cur', out') ->
  extends kGetPieces kGetIds kGetOffsets out out'.
Proof.
  induction k as [|k IH]; intros offset cur out cur' out';
    cbn [collect_failure_pops].
  - intro H; inversion H; subst. apply extends_refl.
  - destruct (Get (failure_pops_pool (config_ this)) offset) as [e|];
      cbn [bind]; [|discriminate].
    pose proof (AppendTokenToOutput_extends cur e out) as He.
    destruct (AppendTokenToOutput this kGetPieces kGetIds kGetOffsets
                input_word woff cur e out) as [c o].
    intro H. apply IH in H. eapply extends_trans; eauto.
Qed.

Lemma TryFollowFailureLinkAndCollectTokens_extends :
  forall cur node out b cur' node' out',
    TryFollowFailureLinkAndCollectTokens this kGetPieces kGetIds kGetOffsets
      input_word woff cur node out = Ok (b, (cur', node', out')) ->
    extends kGetPieces kGetIds kGetOffsets out out'.
Proof.
  intros cur node out b cur' node' out'.
  unfold TryFollowFailureLinkAndCollectTokens.
  destruct (TryGetData (trie_ this) node) as [data|].
  - pose proof (AppendTokenToOutput_extends cur data out) as He.
    destruct (AppendTokenToOutput this kGetPieces kGetIds kGetOffsets
                input_word woff cur data out) as [c o].
    destruct (Get (failure_struct_array (config_ this)) node); cbn [bind];
      intro H; inversion H; subst. exact He.
  - destruct (Get (failure_struct_array (config_ this)) node) as [aux|];
      cbn [bind]; [|discriminate].
    destruct (failure_link aux =? kNullNode).
    + intro H; inversion H; subst. apply extends_refl.
    + destruct (GetFailurePopsOffsetAndLength (failure_pops_offset_length aux))
        as [offset len].
      destruct (collect_failure_pops this kGetPieces kGetIds kGetOffsets
                  input_word woff (Z.to_nat (offset + len - offset)) offset
                  cur out) as [[c o]|] eqn:Hc; cbn [bind]; [|discriminate].
      intro H; inversion H; subst.
      eapply collect_failure_pops_extends; eauto.
Qed.

Lemma follow_failure_links_extends :
  forall fuel try_traverse cur node out b cur' node' out',
    follow_failure_links this kGetPieces kGetIds kGetOffsets fuel try_traverse
      input_word woff cur node out = Ok (b, (cur', node', out')) ->
    extends kGetPieces kGetIds kGetOffsets out out'.
Proof.
  induction fuel as [|fuel IH];
    intros try_traverse cur node out b cur' node' out';
    cbn [follow_failure_links];
    destruct (try_traverse node);
    try (intro H; inversion H; subst; apply extends_refl); try discriminate.
  destruct (TryFollowFailureLinkAndCollectTokens this kGetPieces kGetIds
              kGetOffsets input_word woff cur node out)
    as [[f [[c nd] o]]|] eqn:Hf; cbn [bind]; [|discriminate].
  apply TryFollowFailureLinkAndCollectTokens_extends in Hf.
  destruct f.
  - intro H. apply IH in H. eapply extends_trans; eauto.
  - intro H; inversion H; subst. exact Hf.
Qed.

Lemma match_word_extends :
  forall fuel rest cur node out b cur' node' out',
    match_word this kGetPieces kGetIds kGetOffsets fuel input_word woff rest
      cur node out = Ok (b, (cur', node', out')) ->
    extends kGetPieces kGetIds kGetOffsets out out'.
Proof.
  intros fuel rest.
  induction rest as [|ch rest IH]; intros cur node out b cur' node' out';
    cbn [match_word].
  - intro H; inversion H; subst. apply extends_refl.
  - destruct (follow_failure_links this kGetPieces kGetIds kGetOffsets fuel
                (fun n => TryTraverseOneStep (trie_ this) n ch) input_word
                woff cur node out) as [[f [[c nd] o]]|] eqn:Hf;
      cbn [bind]; [|discriminate].
    apply follow_failure_links_extends in Hf.
    destruct f.
    + intro H. apply IH in H. eapply extends_trans; eauto.
    + intro H; inversion H; subst. exact Hf.
Qed.

Lemma ResetOutputAppendUnknownToken_extends :
  forall input_size n out out',
    in_sync kGetPieces kGetIds kGetOffsets n out ->
    extends kGetPieces kGetIds kGetOffsets out out' ->
    snd (ResetOutputAppendUnknownToken this kGetPieces kGetIds kGetOffsets
           woff input_size (Z.of_nat n) out')
    = append_unknown_token this kGetPieces kGetIds kGetOffsets woff
        (woff + input_size) out.
Proof.
  intros sz n [ps ids ss es] [ps' ids' ss' es'] [Hp [Hi Ho]] [G1 [G2 [G3 G4]]].
  cbn [output_pieces output_ids output_start_offsets output_end_offsets] in *.
  unfold ResetOutputAppendUnknownToken, append_unknown_token.
  destruct kGetPieces, kGetIds, kGetOffsets;
    cbn [snd with_ids with_pieces with_offsets output_pieces output_ids
         output_start_offsets output_end_offsets];
    try specialize (Hp eq_refl); try specialize (Hi eq_refl);
    try (destruct (Ho eq_refl) as [Hs He]);
    repeat match goal with
           | H : grows false ?l ?l' |- _ => apply grows_unused in H; subst l'
           end;
    repeat match goal with
           | H : grows true ?l ?l' |- context [resize _ _ ?l'] =>
               rewrite (grows_reset _ true _ _ n l l') by assumption
           end;
    reflexivity.
Qed.

Lemma append_tokens_compose : forall a b cur out c o c' o',
  append_tokens this kGetPieces kGetIds kGetOffsets input_word woff
    a cur out = (c, o) ->
  append_tokens this kGetPieces kGetIds kGetOffsets input_word woff
    b c o = (c', o') ->
  append_tokens this kGetPieces kGetIds kGetOffsets input_word woff
    (a ++ b) cur out = (c', o').
Proof.
  intros a b cur out c o c' o' Ha Hb. unfold append_tokens in *.
  rewrite fold_left_app, Ha. exact Hb.
Qed.

Lemma append_tokens_extends : forall tokens cur out c o,
  append_tokens this kGetPieces kGetIds kGetOffsets input_word woff
    tokens cur out = (c, o) ->
  extends kGetPieces kGetIds kGetOffsets out o.
Proof.
  induction tokens as [|e tokens IH]; intros cur out c o.
  - intro H. inversion H; subst. apply extends_refl.
  - rewrite append_tokens_cons. intro H. apply IH in H.
    eapply extends_trans; [apply AppendTokenToOutput_extends | exact H].
Qed.

Lemma collect_failure_pops_appends : forall k offset cur out cur' out',
  collect_failure_pops this kGetPieces kGetIds kGetOffsets input_word woff k
    offset cur out = Ok (cur', out') ->
  exists pops,
    append_tokens this kGetPieces kGetIds kGetOffsets input_word woff
      pops cur out = (cur', out').
Proof.
  induction k as [|k IH]; intros offset cur out cur' out';
    cbn [collect_failure_pops].
  - intro H; inversion H; subst. exists []. reflexivity.
  - destruct (Get (failure_pops_pool (config_ this)) offset) as [e|];
      cbn [bind]; [|discriminate].
    destruct (AppendTokenToOutput this kGetPieces kGetIds kGetOffsets
                input_word woff cur e out) as [c o] eqn:Ha.
    intro H. apply IH in H. destruct H as [pops Hp].
    exists (e :: pops). rewrite append_tokens_cons, Ha. exact Hp.
Qed.

Lemma TryFollowFailureLinkAndCollectTokens_appends :
  forall cur node out b cur' node' out',
    TryFollowFailureLinkAndCollectTokens this kGetPieces kGetIds kGetOffsets
      input_word woff cur node out = Ok (b, (cur', node', out')) ->
    exists pops,
      append_tokens this kGetPieces kGetIds kGetOffsets input_word woff
        pops cur out = (cur', out').
Proof.
  intros cur node out b cur' node' out'.
  unfold TryFollowFailureLinkAndCollectTokens.
  destruct (TryGetData (trie_ this) node) as [data|].
  - destruct (AppendTokenToOutput this kGetPieces kGetIds kGetOffsets
                input_word woff cur data out) as [c o] eqn:Ha.
    destruct (Get (failure_struct_array (config_ this)) node); cbn [bind];
      intro H; inversion H; subst.
    exists [data]. rewrite append_tokens_cons, Ha. reflexivity.
  - destruct (Get (failure_struct_array (config_ this)) node) as [aux|];
      cbn [bind]; [|discriminate].
    destruct (failure_link aux =? kNullNode).
    + intro H; inversion H; subst. exists []. reflexivity.
    + destruct (GetFailurePopsOffsetAndLength (failure_pops_offset_length aux))
        as [offset len].
      destruct (collect_failure_pops this kGetPieces kGetIds kGetOffsets
                  input_word woff (Z.to_nat (offset + len - offset)) offset
                  cur out) as [[c o]|] eqn:Hc; cbn [bind]; [|discriminate].
      intro H; inversion H; subst.
      eapply collect_failure_pops_appends; eauto.
Qed.

Lemma follow_failure_links_appends :
  forall fuel try_traverse cur node out b cur' node' out',
    follow_failure_links this kGetPieces kGetIds kGetOffsets fuel try_traverse
      input_word woff cur node out = Ok (b, (cur', node', out')) ->
    exists pops,
      append_tokens this kGetPieces kGetIds kGetOffsets input_word woff
        pops cur out = (cur', out').
Proof.
  induction fuel as [|fuel IH];
    intros try_traverse cur node out b cur' node' out';
    cbn [follow_failure_links];
    destruct (try_traverse node);
    try (intro H; inversion H; subst; exists []; reflexivity);
    try discriminate.
  destruct (TryFollowFailureLinkAndCollectTokens this kGetPieces kGetIds
              kGetOffsets input_word woff cur node out)
    as [[f [[c nd] o]]|] eqn:Hf; cbn [bind]; [|discriminate].
  apply TryFollowFailureLinkAndCollectTokens_appends in Hf.
  destruct Hf as [pops Hp].
  destruct f.
  - intro H. apply IH in H. destruct H as [pops' Hp'].
    exists (pops ++ pops'). eapply append_tokens_compose; eauto.
  - intro H; inversion H; subst. exists pops. exact Hp.
Qed.

Lemma match_word_appends :
  forall fuel rest cur node out b cur' node' out',
    match_word this kGetPieces kGetIds kGetOffsets fuel input_word woff rest
      cur node out = Ok (b, (cur', node', out')) ->
    exists tokens,
      append_tokens this kGetPieces kGetIds kGetOffsets input_word woff
        tokens cur out = (cur', out').
Proof.
  intros fuel rest.
  induction rest as [|ch rest IH]; intros cur node out b cur' node' out';
    cbn [match_word].
  - intro H; inversion H; subst. exists []. reflexivity.
  - destruct (follow_failure_links this kGetPieces kGetIds kGetOffsets fuel
                (fun n => TryTraverseOneStep (trie_ this) n ch) input_word
                woff cur node out) as [[f [[c nd] o]]|] eqn:Hf;
      cbn [bind]; [|discriminate].
    apply follow_failure_links_appends in Hf. destruct Hf as [pops Hp].
    destruct f.
    + intro H. apply IH in H. destruct H as [pops' Hp'].
      exists (pops ++ pops'). eapply append_tokens_compose; eauto.
    + intro H; inversion H; subst. exists pops. exact Hp.
Qed.

Lemma collect_remaining_tokens_atomic :
  forall fuel n out0 cur node out original cur' node' out',
    in_sync kGetPieces kGetIds kGetOffsets n out0 ->
    extends kGetPieces kGetIds kGetOffsets out0 out ->
    collect_remaining_tokens this kGetPieces kGetIds kGetOffsets fuel
      input_word woff (Z.of_nat n) cur node out
    = Ok (original, cur', node', out') ->
    out' = append_unknown_token this kGetPieces kGetIds kGetOffsets woff
             (woff + size input_word) out0
    \/ exists pops,
      append_tokens this kGetPieces kGetIds kGetOffsets input_word woff
        pops cur out = (cur', out').
Proof.
  induction fuel as [|fuel IH];
    intros n out0 cur node out orig cur' node' out' Hsync Hext;
    cbn [collect_remaining_tokens];
    destruct (negb (node =? trie_suffix_root (config_ this))
              && negb (node =? trie_punct_failure_link_node (config_ this)));
    try discriminate;
    try (intro H; inversion H; subst; right; exists []; reflexivity).
  destruct (TryFollowFailureLinkAndCollectTokens this kGetPieces kGetIds
              kGetOffsets input_word woff cur node out)
    as [[f [[c nd] o]]|] eqn:Hf; cbn [bind]; [|discriminate].
  pose proof (TryFollowFailureLinkAndCollectTokens_extends _ _ _ _ _ _ _ Hf)
    as Hext'.
  apply TryFollowFailureLinkAndCollectTokens_appends in Hf.
  destruct Hf as [pops Hp].
  destruct f.
  - intro H. apply IH with (n := n) (out0 := out0) in H;
      [|exact Hsync|eapply extends_trans; eauto].
    destruct H as [H|[pops' Hp']]; [left; exact H|].
    right. exists (pops ++ pops'). eapply append_tokens_compose; eauto.
  - pose proof (ResetOutputAppendUnknownToken_extends (size input_word) n
                  out0 o Hsync (extends_trans _ _ _ Hext Hext')) as Hr.
    destruct (ResetOutputAppendUnknownToken this kGetPieces kGetIds
                kGetOffsets woff (size input_word) (Z.of_nat n) o)
      as [orig1 o1].
    cbn [snd] in Hr. intro H; inversion H; subst. left. reflexivity.
Qed.

Lemma HandleTheRemainingStringOnTriePath_atomic :
  forall fuel n out0 cur node out original cur' node' out',
    in_sync kGetPieces kGetIds kGetOffsets n out0 ->
    extends kGetPieces kGetIds kGetOffsets out0 out ->
    HandleTheRemainingStringOnTriePath this kGetPieces kGetIds kGetOffsets
      fuel input_word woff node (Z.of_nat n) cur out
    = Ok (original, cur', node', out') ->
    out' = append_unknown_token this kGetPieces kGetIds kGetOffsets woff
             (woff + size input_word) out0
    \/ exists pops,
      append_tokens this kGetPieces kGetIds kGetOffsets input_word woff
        pops cur out = (cur', out').
Proof.
  intros fuel n out0 cur node out orig cur' node' out' Hsync Hext.
  unfold HandleTheRemainingStringOnTriePath.
  destruct (node =? kRootNodeId (trie_ this)).
  { intro H; inversion H; subst. right. exists []. reflexivity. }
  unfold TryHandleTheInputWordBeingSuffixIndicatorItself.
  destruct (negb (node =? trie_suffix_root (config_ this)));
    [eapply collect_remaining_tokens_atomic; eauto|].
  destruct (negb (GetCurrentOutputSize kGetPieces out =? Z.of_nat n));
    [eapply collect_remaining_tokens_atomic; eauto|].
  destruct ((size (precomputed_result_for_suffix_indicator (config_ this))
             =? 1)
            && (GetTokenId
                  (nth 0 (precomputed_result_for_suffix_indicator
                            (config_ this)) 0)
                =? unk_token_id (config_ this))).
  - rewrite (ResetOutputAppendUnknownToken_extends (size input_word) n out0
               out Hsync Hext).
    intro H; inversion H; subst. left. reflexivity.
  - destruct (fold_left
                (fun st encoded_token_value =>
                   AppendTokenToOutput this kGetPieces kGetIds kGetOffsets
                     input_word woff (fst st) encoded_token_value (snd st))
                (precomputed_result_for_suffix_indicator (config_ this))
                (cur, out)) as [c o] eqn:Hfold.
    intro H; inversion H; subst. right.
    exists (precomputed_result_for_suffix_indicator (config_ this)).
    exact Hfold.
Qed.

(** In single-word mode the result is the outputs before the call with
    either one unknown token over the whole word, or tokens appended by
    [AppendTokenToOutput] only: a reset leaves no token of the word and
    removes no token that was there before. *)
Lemma single_word_unknown_is_atomic : forall fuel n out out',
  kGetPieces || kGetIds = true ->
  in_sync kGetPieces kGetIds kGetOffsets n out ->
  TokenizeSingleWordImpl this kGetPieces kGetIds kGetOffsets fuel input_word
    woff out = Ok out' ->
  out' = append_unknown_token this kGetPieces kGetIds kGetOffsets woff
           (woff + size input_word) out
  \/ exists tokens,
    snd (append_tokens this kGetPieces kGetIds kGetOffsets input_word woff
      tokens 0 out) = out'.
Proof.
  intros fuel n out out' Hstatic Hsync.
  unfold TokenizeSingleWordImpl.
  destruct input_word as [|ch word'] eqn:Hword.
  { intro H; inversion H; subst. right. exists []. reflexivity. }
  rewrite <- Hword.
  rewrite (GetCurrentOutputSize_in_sync _ _ _ _ _ Hstatic Hsync).
  destruct (size input_word >? max_bytes_per_token (config_ this)).
  - rewrite (ResetOutputAppendUnknownToken_extends (size input_word) n out out
               Hsync (extends_refl out)).
    intro H; inversion H; subst. left. reflexivity.
  - destruct (match_word this kGetPieces kGetIds kGetOffsets fuel input_word
                woff input_word 0 (kRootNodeId (trie_ this)) out)
      as [[matched [[c nd] o]]|] eqn:Hm; cbn [bind]; [|discriminate].
    pose proof (match_word_extends _ _ _ _ _ _ _ _ _ Hm) as Hext.
    apply match_word_appends in Hm. destruct Hm as [tokens Ht].
    destruct matched.
    + destruct (HandleTheRemainingStringOnTriePath this kGetPieces kGetIds
                  kGetOffsets fuel input_word woff nd (Z.of_nat n) c o)
        as [[[[orig c'] nd'] o']|] eqn:Hh; cbn [bind]; [|discriminate].
      intro H; inversion H; subst o'.
      apply HandleTheRemainingStringOnTriePath_atomic
        with (n := n) (out0 := out) in Hh; [|exact Hsync|exact Hext].
      destruct Hh as [Hh|[pops Hp]]; [left; exact Hh|].
      right. exists (tokens ++ pops).
      rewrite (append_tokens_compose _ _ _ _ _ _ _ _ Ht Hp). reflexivity.
    + rewrite (ResetOutputAppendUnknownToken_extends (size input_word) n out o
                 Hsync Hext).
      intro H; inversion H; subst. left. reflexivity.
Qed.

End SingleWordUnknown.

(** ** The rollback marker when the cursor cannot come back to the root *)

Section RollbackMarker.

Context {utils : Utils} {icu : ICU}.
Variable this : FastWordpieceTokenizer.
Variables kGetPieces kGetIds kGetOffsets : bool.
Variable input_text : bytes.

Hypothesis static_assert : kGetPieces || kGetIds = true.
Hypothesis U8_NEXT_advances : forall i,
  0 <= i < size input_text -> i < fst (U8_NEXT input_text i (size input_text)).

(** No edge of the trie and no failure link leads to the root. *)
Hypothesis no_edge_to_root : forall node ch,
  TryTraverseOneStep (trie_ this) node ch <> Some (kRootNodeId (trie_ this)).
Hypothesis no_link_to_root : forall node node_aux,
  Get (failure_struct_array (config_ this)) node = Ok node_aux ->
  failure_link node_aux <> kRootNodeId (trie_ this).

Lemma TryTraverseSeveralSteps_not_root : forall path node,
  path <> [] ->
  TryTraverseSeveralSteps (trie_ this) node path
  <> Some (kRootNodeId (trie_ this)).
Proof.
  induction path as [|ch path IH]; intros node Hne; [contradiction|].
  cbn [TryTraverseSeveralSteps].
  destruct (TryTraverseOneStep (trie_ this) node ch) as [next|] eqn:Hstep;
    [|discriminate].
  destruct path as [|ch' path'].
  - cbn [TryTraverseSeveralSteps]. rewrite <- Hstep. apply no_edge_to_root.
  - apply IH. discriminate.
Qed.

Lemma TryFollowFailureLinkAndCollectTokens_target :
  forall input_word woff cur node out b cur' node' out',
    TryFollowFailureLinkAndCollectTokens this kGetPieces kGetIds kGetOffsets
      input_word woff cur node out = Ok (b, (cur', node', out')) ->
    (b = true /\ node' <> kRootNodeId (trie_ this))
    \/ (b = false /\ node' = node /\ out' = out).
Proof.
  intros word woff cur node out b cur' node' out'.
  unfold TryFollowFailureLinkAndCollectTokens.
  destruct (TryGetData (trie_ this) node) as [data|].
  - destruct (AppendTokenToOutput this kGetPieces kGetIds kGetOffsets word
                woff cur data out) as [c o].
    destruct (Get (failure_struct_array (config_ this)) node) as [aux|]
      eqn:Haux; cbn [bind]; intro H; inversion H; subst.
    left. split; [reflexivity|]. eapply no_link_to_root; eauto.
  - destruct (Get (failure_struct_array (config_ this)) node) as [aux|]
      eqn:Haux; cbn [bind]; [|discriminate].
    destruct (failure_link aux =? kNullNode).
    + intro H; inversion H; subst. right. repeat split; reflexivity.
    + destruct (GetFailurePopsOffsetAndLength (failure_pops_offset_length aux))
        as [offset len].
      destruct (collect_failure_pops this kGetPieces kGetIds kGetOffsets word
                  woff (Z.to_nat (offset + len - offset)) offset cur out)
        as [[c o]|]; cbn [bind]; [|discriminate].
      intro H; inversion H; subst.
      left. split; [reflexivity|]. eapply no_link_to_root; eauto.
Qed.

Lemma follow_failure_links_target :
  forall fuel try_traverse input_word woff cur node out b cur' node' out',
    (forall n, try_traverse n <> Some (kRootNodeId (trie_ this))) ->
    follow_failure_links this kGetPieces kGetIds kGetOffsets fuel try_traverse
      input_word woff cur node out = Ok (b, (cur', node', out')) ->
    node' <> kRootNodeId (trie_ this)
    \/ (b = false /\ node' = node /\ out' = out).
Proof.
  induction fuel as [|fuel IH];
    intros try_traverse word woff cur node out b cur' node' out' Htraverse;
    cbn [follow_failure_links];
    destruct (try_traverse node) as [next|] eqn:Hstep;
    try discriminate;
    try (intro H; inversion H; subst; left; intro Heq;
         apply (Htraverse node); rewrite Hstep, Heq; reflexivity).
  destruct (TryFollowFailureLinkAndCollectTokens this kGetPieces kGetIds
              kGetOffsets word woff cur node out)
    as [[f [[c nd] o]]|] eqn:Hf; cbn [bind]; [|discriminate].
  apply TryFollowFailureLinkAndCollectTokens_target in Hf.
  destruct Hf as [[Hb Hnd]|[Hb [Hnd Ho]]]; subst f.
  - intro H. apply IH in H; [|exact Htraverse].
    destruct H as [H|[_ [H _]]]; left; congruence.
  - intro H; inversion H; subst. right. repeat split; reflexivity.
Qed.

Lemma trie_match_loop_target :
  forall fuel input_substr word_offset pos next prev cur_char len cur node out
         m,
    0 <= pos ->
    trie_match_loop this kGetPieces kGetIds kGetOffsets fuel input_text
      input_substr word_offset pos next prev cur_char len cur node out = Ok m ->
    exit_node m <> kRootNodeId (trie_ this)
    \/ (exit_node m = node /\ exit_outputs m = out).
Proof.
  intros fuel input_substr word_offset.
  induction fuel as [|fuel IH];
    intros pos next prev cur_char len cur node out m Hpos;
    cbn [trie_match_loop];
    destruct (pos <? size input_text) eqn:Hlt;
    try discriminate;
    try (intro H; inversion H; subst; right; split; reflexivity).
  apply Z.ltb_lt in Hlt.
  pose proof (U8_NEXT_advances pos ltac:(lia)) as Hadv.
  destruct (U8_NEXT input_text pos (size input_text)) as [next' cp].
  cbn [fst] in Hadv.
  destruct (len + next' - pos >? max_bytes_per_token (config_ this)).
  { intro H; inversion H; subst. right. split; reflexivity. }
  assert (Hpath : substr input_text pos (next' - pos) <> []).
  { unfold substr, size in *.
    destruct (skipn (Z.to_nat pos) input_text) as [|ch rest] eqn:Hskip.
    - apply (f_equal (@length ascii)) in Hskip.
      rewrite length_skipn in Hskip. cbn [length] in Hskip. lia.
    - replace (Z.to_nat (next' - pos)) with (S (Z.to_nat (next' - pos - 1)))
        by lia.
      cbn [firstn]. discriminate. }
  destruct (follow_failure_links this kGetPieces kGetIds kGetOffsets fuel
              (fun n => TryTraverseSeveralSteps (trie_ this) n
                          (substr input_text pos (next' - pos)))
              input_substr word_offset cur node out)
    as [[consumed [[c nd] o]]|] eqn:Hf; cbn [bind]; [|discriminate].
  apply follow_failure_links_target in Hf;
    [|intro n; apply TryTraverseSeveralSteps_not_root; exact Hpath].
  destruct consumed.
  - destruct Hf as [Hnd|[Hb _]]; [|discriminate].
    intro H. apply IH in H; [|lia].
    destruct H as [H|[H _]]; left; congruence.
  - intro H; inversion H; subst. cbn [exit_node exit_outputs].
    destruct Hf as [Hnd|[_ [Hnd Ho]]]; [left; exact Hnd|].
    right. split; assumption.
Qed.

(** In every state of the outer loop, [original_num_tokens] is the size of
    the outputs: each word, flushed or mapped to the unknown token, leaves
    the marker at the end of the outputs. *)
Lemma rollback_marker_follows_outputs : forall out s,
  visited this kGetPieces kGetIds kGetOffsets input_text out s ->
  original_num_tokens s = GetCurrentOutputSize kGetPieces (outputs s).
Proof.
  intros out s Hv.
  induction Hv as [|fuel s s' Hv IH Hlt Hstep]; [reflexivity|].
  pose proof (visited_boundary_invariant this kGetPieces kGetIds kGetOffsets
                input_text U8_NEXT_advances out s Hv) as [Hpos _].
  assert (Horig : 0 <= original_num_tokens s).
  { rewrite IH. unfold GetCurrentOutputSize.
    destruct kGetPieces; apply size_nonneg. }
  unfold tokenize_next_word in Hstep.
  destruct (match_next_word this kGetPieces kGetIds kGetOffsets fuel
              input_text s) as [m|] eqn:Hm; cbn [bind] in Hstep;
    [|discriminate].
  unfold match_next_word in Hm.
  apply trie_match_loop_target in Hm; [|exact Hpos].
  destruct (exit_pos m >=? size input_text).
  { destruct (HandleTheRemainingStringOnTriePath this kGetPieces kGetIds
                kGetOffsets fuel (skipn (Z.to_nat (cur_pos s)) input_text)
                (cur_pos s) (exit_node m) (original_num_tokens s)
                (exit_offset_in_input_word m) (exit_outputs m))
      as [[[[orig c] nd] o]|]; cbn [bind] in Hstep; discriminate. }
  destruct (at_word_boundary m).
  - unfold flush_word_at_boundary in Hstep.
    destruct (HandleTheRemainingStringOnTriePath this kGetPieces kGetIds
                kGetOffsets fuel
                (firstn (Z.to_nat (exit_pos m - cur_pos s))
                   (skipn (Z.to_nat (cur_pos s)) input_text))
                (cur_pos s) (exit_node m) (original_num_tokens s)
                (exit_offset_in_input_word m) (exit_outputs m))
      as [[[[orig c] nd] o]|] eqn:Hh; cbn [bind] in Hstep; [|discriminate].
    inversion Hstep; subst s'. cbn [original_num_tokens outputs].
    destruct (Z.eq_dec (exit_node m) (kRootNodeId (trie_ this))) as [Hr|Hr].
    + destruct Hm as [Hm|[_ Ho]]; [contradiction|].
      unfold HandleTheRemainingStringOnTriePath in Hh.
      rewrite Hr, Z.eqb_refl in Hh. inversion Hh; subst.
      rewrite Ho. exact IH.
    + eapply HandleTheRemainingStringOnTriePath_advances_marker; eauto.
  - unfold map_word_to_unknown in Hstep.
    destruct (SkipTheRemainingOfWordAndTrailingWhiteSpaces fuel input_text
                (exit_next_pos m)) as [[e p]|]; cbn [bind] in Hstep;
      [|discriminate].
    pose proof (ResetOutputAppendUnknownToken_size this kGetPieces kGetIds
                  kGetOffsets (cur_pos s) (e - cur_pos s)
                  (original_num_tokens s) (exit_outputs m) static_assert
                  Horig) as Hsize.
    destruct (ResetOutputAppendUnknownToken this kGetPieces kGetIds
                kGetOffsets (cur_pos s) (e - cur_pos s)
                (original_num_tokens s) (exit_outputs m)) as [orig o] eqn:Hr.
    assert (Ho : orig = original_num_tokens s + 1).
    { unfold ResetOutputAppendUnknownToken in Hr. inversion Hr. reflexivity. }
    inversion Hstep; subst s'. cbn [original_num_tokens outputs snd] in *.
    lia.
Qed.

End RollbackMarker.

(** * Further properties of the code *)

(** ** The containers in use stay aligned *)

Lemma reset_length : forall (A : Type) (d x : A) (n : Z) (l : list A),
  length (set_back x (resize d n l)) = Nat.max 1 (Z.to_nat n).
Proof.
  intros A d x n l. unfold set_back.
  rewrite length_app, removelast_firstn_len, length_firstn, resize_length.
  cbn [length]. lia.
Qed.

Section ContainersAligned.

Context {utils : Utils} {icu : ICU}.
Variable this : FastWordpieceTokenizer.
Variables kGetPieces kGetIds kGetOffsets : bool.

Lemma AppendTokenToOutput_aligned : forall input_word woff cur e out,
  aligned kGetPieces kGetIds kGetOffsets out ->
  aligned kGetPieces kGetIds kGetOffsets
    (snd (AppendTokenToOutput this kGetPieces kGetIds kGetOffsets input_word
            woff cur e out)).
Proof.
  intros word woff cur e [ps ids ss es] [n [Hp [Hi Ho]]].
  exists (S n). unfold AppendTokenToOutput, in_sync, push_back in *.
  destruct kGetPieces, kGetIds, kGetOffsets;
    cbn [orb fst snd with_ids with_pieces with_offsets output_pieces
         output_ids output_start_offsets output_end_offsets] in *;
    repeat split; intros; try discriminate;
    rewrite ?length_app; cbn [length];
    try rewrite (Hp eq_refl); try rewrite (Hi eq_refl);
    try rewrite (proj1 (Ho eq_refl)); try rewrite (proj2 (Ho eq_refl)); lia.
Qed.

Lemma ResetOutputAppendUnknownToken_aligned :
  forall first input_size original out,
    aligned kGetPieces kGetIds kGetOffsets
      (snd (ResetOutputAppendUnknownToken this kGetPieces kGetIds kGetOffsets
              first input_size original out)).
Proof.
  intros first sz orig [ps ids ss es].
  exists (Nat.max 1 (Z.to_nat (orig + 1))).
  unfold ResetOutputAppendUnknownToken, in_sync.
  destruct kGetPieces, kGetIds, kGetOffsets;
    cbn [snd with_ids with_pieces with_offsets output_pieces
         output_ids output_start_offsets output_end_offsets];
    repeat split; intros; try discriminate; apply reset_length.
Qed.

Lemma append_tokens_aligned : forall input_word woff tokens cur out,
  aligned kGetPieces kGetIds kGetOffsets out ->
  aligned kGetPieces kGetIds kGetOffsets
    (snd (append_tokens this kGetPieces kGetIds kGetOffsets input_word woff
            tokens cur out)).
Proof.
  intros word woff tokens.
  induction tokens as [|e tokens IH]; intros cur out Hal; [exact Hal|].
  rewrite append_tokens_cons.
  pose proof (AppendTokenToOutput_aligned word woff cur e out Hal) as Ha.
  destruct (AppendTokenToOutput this kGetPieces kGetIds kGetOffsets word woff
              cur e out) as [c o].
  apply IH. exact Ha.
Qed.

Lemma collect_failure_pops_aligned :
  forall input_word woff k offset cur out cur' out',
    aligned kGetPieces kGetIds kGetOffsets out ->
    collect_failure_pops this kGetPieces kGetIds kGetOffsets input_word woff k
      offset cur out = Ok (cur', out') ->
    aligned kGetPieces kGetIds kGetOffsets out'.
Proof.
  intros word woff.
  induction k as [|k IH]; intros offset cur out cur' out' Hal;
    cbn [collect_failure_pops].
  - intro H; inversion H; subst. exact Hal.
  - destruct (Get (failure_pops_pool (config_ this)) offset) as [e|];
      cbn [bind]; [|discriminate].
    pose proof (AppendTokenToOutput_aligned word woff cur e out Hal) as Ha.
    destruct (AppendTokenToOutput this kGetPieces kGetIds kGetOffsets word
                woff cur e out) as [c o].
    apply IH. exact Ha.
Qed.

Lemma TryFollowFailureLinkAndCollectTokens_aligned :
  forall input_word woff cur node out b cur' node' out',
    aligned kGetPieces kGetIds kGetOffsets out ->
    TryFollowFailureLinkAndCollectTokens this kGetPieces kGetIds kGetOffsets
      input_word woff cur node out = Ok (b, (cur', node', out')) ->
    aligned kGetPieces kGetIds kGetOffsets out'.
Proof.
  intros word woff cur node out b cur' node' out' Hal.
  unfold TryFollowFailureLinkAndCollectTokens.
  destruct (TryGetData (trie_ this) node) as [data|].
  - pose proof (AppendTokenToOutput_aligned word woff cur data out Hal) as Ha.
    destruct (AppendTokenToOutput this kGetPieces kGetIds kGetOffsets word
                woff cur data out) as [c o].
    destruct (Get (failure_struct_array (config_ this)) node) as [aux|];
      cbn [bind]; intro H; inversion H; subst. exact Ha.
  - destruct (Get (failure_struct_array (config_ this)) node) as [aux|];
      cbn [bind]; [|discriminate].
    destruct (failure_link aux =? kNullNode).
    + intro H; inversion H; subst. exact Hal.
    + destruct (GetFailurePopsOffsetAndLength (failure_pops_offset_length aux))
        as [offset len].
      destruct (collect_failure_pops this kGetPieces kGetIds kGetOffsets word
                  woff (Z.to_nat (offset + len - offset)) offset cur out)
        as [[c o]|] eqn:Hc; cbn [bind]; [|discriminate].
      intro H; inversion H; subst.
      eapply collect_failure_pops_aligned; eauto.
Qed.

Lemma follow_failure_links_aligned :
  forall fuel try_traverse input_word woff cur node out b cur' node' out',
    aligned kGetPieces kGetIds kGetOffsets out ->
    follow_failure_links this kGetPieces kGetIds kGetOffsets fuel try_traverse
      input_word woff cur node out = Ok (b, (cur', node', out')) ->
    aligned kGetPieces kGetIds kGetOffsets out'.
Proof.
  induction fuel as [|fuel IH];
    intros try_traverse word woff cur node out b cur' node' out' Hal;
    cbn [follow_failure_links];
    destruct (try_traverse node) as [next|];
    try discriminate;
    try (intro H; inversion H; subst; exact Hal).
  destruct (TryFollowFailureLinkAndCollectTokens this kGetPieces kGetIds
              kGetOffsets word woff cur node out)
    as [[f [[c nd] o]]|] eqn:Hf; cbn [bind]; [|discriminate].
  apply TryFollowFailureLinkAndCollectTokens_aligned in Hf; [|exact Hal].
  destruct f.
  - apply IH. exact Hf.
  - intro H; inversion H; subst. exact Hf.
Qed.

Lemma match_word_aligned :
  forall fuel input_word woff rest cur node out b cur' node' out',
    aligned kGetPieces kGetIds kGetOffsets out ->
    match_word this kGetPieces kGetIds kGetOffsets fuel input_word woff rest
      cur node out = Ok (b, (cur', node', out')) ->
    aligned kGetPieces kGetIds kGetOffsets out'.
Proof.
  intros fuel word woff rest.
  induction rest as [|ch rest IH]; intros cur node out b cur' node' out' Hal;
    cbn [match_word].
  - intro H; inversion H; subst. exact Hal.
  - destruct (follow_failure_links this kGetPieces kGetIds kGetOffsets fuel
                (fun n => TryTraverseOneStep (trie_ this) n ch) word woff cur
                node out) as [[f [[c nd] o]]|] eqn:Hf; cbn [bind];
      [|discriminate].
    apply follow_failure_links_aligned in Hf; [|exact Hal].
    destruct f.
    + apply IH. exact Hf.
    + intro H; inversion H; subst. exact Hf.
Qed.

Lemma collect_remaining_tokens_aligned :
  forall fuel input_word woff original cur node out original' cur' node' out',
    aligned kGetPieces kGetIds kGetOffsets out ->
    collect_remaining_tokens this kGetPieces kGetIds kGetOffsets fuel
      input_word woff original cur node out
    = Ok (original', cur', node', out') ->
    aligned kGetPieces kGetIds kGetOffsets out'.
Proof.
  induction fuel as [|fuel IH];
    intros word woff orig cur node out orig' cur' node' out' Hal;
    cbn [collect_remaining_tokens];
    destruct (negb (node =? trie_suffix_root (config_ this))
              && negb (node =? trie_punct_failure_link_node (config_ this)));
    try discriminate;
    try (intro H; inversion H; subst; exact Hal).
  destruct (TryFollowFailureLinkAndCollectTokens this kGetPieces kGetIds
              kGetOffsets word woff cur node out)
    as [[f [[c nd] o]]|] eqn:Hf; cbn [bind]; [|discriminate].
  apply TryFollowFailureLinkAndCollectTokens_aligned in Hf; [|exact Hal].
  destruct f.
  - apply IH. exact Hf.
  - pose proof (ResetOutputAppendUnknownToken_aligned woff (size word) orig o)
      as Hr.
    destruct (ResetOutputAppendUnknownToken this kGetPieces kGetIds
                kGetOffsets woff (size word) orig o) as [orig1 o1].
    intro H; inversion H; subst. exact Hr.
Qed.

Lemma HandleTheRemainingStringOnTriePath_aligned :
  forall fuel input_word woff node original cur out original' cur' node' out',
    aligned kGetPieces kGetIds kGetOffsets out ->
    HandleTheRemainingStringOnTriePath this kGetPieces kGetIds kGetOffsets
      fuel input_word woff node original cur out
    = Ok (original', cur', node', out') ->
    aligned kGetPieces kGetIds kGetOffsets out'.
Proof.
  intros fuel word woff node orig cur out orig' cur' node' out' Hal.
  unfold HandleTheRemainingStringOnTriePath.
  destruct (node =? kRootNodeId (trie_ this)).
  { intro H; inversion H; subst. exact Hal. }
  unfold TryHandleTheInputWordBeingSuffixIndicatorItself.
  destruct (negb (node =? trie_suffix_root (config_ this)));
    [eapply collect_remaining_tokens_aligned; eauto|].
  destruct (negb (GetCurrentOutputSize kGetPieces out =? orig));
    [eapply collect_remaining_tokens_aligned; eauto|].
  destruct ((size (precomputed_result_for_suffix_indicator (config_ this))
             =? 1)
            && (GetTokenId
                  (nth 0 (precomputed_result_for_suffix_indicator
                            (config_ this)) 0)
                =? unk_token_id (config_ this))).
  - intro H; inversion H; subst.
    apply ResetOutputAppendUnknownToken_aligned.
  - pose proof (append_tokens_aligned word woff
                  (precomputed_result_for_suffix_indicator (config_ this))
                  cur out Hal) as Ha.
    unfold append_tokens in Ha.
    destruct (fold_left
                (fun st encoded_token_value =>
                   AppendTokenToOutput this kGetPieces kGetIds kGetOffsets
                     word woff (fst st) encoded_token_value (snd st))
                (precomputed_result_for_suffix_indicator (config_ this))
                (cur, out)) as [c o].
    intro H; inversion H; subst. exact Ha.
Qed.

Lemma TokenizeSingleWordImpl_aligned : forall fuel input_word woff out out',
  aligned kGetPieces kGetIds kGetOffsets out ->
  TokenizeSingleWordImpl this kGetPieces kGetIds kGetOffsets fuel input_word
    woff out = Ok out' ->
  aligned kGetPieces kGetIds kGetOffsets out'.
Proof.
  intros fuel word woff out out' Hal.
  unfold TokenizeSingleWordImpl.
  destruct word as [|ch word'].
  { intro H; inversion H; subst. exact Hal. }
  set (word := ch :: word').
  destruct (size word >? max_bytes_per_token (config_ this)).
  { intro H; inversion H; subst.
    apply ResetOutputAppendUnknownToken_aligned. }
  destruct (match_word this kGetPieces kGetIds kGetOffsets fuel word woff
              word 0 (kRootNodeId (trie_ this)) out)
    as [[matched [[c nd] o]]|] eqn:Hm; cbn [bind]; [|discriminate].
  apply match_word_aligned in Hm; [|exact Hal].
  destruct matched.
  - destruct (HandleTheRemainingStringOnTriePath this kGetPieces kGetIds
                kGetOffsets fuel word woff nd
                (GetCurrentOutputSize kGetPieces out) c o)
      as [[[[orig c'] nd'] o']|] eqn:Hh; cbn [bind]; [|discriminate].
    intro H; inversion H; subst.
    eapply HandleTheRemainingStringOnTriePath_aligned; eauto.
  - intro H; inversion H; subst.
    apply ResetOutputAppendUnknownToken_aligned.
Qed.

Lemma trie_match_loop_aligned :
  forall fuel input_text input_substr woff pos next prev cur_char len cur node
         out m,
    aligned kGetPieces kGetIds kGetOffsets out ->
    trie_match_loop this kGetPieces kGetIds kGetOffsets fuel input_text
      input_substr woff pos next prev cur_char len cur node out = Ok m ->
    aligned kGetPieces kGetIds kGetOffsets (exit_outputs m).
Proof.
  intros fuel text input_substr woff.
  induction fuel as [|fuel IH];
    intros pos next prev cur_char len cur node out m Hal;
    cbn [trie_match_loop];
    destruct (pos <? size text);
    try discriminate;
    try (intro H; inversion H; subst; exact Hal).
  destruct (U8_NEXT text pos (size text)) as [next' cp].
  destruct (len + next' - pos >? max_bytes_per_token (config_ this)).
  { intro H; inversion H; subst. exact Hal. }
  destruct (follow_failure_links this kGetPieces kGetIds kGetOffsets fuel
              (fun n => TryTraverseSeveralSteps (trie_ this) n
                          (substr text pos (next' - pos)))
              input_substr woff cur node out)
    as [[consumed [[c nd] o]]|] eqn:Hf; cbn [bind]; [|discriminate].
  apply follow_failure_links_aligned in Hf; [|exact Hal].
  destruct consumed.
  - apply IH. exact Hf.
  - intro H; inversion H; subst. exact Hf.
Qed.

Lemma tokenize_next_word_aligned : forall fuel input_text s r,
  aligned kGetPieces kGetIds kGetOffsets (outputs s) ->
  tokenize_next_word this kGetPieces kGetIds kGetOffsets fuel input_text s
  = Ok r ->
  match r with
  | inl s' => aligned kGetPieces kGetIds kGetOffsets (outputs s')
  | inr out' => aligned kGetPieces kGetIds kGetOffsets out'
  end.
Proof.
  intros fuel text s r Hal. unfold tokenize_next_word.
  destruct (match_next_word this kGetPieces kGetIds kGetOffsets fuel text s)
    as [m|] eqn:Hm; cbn [bind]; [|discriminate].
  unfold match_next_word in Hm.
  apply trie_match_loop_aligned in Hm; [|exact Hal].
  destruct (exit_pos m >=? size text).
  { destruct (HandleTheRemainingStringOnTriePath this kGetPieces kGetIds
                kGetOffsets fuel (skipn (Z.to_nat (cur_pos s)) text)
                (cur_pos s) (exit_node m) (original_num_tokens s)
                (exit_offset_in_input_word m) (exit_outputs m))
      as [[[[orig c] nd] o]|] eqn:Hh; cbn [bind]; [|discriminate].
    intro H; inversion H; subst.
    eapply HandleTheRemainingStringOnTriePath_aligned; eauto. }
  destruct (at_word_boundary m).
  - unfold flush_word_at_boundary.
    destruct (HandleTheRemainingStringOnTriePath this kGetPieces kGetIds
                kGetOffsets fuel
                (firstn (Z.to_nat (exit_pos m - cur_pos s))
                   (skipn (Z.to_nat (cur_pos s)) text))
                (cur_pos s) (exit_node m) (original_num_tokens s)
                (exit_offset_in_input_word m) (exit_outputs m))
      as [[[[orig c] nd] o]|] eqn:Hh; cbn [bind]; [|discriminate].
    intro H; inversion H; subst. cbn [outputs].
    eapply HandleTheRemainingStringOnTriePath_aligned; eauto.
  - unfold map_word_to_unknown.
    destruct (SkipTheRemainingOfWordAndTrailingWhiteSpaces fuel text
                (exit_next_pos m)) as [[e p]|]; cbn [bind]; [|discriminate].
    pose proof (ResetOutputAppendUnknownToken_aligned (cur_pos s)
                  (e - cur_pos s) (original_num_tokens s) (exit_outputs m))
      as Hr.
    destruct (ResetOutputAppendUnknownToken this kGetPieces kGetIds
                kGetOffsets (cur_pos s) (e - cur_pos s)
                (original_num_tokens s) (exit_outputs m)) as [orig o].
    intro H; inversion H; subst. exact Hr.
Qed.

Lemma tokenize_words_aligned : forall fuel input_text s out',
  aligned kGetPieces kGetIds kGetOffsets (outputs s) ->
  tokenize_words this kGetPieces kGetIds kGetOffsets fuel input_text s
  = Ok out' ->
  aligned kGetPieces kGetIds kGetOffsets out'.
Proof.
  induction fuel as [|fuel IH]; intros text s out' Hal;
    cbn [tokenize_words];
    destruct (cur_pos s <? size text);
    try discriminate;
    try (intro H; inversion H; subst; exact Hal).
  destruct (tokenize_next_word this kGetPieces kGetIds kGetOffsets fuel text s)
    as [r|] eqn:Hr; cbn [bind]; [|discriminate].
  apply tokenize_next_word_aligned in Hr; [|exact Hal].
  destruct r as [s'|o].
  - apply IH. exact Hr.
  - intro H; inversion H; subst. exact Hr.
Qed.

Lemma TokenizeTextImpl_aligned : forall fuel input_text out out',
  aligned kGetPieces kGetIds kGetOffsets out ->
  TokenizeTextImpl this kGetPieces kGetIds kGetOffsets fuel input_text out
  = Ok out' ->
  aligned kGetPieces kGetIds kGetOffsets out'.
Proof.
  intros fuel text out out' Hal. unfold TokenizeTextImpl.
  destruct text as [|ch text'].
  - intro H; inversion H; subst. exact Hal.
  - apply tokenize_words_aligned. exact Hal.
Qed.

End ContainersAligned.

(** X1.  Both tokenizers keep the output containers aligned: when the
    containers in use hold the same number of tokens before a call, they
    hold the same number of tokens after it, in single-word and in
    end-to-end mode and whatever the model. *)
Theorem tokenizers_keep_containers_aligned :
  forall (utils : Utils) (icu : ICU) (this : FastWordpieceTokenizer)
         (kGetPieces kGetIds kGetOffsets : bool) (fuel : nat) (input : bytes)
         (input_word_offset_in_text : Z) (out out' : Outputs),
    aligned kGetPieces kGetIds kGetOffsets out ->
    TokenizeSingleWordImpl this kGetPieces kGetIds kGetOffsets fuel input
      input_word_offset_in_text out = Ok out'
    \/ TokenizeTextImpl this kGetPieces kGetIds kGetOffsets fuel input out
       = Ok out' ->
    aligned kGetPieces kGetIds kGetOffsets out'.
Proof.
  intros utils icu this kP kI kO fuel input woff out out' Hal [H|H].
  - eapply TokenizeSingleWordImpl_aligned; eauto.
  - eapply TokenizeTextImpl_aligned; eauto.
Qed.

(** The concrete end-to-end model reads [ab cd] into empty containers. *)
Lemma tokenizers_keep_containers_aligned_witness :
  aligned true true true no_outputs
  /\ aligned true true true
       {| output_pieces := [bytes_of "a"; bytes_of "##b"; bytes_of "[UNK]"];
          output_ids := [0; 2; 5];
          output_start_offsets := [0; 1; 3];
          output_end_offsets := [1; 2; 5] |}.
Proof.
  assert (Hal : aligned true true true no_outputs).
  { exists 0%nat. repeat split; reflexivity. }
  split; [exact Hal|].
  apply (tokenizers_keep_containers_aligned example_utils example_icu
           (example_tokenizer true) true true true 50 (bytes_of "ab cd") 0
           no_outputs _ Hal).
  right. reflexivity.
Defined.

(** ** End-to-end mode appends when the cursor cannot come back to the root *)

Lemma append_unknown_token_extends :
  forall this kGetPieces kGetIds kGetOffsets first last out,
    extends kGetPieces kGetIds kGetOffsets out
      (append_unknown_token this kGetPieces kGetIds kGetOffsets first last
         out).
Proof.
  intros this kP kI kO first last [ps ids ss es].
  unfold append_unknown_token, extends.
  destruct kP, kI, kO;
    cbn [output_pieces output_ids output_start_offsets output_end_offsets];
    repeat split;
    first [apply grows_refl | apply grows_push_back].
Qed.

Section TextAppends.

Context {utils : Utils} {icu : ICU}.
Variable this : FastWordpieceTokenizer.
Variables kGetPieces kGetIds kGetOffsets : bool.
Variable input_text : bytes.

Lemma trie_match_loop_extends :
  forall fuel input_substr woff pos next prev cur_char len cur node out m,
    trie_match_loop this kGetPieces kGetIds kGetOffsets fuel input_text
      input_substr woff pos next prev cur_char len cur node out = Ok m ->
    extends kGetPieces kGetIds kGetOffsets out (exit_outputs m).
Proof.
  intros fuel input_substr woff.
  induction fuel as [|fuel IH];
    intros pos next prev cur_char len cur node out m;
    cbn [trie_match_loop];
    destruct (pos <? size input_text);
    try discriminate;
    try (intro H; inversion H; subst; apply extends_refl).
  destruct (U8_NEXT input_text pos (size input_text)) as [next' cp].
  destruct (len + next' - pos >? max_bytes_per_token (config_ this)).
  { intro H; inversion H; subst. apply extends_refl. }
  destruct (follow_failure_links this kGetPieces kGetIds kGetOffsets fuel
              (fun n => TryTraverseSeveralSteps (trie_ this) n
                          (substr input_text pos (next' - pos)))
              input_substr woff cur node out)
    as [[consumed [[c nd] o]]|] eqn:Hf; cbn [bind]; [|discriminate].
  apply follow_failure_links_extends in Hf.
  destruct consumed.
  - intro H. apply IH in H. eapply extends_trans; eauto.
  - intro H; inversion H; subst. exact Hf.
Qed.

Lemma HandleTheRemainingStringOnTriePath_extends :
  forall fuel input_word woff n out0 cur node out original cur' node' out',
    in_sync kGetPieces kGetIds kGetOffsets n out0 ->
    extends kGetPieces kGetIds kGetOffsets out0 out ->
    HandleTheRemainingStringOnTriePath this kGetPieces kGetIds kGetOffsets
      fuel input_word woff node (Z.of_nat n) cur out
    = Ok (original, cur', node', out') ->
    extends kGetPieces kGetIds kGetOffsets out0 out'.
Proof.
  intros fuel word woff n out0 cur node out orig cur' node' out' Hsync Hext Hh.
  apply HandleTheRemainingStringOnTriePath_atomic with (n := n) (out0 := out0)
    in Hh; [|exact Hsync|exact Hext].
  destruct Hh as [Hh|[pops Hp]].
  - subst out'. apply append_unknown_token_extends.
  - apply append_tokens_extends in Hp. eapply extends_trans; eauto.
Qed.

(** One iteration of the outer loop whose rollback marker is the size of
    the outputs only appends. *)
Lemma tokenize_next_word_extends : forall fuel s n r,
  in_sync kGetPieces kGetIds kGetOffsets n (outputs s) ->
  original_num_tokens s = Z.of_nat n ->
  tokenize_next_word this kGetPieces kGetIds kGetOffsets fuel input_text s
  = Ok r ->
  extends kGetPieces kGetIds kGetOffsets (outputs s)
    (match r with inl s' => outputs s' | inr out' => out' end).
Proof.
  intros fuel s n r Hsync Horig. unfold tokenize_next_word.
  destruct (match_next_word this kGetPieces kGetIds kGetOffsets fuel
              input_text s) as [m|] eqn:Hm; cbn [bind]; [|discriminate].
  unfold match_next_word in Hm.
  apply trie_match_loop_extends in Hm.
  rewrite Horig.
  destruct (exit_pos m >=? size input_text).
  { destruct (HandleTheRemainingStringOnTriePath this kGetPieces kGetIds
                kGetOffsets fuel (skipn (Z.to_nat (cur_pos s)) input_text)
                (cur_pos s) (exit_node m) (Z.of_nat n)
                (exit_offset_in_input_word m) (exit_outputs m))
      as [[[[orig c] nd] o]|] eqn:Hh; cbn [bind]; [|discriminate].
    intro H; inversion H; subst.
    eapply HandleTheRemainingStringOnTriePath_extends; eauto. }
  destruct (at_word_boundary m).
  - unfold flush_word_at_boundary. rewrite Horig.
    destruct (HandleTheRemainingStringOnTriePath this kGetPieces kGetIds
                kGetOffsets fuel
                (firstn (Z.to_nat (exit_pos m - cur_pos s))
                   (skipn (Z.to_nat (cur_pos s)) input_text))
                (cur_pos s) (exit_node m) (Z.of_nat n)
                (exit_offset_in_input_word m) (exit_outputs m))
      as [[[[orig c] nd] o]|] eqn:Hh; cbn [bind]; [|discriminate].
    intro H; inversion H; subst. cbn [outputs].
    eapply HandleTheRemainingStringOnTriePath_extends; eauto.
  - unfold map_word_to_unknown. rewrite Horig.
    destruct (SkipTheRemainingOfWordAndTrailingWhiteSpaces fuel input_text
                (exit_next_pos m)) as [[e p]|]; cbn [bind]; [|discriminate].
    pose proof (ResetOutputAppendUnknownToken_extends this kGetPieces kGetIds
                  kGetOffsets (cur_pos s) (e - cur_pos s) n (outputs s)
                  (exit_outputs m) Hsync Hm) as Hr.
    destruct (ResetOutputAppendUnknownToken this kGetPieces kGetIds
                kGetOffsets (cur_pos s) (e - cur_pos s) (Z.of_nat n)
                (exit_outputs m)) as [orig o].
    cbn [snd] in Hr. intro H; inversion H; subst. cbn [outputs].
    apply append_unknown_token_extends.
Qed.

Hypothesis static_assert : kGetPieces || kGetIds = true.
Hypothesis U8_NEXT_advances : forall i,
  0 <= i < size input_text -> i < fst (U8_NEXT input_text i (size input_text)).
Hypothesis no_edge_to_root : forall node ch,
  TryTraverseOneStep (trie_ this) node ch <> Some (kRootNodeId (trie_ this)).
Hypothesis no_link_to_root : forall node node_aux,
  Get (failure_struct_array (config_ this)) node = Ok node_aux ->
  failure_link node_aux <> kRootNodeId (trie_ this).

Lemma tokenize_words_extends : forall fuel out s out',
  visited this kGetPieces kGetIds kGetOffsets input_text out s ->
  aligned kGetPieces kGetIds kGetOffsets (outputs s) ->
  tokenize_words this kGetPieces kGetIds kGetOffsets fuel input_text s
  = Ok out' ->
  extends kGetPieces kGetIds kGetOffsets (outputs s) out'.
Proof.
  induction fuel as [|fuel IH]; intros out s out' Hv Hal;
    cbn [tokenize_words];
    destruct (cur_pos s <? size input_text) eqn:Hlt;
    try discriminate;
    try (intro H; inversion H; subst; apply extends_refl).
  apply Z.ltb_lt in Hlt.
  destruct (tokenize_next_word this kGetPieces kGetIds kGetOffsets fuel
              input_text s) as [r|] eqn:Hr; cbn [bind]; [|discriminate].
  destruct Hal as [n Hsync].
  pose proof (rollback_marker_follows_outputs this kGetPieces kGetIds
                kGetOffsets input_text static_assert U8_NEXT_advances
                no_edge_to_root no_link_to_root out s Hv) as Hmarker.
  rewrite (GetCurrentOutputSize_in_sync _ _ _ _ _ static_assert Hsync)
    in Hmarker.
  pose proof (tokenize_next_word_extends fuel s n r Hsync Hmarker Hr) as Hext.
  pose proof (tokenize_next_word_aligned this kGetPieces kGetIds kGetOffsets
                fuel input_text s r (ex_intro _ n Hsync) Hr) as Hal'.
  destruct r as [s'|o].
  - intro H. apply IH with (out := out) in H;
      [eapply extends_trans; eauto| |exact Hal'].
    eapply visited_next; eauto.
  - intro H; inversion H; subst. exact Hext.
Qed.

Lemma TokenizeTextImpl_extends : forall fuel out out',
  aligned kGetPieces kGetIds kGetOffsets out ->
  TokenizeTextImpl this kGetPieces kGetIds kGetOffsets fuel input_text out
  = Ok out' ->
  extends kGetPieces kGetIds kGetOffsets out out'.
Proof.
  intros fuel out out' Hal.
  assert (Hcase :
            TokenizeTextImpl this kGetPieces kGetIds kGetOffsets fuel
              input_text out = Ok out
            \/ TokenizeTextImpl this kGetPieces kGetIds kGetOffsets fuel
                 input_text out
               = tokenize_words this kGetPieces kGetIds kGetOffsets fuel
                   input_text (initial_text_state kGetPieces out)).
  { unfold TokenizeTextImpl.
    destruct input_text; [left|right]; reflexivity. }
  destruct Hcase as [Hcase|Hcase]; rewrite Hcase.
  - intro H; inversion H; subst. apply extends_refl.
  - intro H.
    apply tokenize_words_extends with (out := out) in H;
      [exact H|apply visited_first|exact Hal].
Qed.

End TextAppends.

(** X4.  In end-to-end mode, on a model in which no trie edge and no failure
    link leads to the trie root, and with a decoder that moves forward, a
    call only appends: every container in use keeps the tokens it held
    before the call, and a container that is not in use is left as it
    was. *)
Theorem end_to_end_mode_appends :
  forall (utils : Utils) (icu : ICU) (this : FastWordpieceTokenizer)
         (kGetPieces kGetIds kGetOffsets : bool) (fuel : nat)
         (input_text : bytes) (out out' : Outputs),
    kGetPieces || kGetIds = true ->
    (forall i, 0 <= i < size input_text ->
               i < fst (U8_NEXT input_text i (size input_text))) ->
    (forall node ch,
       TryTraverseOneStep (trie_ this) node ch
       <> Some (kRootNodeId (trie_ this))) ->
    (forall node node_aux,
       Get (failure_struct_array (config_ this)) node = Ok node_aux ->
       failure_link node_aux <> kRootNodeId (trie_ this)) ->
    aligned kGetPieces kGetIds kGetOffsets out ->
    TokenizeTextImpl this kGetPieces kGetIds kGetOffsets fuel input_text out
    = Ok out' ->
    extends kGetPieces kGetIds kGetOffsets out out'.
Proof.
  intros utils icu this kP kI kO fuel text out out' Hstatic Hadv Hedge Hlink.
  apply TokenizeTextImpl_extends; assumption.
Qed.

(** The concrete end-to-end model reads [ab cd] into containers that hold
    one token. *)
Lemma end_to_end_mode_appends_witness :
  extends true true true
    {| output_pieces := [bytes_of "z"]; output_ids := [4];
       output_start_offsets := [0]; output_end_offsets := [1] |}
    {| output_pieces :=
         [bytes_of "z"; bytes_of "a"; bytes_of "##b"; bytes_of "[UNK]"];
       output_ids := [4; 0; 2; 5];
       output_start_offsets := [0; 0; 1; 3];
       output_end_offsets := [1; 1; 2; 5] |}.
Proof.
  apply (end_to_end_mode_appends example_utils example_icu
           (example_tokenizer true) true true true 50 (bytes_of "ab cd")).
  - reflexivity.
  - intros i Hi. cbn [U8_NEXT example_icu fst]. lia.
  - intros node ch H.
    unfold example_tokenizer, trie_, trie_of, TryTraverseOneStep, lookup_edge
      in H.
    destruct (find _ _) as [e|] eqn:Hfind; [|discriminate].
    apply find_some in Hfind. destruct Hfind as [Hin _].
    cbn in Hin.
    repeat (destruct Hin as [Hin|Hin]; [subst e; discriminate|]).
    destruct Hin.
  - intros node aux H. unfold Get in H.
    destruct (node <? 0); [discriminate|].
    destruct (nth_error _ _) as [a|] eqn:Hnth; [|discriminate].
    inversion H; subst a. apply nth_error_In in Hnth.
    cbn in Hnth.
    repeat (destruct Hnth as [Hnth|Hnth]; [subst aux; discriminate|]).
    destruct Hnth.
  - exists 1%nat. repeat split; reflexivity.
  - reflexivity.
Defined.

(** ** Cutting the outputs back to the rollback marker *)

(** X5.  [ResetOutputAppendUnknownToken] with a marker of [k] tokens keeps
    the first [k] tokens of every container in use, drops the tokens after
    them, and appends one unknown token with the given offsets; it returns
    the marker [k + 1].  A container that is not in use is left as it
    was. *)
Theorem ResetOutputAppendUnknownToken_cuts_back :
  forall (this : FastWordpieceTokenizer)
         (kGetPieces kGetIds kGetOffsets : bool)
         (input_word_offset_in_text input_size : Z) (k n : nat)
         (out : Outputs),
    in_sync kGetPieces kGetIds kGetOffsets n out ->
    (k <= n)%nat ->
    ResetOutputAppendUnknownToken this kGetPieces kGetIds kGetOffsets
      input_word_offset_in_text input_size (Z.of_nat k) out
    = (Z.of_nat k + 1,
       append_unknown_token this kGetPieces kGetIds kGetOffsets
         input_word_offset_in_text (input_word_offset_in_text + input_size)
         (first_tokens kGetPieces kGetIds kGetOffsets k out)).
Proof.
  intros this kP kI kO first sz k n [ps ids ss es] [Hp [Hi Ho]] Hk.
  unfold ResetOutputAppendUnknownToken, append_unknown_token, first_tokens.
  cbn [output_pieces output_ids output_start_offsets output_end_offsets] in *.
  destruct kP, kI, kO;
    try specialize (Hp eq_refl); try specialize (Hi eq_refl);
    try (destruct (Ho eq_refl) as [Hs He]);
    unfold with_offsets, with_ids, with_pieces;
    cbn [output_pieces output_ids output_start_offsets output_end_offsets];
    unfold bytes in *;
    repeat (rewrite resize_set_back by lia);
    reflexivity.
Qed.

(** The outputs hold the tokens of [abcz]; a reset to a marker of one token
    keeps the first of them. *)
Lemma ResetOutputAppendUnknownToken_cuts_back_witness :
  ResetOutputAppendUnknownToken (example_tokenizer false) true true true
    0 4 1
    {| output_pieces := [bytes_of "a"; bytes_of "##bc"; bytes_of "##z"];
       output_ids := [0; 3; 4];
       output_start_offsets := [0; 1; 3];
       output_end_offsets := [1; 3; 4] |}
  = (2,
     {| output_pieces := [bytes_of "a"; bytes_of "[UNK]"];
        output_ids := [0; 5];
        output_start_offsets := [0; 0];
        output_end_offsets := [1; 4] |}).
Proof.
  apply (ResetOutputAppendUnknownToken_cuts_back (example_tokenizer false)
           true true true 0 4 1 3
           {| output_pieces :=
                [bytes_of "a"; bytes_of "##bc"; bytes_of "##z"];
              output_ids := [0; 3; 4];
              output_start_offsets := [0; 1; 3];
              output_end_offsets := [1; 3; 4] |}).
  - repeat split; reflexivity.
  - lia.
Defined.

(** ** Skipping the rest of a word *)

Section SkipTheRemainingOfWord.

Context {utils : Utils} {icu : ICU}.
Variable input : bytes.

Lemma skip_loop_stops : forall fuel pos end_of_word pos',
  skip_loop fuel input pos pos = Ok (end_of_word, pos') ->
  word_characters input pos end_of_word
  /\ ((size input <= end_of_word /\ pos' = end_of_word)
      \/ (end_of_word < size input
          /\ u_isUWhiteSpace (code_point_at input end_of_word) = true
          /\ pos' = position_after input end_of_word)
      \/ (end_of_word < size input
          /\ u_isUWhiteSpace (code_point_at input end_of_word) = false
          /\ IsPunctuationOrChineseChar (code_point_at input end_of_word)
             = true
          /\ pos' = end_of_word)).
Proof.
  induction fuel as [|fuel IH]; intros pos e pos';
    cbn [skip_loop];
    destruct (pos <? size input) eqn:Hlt;
    try discriminate;
    try (intro H; inversion H; subst; apply Z.ltb_ge in Hlt;
         split; [apply word_characters_none|left; split; [lia|reflexivity]]).
  apply Z.ltb_lt in Hlt.
  pose proof (eq_refl : code_point_at input pos
                        = snd (U8_NEXT input pos (size input))) as Hcp.
  pose proof (eq_refl : position_after input pos
                        = fst (U8_NEXT input pos (size input))) as Hnext.
  destruct (U8_NEXT input pos (size input)) as [next cp].
  cbn [fst snd] in Hcp, Hnext. subst next cp.
  destruct (u_isUWhiteSpace (code_point_at input pos)) eqn:Hws.
  { intro H; inversion H; subst.
    split; [apply word_characters_none|].
    right. left. repeat split; assumption. }
  destruct (IsPunctuationOrChineseChar (code_point_at input pos)) eqn:Hp.
  { intro H; inversion H; subst.
    split; [apply word_characters_none|].
    right. right. repeat split; assumption. }
  intro H. apply IH in H. destruct H as [Hrun Hstop].
  split; [|exact Hstop].
  apply word_characters_next; assumption.
Qed.

Hypothesis U8_NEXT_advances : forall i,
  0 <= i < size input -> i < position_after input i.

Lemma skip_loop_returns : forall fuel pos,
  0 <= pos ->
  (Z.to_nat (size input - pos) <= fuel)%nat ->
  exists end_of_word pos',
    skip_loop fuel input pos pos = Ok (end_of_word, pos').
Proof.
  induction fuel as [|fuel IH]; intros pos Hpos Hfuel;
    cbn [skip_loop];
    destruct (pos <? size input) eqn:Hlt;
    try (eexists; eexists; reflexivity);
    apply Z.ltb_lt in Hlt; [lia|].
  pose proof (U8_NEXT_advances pos ltac:(lia)) as Hadv.
  unfold position_after in Hadv.
  destruct (U8_NEXT input pos (size input)) as [next cp].
  cbn [fst] in Hadv.
  destruct (u_isUWhiteSpace cp); [eexists; eexists; reflexivity|].
  destruct (IsPunctuationOrChineseChar cp); [eexists; eexists; reflexivity|].
  apply IH; lia.
Qed.

Lemma word_characters_forward : forall i j,
  0 <= i -> word_characters input i j -> i <= j.
Proof.
  intros i j Hi Hrun. induction Hrun as [|i j Hlt Hws Hp Hrun IH]; [lia|].
  pose proof (U8_NEXT_advances i ltac:(lia)). lia.
Qed.

End SkipTheRemainingOfWord.

(** X6.  With a decoder that moves forward,
    [SkipTheRemainingOfWordAndTrailingWhiteSpaces] returns after at most one
    iteration per byte left.  The [end_of_word] it returns is the first
    position at or after [cur_pos] that is the end of the input or holds a
    whitespace, a punctuation or a CJK character: every code point before
    it is a word character.  A whitespace there is skipped, a punctuation
    or CJK character is not. *)
Theorem SkipTheRemainingOfWordAndTrailingWhiteSpaces_finds_boundary :
  forall (utils : Utils) (icu : ICU) (fuel : nat) (input : bytes)
         (cur_pos : Z),
    (forall i, 0 <= i < size input -> i < position_after input i) ->
    0 <= cur_pos ->
    (Z.to_nat (size input - cur_pos) <= fuel)%nat ->
    exists end_of_word cur_pos',
      SkipTheRemainingOfWordAndTrailingWhiteSpaces fuel input cur_pos
      = Ok (end_of_word, cur_pos')
      /\ cur_pos <= end_of_word
      /\ word_characters input cur_pos end_of_word
      /\ ((size input <= end_of_word /\ cur_pos' = end_of_word)
          \/ (end_of_word < size input
              /\ u_isUWhiteSpace (code_point_at input end_of_word) = true
              /\ cur_pos' = position_after input end_of_word)
          \/ (end_of_word < size input
              /\ u_isUWhiteSpace (code_point_at input end_of_word) = false
              /\ IsPunctuationOrChineseChar (code_point_at input end_of_word)
                 = true
              /\ cur_pos' = end_of_word)).
Proof.
  intros utils icu fuel input pos Hadv Hpos Hfuel.
  unfold SkipTheRemainingOfWordAndTrailingWhiteSpaces.
  destruct (skip_loop_returns input Hadv fuel pos Hpos Hfuel)
    as [e [pos' Hskip]].
  exists e, pos'. split; [exact Hskip|].
  apply skip_loop_stops in Hskip. destruct Hskip as [Hrun Hstop].
  split; [|split; [exact Hrun|exact Hstop]].
  eapply word_characters_forward; eauto.
Qed.

(** In the text [abx cd!] the decoder of the concrete model skips from
    position 2 to the space at position 3; the word ends at 3 and the next
    one begins at 4. *)
Lemma SkipTheRemainingOfWordAndTrailingWhiteSpaces_finds_boundary_witness :
  exists end_of_word cur_pos',
    SkipTheRemainingOfWordAndTrailingWhiteSpaces (utils := example_utils)
      (icu := example_icu) 5 (bytes_of "abx cd!") 2
    = Ok (end_of_word, cur_pos')
    /\ 2 <= end_of_word
    /\ word_characters (utils := example_utils) (icu := example_icu)
         (bytes_of "abx cd!") 2 end_of_word
    /\ ((size (bytes_of "abx cd!") <= end_of_word /\ cur_pos' = end_of_word)
        \/ (end_of_word < size (bytes_of "abx cd!")
            /\ u_isUWhiteSpace (ICU := example_icu)
                 (code_point_at (icu := example_icu) (bytes_of "abx cd!")
                    end_of_word) = true
            /\ cur_pos'
               = position_after (icu := example_icu) (bytes_of "abx cd!")
                   end_of_word)
        \/ (end_of_word < size (bytes_of "abx cd!")
            /\ u_isUWhiteSpace (ICU := example_icu)
                 (code_point_at (icu := example_icu) (bytes_of "abx cd!")
                    end_of_word) = false
            /\ IsPunctuationOrChineseChar (Utils := example_utils)
                 (code_point_at (icu := example_icu) (bytes_of "abx cd!")
                    end_of_word) = true
            /\ cur_pos' = end_of_word)).
Proof.
  apply (SkipTheRemainingOfWordAndTrailingWhiteSpaces_finds_boundary
           example_utils example_icu 5 (bytes_of "abx cd!") 2).
  - intros i Hi. unfold position_after. cbn [U8_NEXT example_icu fst]. lia.
  - lia.
  - vm_compute. lia.
Defined.

(** ** More on the detokenizer *)

Section DetokenizerWords.

Variable indicator : bytes.

Lemma detokenize_words_prefix : forall tokens p w w0,
  spec_detokenize_flush
    (fold_left (spec_detokenize_rule indicator) tokens
       {| pending := p; words := w ++ w0 |})
  = w ++ spec_detokenize_flush
           (fold_left (spec_detokenize_rule indicator) tokens
              {| pending := p; words := w0 |}).
Proof.
  induction tokens as [|[v s] tokens IH]; intros p w w0.
  - unfold spec_detokenize_flush. cbn [fold_left pending words].
    destruct p; [reflexivity | symmetry; apply app_assoc].
  - cbn [fold_left]. unfold spec_detokenize_rule at 2 4.
    cbn [pending words fst snd].
    destruct p as [|x p], s; cbn [pending words];
      rewrite <- ?app_assoc; apply IH.
Qed.

Lemma detokenize_pending_concat : forall tokens p w,
  p <> [] ->
  concat (spec_detokenize_flush
            (fold_left (spec_detokenize_rule indicator) tokens
               {| pending := p; words := w |}))
  = concat w ++ concat p ++ concat (map fst tokens).
Proof.
  induction tokens as [|[v s] tokens IH]; intros p w Hp.
  - unfold spec_detokenize_flush. cbn [fold_left pending words map concat].
    destruct p as [|x p]; [contradiction|].
    flatten_words. reflexivity.
  - cbn [fold_left map fst concat]. unfold spec_detokenize_rule at 2.
    cbn [pending words fst snd].
    destruct p as [|x p]; [contradiction|].
    destruct s; cbn [pending words].
    + rewrite IH by (destruct p; discriminate).
      flatten_words. reflexivity.
    + rewrite IH by discriminate.
      flatten_words. reflexivity.
Qed.

Lemma detokenize_concat : forall tokens,
  concat (spec_detokenize_to_tokens indicator tokens)
  = (if starts_with_suffix tokens then indicator else [])
    ++ concat (map fst tokens).
Proof.
  intros [|[v s] tokens]; [reflexivity|].
  unfold spec_detokenize_to_tokens. cbn [fold_left starts_with_suffix].
  unfold spec_detokenize_rule at 2. cbn [pending words fst snd].
  destruct s; cbn [pending words app];
    rewrite detokenize_pending_concat by discriminate;
    flatten_words; reflexivity.
Qed.

Lemma detokenize_pending_length : forall tokens p w,
  p <> [] ->
  length (spec_detokenize_flush
            (fold_left (spec_detokenize_rule indicator) tokens
               {| pending := p; words := w |}))
  = (length w + 1
     + length (filter (fun entry => negb (snd entry)) tokens))%nat.
Proof.
  induction tokens as [|[v s] tokens IH]; intros p w Hp.
  - unfold spec_detokenize_flush. cbn [fold_left pending words filter length].
    destruct p as [|x p]; [contradiction|].
    rewrite length_app. cbn [length]. lia.
  - cbn [fold_left filter snd]. unfold spec_detokenize_rule at 2.
    cbn [pending words fst snd].
    destruct p as [|x p]; [contradiction|].
    destruct s; cbn [pending words negb length].
    + rewrite IH by (destruct p; discriminate). reflexivity.
    + rewrite IH by discriminate. rewrite length_app. cbn [length]. lia.
Qed.

Lemma detokenize_length : forall tokens,
  length (spec_detokenize_to_tokens indicator tokens) = count_words tokens.
Proof.
  intros [|[v s] tokens]; [reflexivity|].
  unfold spec_detokenize_to_tokens, count_words.
  cbn [fold_left starts_with_suffix filter snd].
  unfold spec_detokenize_rule at 2. cbn [pending words fst snd].
  destruct s; cbn [pending words app negb length];
    rewrite detokenize_pending_length by discriminate;
    cbn [length]; lia.
Qed.

Lemma detokenize_app : forall ta tb,
  starts_with_suffix tb = false ->
  spec_detokenize_to_tokens indicator (ta ++ tb)
  = spec_detokenize_to_tokens indicator ta
    ++ spec_detokenize_to_tokens indicator tb.
Proof.
  intros ta tb Hb. unfold spec_detokenize_to_tokens.
  rewrite fold_left_app.
  destruct (fold_left (spec_detokenize_rule indicator) ta
              {| pending := []; words := [] |}) as [p w].
  destruct tb as [|[v s] tb].
  - unfold spec_detokenize_flush at 3. cbn [fold_left pending words].
    rewrite app_nil_r. reflexivity.
  - cbn [starts_with_suffix] in Hb. subst s.
    cbn [fold_left]. unfold spec_detokenize_rule at 2 4.
    cbn [pending words fst snd].
    unfold spec_detokenize_flush at 2. cbn [pending words].
    destruct p as [|x p]; cbn [pending words app].
    + rewrite <- (app_nil_r w) at 1. apply detokenize_words_prefix.
    + rewrite <- (app_nil_r (w ++ [concat (x :: p)])) at 1.
      apply detokenize_words_prefix.
Qed.

End DetokenizerWords.

Lemma DetokenizeToTokens_rule : forall this input,
  support_detokenization (config_ this) = true ->
  DetokenizeToTokens this input
  = (tokens <- lookup_tokens (config_ this) input ;;
     Ok (spec_detokenize_to_tokens (suffix_indicator (config_ this)) tokens)).
Proof.
  intros this input Hsupport. unfold DetokenizeToTokens.
  rewrite Hsupport. cbn [negb]. apply detokenize_ids_rule.
Qed.

Lemma DetokenizeToTokens_entries : forall this input output_tokens,
  DetokenizeToTokens this input = Ok output_tokens ->
  exists entries,
    lookup_tokens (config_ this) input = Ok entries
    /\ output_tokens
       = spec_detokenize_to_tokens (suffix_indicator (config_ this)) entries.
Proof.
  intros this input ws H.
  destruct (support_detokenization (config_ this)) eqn:Hsupport.
  - rewrite DetokenizeToTokens_rule in H by exact Hsupport.
    destruct (lookup_tokens (config_ this) input) as [entries|];
      cbn [bind] in H; [|discriminate].
    exists entries. split; [reflexivity|]. inversion H. reflexivity.
  - unfold DetokenizeToTokens in H. rewrite Hsupport in H. discriminate.
Qed.

(** X7.  The detokenizer neither drops nor invents bytes: the words that
    [DetokenizeToTokens] returns, written one after the other, are the
    vocabulary entries of the ids in the order of the ids, after the suffix
    indicator when the first id is a suffix token. *)
Theorem DetokenizeToTokens_keeps_the_entries :
  forall (this : FastWordpieceTokenizer) (input : list Z)
         (output_tokens : list bytes),
    DetokenizeToTokens this input = Ok output_tokens ->
    exists entries,
      lookup_tokens (config_ this) input = Ok entries
      /\ concat output_tokens
         = (if starts_with_suffix entries
            then suffix_indicator (config_ this) else [])
           ++ concat (map fst entries).
Proof.
  intros this input ws H.
  apply DetokenizeToTokens_entries in H. destruct H as [entries [Hl Hw]].
  exists entries. split; [exact Hl|]. subst ws. apply detokenize_concat.
Qed.

(** The ids [##b a ##bc ##z a] of the concrete model. *)
Lemma DetokenizeToTokens_keeps_the_entries_witness :
  exists entries,
    lookup_tokens (config_ (example_tokenizer false)) [2; 0; 3; 4; 0]
    = Ok entries
    /\ concat [bytes_of "##b"; bytes_of "abcz"; bytes_of "a"]
       = (if starts_with_suffix entries
          then suffix_indicator (config_ (example_tokenizer false)) else [])
         ++ concat (map fst entries).
Proof.
  apply (DetokenizeToTokens_keeps_the_entries (example_tokenizer false)
           [2; 0; 3; 4; 0]).
  reflexivity.
Defined.

(** X8.  [DetokenizeToTokens] returns one word for every id that is not a
    suffix token, and one more when the first id is a suffix token. *)
Theorem DetokenizeToTokens_counts_words :
  forall (this : FastWordpieceTokenizer) (input : list Z)
         (output_tokens : list bytes),
    DetokenizeToTokens this input = Ok output_tokens ->
    exists entries,
      lookup_tokens (config_ this) input = Ok entries
      /\ length output_tokens = count_words entries.
Proof.
  intros this input ws H.
  apply DetokenizeToTokens_entries in H. destruct H as [entries [Hl Hw]].
  exists entries. split; [exact Hl|]. subst ws. apply detokenize_length.
Qed.

Lemma DetokenizeToTokens_counts_words_witness :
  exists entries,
    lookup_tokens (config_ (example_tokenizer false)) [2; 0; 3; 4; 0]
    = Ok entries
    /\ length [bytes_of "##b"; bytes_of "abcz"; bytes_of "a"]
       = count_words entries.
Proof.
  apply (DetokenizeToTokens_counts_words (example_tokenizer false)
           [2; 0; 3; 4; 0]).
  reflexivity.
Defined.

Lemma begins_word_entries : forall config b tb,
  lookup_tokens config b = Ok tb ->
  begins_word config b = true ->
  starts_with_suffix tb = false.
Proof.
  intros config [|id b] tb Hl Hb.
  - cbn in Hl. inversion Hl. reflexivity.
  - cbn [lookup_tokens begins_word] in *.
    destruct (Get (vocab_array config) id) as [v|]; cbn [bind] in Hl;
      [|discriminate].
    destruct (Get (vocab_is_suffix_array config) id) as [s|]; cbn [bind] in Hl;
      [|discriminate].
    destruct (lookup_tokens config b) as [tb'|]; cbn [bind] in Hl;
      [|discriminate].
    inversion Hl; subst. cbn [starts_with_suffix].
    destruct s; [discriminate | reflexivity].
Qed.

(** X9.  Detokenizing splits at the start of a word: when the ids [b] do
    not begin with a suffix token, the words of [a ++ b] are the words of
    [a] followed by the words of [b]. *)
Theorem DetokenizeToTokens_splits_at_words :
  forall (this : FastWordpieceTokenizer) (a b : list Z)
         (words_a words_b : list bytes),
    DetokenizeToTokens this a = Ok words_a ->
    DetokenizeToTokens this b = Ok words_b ->
    begins_word (config_ this) b = true ->
    DetokenizeToTokens this (a ++ b) = Ok (words_a ++ words_b).
Proof.
  intros this a b wa wb Ha Hb Hbegin.
  assert (Hsupport : support_detokenization (config_ this) = true).
  { unfold DetokenizeToTokens in Ha.
    destruct (support_detokenization (config_ this));
      [reflexivity | discriminate]. }
  apply DetokenizeToTokens_entries in Ha. destruct Ha as [ta [Hla Hwa]].
  apply DetokenizeToTokens_entries in Hb. destruct Hb as [tb [Hlb Hwb]].
  rewrite DetokenizeToTokens_rule by exact Hsupport.
  rewrite (lookup_tokens_app _ _ _ _ _ Hla Hlb). cbn [bind].
  rewrite detokenize_app by (eapply begins_word_entries; eauto).
  subst wa wb. reflexivity.
Qed.

(** The ids of [abcz] and the ids of [a ##b]. *)
Lemma DetokenizeToTokens_splits_at_words_witness :
  DetokenizeToTokens (example_tokenizer false) ([0; 3; 4] ++ [0; 2])
  = Ok ([bytes_of "abcz"] ++ [bytes_of "ab"]).
Proof.
  apply (DetokenizeToTokens_splits_at_words (example_tokenizer false)
           [0; 3; 4] [0; 2]); reflexivity.
Defined.

Lemma Get_known : forall (A : Type) (v : list A) (i : Z),
  (0 <=? i) && (i <? size v) = true -> exists a, Get v i = Ok a.
Proof.
  intros A v i H. apply andb_true_iff in H. destruct H as [Hlo Hhi].
  apply Z.leb_le in Hlo. apply Z.ltb_lt in Hhi.
  destruct (Get_in_range A v i (conj Hlo Hhi)) as [a [Ha _]].
  exists a. exact Ha.
Qed.

Lemma Get_unknown : forall (A : Type) (v : list A) (i : Z),
  (0 <=? i) && (i <? size v) = false -> Get v i = Err OutOfRange.
Proof.
  intros A v i H. unfold Get, size in *.
  destruct (i <? 0) eqn:Hneg; [reflexivity|].
  apply Z.ltb_ge in Hneg.
  destruct (nth_error v (Z.to_nat i)) as [a|] eqn:Hnth; [|reflexivity].
  assert (Hlt : (Z.to_nat i < length v)%nat).
  { apply nth_error_Some. rewrite Hnth. discriminate. }
  apply andb_false_iff in H. destruct H as [H|H].
  - apply Z.leb_gt in H. lia.
  - apply Z.ltb_ge in H. lia.
Qed.

(** X10.  On a model with [support_detokenization], [DetokenizeToTokens]
    returns words whenever every id is an index of the vocabulary and of
    its suffix flags.  With an id that is not, it reads one of the two
    vectors past its end. *)
Theorem DetokenizeToTokens_known_ids :
  forall (this : FastWordpieceTokenizer) (input : list Z),
    support_detokenization (config_ this) = true ->
    (forallb (known_id (config_ this)) input = true ->
     exists output_tokens, DetokenizeToTokens this input = Ok output_tokens)
    /\ (forallb (known_id (config_ this)) input = false ->
        DetokenizeToTokens this input = Err OutOfRange).
Proof.
  intros this input Hsupport.
  rewrite DetokenizeToTokens_rule by exact Hsupport.
  induction input as [|id input [IHok IHerr]].
  - split; [|discriminate]. intros _. eexists. reflexivity.
  - cbn [forallb lookup_tokens]. unfold known_id at 1 3.
    destruct ((0 <=? id) && (id <? size (vocab_array (config_ this))))
      eqn:Hv.
    + destruct (Get_known _ _ _ Hv) as [v Hgv]. rewrite Hgv. cbn [bind andb].
      destruct (id <? size (vocab_is_suffix_array (config_ this))) eqn:Hs.
      * assert (Hs' : (0 <=? id)
                      && (id <? size (vocab_is_suffix_array (config_ this)))
                      = true).
        { apply andb_true_iff in Hv. destruct Hv as [Hv _].
          rewrite Hv, Hs. reflexivity. }
        destruct (Get_known _ _ _ Hs') as [s Hgs]. rewrite Hgs.
        cbn [bind andb]. split; intro H.
        -- destruct (IHok H) as [ws Hws].
           destruct (lookup_tokens (config_ this) input) as [entries|];
             cbn [bind] in *; [|discriminate].
           eexists. reflexivity.
        -- specialize (IHerr H).
           destruct (lookup_tokens (config_ this) input) as [entries|];
             cbn [bind] in *; [discriminate | exact IHerr].
      * rewrite Get_unknown by (rewrite Hs; apply andb_false_r).
        cbn [bind andb]. split; [discriminate | reflexivity].
    + rewrite Get_unknown by exact Hv.
      cbn [bind andb]. split; [discriminate | reflexivity].
Qed.

(** The concrete model has six vocabulary entries. *)
Lemma DetokenizeToTokens_known_ids_witness :
  (forallb (known_id (config_ (example_tokenizer false))) [0; 3; 4] = true ->
   exists output_tokens,
     DetokenizeToTokens (example_tokenizer false) [0; 3; 4]
     = Ok output_tokens)
  /\ (forallb (known_id (config_ (example_tokenizer false))) [0; 3; 4]
      = false ->
      DetokenizeToTokens (example_tokenizer false) [0; 3; 4]
      = Err OutOfRange).
Proof.
  apply (DetokenizeToTokens_known_ids (example_tokenizer false) [0; 3; 4]).
  reflexivity.
Defined.

(** ** The ids do not depend on the overload *)

Lemma agree_bind :
  forall (A B C D : Type) (R : A -> B -> Prop) (S : C -> D -> Prop)
         (ma : result A) (mb : result B) (ka : A -> result C)
         (kb : B -> result D),
    agree R ma mb ->
    (forall a b, R a b -> agree S (ka a) (kb b)) ->
    agree S (bind ma ka) (bind mb kb).
Proof.
  intros A B C D R S [a|ea] [b|eb] ka kb Hm Hk; cbn in *;
    try contradiction; auto.
Qed.

Section SameIds.

Context {utils : Utils} {icu : ICU}.
Variable this : FastWordpieceTokenizer.
Variables kPa kOa kPb kOb : bool.

Lemma AppendTokenToOutput_same_ids : forall input_word woff ca cb e oa ob,
  same_ids kPa kPb oa ob ->
  same_ids kPa kPb
    (snd (AppendTokenToOutput this kPa true kOa input_word woff ca e oa))
    (snd (AppendTokenToOutput this kPb true kOb input_word woff cb e ob)).
Proof.
  intros word woff ca cb e [psa idsa ssa esa] [psb idsb ssb esb] [Hids Hsize].
  unfold AppendTokenToOutput, same_ids, GetCurrentOutputSize, size, push_back
    in *.
  destruct kPa, kOa, kPb, kOb;
    cbn [orb fst snd with_ids with_pieces with_offsets output_pieces
         output_ids output_start_offsets output_end_offsets] in *;
    (split; [rewrite Hids; reflexivity|]);
    rewrite !length_app; cbn [length]; lia.
Qed.

Lemma ResetOutputAppendUnknownToken_same_ids :
  forall first sza szb original oa ob,
    same_ids kPa kPb oa ob ->
    same_ids kPa kPb
      (snd (ResetOutputAppendUnknownToken this kPa true kOa first sza original
              oa))
      (snd (ResetOutputAppendUnknownToken this kPb true kOb first szb original
              ob)).
Proof.
  intros first sza szb orig [psa idsa ssa esa] [psb idsb ssb esb] [Hids Hsize].
  unfold ResetOutputAppendUnknownToken, same_ids, GetCurrentOutputSize, size
    in *.
  cbn [output_ids] in Hids. subst idsb.
  destruct kPa, kOa, kPb, kOb;
    cbn [snd with_ids with_pieces with_offsets output_pieces
         output_ids output_start_offsets output_end_offsets] in *;
    (split; [reflexivity|]);
    rewrite !reset_length; reflexivity.
Qed.

Lemma append_tokens_same_ids : forall input_word woff tokens ca cb oa ob,
  same_ids kPa kPb oa ob ->
  same_ids kPa kPb
    (snd (append_tokens this kPa true kOa input_word woff tokens ca oa))
    (snd (append_tokens this kPb true kOb input_word woff tokens cb ob)).
Proof.
  intros word woff tokens.
  induction tokens as [|e tokens IH]; intros ca cb oa ob H; [exact H|].
  rewrite !append_tokens_cons.
  pose proof (AppendTokenToOutput_same_ids word woff ca cb e oa ob H) as Ha.
  destruct (AppendTokenToOutput this kPa true kOa word woff ca e oa)
    as [ca' oa'].
  destruct (AppendTokenToOutput this kPb true kOb word woff cb e ob)
    as [cb' ob'].
  apply IH. exact Ha.
Qed.

Lemma collect_failure_pops_same_ids :
  forall input_word woff k offset ca cb oa ob,
    same_ids kPa kPb oa ob ->
    agree (fun x y => same_ids kPa kPb (snd x) (snd y))
      (collect_failure_pops this kPa true kOa input_word woff k offset ca oa)
      (collect_failure_pops this kPb true kOb input_word woff k offset cb ob).
Proof.
  intros word woff.
  induction k as [|k IH]; intros offset ca cb oa ob H;
    cbn [collect_failure_pops]; [exact H|].
  destruct (Get (failure_pops_pool (config_ this)) offset) as [e|];
    cbn [bind]; [|reflexivity].
  pose proof (AppendTokenToOutput_same_ids word woff ca cb e oa ob H) as Ha.
  destruct (AppendTokenToOutput this kPa true kOa word woff ca e oa)
    as [ca' oa'].
  destruct (AppendTokenToOutput this kPb true kOb word woff cb e ob)
    as [cb' ob'].
  apply IH. exact Ha.
Qed.

Lemma TryFollowFailureLinkAndCollectTokens_same_ids :
  forall input_word woff ca cb node oa ob,
    same_ids kPa kPb oa ob ->
    agree (step_agrees kPa kPb)
      (TryFollowFailureLinkAndCollectTokens this kPa true kOa input_word woff
         ca node oa)
      (TryFollowFailureLinkAndCollectTokens this kPb true kOb input_word woff
         cb node ob).
Proof.
  intros word woff ca cb node oa ob H.
  unfold TryFollowFailureLinkAndCollectTokens.
  destruct (TryGetData (trie_ this) node) as [data|].
  - pose proof (AppendTokenToOutput_same_ids word woff ca cb data oa ob H)
      as Ha.
    destruct (AppendTokenToOutput this kPa true kOa word woff ca data oa)
      as [ca' oa'].
    destruct (AppendTokenToOutput this kPb true kOb word woff cb data ob)
      as [cb' ob'].
    destruct (Get (failure_struct_array (config_ this)) node) as [aux|];
      cbn [bind]; [|reflexivity].
    repeat split; try reflexivity; apply Ha.
  - destruct (Get (failure_struct_array (config_ this)) node) as [aux|];
      cbn [bind]; [|reflexivity].
    destruct (failure_link aux =? kNullNode).
    + repeat split; try reflexivity; apply H.
    + destruct (GetFailurePopsOffsetAndLength (failure_pops_offset_length aux))
        as [offset len].
      eapply agree_bind;
        [apply collect_failure_pops_same_ids; exact H|].
      intros [ca' oa'] [cb' ob'] Ha. cbn [snd] in Ha.
      repeat split; try reflexivity; apply Ha.
Qed.

Lemma follow_failure_links_same_ids :
  forall fuel try_traverse input_word woff ca cb node oa ob,
    same_ids kPa kPb oa ob ->
    agree (step_agrees kPa kPb)
      (follow_failure_links this kPa true kOa fuel try_traverse input_word
         woff ca node oa)
      (follow_failure_links this kPb true kOb fuel try_traverse input_word
         woff cb node ob).
Proof.
  induction fuel as [|fuel IH];
    intros try_traverse word woff ca cb node oa ob H;
    cbn [follow_failure_links];
    destruct (try_traverse node) as [next|];
    try reflexivity;
    try (repeat split; try reflexivity; apply H).
  eapply agree_bind;
    [apply TryFollowFailureLinkAndCollectTokens_same_ids; exact H|].
  intros [fa [[ca' na] oa']] [fb [[cb' nb] ob']] [Hf [Hn Ho]].
  cbn [fst snd] in *. subst fb nb.
  destruct fa.
  - apply IH. exact Ho.
  - repeat split; try reflexivity; apply Ho.
Qed.

Lemma match_word_same_ids :
  forall fuel input_word woff rest ca cb node oa ob,
    same_ids kPa kPb oa ob ->
    agree (step_agrees kPa kPb)
      (match_word this kPa true kOa fuel input_word woff rest ca node oa)
      (match_word this kPb true kOb fuel input_word woff rest cb node ob).
Proof.
  intros fuel word woff rest.
  induction rest as [|ch rest IH]; intros ca cb node oa ob H;
    cbn [match_word].
  - repeat split; try reflexivity; apply H.
  - eapply agree_bind; [apply follow_failure_links_same_ids; exact H|].
    intros [fa [[ca' na] oa']] [fb [[cb' nb] ob']] [Hf [Hn Ho]].
    cbn [fst snd] in *. subst fb nb.
    destruct fa.
    + apply IH. exact Ho.
    + repeat split; try reflexivity; apply Ho.
Qed.

Lemma collect_remaining_tokens_same_ids :
  forall fuel input_word woff original ca cb node oa ob,
    same_ids kPa kPb oa ob ->
    agree (handled_agrees kPa kPb)
      (collect_remaining_tokens this kPa true kOa fuel input_word woff
         original ca node oa)
      (collect_remaining_tokens this kPb true kOb fuel input_word woff
         original cb node ob).
Proof.
  induction fuel as [|fuel IH];
    intros word woff orig ca cb node oa ob H;
    cbn [collect_remaining_tokens];
    destruct (negb (node =? trie_suffix_root (config_ this))
              && negb (node =? trie_punct_failure_link_node (config_ this)));
    try reflexivity;
    try (repeat split; try reflexivity; apply H).
  eapply agree_bind;
    [apply TryFollowFailureLinkAndCollectTokens_same_ids; exact H|].
  intros [fa [[ca' na] oa']] [fb [[cb' nb] ob']] [Hf [Hn Ho]].
  cbn [fst snd] in *. subst fb nb.
  destruct fa.
  - apply IH. exact Ho.
  - pose proof (ResetOutputAppendUnknownToken_same_ids woff (size word)
                  (size word) orig oa' ob' Ho) as Hr.
    unfold ResetOutputAppendUnknownToken in *. cbn [snd] in Hr.
    repeat split; try reflexivity; apply Hr.
Qed.

Lemma HandleTheRemainingStringOnTriePath_same_ids :
  forall fuel input_word woff node original ca cb oa ob,
    same_ids kPa kPb oa ob ->
    agree (handled_agrees kPa kPb)
      (HandleTheRemainingStringOnTriePath this kPa true kOa fuel input_word
         woff node original ca oa)
      (HandleTheRemainingStringOnTriePath this kPb true kOb fuel input_word
         woff node original cb ob).
Proof.
  intros fuel word woff node orig ca cb oa ob H.
  unfold HandleTheRemainingStringOnTriePath.
  destruct (node =? kRootNodeId (trie_ this)).
  { repeat split; try reflexivity; apply H. }
  unfold TryHandleTheInputWordBeingSuffixIndicatorItself.
  destruct (negb (node =? trie_suffix_root (config_ this)));
    [apply collect_remaining_tokens_same_ids; exact H|].
  rewrite <- (proj2 H).
  destruct (negb (GetCurrentOutputSize kPa oa =? orig));
    [apply collect_remaining_tokens_same_ids; exact H|].
  destruct ((size (precomputed_result_for_suffix_indicator (config_ this))
             =? 1)
            && (GetTokenId
                  (nth 0 (precomputed_result_for_suffix_indicator
                            (config_ this)) 0)
                =? unk_token_id (config_ this))).
  - pose proof (ResetOutputAppendUnknownToken_same_ids woff (size word)
                  (size word) orig oa ob H) as Hr.
    repeat split; try reflexivity; apply Hr.
  - pose proof (append_tokens_same_ids word woff
                  (precomputed_result_for_suffix_indicator (config_ this))
                  ca cb oa ob H) as Ha.
    unfold append_tokens in Ha.
    destruct (fold_left
                (fun st encoded_token_value =>
                   AppendTokenToOutput this kPa true kOa word woff (fst st)
                     encoded_token_value (snd st))
                (precomputed_result_for_suffix_indicator (config_ this))
                (ca, oa)) as [ca' oa'].
    destruct (fold_left
                (fun st encoded_token_value =>
                   AppendTokenToOutput this kPb true kOb word woff (fst st)
                     encoded_token_value (snd st))
                (precomputed_result_for_suffix_indicator (config_ this))
                (cb, ob)) as [cb' ob'].
    cbn [snd] in Ha.
    repeat split; try reflexivity; apply Ha.
Qed.

Lemma TokenizeSingleWordImpl_same_ids : forall fuel input_word woff oa ob,
  same_ids kPa kPb oa ob ->
  agree (same_ids kPa kPb)
    (TokenizeSingleWordImpl this kPa true kOa fuel input_word woff oa)
    (TokenizeSingleWordImpl this kPb true kOb fuel input_word woff ob).
Proof.
  intros fuel word woff oa ob H. unfold TokenizeSingleWordImpl.
  destruct word as [|ch word']; [exact H|].
  set (word := ch :: word').
  rewrite <- (proj2 H).
  destruct (size word >? max_bytes_per_token (config_ this)).
  { apply ResetOutputAppendUnknownToken_same_ids. exact H. }
  eapply agree_bind; [apply match_word_same_ids; exact H|].
  intros [fa [[ca' na] oa']] [fb [[cb' nb] ob']] [Hf [Hn Ho]].
  cbn [fst snd] in *. subst fb nb.
  destruct fa.
  - eapply agree_bind;
      [apply HandleTheRemainingStringOnTriePath_same_ids; exact Ho|].
    intros [[[orig1 c1] n1] o1] [[[orig2 c2] n2] o2] [_ [_ Ho']].
    exact Ho'.
  - apply ResetOutputAppendUnknownToken_same_ids. exact Ho.
Qed.


Lemma trie_match_loop_same_ids :
  forall fuel input_text input_substr woff pos next prev cur_char len ca cb
         node oa ob,
    same_ids kPa kPb oa ob ->
    agree (exit_agrees kPa kPb)
      (trie_match_loop this kPa true kOa fuel input_text input_substr woff pos
         next prev cur_char len ca node oa)
      (trie_match_loop this kPb true kOb fuel input_text input_substr woff pos
         next prev cur_char len cb node ob).
Proof.
  intros fuel text input_substr woff.
  induction fuel as [|fuel IH];
    intros pos next prev cur_char len ca cb node oa ob H;
    cbn [trie_match_loop];
    destruct (pos <? size text);
    try reflexivity;
    try (repeat split; try reflexivity; apply H).
  destruct (U8_NEXT text pos (size text)) as [next' cp].
  destruct (len + next' - pos >? max_bytes_per_token (config_ this)).
  { repeat split; try reflexivity; apply H. }
  eapply agree_bind; [apply follow_failure_links_same_ids; exact H|].
  intros [fa [[ca' na] oa']] [fb [[cb' nb] ob']] [Hf [Hn Ho]].
  cbn [fst snd] in *. subst fb nb.
  destruct fa.
  - apply IH. exact Ho.
  - repeat split; try reflexivity; apply Ho.
Qed.

Lemma tokenize_next_word_same_ids : forall fuel input_text sa sb,
  state_agrees kPa kPb sa sb ->
  agree (next_agrees kPa kPb)
    (tokenize_next_word this kPa true kOa fuel input_text sa)
    (tokenize_next_word this kPb true kOb fuel input_text sb).
Proof.
  intros fuel text [pos next prev cur_char orig oa]
         [pos' next_b prev_b cur_char_b orig_b ob] H.
  unfold state_agrees in H.
  cbn [cur_pos next_pos prev_unicode_char cur_unicode_char
       original_num_tokens outputs] in H.
  destruct H as [H1 [H2 [H3 [H4 [H5 Ho]]]]]. subst pos' next_b prev_b
    cur_char_b orig_b.
  unfold tokenize_next_word, match_next_word.
  cbn [cur_pos next_pos prev_unicode_char cur_unicode_char
       original_num_tokens outputs].
  eapply agree_bind; [apply trie_match_loop_same_ids; exact Ho|].
  intros [epos enext eprev ecur enode ecura eoa]
         [epos' enext' eprev' ecur' enode' ecurb eob] Hm.
  unfold exit_agrees in Hm.
  cbn [exit_pos exit_next_pos exit_prev_unicode_char exit_cur_unicode_char
       exit_node exit_outputs] in Hm.
  destruct Hm as [G1 [G2 [G3 [G4 [G5 Ho']]]]].
  subst epos' enext' eprev' ecur' enode'.
  cbn [exit_pos].
  destruct (epos >=? size text).
  { cbn [exit_node exit_offset_in_input_word exit_outputs].
    eapply agree_bind;
      [apply HandleTheRemainingStringOnTriePath_same_ids; exact Ho'|].
    intros [[[orig1 c1] n1] o1] [[[orig2 c2] n2] o2] [_ [_ Hh]].
    exact Hh. }
  unfold at_word_boundary.
  cbn [exit_pos exit_cur_unicode_char exit_prev_unicode_char].
  destruct (u_isUWhiteSpace ecur || IsPunctuationOrChineseChar ecur
            || negb (epos =? 0) && IsPunctuationOrChineseChar eprev).
  - unfold flush_word_at_boundary.
    cbn [cur_pos original_num_tokens exit_pos exit_next_pos
         exit_prev_unicode_char exit_cur_unicode_char exit_node
         exit_offset_in_input_word exit_outputs].
    eapply agree_bind; [|intros a b Hab; exact Hab].
    eapply agree_bind;
      [apply HandleTheRemainingStringOnTriePath_same_ids; exact Ho'|].
    intros [[[orig1 c1] n1] o1] [[[orig2 c2] n2] o2] [Horig [_ Hh]].
    cbn [fst snd] in *. subst orig2.
    repeat split; try reflexivity; apply Hh.
  - unfold map_word_to_unknown.
    cbn [cur_pos original_num_tokens exit_pos exit_next_pos
         exit_prev_unicode_char exit_cur_unicode_char exit_node
         exit_offset_in_input_word exit_outputs].
    eapply agree_bind; [|intros a b Hab; exact Hab].
    destruct (SkipTheRemainingOfWordAndTrailingWhiteSpaces fuel text enext)
      as [[e p]|]; cbn [bind]; [|reflexivity].
    pose proof (ResetOutputAppendUnknownToken_same_ids pos (e - pos) (e - pos)
                  orig eoa eob Ho') as Hr.
    unfold ResetOutputAppendUnknownToken in *. cbn [snd] in Hr.
    repeat split; try reflexivity; apply Hr.
Qed.

Lemma tokenize_words_same_ids : forall fuel input_text sa sb,
  state_agrees kPa kPb sa sb ->
  agree (same_ids kPa kPb)
    (tokenize_words this kPa true kOa fuel input_text sa)
    (tokenize_words this kPb true kOb fuel input_text sb).
Proof.
  induction fuel as [|fuel IH]; intros text sa sb H;
    cbn [tokenize_words];
    rewrite <- (proj1 H);
    destruct (cur_pos sa <? size text);
    try reflexivity;
    try apply H.
  eapply agree_bind; [apply tokenize_next_word_same_ids; exact H|].
  intros [sa'|oa'] [sb'|ob'] Hr; cbn in Hr; try contradiction.
  - apply IH. exact Hr.
  - exact Hr.
Qed.

Lemma TokenizeTextImpl_same_ids : forall fuel input_text oa ob,
  same_ids kPa kPb oa ob ->
  agree (same_ids kPa kPb)
    (TokenizeTextImpl this kPa true kOa fuel input_text oa)
    (TokenizeTextImpl this kPb true kOb fuel input_text ob).
Proof.
  intros fuel text oa ob H. unfold TokenizeTextImpl.
  destruct text as [|ch text']; [exact H|].
  apply tokenize_words_same_ids.
  repeat split; try reflexivity; apply H.
Qed.

End SameIds.

Lemma agree_ids_of : forall kPa kPb ra rb,
  agree (same_ids kPa kPb) ra rb -> ids_of ra = ids_of rb.
Proof.
  intros kPa kPb [oa|ea] [ob|eb] H; cbn in *; try contradiction.
  - destruct H as [H _]. rewrite H. reflexivity.
  - rewrite H. reflexivity.
Qed.

(** X11.  The three overloads of [Tokenize] compute the same ids, in
    single-word and in end-to-end mode: asking for the pieces or the
    offsets as well changes neither the ids nor the error, when the pieces
    container holds as many entries as the ids container. *)
Theorem Tokenize_ids_do_not_depend_on_the_overload :
  forall (utils : Utils) (icu : ICU) (this : FastWordpieceTokenizer)
         (fuel : nat) (input : bytes) (input_word_offset_in_text : Z)
         (out : Outputs),
    length (output_pieces out) = length (output_ids out) ->
    ids_of (Tokenize this fuel input input_word_offset_in_text out)
    = ids_of (Tokenize_ids this fuel input input_word_offset_in_text out)
    /\ ids_of (Tokenize_ids_offsets this fuel input input_word_offset_in_text
                 out)
       = ids_of (Tokenize_ids this fuel input input_word_offset_in_text out).
Proof.
  intros utils icu this fuel input woff out Hlen.
  assert (Ha : same_ids true false out out).
  { split; [reflexivity|].
    unfold GetCurrentOutputSize, size. rewrite Hlen. reflexivity. }
  assert (Hb : same_ids false false out out) by (split; reflexivity).
  unfold Tokenize, Tokenize_ids_offsets, Tokenize_ids.
  destruct (end_to_end (config_ this)); split;
    eapply agree_ids_of;
    first [ apply TokenizeTextImpl_same_ids
          | apply TokenizeSingleWordImpl_same_ids ];
    assumption.
Qed.

(** The concrete end-to-end model reads [ab cd!]. *)
Lemma Tokenize_ids_do_not_depend_on_the_overload_witness :
  ids_of (Tokenize (utils := example_utils) (icu := example_icu)
            (example_tokenizer true) 50 (bytes_of "ab cd!") 0 no_outputs)
  = ids_of (Tokenize_ids (utils := example_utils) (icu := example_icu)
              (example_tokenizer true) 50 (bytes_of "ab cd!") 0 no_outputs)
  /\ ids_of (Tokenize_ids_offsets (utils := example_utils)
               (icu := example_icu) (example_tokenizer true) 50
               (bytes_of "ab cd!") 0 no_outputs)
     = ids_of (Tokenize_ids (utils := example_utils) (icu := example_icu)
                 (example_tokenizer true) 50 (bytes_of "ab cd!") 0
                 no_outputs).
Proof.
  apply (Tokenize_ids_do_not_depend_on_the_overload example_utils example_icu
           (example_tokenizer true) 50 (bytes_of "ab cd!") 0 no_outputs).
  reflexivity.
Defined.

(** ** All the tokens of a word or one unknown token *)

(** X2.  In single-word mode each overload of [Tokenize] hands back the
    outputs it was given with either one unknown token over the whole word,
    or tokens appended by [AppendTokenToOutput] only: when a word becomes
    the unknown token, no token of the word stays and no token that was
    there before is removed. *)
Theorem Tokenize_single_word_all_or_unknown :
  forall (utils : Utils) (icu : ICU) (this : FastWordpieceTokenizer)
         (fuel : nat) (input : bytes) (input_word_offset_in_text : Z)
         (n : nat) (out out' : Outputs),
    end_to_end (config_ this) = false ->
    (in_sync true true true n out ->
     Tokenize this fuel input input_word_offset_in_text out = Ok out' ->
     all_or_unknown this true true true input input_word_offset_in_text out
       out')
    /\ (in_sync false true true n out ->
        Tokenize_ids_offsets this fuel input input_word_offset_in_text out
        = Ok out' ->
        all_or_unknown this false true true input input_word_offset_in_text
          out out')
    /\ (in_sync false true false n out ->
        Tokenize_ids this fuel input input_word_offset_in_text out = Ok out' ->
        all_or_unknown this false true false input input_word_offset_in_text
          out out').
Proof.
  intros utils icu this fuel input woff n out out' Hmode.
  unfold Tokenize, Tokenize_ids_offsets, Tokenize_ids, all_or_unknown.
  rewrite Hmode.
  repeat split; intros Hsync H;
    eapply single_word_unknown_is_atomic; eauto.
Qed.

(** The concrete model reads [abcx], which it cannot tokenize, after the
    tokens of [abcz]. *)
Lemma Tokenize_single_word_all_or_unknown_witness :
  all_or_unknown (utils := example_utils) (example_tokenizer false) true true
    true (bytes_of "abcx") 4
    {| output_pieces := [bytes_of "a"; bytes_of "##bc"; bytes_of "##z"];
       output_ids := [0; 3; 4];
       output_start_offsets := [0; 1; 3];
       output_end_offsets := [1; 3; 4] |}
    {| output_pieces :=
         [bytes_of "a"; bytes_of "##bc"; bytes_of "##z"; bytes_of "[UNK]"];
       output_ids := [0; 3; 4; 5];
       output_start_offsets := [0; 1; 3; 4];
       output_end_offsets := [1; 3; 4; 8] |}.
Proof.
  destruct (Tokenize_single_word_all_or_unknown example_utils example_icu
              (example_tokenizer false) 50 (bytes_of "abcx") 4 3%nat
              {| output_pieces :=
                   [bytes_of "a"; bytes_of "##bc"; bytes_of "##z"];
                 output_ids := [0; 3; 4];
                 output_start_offsets := [0; 1; 3];
                 output_end_offsets := [1; 3; 4] |}
              {| output_pieces :=
                   [bytes_of "a"; bytes_of "##bc"; bytes_of "##z";
                    bytes_of "[UNK]"];
                 output_ids := [0; 3; 4; 5];
                 output_start_offsets := [0; 1; 3; 4];
                 output_end_offsets := [1; 3; 4; 8] |}
              eq_refl) as [H _].
  apply H.
  - repeat split; reflexivity.
  - reflexivity.
Defined.

(** ** Pieces, ids and offsets of the tokens of a word *)

Lemma combine_push_back :
  forall (A B : Type) (a : list A) (b : list B) (x : A) (y : B),
    length a = length b ->
    combine (a ++ [x]) (b ++ [y]) = combine a b ++ [(x, y)].
Proof.
  intros A B a. induction a as [|a0 a IH]; intros [|b0 b] x y Hlen;
    cbn in Hlen; try discriminate; cbn [combine app].
  - reflexivity.
  - rewrite IH by lia. reflexivity.
Qed.

Section TokenRows.

Context {utils : Utils}.
Variable this : FastWordpieceTokenizer.
Variable input_word : bytes.
Variable woff : Z.

Lemma laid_out_app : forall a from piece id first last rest,
  laid_out this input_word woff from (a ++ [(piece, id, (first, last))]) ->
  laid_out this input_word woff last rest ->
  laid_out this input_word woff from
    (a ++ (piece, id, (first, last)) :: rest).
Proof.
  induction a as [|[[p i] [s e]] a IH]; intros from piece id first last rest;
    cbn [app laid_out].
  - intros [H1 [H2 _]] Hrest. repeat split; assumption.
  - intros [H1 [H2 H3]] Hrest. repeat split; try assumption.
    apply IH; assumption.
Qed.

Lemma AppendTokenToOutput_rows : forall cur e n out,
  in_sync true true true n out ->
  exists piece,
    rows (snd (AppendTokenToOutput this true true true input_word woff cur e
                 out))
    = rows out
      ++ [(piece, GetTokenId e,
           (woff + cur,
            woff + fst (AppendTokenToOutput this true true true input_word
                          woff cur e out)))]
    /\ laid_out this input_word woff (woff + cur)
         [(piece, GetTokenId e,
           (woff + cur,
            woff + fst (AppendTokenToOutput this true true true input_word
                          woff cur e out)))].
Proof.
  intros cur e n [ps ids ss es] [Hp [Hi Ho]].
  specialize (Hp eq_refl). specialize (Hi eq_refl).
  destruct (Ho eq_refl) as [Hs He].
  cbn [output_pieces output_ids output_start_offsets output_end_offsets] in *.
  unfold AppendTokenToOutput, rows, push_back.
  cbn [orb fst snd with_ids with_pieces with_offsets output_pieces output_ids
       output_start_offsets output_end_offsets].
  eexists. split.
  - rewrite !combine_push_back
      by (rewrite ?length_combine; unfold bytes in *; lia).
    do 4 f_equal. lia.
  - cbn [laid_out]. split; [reflexivity|]. split; [|exact I].
    replace (woff + cur =? woff) with (cur =? 0)
      by (destruct (cur =? 0) eqn:H0; symmetry;
          [apply Z.eqb_eq in H0; apply Z.eqb_eq; lia
          |apply Z.eqb_neq in H0; apply Z.eqb_neq; lia]).
    replace (woff + cur - woff) with cur by lia.
    destruct (cur =? 0); cbn [app];
      destruct (GetTokenId e =? unk_token_id (config_ this));
      try reflexivity; do 2 f_equal; lia.
Qed.

Lemma append_tokens_rows : forall tokens cur n out,
  in_sync true true true n out ->
  exists new_rows,
    rows (snd (append_tokens this true true true input_word woff tokens cur
                 out))
    = rows out ++ new_rows
    /\ laid_out this input_word woff (woff + cur) new_rows.
Proof.
  induction tokens as [|e tokens IH]; intros cur n out Hsync.
  - exists []. split; [symmetry; apply app_nil_r | exact I].
  - rewrite append_tokens_cons.
    destruct (AppendTokenToOutput_rows cur e n out Hsync)
      as [piece [Hrows Hlaid]].
    destruct (AppendTokenToOutput_aligned this true true true input_word woff
                cur e out (ex_intro _ n Hsync)) as [n' Hsync'].
    destruct (AppendTokenToOutput this true true true input_word woff cur e
                out) as [c o].
    cbn [fst snd] in *.
    destruct (IH c n' o Hsync') as [new_rows [Hrows' Hlaid']].
    exists ((piece, GetTokenId e, (woff + cur, woff + c)) :: new_rows).
    split.
    + rewrite Hrows', Hrows, <- app_assoc. reflexivity.
    + apply (laid_out_app [] (woff + cur)); assumption.
Qed.

End TokenRows.

(** X12.  In single-word mode the tokens that [Tokenize] appends lie one
    after the other in the word, the first at the word offset: each token
    starts where the one before it ends, and its piece is the unknown token
    or the bytes of the word between its two offsets, after the suffix
    indicator unless the token starts the word. *)
Theorem Tokenize_lays_out_the_tokens :
  forall (utils : Utils) (icu : ICU) (this : FastWordpieceTokenizer)
         (fuel : nat) (input : bytes) (input_word_offset_in_text : Z)
         (n : nat) (out out' : Outputs),
    end_to_end (config_ this) = false ->
    in_sync true true true n out ->
    Tokenize this fuel input input_word_offset_in_text out = Ok out' ->
    exists new_rows,
      rows out' = rows out ++ new_rows
      /\ laid_out this input input_word_offset_in_text
           input_word_offset_in_text new_rows.
Proof.
  intros utils icu this fuel input woff n out out' Hmode Hsync.
  unfold Tokenize. rewrite Hmode. intro H.
  apply single_word_unknown_is_atomic with (n := n) in H;
    [|reflexivity|exact Hsync].
  destruct H as [H|[tokens H]]; subst out'.
  - exists [(unk_token (config_ this), unk_token_id (config_ this),
             (woff, woff + size input))].
    destruct out as [ps ids ss es]. destruct Hsync as [Hp [Hi Ho]].
    specialize (Hp eq_refl). specialize (Hi eq_refl).
    destruct (Ho eq_refl) as [Hs He].
    cbn [output_pieces output_ids output_start_offsets output_end_offsets]
      in *.
    split.
    + unfold rows, append_unknown_token.
      cbn [output_pieces output_ids output_start_offsets output_end_offsets].
      rewrite !combine_push_back
        by (rewrite ?length_combine; unfold bytes in *; lia).
      reflexivity.
    + cbn [laid_out]. rewrite !Z.eqb_refl. repeat split.
  - destruct (append_tokens_rows this input woff tokens 0 n out Hsync)
      as [new_rows [Hrows Hlaid]].
    exists new_rows. split; [exact Hrows|].
    rewrite Z.add_0_r in Hlaid. exact Hlaid.
Qed.

(** The concrete model reads [abcz] at word offset 7. *)
Lemma Tokenize_lays_out_the_tokens_witness :
  exists new_rows,
    rows {| output_pieces := [bytes_of "a"; bytes_of "##bc"; bytes_of "##z"];
            output_ids := [0; 3; 4];
            output_start_offsets := [7; 8; 10];
            output_end_offsets := [8; 10; 11] |}
    = rows no_outputs ++ new_rows
    /\ laid_out (example_tokenizer false) (bytes_of "abcz") 7 7 new_rows.
Proof.
  apply (Tokenize_lays_out_the_tokens example_utils example_icu
           (example_tokenizer false) 50 (bytes_of "abcz") 7 0%nat no_outputs).
  - reflexivity.
  - repeat split; reflexivity.
  - reflexivity.
Defined.

(** ** A text of whitespace *)

Section WhitespaceOnly.

Context {utils : Utils} {icu : ICU}.
Variable this : FastWordpieceTokenizer.
Variables kGetPieces kGetIds kGetOffsets : bool.
Variable input_text : bytes.

Hypothesis U8_NEXT_advances : forall i,
  0 <= i < size input_text -> i < position_after input_text i.
Hypothesis all_whitespace : forall i,
  0 <= i < size input_text ->
  u_isUWhiteSpace (code_point_at input_text i) = true.

(** The root of the trie carries no token and has no failure link, and no
    whitespace of the text leads away from it. *)
Hypothesis root_has_no_token :
  TryGetData (trie_ this) (kRootNodeId (trie_ this)) = None.
Hypothesis root_has_no_failure_link : exists node_aux,
  Get (failure_struct_array (config_ this)) (kRootNodeId (trie_ this))
  = Ok node_aux
  /\ failure_link node_aux = kNullNode.
Hypothesis no_whitespace_in_trie : forall i,
  0 <= i < size input_text ->
  TryTraverseSeveralSteps (trie_ this) (kRootNodeId (trie_ this))
    (substr input_text i (position_after input_text i - i)) = None.

Lemma tokenize_next_word_skips_whitespace : forall fuel s,
  0 <= cur_pos s < size input_text ->
  tokenize_next_word this kGetPieces kGetIds kGetOffsets (S (S fuel))
    input_text s
  = Ok (inl {| cur_pos := position_after input_text (cur_pos s);
               next_pos := position_after input_text (cur_pos s);
               prev_unicode_char := cur_unicode_char s;
               cur_unicode_char := code_point_at input_text (cur_pos s);
               original_num_tokens := original_num_tokens s;
               outputs := outputs s |}).
Proof.
  intros fuel s Hpos.
  pose proof (all_whitespace _ Hpos) as Hws.
  pose proof (no_whitespace_in_trie _ Hpos) as Hstep.
  destruct root_has_no_failure_link as [aux [Haux Hnull]].
  unfold tokenize_next_word, match_next_word.
  cbn [trie_match_loop].
  destruct (cur_pos s <? size input_text) eqn:Hlt;
    [|apply Z.ltb_ge in Hlt; lia].
  unfold code_point_at, position_after in *.
  destruct (U8_NEXT input_text (cur_pos s) (size input_text)) as [next cp].
  cbn [fst snd] in *.
  assert (Hexit :
            forall m,
              exit_pos m = cur_pos s -> exit_next_pos m = next ->
              exit_prev_unicode_char m = cur_unicode_char s ->
              exit_cur_unicode_char m = cp ->
              exit_node m = kRootNodeId (trie_ this) ->
              exit_outputs m = outputs s ->
              (if exit_pos m >=? size input_text
               then '(_, _, _, out) <-
                      HandleTheRemainingStringOnTriePath this kGetPieces
                        kGetIds kGetOffsets (S (S fuel))
                        (skipn (Z.to_nat (cur_pos s)) input_text) (cur_pos s)
                        (exit_node m) (original_num_tokens s)
                        (exit_offset_in_input_word m) (exit_outputs m) ;;
                    Ok (inr out)
               else if at_word_boundary m
                    then s' <- flush_word_at_boundary this kGetPieces kGetIds
                                 kGetOffsets (S (S fuel)) input_text s m ;;
                         Ok (inl s')
                    else s' <- map_word_to_unknown this kGetPieces kGetIds
                                 kGetOffsets (S (S fuel)) input_text s m ;;
                         Ok (inl s'))
              = Ok (inl {| cur_pos := next; next_pos := next;
                           prev_unicode_char := cur_unicode_char s;
                           cur_unicode_char := cp;
                           original_num_tokens := original_num_tokens s;
                           outputs := outputs s |})).
  { intros m E1 E2 E3 E4 E5 E6.
    rewrite E1.
    destruct (cur_pos s >=? size input_text) eqn:Hge;
      [apply Z.geb_le in Hge; lia|].
    unfold at_word_boundary. rewrite E4, Hws. cbn [orb].
    unfold flush_word_at_boundary, HandleTheRemainingStringOnTriePath.
    rewrite E5, Z.eqb_refl. cbn [bind]. rewrite E4, Hws, E2, E3, E6.
    reflexivity. }
  destruct (0 + next - cur_pos s >? max_bytes_per_token (config_ this)).
  { cbn [bind]. apply Hexit; reflexivity. }
  cbn [follow_failure_links]. rewrite Hstep.
  unfold TryFollowFailureLinkAndCollectTokens.
  rewrite root_has_no_token, Haux. cbn [bind].
  apply Z.eqb_eq in Hnull. rewrite Hnull. cbn [bind].
  apply Hexit; reflexivity.
Qed.

Lemma tokenize_words_skips_whitespace : forall fuel s,
  0 <= cur_pos s ->
  (Z.to_nat (size input_text - cur_pos s) + 2 <= fuel)%nat ->
  tokenize_words this kGetPieces kGetIds kGetOffsets fuel input_text s
  = Ok (outputs s).
Proof.
  induction fuel as [|fuel IH]; intros s Hpos Hfuel; [lia|].
  cbn [tokenize_words].
  destruct (cur_pos s <? size input_text) eqn:Hlt; [|reflexivity].
  apply Z.ltb_lt in Hlt.
  destruct fuel as [|[|fuel]]; [lia|lia|].
  rewrite tokenize_next_word_skips_whitespace by lia.
  cbn [bind].
  pose proof (U8_NEXT_advances (cur_pos s) ltac:(lia)) as Hadv.
  rewrite IH; cbn [cur_pos outputs]; [reflexivity|lia|lia].
Qed.

End WhitespaceOnly.

(** X13.  A text of whitespace yields no token.  When every position of the
    text decodes to a whitespace, the decoder moves forward, and the root of
    the trie has no token, no failure link and no edge for a whitespace of
    the text, [TokenizeTextImpl] returns after one iteration per
    whitespace and leaves the output containers as they were. *)
Theorem whitespace_yields_no_token :
  forall (utils : Utils) (icu : ICU) (this : FastWordpieceTokenizer)
         (kGetPieces kGetIds kGetOffsets : bool) (fuel : nat)
         (input_text : bytes) (out : Outputs),
    (forall i, 0 <= i < size input_text ->
               i < position_after input_text i) ->
    (forall i, 0 <= i < size input_text ->
               u_isUWhiteSpace (code_point_at input_text i) = true) ->
    TryGetData (trie_ this) (kRootNodeId (trie_ this)) = None ->
    (exists node_aux,
       Get (failure_struct_array (config_ this)) (kRootNodeId (trie_ this))
       = Ok node_aux
       /\ failure_link node_aux = kNullNode) ->
    (forall i, 0 <= i < size input_text ->
               TryTraverseSeveralSteps (trie_ this) (kRootNodeId (trie_ this))
                 (substr input_text i (position_after input_text i - i))
               = None) ->
    (length input_text + 2 <= fuel)%nat ->
    TokenizeTextImpl this kGetPieces kGetIds kGetOffsets fuel input_text out
    = Ok out.
Proof.
  intros utils icu this kP kI kO fuel text out Hadv Hws Hdata Hlink Hedge
         Hfuel.
  unfold TokenizeTextImpl.
  destruct text as [|ch text'] eqn:Htext; [reflexivity|].
  rewrite <- Htext in *.
  apply (tokenize_words_skips_whitespace this kP kI kO text Hadv Hws Hdata
           Hlink Hedge fuel (initial_text_state kP out)).
  - cbn. lia.
  - cbn [cur_pos initial_text_state]. unfold size. lia.
Qed.

(** The concrete end-to-end model reads two spaces into containers that
    hold one token. *)
Lemma whitespace_yields_no_token_witness :
  TokenizeTextImpl (utils := example_utils) (icu := example_icu)
    (example_tokenizer true) true true true 4 (bytes_of "  ")
    {| output_pieces := [bytes_of "a"]; output_ids := [0];
       output_start_offsets := [0]; output_end_offsets := [1] |}
  = Ok {| output_pieces := [bytes_of "a"]; output_ids := [0];
          output_start_offsets := [0]; output_end_offsets := [1] |}.
Proof.
  apply (whitespace_yields_no_token example_utils example_icu
           (example_tokenizer true) true true true 4 (bytes_of "  ")).
  - intros i Hi. unfold position_after. cbn [U8_NEXT example_icu fst]. lia.
  - intros i Hi. change (size (bytes_of "  ")) with 2 in Hi.
    assert (Hcases : i = 0 \/ i = 1) by lia.
    destruct Hcases; subst i; reflexivity.
  - reflexivity.
  - exists (link 4294967295). split; reflexivity.
  - intros i Hi. change (size (bytes_of "  ")) with 2 in Hi.
    assert (Hcases : i = 0 \/ i = 1) by lia.
    destruct Hcases; subst i; reflexivity.
  - cbn. lia.
Defined.

(** ** End-to-end mode on a text that is one word *)

Section MoreFuel.

Context {utils : Utils}.
Variable this : FastWordpieceTokenizer.
Variables kGetPieces kGetIds kGetOffsets : bool.

Lemma follow_failure_links_ext :
  forall fuel (f g : Z -> option Z) input_word woff cur node out,
    (forall n, f n = g n) ->
    follow_failure_links this kGetPieces kGetIds kGetOffsets fuel f input_word
      woff cur node out
    = follow_failure_links this kGetPieces kGetIds kGetOffsets fuel g
        input_word woff cur node out.
Proof.
  induction fuel as [|fuel IH]; intros f g word woff cur node out Hext;
    cbn [follow_failure_links]; rewrite <- (Hext node);
    destruct (f node); try reflexivity.
  destruct (TryFollowFailureLinkAndCollectTokens this kGetPieces kGetIds
              kGetOffsets word woff cur node out)
    as [[followed [[c nd] o]]|]; cbn [bind]; [|reflexivity].
  destruct followed; [|reflexivity].
  apply IH. exact Hext.
Qed.

Lemma follow_failure_links_fuel :
  forall fuel fuel' try_traverse input_word woff cur node out r,
    (fuel <= fuel')%nat ->
    follow_failure_links this kGetPieces kGetIds kGetOffsets fuel
      try_traverse input_word woff cur node out = Ok r ->
    follow_failure_links this kGetPieces kGetIds kGetOffsets fuel'
      try_traverse input_word woff cur node out = Ok r.
Proof.
  induction fuel as [|fuel IH];
    intros fuel' try_traverse word woff cur node out r Hle;
    destruct fuel' as [|fuel']; try lia;
    cbn [follow_failure_links];
    destruct (try_traverse node); try discriminate; try (intro H; exact H).
  destruct (TryFollowFailureLinkAndCollectTokens this kGetPieces kGetIds
              kGetOffsets word woff cur node out)
    as [[followed [[c nd] o]]|]; cbn [bind]; [|discriminate].
  destruct followed; [|intro H; exact H].
  apply IH. lia.
Qed.

Lemma collect_remaining_tokens_fuel :
  forall fuel fuel' input_word woff original cur node out r,
    (fuel <= fuel')%nat ->
    collect_remaining_tokens this kGetPieces kGetIds kGetOffsets fuel
      input_word woff original cur node out = Ok r ->
    collect_remaining_tokens this kGetPieces kGetIds kGetOffsets fuel'
      input_word woff original cur node out = Ok r.
Proof.
  induction fuel as [|fuel IH];
    intros fuel' word woff orig cur node out r Hle;
    destruct fuel' as [|fuel']; try lia;
    cbn [collect_remaining_tokens];
    destruct (negb (node =? trie_suffix_root (config_ this))
              && negb (node =? trie_punct_failure_link_node (config_ this)));
    try discriminate; try (intro H; exact H).
  destruct (TryFollowFailureLinkAndCollectTokens this kGetPieces kGetIds
              kGetOffsets word woff cur node out)
    as [[followed [[c nd] o]]|]; cbn [bind]; [|discriminate].
  destruct followed; [|intro H; exact H].
  apply IH. lia.
Qed.

Lemma HandleTheRemainingStringOnTriePath_fuel :
  forall fuel fuel' input_word woff node original cur out r,
    (fuel <= fuel')%nat ->
    HandleTheRemainingStringOnTriePath this kGetPieces kGetIds kGetOffsets
      fuel input_word woff node original cur out = Ok r ->
    HandleTheRemainingStringOnTriePath this kGetPieces kGetIds kGetOffsets
      fuel' input_word woff node original cur out = Ok r.
Proof.
  intros fuel fuel' word woff node orig cur out r Hle.
  unfold HandleTheRemainingStringOnTriePath.
  destruct (node =? kRootNodeId (trie_ this)); [intro H; exact H|].
  destruct (TryHandleTheInputWordBeingSuffixIndicatorItself this kGetPieces
              kGetIds kGetOffsets word woff node cur orig out)
    as [handled [c o]].
  destruct handled; [intro H; exact H|].
  apply collect_remaining_tokens_fuel. exact Hle.
Qed.

End MoreFuel.

Lemma skipn_tail : forall (A : Type) (n : nat) (l : list A) (x : A) rest,
  skipn n l = x :: rest -> skipn (S n) l = rest.
Proof.
  intros A n. induction n as [|n IH]; intros l x rest H.
  - cbn in H. subst l. reflexivity.
  - destruct l as [|y l]; [discriminate|]. cbn [skipn] in *. eapply IH; eauto.
Qed.

Lemma TokenizeSingleWordImpl_nonempty :
  forall (utils : Utils) this kGetPieces kGetIds kGetOffsets fuel input_word
         woff out,
    input_word <> [] ->
    TokenizeSingleWordImpl this kGetPieces kGetIds kGetOffsets fuel input_word
      woff out
    = if size input_word >? max_bytes_per_token (config_ this) then
        Ok (snd (ResetOutputAppendUnknownToken this kGetPieces kGetIds
                   kGetOffsets woff (size input_word)
                   (GetCurrentOutputSize kGetPieces out) out))
      else
        '(matched, (cur, node, out')) <-
          match_word this kGetPieces kGetIds kGetOffsets fuel input_word woff
            input_word 0 (kRootNodeId (trie_ this)) out ;;
        if matched then
          '(_, _, _, out'') <-
            HandleTheRemainingStringOnTriePath this kGetPieces kGetIds
              kGetOffsets fuel input_word woff node
              (GetCurrentOutputSize kGetPieces out) cur out' ;;
          Ok out''
        else
          Ok (snd (ResetOutputAppendUnknownToken this kGetPieces kGetIds
                     kGetOffsets woff (size input_word)
                     (GetCurrentOutputSize kGetPieces out) out')).
Proof.
  intros utils this kP kI kO fuel word woff out Hne.
  destruct word; [contradiction | reflexivity].
Qed.

Lemma TokenizeTextImpl_nonempty :
  forall (utils : Utils) (icu : ICU) this kGetPieces kGetIds kGetOffsets fuel
         input_text out,
    input_text <> [] ->
    TokenizeTextImpl this kGetPieces kGetIds kGetOffsets fuel input_text out
    = tokenize_words this kGetPieces kGetIds kGetOffsets fuel input_text
        (initial_text_state kGetPieces out).
Proof.
  intros utils icu this kP kI kO fuel text out Hne.
  destruct text; [contradiction | reflexivity].
Qed.

Lemma tokenize_words_at_the_end :
  forall (utils : Utils) (icu : ICU) this kGetPieces kGetIds kGetOffsets fuel
         input_text s,
    size input_text <= cur_pos s ->
    tokenize_words this kGetPieces kGetIds kGetOffsets fuel input_text s
    = Ok (outputs s).
Proof.
  intros utils icu this kP kI kO fuel text s Hend.
  destruct fuel; cbn [tokenize_words];
    (destruct (cur_pos s <? size text) eqn:Hlt;
     [apply Z.ltb_lt in Hlt; lia | reflexivity]).
Qed.

Section OneWord.

Context {utils : Utils} {icu : ICU}.
Variable this : FastWordpieceTokenizer.
Variables kGetPieces kGetIds kGetOffsets : bool.
Variable input_text : bytes.

(** Every code point of the text is one byte long and is a word character,
    and the text is within the length limit. *)
Hypothesis one_word : forall i,
  0 <= i < size input_text ->
  position_after input_text i = i + 1
  /\ u_isUWhiteSpace (code_point_at input_text i) = false
  /\ IsPunctuationOrChineseChar (code_point_at input_text i) = false.
Hypothesis within_limit :
  size input_text <= max_bytes_per_token (config_ this).

Lemma skip_loop_to_the_end : forall fuel pos,
  0 <= pos <= size input_text ->
  (Z.to_nat (size input_text - pos) <= fuel)%nat ->
  skip_loop fuel input_text pos pos = Ok (size input_text, size input_text).
Proof.
  induction fuel as [|fuel IH]; intros pos Hpos Hfuel;
    cbn [skip_loop];
    destruct (pos <? size input_text) eqn:Hlt;
    try (apply Z.ltb_ge in Hlt;
         replace pos with (size input_text) by lia; reflexivity);
    apply Z.ltb_lt in Hlt; [lia|].
  destruct (one_word pos ltac:(lia)) as [Hnext [Hws Hp]].
  unfold position_after, code_point_at in *.
  destruct (U8_NEXT input_text pos (size input_text)) as [next cp].
  cbn [fst snd] in *. subst next. rewrite Hws, Hp.
  apply IH; lia.
Qed.

Lemma trie_match_loop_follows_match_word :
  forall rest fuel more_fuel pos next prev cur_char cur node out b c nd o,
    0 <= pos <= size input_text ->
    skipn (Z.to_nat pos) input_text = rest ->
    (fuel + length rest < more_fuel)%nat ->
    pos = 0 \/ IsPunctuationOrChineseChar cur_char = false ->
    match_word this kGetPieces kGetIds kGetOffsets fuel input_text 0 rest cur
      node out = Ok (b, (c, nd, o)) ->
    exists m,
      trie_match_loop this kGetPieces kGetIds kGetOffsets more_fuel input_text
        input_text 0 pos next prev cur_char pos cur node out = Ok m
      /\ exit_node m = nd
      /\ exit_offset_in_input_word m = c
      /\ exit_outputs m = o
      /\ 0 <= exit_pos m
      /\ (if b then exit_pos m = size input_text
          else exit_pos m < size input_text
               /\ exit_next_pos m = exit_pos m + 1
               /\ at_word_boundary m = false).
Proof.
  induction rest as [|ch rest IH];
    intros fuel more_fuel pos next prev cur_char cur node out b c nd o Hpos
           Hskip Hfuel Hprev;
    cbn [match_word].
  - intro H; inversion H; subst.
    assert (Hend : pos = size input_text).
    { apply (f_equal (@length ascii)) in Hskip.
      rewrite length_skipn in Hskip. cbn [length] in Hskip.
      unfold size in *. lia. }
    destruct more_fuel as [|more_fuel]; cbn [trie_match_loop];
      (destruct (pos <? size input_text) eqn:Hlt;
       [apply Z.ltb_lt in Hlt; lia|]);
      eexists; (split; [reflexivity|]);
      cbn [exit_node exit_offset_in_input_word exit_outputs exit_pos];
      repeat split; try reflexivity; lia.
  - assert (Hlt : pos < size input_text).
    { apply (f_equal (@length ascii)) in Hskip.
      rewrite length_skipn in Hskip. cbn [length] in Hskip.
      unfold size in *. lia. }
    destruct more_fuel as [|more_fuel]; [lia|].
    cbn [trie_match_loop].
    destruct (pos <? size input_text) eqn:Hltb;
      [|apply Z.ltb_ge in Hltb; lia].
    destruct (one_word pos ltac:(lia)) as [Hnext [Hws Hp]].
    unfold position_after, code_point_at in *.
    destruct (U8_NEXT input_text pos (size input_text)) as [next' cp].
    cbn [fst snd] in *. subst next'.
    destruct (pos + (pos + 1) - pos >? max_bytes_per_token (config_ this))
      eqn:Hgt; [apply Z.gtb_lt in Hgt; lia|].
    replace (pos + 1 - pos) with 1 by lia.
    assert (Hsub : substr input_text pos 1 = [ch]).
    { unfold substr. rewrite Hskip. reflexivity. }
    rewrite Hsub.
    rewrite (follow_failure_links_ext this kGetPieces kGetIds kGetOffsets
               more_fuel
               (fun n => TryTraverseSeveralSteps (trie_ this) n [ch])
               (fun n => TryTraverseOneStep (trie_ this) n ch))
      by (intro n; cbn [TryTraverseSeveralSteps];
          destruct (TryTraverseOneStep (trie_ this) n ch); reflexivity).
    destruct (follow_failure_links this kGetPieces kGetIds kGetOffsets fuel
                (fun n => TryTraverseOneStep (trie_ this) n ch) input_text 0
                cur node out) as [[consumed [[c1 n1] o1]]|] eqn:Hf;
      cbn [bind]; [|discriminate].
    apply follow_failure_links_fuel with (fuel' := more_fuel) in Hf; [|lia].
    rewrite Hf. cbn [bind].
    destruct consumed.
    + intro H.
      replace (pos + 1) with (pos + 1) by reflexivity.
      apply IH with (more_fuel := more_fuel) (pos := pos + 1)
                    (next := pos + 1) (prev := cur_char) (cur_char := cp)
        in H.
      * exact H.
      * lia.
      * replace (Z.to_nat (pos + 1)) with (S (Z.to_nat pos)) by lia.
        eapply skipn_tail; eauto.
      * cbn [length] in Hfuel. lia.
      * right. exact Hp.
    + intro H; inversion H; subst.
      eexists. split; [reflexivity|].
      cbn [exit_node exit_offset_in_input_word exit_outputs exit_pos
           exit_next_pos].
      repeat split; try reflexivity; try lia.
      unfold at_word_boundary.
      cbn [exit_pos exit_cur_unicode_char exit_prev_unicode_char].
      rewrite Hws, Hp. cbn [orb].
      destruct Hprev as [Hzero|Hprev].
      * subst pos. reflexivity.
      * rewrite Hprev. apply andb_false_r.
Qed.

Lemma TokenizeTextImpl_follows_TokenizeSingleWordImpl : forall fuel out out',
  TokenizeSingleWordImpl this kGetPieces kGetIds kGetOffsets fuel input_text
    0 out = Ok out' ->
  TokenizeTextImpl this kGetPieces kGetIds kGetOffsets
    (fuel + length input_text + 2) input_text out = Ok out'.
Proof.
  intros fuel out out'.
  assert (Hcases : input_text = [] \/ input_text <> []).
  { destruct input_text; [left; reflexivity | right; discriminate]. }
  destruct Hcases as [Hnil|Hne]; [rewrite Hnil; intro H; exact H|].
  rewrite TokenizeSingleWordImpl_nonempty, TokenizeTextImpl_nonempty
    by exact Hne.
  assert (Hsize : 0 < size input_text).
  { unfold size. destruct input_text; [contradiction | cbn [length]; lia]. }
  destruct (size input_text >? max_bytes_per_token (config_ this)) eqn:Hgt;
    [apply Z.gtb_lt in Hgt; lia|].
  destruct (match_word this kGetPieces kGetIds kGetOffsets fuel input_text 0
              input_text 0 (kRootNodeId (trie_ this)) out)
    as [[matched [[c nd] o]]|] eqn:Hm; cbn [bind]; [|discriminate].
  apply trie_match_loop_follows_match_word
    with (more_fuel := (fuel + length input_text + 1)%nat) (pos := 0)
         (next := 0) (prev := 0) (cur_char := 0) in Hm;
    [|lia|reflexivity|lia|left; reflexivity].
  destruct Hm as [m [Hloop [Hnode [Hoff [Hout [Hpos Hexit]]]]]].
  replace (fuel + length input_text + 2)%nat
    with (S (fuel + length input_text + 1)) by lia.
  cbn [tokenize_words cur_pos initial_text_state].
  destruct (0 <? size input_text) eqn:Hlt; [|apply Z.ltb_ge in Hlt; lia].
  unfold tokenize_next_word, match_next_word.
  cbn [cur_pos next_pos prev_unicode_char cur_unicode_char
       original_num_tokens outputs initial_text_state Z.to_nat skipn].
  rewrite Hloop. cbn [bind].
  destruct matched.
  - rewrite Hexit.
    replace (size input_text >=? size input_text) with true
      by (symmetry; apply Z.geb_le; lia).
    rewrite Hnode, Hoff, Hout.
    destruct (HandleTheRemainingStringOnTriePath this kGetPieces kGetIds
                kGetOffsets fuel input_text 0 nd
                (GetCurrentOutputSize kGetPieces out) c o)
      as [[[[orig c'] nd'] o']|] eqn:Hh; cbn [bind]; [|discriminate].
    apply HandleTheRemainingStringOnTriePath_fuel
      with (fuel' := (fuel + length input_text + 1)%nat) in Hh; [|lia].
    rewrite Hh. cbn [bind]. intro H; exact H.
  - destruct Hexit as [Hin [Hnext Hboundary]].
    destruct (exit_pos m >=? size input_text) eqn:Hge;
      [apply Z.geb_le in Hge; lia|].
    rewrite Hboundary.
    unfold map_word_to_unknown, SkipTheRemainingOfWordAndTrailingWhiteSpaces.
    rewrite skip_loop_to_the_end
      by (unfold size in *; lia).
    cbn [bind cur_pos original_num_tokens initial_text_state].
    rewrite Hout, Z.sub_0_r.
    destruct (ResetOutputAppendUnknownToken this kGetPieces kGetIds
                kGetOffsets 0 (size input_text)
                (GetCurrentOutputSize kGetPieces out) o) as [orig1 o1].
    cbn [snd bind]. intro H; inversion H; subst o1.
    apply tokenize_words_at_the_end. cbn [cur_pos]. lia.
Qed.

End OneWord.

(** X14.  End-to-end mode agrees with single-word mode on a text that is
    one word.  When every code point of the text is one byte long and is
    neither whitespace nor a punctuation or CJK character, and the text is
    within [max_bytes_per_token], whatever [TokenizeSingleWordImpl] returns
    for the text at word offset 0, [TokenizeTextImpl] returns the same; it
    needs one more unit of fuel per byte, and two more. *)
Theorem end_to_end_mode_on_one_word :
  forall (utils : Utils) (icu : ICU) (this : FastWordpieceTokenizer)
         (kGetPieces kGetIds kGetOffsets : bool) (fuel : nat)
         (input_text : bytes) (out out' : Outputs),
    (forall i, 0 <= i < size input_text ->
       position_after input_text i = i + 1
       /\ u_isUWhiteSpace (code_point_at input_text i) = false
       /\ IsPunctuationOrChineseChar (code_point_at input_text i) = false) ->
    size input_text <= max_bytes_per_token (config_ this) ->
    TokenizeSingleWordImpl this kGetPieces kGetIds kGetOffsets fuel input_text
      0 out = Ok out' ->
    TokenizeTextImpl this kGetPieces kGetIds kGetOffsets
      (fuel + length input_text + 2) input_text out = Ok out'.
Proof.
  intros utils icu this kP kI kO fuel text out out' Hword Hlimit.
  apply TokenizeTextImpl_follows_TokenizeSingleWordImpl; assumption.
Qed.

(** The concrete end-to-end model reads [abcz]. *)
Lemma end_to_end_mode_on_one_word_witness :
  TokenizeTextImpl (utils := example_utils) (icu := example_icu)
    (example_tokenizer true) true true true (10 + 4 + 2) (bytes_of "abcz")
    no_outputs
  = Ok {| output_pieces := [bytes_of "a"; bytes_of "##bc"; bytes_of "##z"];
          output_ids := [0; 3; 4];
          output_start_offsets := [0; 1; 3];
          output_end_offsets := [1; 3; 4] |}.
Proof.
  apply (end_to_end_mode_on_one_word example_utils example_icu
           (example_tokenizer true) true true true 10 (bytes_of "abcz")).
  - intros i Hi. change (size (bytes_of "abcz")) with 4 in Hi.
    assert (Hcases : i = 0 \/ i = 1 \/ i = 2 \/ i = 3) by lia.
    destruct Hcases as [H|[H|[H|H]]]; subst i; repeat split; reflexivity.
  - cbn. lia.
  - reflexivity.
Defined.

(** ** The length limit in end-to-end mode *)

Section OneLongWord.

Context {utils : Utils} {icu : ICU}.
Variable this : FastWordpieceTokenizer.
Variables kGetPieces kGetIds kGetOffsets : bool.
Variable input_text : bytes.

Hypothesis one_word : forall i,
  0 <= i < size input_text ->
  position_after input_text i = i + 1
  /\ u_isUWhiteSpace (code_point_at input_text i) = false
  /\ IsPunctuationOrChineseChar (code_point_at input_text i) = false.

Lemma skip_loop_one_word : forall fuel pos end_of_word pos',
  0 <= pos <= size input_text ->
  skip_loop fuel input_text pos pos = Ok (end_of_word, pos') ->
  end_of_word = size input_text /\ pos' = size input_text.
Proof.
  induction fuel as [|fuel IH]; intros pos e pos' Hpos;
    cbn [skip_loop];
    destruct (pos <? size input_text) eqn:Hlt;
    try discriminate;
    try (apply Z.ltb_ge in Hlt; intro H; inversion H; subst; lia).
  apply Z.ltb_lt in Hlt.
  destruct (one_word pos ltac:(lia)) as [Hnext [Hws Hp]].
  unfold position_after, code_point_at in *.
  destruct (U8_NEXT input_text pos (size input_text)) as [next cp].
  cbn [fst snd] in *. subst next. rewrite Hws, Hp.
  apply IH. lia.
Qed.

(** The inner loop stops inside the word at a character that is no word
    boundary, or it reaches the end of a word within the length limit. *)
Lemma trie_match_loop_one_word :
  forall fuel input_substr woff pos next prev cur_char cur node out m,
    0 <= pos <= size input_text ->
    pos = 0 \/ IsPunctuationOrChineseChar cur_char = false ->
    pos = 0 \/ pos <= max_bytes_per_token (config_ this) ->
    trie_match_loop this kGetPieces kGetIds kGetOffsets fuel input_text
      input_substr woff pos next prev cur_char pos cur node out = Ok m ->
    (exit_pos m < size input_text
     /\ exit_next_pos m = exit_pos m + 1
     /\ at_word_boundary m = false
     /\ 0 <= exit_pos m)
    \/ (exit_pos m = size input_text
        /\ (size input_text = 0
            \/ size input_text <= max_bytes_per_token (config_ this))).
Proof.
  intros fuel input_substr woff.
  induction fuel as [|fuel IH];
    intros pos next prev cur_char cur node out m Hpos Hprev Hlen;
    cbn [trie_match_loop];
    destruct (pos <? size input_text) eqn:Hlt;
    try discriminate;
    try (apply Z.ltb_ge in Hlt; intro H; inversion H; subst;
         cbn [exit_pos]; right; split; lia).
  apply Z.ltb_lt in Hlt.
  destruct (one_word pos ltac:(lia)) as [Hnext [Hws Hp]].
  unfold position_after, code_point_at in *.
  destruct (U8_NEXT input_text pos (size input_text)) as [next' cp].
  cbn [fst snd] in *. subst next'.
  assert (Hinside :
            forall nd c o,
              at_word_boundary
                {| exit_pos := pos; exit_next_pos := pos + 1;
                   exit_prev_unicode_char := cur_char;
                   exit_cur_unicode_char := cp;
                   exit_node := nd; exit_offset_in_input_word := c;
                   exit_outputs := o |} = false).
  { intros nd c o. unfold at_word_boundary.
    cbn [exit_pos exit_cur_unicode_char exit_prev_unicode_char].
    rewrite Hws, Hp. cbn [orb].
    destruct Hprev as [Hzero|Hprev].
    - subst pos. reflexivity.
    - rewrite Hprev. apply andb_false_r. }
  destruct (pos + (pos + 1) - pos >? max_bytes_per_token (config_ this))
    eqn:Hgt.
  { intro H; inversion H; subst. left.
    cbn [exit_pos exit_next_pos]. rewrite Hinside.
    repeat split; try reflexivity; lia. }
  rewrite Z.gtb_ltb, Z.ltb_ge in Hgt.
  destruct (follow_failure_links this kGetPieces kGetIds kGetOffsets fuel
              (fun n => TryTraverseSeveralSteps (trie_ this) n
                          (substr input_text pos (pos + 1 - pos)))
              input_substr woff cur node out)
    as [[consumed [[c nd] o]]|]; cbn [bind]; [|discriminate].
  destruct consumed.
  - replace (pos + (pos + 1 - pos)) with (pos + 1) by lia.
    apply IH; [lia|right; exact Hp|right; lia].
  - intro H; inversion H; subst. left.
    cbn [exit_pos exit_next_pos]. rewrite Hinside.
    repeat split; try reflexivity; lia.
Qed.

Hypothesis static_assert : kGetPieces || kGetIds = true.
Hypothesis positive_limit : 0 < max_bytes_per_token (config_ this).
Hypothesis too_long : size input_text > max_bytes_per_token (config_ this).

Lemma TokenizeTextImpl_too_long : forall fuel n out out',
  in_sync kGetPieces kGetIds kGetOffsets n out ->
  TokenizeTextImpl this kGetPieces kGetIds kGetOffsets fuel input_text out
  = Ok out' ->
  out' = append_unknown_token this kGetPieces kGetIds kGetOffsets 0
           (size input_text) out.
Proof.
  intros fuel n out out' Hsync.
  assert (Hne : input_text <> []).
  { intro Hnil. rewrite Hnil in too_long. cbn in too_long. lia. }
  rewrite TokenizeTextImpl_nonempty by exact Hne.
  destruct fuel as [|fuel]; cbn [tokenize_words cur_pos initial_text_state];
    (destruct (0 <? size input_text) eqn:Hlt;
     [|apply Z.ltb_ge in Hlt; lia]); [discriminate|].
  unfold tokenize_next_word, match_next_word.
  cbn [cur_pos next_pos prev_unicode_char cur_unicode_char
       original_num_tokens outputs initial_text_state Z.to_nat skipn].
  destruct (trie_match_loop this kGetPieces kGetIds kGetOffsets fuel
              input_text input_text 0 0 0 0 0 0 0 (kRootNodeId (trie_ this))
              out) as [m|] eqn:Hm; cbn [bind]; [|discriminate].
  pose proof (trie_match_loop_extends this kGetPieces kGetIds kGetOffsets
                input_text _ _ _ _ _ _ _ _ _ _ _ _ Hm) as Hext.
  apply trie_match_loop_one_word in Hm;
    [|lia|left; reflexivity|left; reflexivity].
  destruct Hm as [[Hin [Hnext [Hboundary Hpos]]]|[_ Hlimit]]; [|lia].
  destruct (exit_pos m >=? size input_text) eqn:Hge;
    [apply Z.geb_le in Hge; lia|].
  rewrite Hboundary.
  unfold map_word_to_unknown, SkipTheRemainingOfWordAndTrailingWhiteSpaces.
  destruct (skip_loop fuel input_text (exit_next_pos m) (exit_next_pos m))
    as [[e p]|] eqn:Hskip; cbn [bind]; [|discriminate].
  apply skip_loop_one_word in Hskip; [|lia].
  destruct Hskip as [He Hp]. subst e p.
  cbn [cur_pos original_num_tokens initial_text_state].
  rewrite (GetCurrentOutputSize_in_sync _ _ _ _ _ static_assert Hsync).
  pose proof (ResetOutputAppendUnknownToken_extends this kGetPieces kGetIds
                kGetOffsets 0 (size input_text - 0) n out (exit_outputs m)
                Hsync Hext) as Hr.
  destruct (ResetOutputAppendUnknownToken this kGetPieces kGetIds kGetOffsets
              0 (size input_text - 0) (Z.of_nat n) (exit_outputs m))
    as [orig1 o1].
  cbn [snd] in Hr. subst o1. cbn [bind].
  rewrite tokenize_words_at_the_end by (cbn [cur_pos]; lia).
  cbn [outputs].
  replace (0 + (size input_text - 0)) with (size input_text) by lia.
  intro H; inversion H. reflexivity.
Qed.

End OneLongWord.

(** X15.  The length limit in end-to-end mode.  A text that is one word of
    one-byte word characters and is longer than [max_bytes_per_token], a
    positive number, becomes one unknown token over the whole text: the
    tokens that the trie matched before the limit was reached do not
    stay. *)
Theorem end_to_end_too_long_word_is_unknown :
  forall (utils : Utils) (icu : ICU) (this : FastWordpieceTokenizer)
         (kGetPieces kGetIds kGetOffsets : bool) (fuel : nat)
         (input_text : bytes) (n : nat) (out out' : Outputs),
    (forall i, 0 <= i < size input_text ->
       position_after input_text i = i + 1
       /\ u_isUWhiteSpace (code_point_at input_text i) = false
       /\ IsPunctuationOrChineseChar (code_point_at input_text i) = false) ->
    kGetPieces || kGetIds = true ->
    0 < max_bytes_per_token (config_ this) ->
    size input_text > max_bytes_per_token (config_ this) ->
    in_sync kGetPieces kGetIds kGetOffsets n out ->
    TokenizeTextImpl this kGetPieces kGetIds kGetOffsets fuel input_text out
    = Ok out' ->
    out' = append_unknown_token this kGetPieces kGetIds kGetOffsets 0
             (size input_text) out.
Proof.
  intros utils icu this kP kI kO fuel text n out out' Hword Hstatic Hmax
         Hlong Hsync.
  eapply TokenizeTextImpl_too_long; eassumption.
Qed.

(** The concrete end-to-end model, whose limit is 100 bytes, reads a word
    of 101 bytes. *)
Lemma end_to_end_too_long_word_is_unknown_witness :
  {| output_pieces := [bytes_of "[UNK]"]; output_ids := [5];
     output_start_offsets := [0]; output_end_offsets := [101] |}
  = append_unknown_token (example_tokenizer true) true true true 0
      (size (repeat "a"%char 101)) no_outputs.
Proof.
  apply (end_to_end_too_long_word_is_unknown example_utils example_icu
           (example_tokenizer true) true true true 200
           (repeat "a"%char 101) 0%nat no_outputs).
  - intros i Hi. change (size (repeat "a"%char 101)) with 101 in Hi.
    unfold position_after, code_point_at.
    cbn [U8_NEXT example_icu fst snd].
    split; [reflexivity|].
    assert (Hchar : nth (Z.to_nat i) (repeat "a"%char 101) zero = "a"%char).
    { destruct (nth_in_or_default (Z.to_nat i) (repeat "a"%char 101) zero)
        as [Hin|Hdefault].
      - apply repeat_spec in Hin. exact Hin.
      - exfalso.
        assert (Hlen : (Z.to_nat i < length (repeat "a"%char 101))%nat)
          by (rewrite repeat_length; lia).
        pose proof (nth_In (repeat "a"%char 101) zero Hlen) as Hin.
        apply repeat_spec in Hin. rewrite Hin in Hdefault. discriminate. }
    rewrite Hchar. split; reflexivity.
  - reflexivity.
  - reflexivity.
  - reflexivity.
  - repeat split; reflexivity.
  - vm_compute. reflexivity.
Defined.

(** ** The rollback marker after a word *)

(** X16.  [HandleTheRemainingStringOnTriePath] and the rollback marker.
    Called with the cursor at the trie root it returns at once and leaves
    the marker, the offset in the word and the outputs as they were.
    Called with the cursor at any other node, every way out of it leaves
    the marker at the number of tokens in the outputs. *)
Theorem HandleTheRemainingStringOnTriePath_marker :
  forall (utils : Utils) (this : FastWordpieceTokenizer)
         (kGetPieces kGetIds kGetOffsets : bool) (fuel : nat)
         (input_word : bytes)
         (input_word_offset_in_text cur_node original_num_tokens
          cur_offset_in_input_word : Z) (out : Outputs)
         (original' cur' node' : Z) (out' : Outputs),
    kGetPieces || kGetIds = true ->
    0 <= original_num_tokens ->
    HandleTheRemainingStringOnTriePath this kGetPieces kGetIds kGetOffsets
      fuel input_word input_word_offset_in_text cur_node original_num_tokens
      cur_offset_in_input_word out
    = Ok (original', cur', node', out') ->
    (cur_node = kRootNodeId (trie_ this) ->
     original' = original_num_tokens
     /\ cur' = cur_offset_in_input_word
     /\ out' = out)
    /\ (cur_node <> kRootNodeId (trie_ this) ->
        original' = GetCurrentOutputSize kGetPieces out').
Proof.
  intros utils this kP kI kO fuel word woff node orig cur out orig' cur'
         node' out' Hstatic Horig H.
  split.
  - intro Hroot. unfold HandleTheRemainingStringOnTriePath in H.
    rewrite Hroot, Z.eqb_refl in H. inversion H; subst.
    repeat split; reflexivity.
  - intro Hroot.
    eapply HandleTheRemainingStringOnTriePath_advances_marker; eauto.
Qed.

(** The concrete model at the end of the word [abcz]: the cursor is at the
    node of [##z], and the outputs hold the tokens of [a] and [##bc]. *)
Lemma HandleTheRemainingStringOnTriePath_marker_witness :
  (9 = kRootNodeId (trie_ (example_tokenizer false)) ->
   3 = 0
   /\ 4 = 3
   /\ {| output_pieces := [bytes_of "a"; bytes_of "##bc"; bytes_of "##z"];
         output_ids := [0; 3; 4];
         output_start_offsets := [0; 1; 3];
         output_end_offsets := [1; 3; 4] |}
      = {| output_pieces := [bytes_of "a"; bytes_of "##bc"];
           output_ids := [0; 3];
           output_start_offsets := [0; 1];
           output_end_offsets := [1; 3] |})
  /\ (9 <> kRootNodeId (trie_ (example_tokenizer false)) ->
      3 = GetCurrentOutputSize true
            {| output_pieces :=
                 [bytes_of "a"; bytes_of "##bc"; bytes_of "##z"];
               output_ids := [0; 3; 4];
               output_start_offsets := [0; 1; 3];
               output_end_offsets := [1; 3; 4] |}).
Proof.
  apply (HandleTheRemainingStringOnTriePath_marker example_utils
           (example_tokenizer false) true true true 50 (bytes_of "abcz") 0 9
           0 3
           {| output_pieces := [bytes_of "a"; bytes_of "##bc"];
              output_ids := [0; 3];
              output_start_offsets := [0; 1];
              output_end_offsets := [1; 3] |}
           3 4 2).
  - reflexivity.
  - lia.
  - reflexivity.
Defined.

(** ** End-to-end mode tokenizes word by word *)

(** Without pieces the input word is not read by the failure transition. *)
Section WithoutPieces.

Context {utils : Utils}.
Variable this : FastWordpieceTokenizer.
Variables kGetIds kGetOffsets : bool.

Lemma AppendTokenToOutput_without_pieces : forall word word' woff cur e out,
  AppendTokenToOutput this false kGetIds kGetOffsets word woff cur e out
  = AppendTokenToOutput this false kGetIds kGetOffsets word' woff cur e out.
Proof. reflexivity. Qed.

Lemma collect_failure_pops_without_pieces :
  forall word word' woff k offset cur out,
    collect_failure_pops this false kGetIds kGetOffsets word woff k offset cur
      out
    = collect_failure_pops this false kGetIds kGetOffsets word' woff k offset
        cur out.
Proof.
  intros word word' woff.
  induction k as [|k IH]; intros offset cur out; cbn [collect_failure_pops];
    [reflexivity|].
  destruct (Get (failure_pops_pool (config_ this)) offset) as [e|];
    cbn [bind]; [|reflexivity].
  rewrite (AppendTokenToOutput_without_pieces word word').
  destruct (AppendTokenToOutput this false kGetIds kGetOffsets word' woff cur
              e out) as [c o].
  apply IH.
Qed.

Lemma TryFollowFailureLinkAndCollectTokens_without_pieces :
  forall word word' woff cur node out,
    TryFollowFailureLinkAndCollectTokens this false kGetIds kGetOffsets word
      woff cur node out
    = TryFollowFailureLinkAndCollectTokens this false kGetIds kGetOffsets
        word' woff cur node out.
Proof.
  intros word word' woff cur node out.
  unfold TryFollowFailureLinkAndCollectTokens.
  destruct (TryGetData (trie_ this) node) as [data|]; [reflexivity|].
  destruct (Get (failure_struct_array (config_ this)) node) as [aux|];
    cbn [bind]; [|reflexivity].
  destruct (failure_link aux =? kNullNode); [reflexivity|].
  destruct (GetFailurePopsOffsetAndLength (failure_pops_offset_length aux))
    as [offset len].
  rewrite (collect_failure_pops_without_pieces word word'). reflexivity.
Qed.

Lemma follow_failure_links_without_pieces :
  forall fuel try_traverse word word' woff cur node out,
    follow_failure_links this false kGetIds kGetOffsets fuel try_traverse word
      woff cur node out
    = follow_failure_links this false kGetIds kGetOffsets fuel try_traverse
        word' woff cur node out.
Proof.
  induction fuel as [|fuel IH]; intros try_traverse word word' woff cur node
    out; cbn [follow_failure_links];
    destruct (try_traverse node); try reflexivity.
  rewrite (TryFollowFailureLinkAndCollectTokens_without_pieces word word').
  destruct (TryFollowFailureLinkAndCollectTokens this false kGetIds
              kGetOffsets word' woff cur node out)
    as [[followed [[c nd] o]]|]; cbn [bind]; [|reflexivity].
  destruct followed; [apply IH | reflexivity].
Qed.

End WithoutPieces.

(** A failure transition that is followed leaves one id more at least. *)
Section TokensGrow.

Context {utils : Utils}.
Variable this : FastWordpieceTokenizer.
Variable kGetOffsets : bool.

Hypothesis pops_are_not_empty :
  forall x, 0 < snd (GetFailurePopsOffsetAndLength x).

Lemma AppendTokenToOutput_one_more : forall word woff cur e out,
  GetCurrentOutputSize false
    (snd (AppendTokenToOutput this false true kGetOffsets word woff cur e out))
  = GetCurrentOutputSize false out + 1.
Proof.
  intros word woff cur e [ps ids ss es].
  unfold AppendTokenToOutput, GetCurrentOutputSize, size, push_back.
  destruct kGetOffsets;
    cbn [orb fst snd with_ids with_pieces with_offsets output_ids];
    rewrite length_app; cbn [length]; lia.
Qed.

Lemma collect_failure_pops_more : forall word woff k offset cur out cur' out',
  collect_failure_pops this false true kGetOffsets word woff k offset cur out
  = Ok (cur', out') ->
  GetCurrentOutputSize false out' = GetCurrentOutputSize false out + Z.of_nat k.
Proof.
  intros word woff.
  induction k as [|k IH]; intros offset cur out cur' out';
    cbn [collect_failure_pops].
  - intro H; inversion H; subst. lia.
  - destruct (Get (failure_pops_pool (config_ this)) offset) as [e|];
      cbn [bind]; [|discriminate].
    pose proof (AppendTokenToOutput_one_more word woff cur e out) as Ha.
    destruct (AppendTokenToOutput this false true kGetOffsets word woff cur e
                out) as [c o].
    cbn [snd] in Ha. intro H. apply IH in H. lia.
Qed.

Lemma TryFollowFailureLinkAndCollectTokens_more :
  forall word woff cur node out cur' node' out',
    TryFollowFailureLinkAndCollectTokens this false true kGetOffsets word woff
      cur node out = Ok (true, (cur', node', out')) ->
    GetCurrentOutputSize false out < GetCurrentOutputSize false out'.
Proof.
  intros word woff cur node out cur' node' out'.
  unfold TryFollowFailureLinkAndCollectTokens.
  destruct (TryGetData (trie_ this) node) as [data|].
  - pose proof (AppendTokenToOutput_one_more word woff cur data out) as Ha.
    destruct (AppendTokenToOutput this false true kGetOffsets word woff cur
                data out) as [c o].
    cbn [snd] in Ha.
    destruct (Get (failure_struct_array (config_ this)) node) as [aux|];
      cbn [bind]; intro H; inversion H; subst. lia.
  - destruct (Get (failure_struct_array (config_ this)) node) as [aux|];
      cbn [bind]; [|discriminate].
    destruct (failure_link aux =? kNullNode); [discriminate|].
    pose proof (pops_are_not_empty (failure_pops_offset_length aux)) as Hlen.
    destruct (GetFailurePopsOffsetAndLength (failure_pops_offset_length aux))
      as [offset len].
    cbn [snd] in Hlen.
    destruct (collect_failure_pops this false true kGetOffsets word woff
                (Z.to_nat (offset + len - offset)) offset cur out)
      as [[c o]|] eqn:Hc; cbn [bind]; [|discriminate].
    apply collect_failure_pops_more in Hc.
    intro H; inversion H; subst. lia.
Qed.

End TokensGrow.

Section FailureLinksThenHandle.

Context {utils : Utils}.
Variable this : FastWordpieceTokenizer.
Variable kGetOffsets : bool.

Lemma TryFollowFailureLinkAndCollectTokens_fails :
  forall kGetPieces kGetIds word woff cur node out cur' node' out',
    TryFollowFailureLinkAndCollectTokens this kGetPieces kGetIds kGetOffsets
      word woff cur node out = Ok (false, (cur', node', out')) ->
    cur' = cur /\ node' = node /\ out' = out.
Proof.
  intros kP kI word woff cur node out cur' node' out'.
  unfold TryFollowFailureLinkAndCollectTokens.
  destruct (TryGetData (trie_ this) node) as [data|].
  - destruct (AppendTokenToOutput this kP kI kGetOffsets word woff cur data
                out) as [c o].
    destruct (Get (failure_struct_array (config_ this)) node) as [aux|];
      cbn [bind]; discriminate.
  - destruct (Get (failure_struct_array (config_ this)) node) as [aux|];
      cbn [bind]; [|discriminate].
    destruct (failure_link aux =? kNullNode).
    + intro H; inversion H; subst. repeat split; reflexivity.
    + destruct (GetFailurePopsOffsetAndLength (failure_pops_offset_length aux))
        as [offset len].
      destruct (collect_failure_pops this kP kI kGetOffsets word woff
                  (Z.to_nat (offset + len - offset)) offset cur out)
        as [[c o]|]; cbn [bind]; discriminate.
Qed.

Lemma dead_end_fails :
  forall kGetPieces kGetIds word woff cur node out,
    dead_end this node ->
    TryFollowFailureLinkAndCollectTokens this kGetPieces kGetIds kGetOffsets
      word woff cur node out = Ok (false, (cur, node, out)).
Proof.
  intros kP kI word woff cur node out [Hdata [aux [Haux Hnull]]].
  unfold TryFollowFailureLinkAndCollectTokens.
  rewrite Hdata, Haux. cbn [bind].
  apply Z.eqb_eq in Hnull. rewrite Hnull. reflexivity.
Qed.

Hypothesis no_link_to_root : forall node node_aux,
  Get (failure_struct_array (config_ this)) node = Ok node_aux ->
  failure_link node_aux <> kRootNodeId (trie_ this).
Hypothesis suffix_root_is_dead_end :
  dead_end this (trie_suffix_root (config_ this)).
Hypothesis punct_node_is_dead_end :
  dead_end this (trie_punct_failure_link_node (config_ this)).
Hypothesis pops_are_not_empty :
  forall x, 0 < snd (GetFailurePopsOffsetAndLength x).

Lemma HandleTheRemainingStringOnTriePath_at_dead_end :
  forall fuel word woff original cur node out,
    node <> kRootNodeId (trie_ this) ->
    negb (node =? trie_suffix_root (config_ this))
    && negb (node =? trie_punct_failure_link_node (config_ this)) = false ->
    ~ (node = trie_suffix_root (config_ this)
       /\ GetCurrentOutputSize false out = original) ->
    HandleTheRemainingStringOnTriePath this false true kGetOffsets fuel word
      woff node original cur out
    = Ok (GetCurrentOutputSize false out, cur, node, out).
Proof.
  intros fuel word woff orig cur node out Hroot Hcond Hfresh.
  assert (Hstop : collect_remaining_tokens this false true kGetOffsets fuel
                    word woff orig cur node out
                  = Ok (GetCurrentOutputSize false out, cur, node, out)).
  { destruct fuel; cbn [collect_remaining_tokens]; rewrite Hcond;
      reflexivity. }
  unfold HandleTheRemainingStringOnTriePath,
    TryHandleTheInputWordBeingSuffixIndicatorItself.
  apply Z.eqb_neq in Hroot. rewrite Hroot.
  destruct (node =? trie_suffix_root (config_ this)) eqn:Hsuffix;
    cbn [negb]; [|exact Hstop].
  apply Z.eqb_eq in Hsuffix.
  destruct (GetCurrentOutputSize false out =? orig) eqn:Heq.
  - apply Z.eqb_eq in Heq. exfalso. apply Hfresh. split; assumption.
  - cbn [negb]. exact Hstop.
Qed.

(** At a separator, end-to-end mode follows the failure links until no
    more can be followed and then handles the rest of the word; the
    outputs and the rollback marker are those of handling the rest of the
    word at once, as single-word mode does. *)
Lemma collect_remaining_tokens_after_failure_links :
  forall fuel more_fuel input_substr word woff original cur node out r,
    (fuel < more_fuel)%nat ->
    node <> kRootNodeId (trie_ this) ->
    original <= GetCurrentOutputSize false out ->
    ~ (node = trie_suffix_root (config_ this)
       /\ GetCurrentOutputSize false out = original) ->
    collect_remaining_tokens this false true kGetOffsets fuel word woff
      original cur node out = Ok r ->
    exists cur2 node2 out2 cur3 node3,
      follow_failure_links this false true kGetOffsets more_fuel
        (fun _ => None) input_substr woff cur node out
      = Ok (false, (cur2, node2, out2))
      /\ HandleTheRemainingStringOnTriePath this false true kGetOffsets
           more_fuel word woff node2 original cur2 out2
         = Ok (fst (fst (fst r)), cur3, node3, snd r).
Proof.
  assert (Hstop :
            forall fuel more_fuel input_substr word woff orig cur node out r,
              node <> kRootNodeId (trie_ this) ->
              negb (node =? trie_suffix_root (config_ this))
              && negb (node =? trie_punct_failure_link_node (config_ this))
              = false ->
              ~ (node = trie_suffix_root (config_ this)
                 /\ GetCurrentOutputSize false out = orig) ->
              collect_remaining_tokens this false true kGetOffsets fuel word
                woff orig cur node out = Ok r ->
              exists cur2 node2 out2 cur3 node3,
                follow_failure_links this false true kGetOffsets (S more_fuel)
                  (fun _ => None) input_substr woff cur node out
                = Ok (false, (cur2, node2, out2))
                /\ HandleTheRemainingStringOnTriePath this false true
                     kGetOffsets (S more_fuel) word woff node2 orig cur2 out2
                   = Ok (fst (fst (fst r)), cur3, node3, snd r)).
  { intros fuel more_fuel input_substr word woff orig cur node out r Hroot
           Hcond Hfresh H.
    assert (Hr : r = (GetCurrentOutputSize false out, cur, node, out)).
    { destruct fuel; cbn [collect_remaining_tokens] in H; rewrite Hcond in H;
        inversion H; reflexivity. }
    subst r. cbn [fst snd].
    assert (Hdead : dead_end this node).
    { apply andb_false_iff in Hcond.
      destruct Hcond as [Hc|Hc]; apply negb_false_iff, Z.eqb_eq in Hc;
        subst node; assumption. }
    cbn [follow_failure_links].
    rewrite (dead_end_fails false true input_substr woff cur node out Hdead).
    cbn [bind].
    exists cur, node, out, cur, node. split; [reflexivity|].
    apply HandleTheRemainingStringOnTriePath_at_dead_end; assumption. }
  induction fuel as [|fuel IH];
    intros more_fuel input_substr word woff orig cur node out r Hfuel Hroot
           Hsize Hfresh H;
    (destruct more_fuel as [|more_fuel]; [lia|]);
    destruct (negb (node =? trie_suffix_root (config_ this))
              && negb (node =? trie_punct_failure_link_node (config_ this)))
      eqn:Hcond;
    try (eapply Hstop; eassumption).
  { cbn [collect_remaining_tokens] in H. rewrite Hcond in H. discriminate. }
  cbn [collect_remaining_tokens] in H. rewrite Hcond in H.
  cbn [follow_failure_links].
  rewrite (TryFollowFailureLinkAndCollectTokens_without_pieces this true
             kGetOffsets input_substr word).
  destruct (TryFollowFailureLinkAndCollectTokens this false true kGetOffsets
              word woff cur node out)
    as [[followed [[c nd] o]]|] eqn:Hf; cbn [bind] in *; [|discriminate].
  destruct followed.
  - pose proof (TryFollowFailureLinkAndCollectTokens_more this kGetOffsets
                  pops_are_not_empty _ _ _ _ _ _ _ _ Hf) as Hmore.
    destruct (TryFollowFailureLinkAndCollectTokens_target this false true
                kGetOffsets no_link_to_root _ _ _ _ _ _ _ _ _ Hf)
      as [[_ Hnd]|[Hb _]]; [|discriminate].
    apply (IH more_fuel input_substr) in H; [|lia|exact Hnd|lia|].
    + destruct H as [c2 [n2 [o2 [c3 [n3 [Hfollow Hhandle]]]]]].
      exists c2, n2, o2, c3, n3. split; [exact Hfollow|].
      apply HandleTheRemainingStringOnTriePath_fuel with (fuel := more_fuel);
        [lia | exact Hhandle].
    + intros [_ Heq]. lia.
  - pose proof Hf as Hfalse.
    apply TryFollowFailureLinkAndCollectTokens_fails in Hf.
    destruct Hf as [Hc [Hnd Ho]]. subst c nd o.
    inversion H; subst r; cbn [fst snd].
    exists cur, node, out, cur, node. split; [reflexivity|].
    unfold HandleTheRemainingStringOnTriePath,
      TryHandleTheInputWordBeingSuffixIndicatorItself.
    apply Z.eqb_neq in Hroot. rewrite Hroot.
    pose proof Hcond as Hcond'.
    apply andb_true_iff in Hcond'. destruct Hcond' as [Hc1 _].
    rewrite Hc1.
    cbn [collect_remaining_tokens]. rewrite Hcond, Hfalse. cbn [bind].
    reflexivity.
Qed.

Lemma HandleTheRemainingStringOnTriePath_after_failure_links :
  forall fuel more_fuel input_substr word woff original cur node out r,
    (fuel < more_fuel)%nat ->
    node <> kRootNodeId (trie_ this) ->
    original <= GetCurrentOutputSize false out ->
    HandleTheRemainingStringOnTriePath this false true kGetOffsets fuel word
      woff node original cur out = Ok r ->
    exists cur2 node2 out2 cur3 node3,
      follow_failure_links this false true kGetOffsets more_fuel
        (fun _ => None) input_substr woff cur node out
      = Ok (false, (cur2, node2, out2))
      /\ HandleTheRemainingStringOnTriePath this false true kGetOffsets
           more_fuel word woff node2 original cur2 out2
         = Ok (fst (fst (fst r)), cur3, node3, snd r).
Proof.
  intros fuel more_fuel input_substr word woff orig cur node out r Hfuel Hroot
         Hsize H.
  destruct (Z.eq_dec node (trie_suffix_root (config_ this))) as [Hs|Hs];
    [destruct (Z.eq_dec (GetCurrentOutputSize false out) orig) as [He|He]|].
  - (* the word is the suffix indicator itself *)
    destruct more_fuel as [|more_fuel]; [lia|].
    cbn [follow_failure_links].
    rewrite (dead_end_fails false true input_substr woff cur node out)
      by (rewrite Hs; exact suffix_root_is_dead_end).
    cbn [bind].
    destruct r as [[[orig1 c1] n1] o1].
    exists cur, node, out, c1, n1. split; [reflexivity|].
    cbn [fst snd].
    apply HandleTheRemainingStringOnTriePath_fuel with (fuel := fuel);
      [lia | exact H].
  - apply collect_remaining_tokens_after_failure_links with (fuel := fuel);
      try assumption; [intros [_ Heq]; contradiction|].
    unfold HandleTheRemainingStringOnTriePath,
      TryHandleTheInputWordBeingSuffixIndicatorItself in H.
    apply Z.eqb_neq in Hroot. rewrite Hroot in H.
    apply Z.eqb_eq in Hs. rewrite Hs in H. cbn [negb] in H.
    apply Z.eqb_neq in He. rewrite He in H. cbn [negb] in H. exact H.
  - apply collect_remaining_tokens_after_failure_links with (fuel := fuel);
      try assumption; [intros [Heq _]; contradiction|].
    unfold HandleTheRemainingStringOnTriePath,
      TryHandleTheInputWordBeingSuffixIndicatorItself in H.
    apply Z.eqb_neq in Hroot. rewrite Hroot in H.
    apply Z.eqb_neq in Hs. rewrite Hs in H. cbn [negb] in H. exact H.
Qed.

End FailureLinksThenHandle.

Lemma skipn_nth : forall (A : Type) (n : nat) (l : list A) (x d : A) rest,
  skipn n l = x :: rest -> nth n l d = x.
Proof.
  intros A n. induction n as [|n IH]; intros l x d rest H.
  - cbn in H. subst l. reflexivity.
  - destruct l as [|y l]; [discriminate|]. cbn [skipn nth] in *.
    eapply IH; eauto.
Qed.

Lemma skipn_past : forall (A : Type) (n : nat) (l a b : list A),
  skipn n l = a ++ b -> skipn (n + length a) l = b.
Proof.
  intros A n l a. revert n.
  induction a as [|x a IH]; intros n b H.
  - rewrite Nat.add_0_r. exact H.
  - cbn [length]. replace (n + S (length a))%nat with (S n + length a)%nat
      by lia.
    apply IH. eapply skipn_tail. exact H.
Qed.

Lemma skipn_some_left : forall (A : Type) (n : nat) (l : list A) x rest,
  skipn n l = x :: rest -> (n < length l)%nat.
Proof.
  intros A n l x rest H.
  apply (f_equal (@length A)) in H. rewrite length_skipn in H.
  cbn [length] in H. lia.
Qed.

Lemma follow_failure_links_consumed :
  forall (utils : Utils) this kGetPieces kGetIds kGetOffsets fuel try_traverse
         word woff cur node out cur' node' out',
    follow_failure_links this kGetPieces kGetIds kGetOffsets fuel try_traverse
      word woff cur node out = Ok (true, (cur', node', out')) ->
    exists n, try_traverse n = Some node'.
Proof.
  intros utils this kP kI kO.
  induction fuel as [|fuel IH];
    intros try_traverse word woff cur node out cur' node' out';
    cbn [follow_failure_links];
    destruct (try_traverse node) as [next|] eqn:Hstep;
    try discriminate;
    try (intro H; inversion H; subst; exists node; exact Hstep).
  destruct (TryFollowFailureLinkAndCollectTokens this kP kI kO word woff cur
              node out) as [[followed [[c nd] o]]|]; cbn [bind];
    [|discriminate].
  destruct followed; [apply IH | discriminate].
Qed.

Section WordInText.

Context {utils : Utils} {icu : ICU}.
Variable this : FastWordpieceTokenizer.
Variable kGetOffsets : bool.
Variable input_text : bytes.

Hypothesis seven_bit : seven_bit_text input_text.

Lemma decode_byte : forall pos ch rest,
  0 <= pos ->
  skipn (Z.to_nat pos) input_text = ch :: rest ->
  pos < size input_text
  /\ U8_NEXT input_text pos (size input_text) = (pos + 1, code_of ch)
  /\ substr input_text pos (pos + 1 - pos) = [ch].
Proof.
  intros pos ch rest Hpos Hskip.
  assert (Hlt : pos < size input_text).
  { apply skipn_some_left in Hskip. unfold size. lia. }
  split; [exact Hlt|]. split.
  - rewrite seven_bit by lia.
    rewrite (skipn_nth _ _ _ _ zero _ Hskip). reflexivity.
  - replace (pos + 1 - pos) with 1 by lia.
    unfold substr. rewrite Hskip. reflexivity.
Qed.

Lemma one_step_traversal : forall ch node,
  TryTraverseSeveralSteps (trie_ this) node [ch]
  = TryTraverseOneStep (trie_ this) node ch.
Proof.
  intros ch node. cbn [TryTraverseSeveralSteps].
  destruct (TryTraverseOneStep (trie_ this) node ch); reflexivity.
Qed.

(** The inner loop on the bytes of a word that the trie consumes. *)
Lemma trie_match_loop_along_word :
  forall rest tail fuel more_fuel input_substr word p pos next prev cur_char
         cur node out c nd o,
    0 <= p <= pos ->
    skipn (Z.to_nat pos) input_text = rest ++ tail ->
    Forall word_byte rest ->
    pos + size rest - p <= max_bytes_per_token (config_ this) ->
    (fuel + length rest < more_fuel)%nat ->
    pos = 0 \/ IsPunctuationOrChineseChar cur_char = false ->
    match_word this false true kGetOffsets fuel word p rest cur node out
    = Ok (true, (c, nd, o)) ->
    exists next' prev' cur_char',
      trie_match_loop this false true kGetOffsets more_fuel input_text
        input_substr p pos next prev cur_char (pos - p) cur node out
      = trie_match_loop this false true kGetOffsets
          (more_fuel - length rest) input_text input_substr p
          (pos + size rest) next' prev' cur_char' (pos + size rest - p) c nd o
      /\ (pos + size rest = 0
          \/ IsPunctuationOrChineseChar cur_char' = false).
Proof.
  induction rest as [|ch rest IH];
    intros tail fuel more_fuel input_substr word p pos next prev cur_char cur
           node out c nd o Hpos Hskip Hword Hlimit Hfuel Hprev;
    cbn [match_word].
  - intro H; inversion H; subst.
    exists next, prev, cur_char.
    change (size (@nil ascii)) with 0. rewrite Z.add_0_r, Nat.sub_0_r.
    split; [reflexivity | exact Hprev].
  - destruct (decode_byte pos ch (rest ++ tail) ltac:(lia) Hskip)
      as [Hlt [Hdecode Hsub]].
    inversion Hword as [|ch' rest' [Hws Hp] Hrest]; subst ch' rest'.
    assert (Hsize : size (ch :: rest) = size rest + 1)
      by (unfold size; cbn [length]; lia).
    rewrite Hsize in *.
    destruct more_fuel as [|more_fuel]; [lia|].
    cbn [trie_match_loop].
    destruct (pos <? size input_text) eqn:Hltb;
      [|apply Z.ltb_ge in Hltb; lia].
    rewrite Hdecode.
    destruct (pos - p + (pos + 1) - pos >? max_bytes_per_token (config_ this))
      eqn:Hgt; [apply Z.gtb_lt in Hgt; pose proof (size_nonneg _ rest); lia|].
    rewrite Hsub.
    rewrite (follow_failure_links_ext this false true kGetOffsets more_fuel
               (fun n => TryTraverseSeveralSteps (trie_ this) n [ch])
               (fun n => TryTraverseOneStep (trie_ this) n ch))
      by (intro n; apply one_step_traversal).
    rewrite (follow_failure_links_without_pieces this true kGetOffsets
               more_fuel _ input_substr word).
    destruct (follow_failure_links this false true kGetOffsets fuel
                (fun n => TryTraverseOneStep (trie_ this) n ch) word p cur
                node out) as [[consumed [[c1 n1] o1]]|] eqn:Hf;
      cbn [bind]; [|discriminate].
    apply follow_failure_links_fuel with (fuel' := more_fuel) in Hf; [|lia].
    rewrite Hf. cbn [bind].
    destruct consumed; [|discriminate].
    intro H.
    apply IH with (tail := tail) (more_fuel := more_fuel)
                  (input_substr := input_substr) (pos := pos + 1)
                  (next := pos + 1) (prev := cur_char)
                  (cur_char := code_of ch) in H.
    + destruct H as [next' [prev' [cur_char' [Heq Hprev']]]].
      exists next', prev', cur_char'.
      replace (pos - p + (pos + 1 - pos)) with (pos + 1 - p) by lia.
      replace (pos + (size rest + 1)) with (pos + 1 + size rest) by lia.
      cbn [length Nat.sub]. split; [exact Heq | exact Hprev'].
    + lia.
    + replace (Z.to_nat (pos + 1)) with (S (Z.to_nat pos)) by lia.
      eapply skipn_tail. exact Hskip.
    + exact Hrest.
    + lia.
    + cbn [length] in Hfuel. lia.
    + right. exact Hp.
Qed.

(** The inner loop on a word at a byte of which no failure link can be
    followed: it stops inside the word, and not at a word boundary. *)
Lemma trie_match_loop_inside_word :
  forall rest tail fuel more_fuel input_substr word p pos next prev cur_char
         cur node out c nd o,
    0 <= p <= pos ->
    skipn (Z.to_nat pos) input_text = rest ++ tail ->
    Forall word_byte rest ->
    pos + size rest - p <= max_bytes_per_token (config_ this) ->
    (fuel + length rest < more_fuel)%nat ->
    pos = 0 \/ IsPunctuationOrChineseChar cur_char = false ->
    match_word this false true kGetOffsets fuel word p rest cur node out
    = Ok (false, (c, nd, o)) ->
    exists m rest',
      trie_match_loop this false true kGetOffsets more_fuel input_text
        input_substr p pos next prev cur_char (pos - p) cur node out = Ok m
      /\ exit_outputs m = o
      /\ pos <= exit_pos m < pos + size rest
      /\ exit_next_pos m = exit_pos m + 1
      /\ at_word_boundary m = false
      /\ IsPunctuationOrChineseChar (exit_cur_unicode_char m) = false
      /\ skipn (Z.to_nat (exit_next_pos m)) input_text = rest' ++ tail
      /\ Forall word_byte rest'
      /\ exit_next_pos m + size rest' = pos + size rest.
Proof.
  induction rest as [|ch rest IH];
    intros tail fuel more_fuel input_substr word p pos next prev cur_char cur
           node out c nd o Hpos Hskip Hword Hlimit Hfuel Hprev;
    cbn [match_word]; [discriminate|].
  destruct (decode_byte pos ch (rest ++ tail) ltac:(lia) Hskip)
    as [Hlt [Hdecode Hsub]].
  inversion Hword as [|ch' rest' [Hws Hp] Hrest]; subst ch' rest'.
  assert (Hsize : size (ch :: rest) = size rest + 1)
    by (unfold size; cbn [length]; lia).
  rewrite Hsize in *.
  pose proof (size_nonneg _ rest) as Hnonneg.
  destruct more_fuel as [|more_fuel]; [lia|].
  cbn [trie_match_loop].
  destruct (pos <? size input_text) eqn:Hltb;
    [|apply Z.ltb_ge in Hltb; lia].
  rewrite Hdecode.
  destruct (pos - p + (pos + 1) - pos >? max_bytes_per_token (config_ this))
    eqn:Hgt; [apply Z.gtb_lt in Hgt; lia|].
  rewrite Hsub.
  rewrite (follow_failure_links_ext this false true kGetOffsets more_fuel
             (fun n => TryTraverseSeveralSteps (trie_ this) n [ch])
             (fun n => TryTraverseOneStep (trie_ this) n ch))
    by (intro n; apply one_step_traversal).
  rewrite (follow_failure_links_without_pieces this true kGetOffsets
             more_fuel _ input_substr word).
  destruct (follow_failure_links this false true kGetOffsets fuel
              (fun n => TryTraverseOneStep (trie_ this) n ch) word p cur
              node out) as [[consumed [[c1 n1] o1]]|] eqn:Hf;
    cbn [bind]; [|discriminate].
  apply follow_failure_links_fuel with (fuel' := more_fuel) in Hf; [|lia].
  rewrite Hf. cbn [bind].
  destruct consumed.
  - intro H.
    apply IH with (tail := tail) (more_fuel := more_fuel)
                  (input_substr := input_substr) (pos := pos + 1)
                  (next := pos + 1) (prev := cur_char)
                  (cur_char := code_of ch) in H.
    + destruct H as [m [rest' [Hloop [Hout [Hin [Hnext [Hboundary [Hcur
                       [Hskip' [Hword' Hend]]]]]]]]]].
      exists m, rest'.
      replace (pos - p + (pos + 1 - pos)) with (pos + 1 - p) by lia.
      repeat split; try assumption; lia.
    + lia.
    + replace (Z.to_nat (pos + 1)) with (S (Z.to_nat pos)) by lia.
      eapply skipn_tail. exact Hskip.
    + exact Hrest.
    + lia.
    + cbn [length] in Hfuel. lia.
    + right. exact Hp.
  - intro H; inversion H; subst.
    eexists. exists rest. split; [reflexivity|].
    cbn [exit_outputs exit_pos exit_next_pos exit_cur_unicode_char].
    repeat split; try reflexivity; try lia; try assumption.
    + unfold at_word_boundary.
      cbn [exit_pos exit_cur_unicode_char exit_prev_unicode_char].
      rewrite Hws, Hp. cbn [orb].
      destruct Hprev as [Hzero|Hprev].
      * subst pos. reflexivity.
      * rewrite Hprev. apply andb_false_r.
    + replace (Z.to_nat (pos + 1)) with (S (Z.to_nat pos)) by lia.
      eapply skipn_tail. exact Hskip.
Qed.

(** Skipping the rest of a word: up to the whitespace after it, which is
    skipped as well, up to the punctuation character after it, or up to the
    end of the text. *)
Lemma skip_loop_to_the_boundary : forall rest tail fuel pos,
  0 <= pos ->
  skipn (Z.to_nat pos) input_text = rest ++ tail ->
  Forall word_byte rest ->
  (length rest < fuel)%nat ->
  match tail with
  | [] => True
  | ch :: _ =>
      u_isUWhiteSpace (code_of ch) = true
      \/ IsPunctuationOrChineseChar (code_of ch) = true
  end ->
  skip_loop fuel input_text pos pos
  = Ok (pos + size rest,
        pos + size rest
        + match tail with
          | [] => 0
          | ch :: _ => if u_isUWhiteSpace (code_of ch) then 1 else 0
          end).
Proof.
  induction rest as [|ch rest IH]; intros tail fuel pos Hpos Hskip Hword Hfuel
    Htail.
  - change (size (@nil ascii)) with 0. rewrite Z.add_0_r.
    cbn [app] in Hskip.
    destruct fuel as [|fuel]; [lia|]. cbn [skip_loop].
    destruct tail as [|sp tail].
    + assert (Hend : size input_text <= pos).
      { apply (f_equal (@length ascii)) in Hskip.
        rewrite length_skipn in Hskip. cbn [length] in Hskip.
        unfold size. lia. }
      rewrite Z.add_0_r.
      destruct (pos <? size input_text) eqn:Hlt;
        [apply Z.ltb_lt in Hlt; lia | reflexivity].
    + destruct (decode_byte pos sp tail Hpos Hskip)
        as [Hlt [Hdecode _]].
      apply Z.ltb_lt in Hlt. rewrite Hlt, Hdecode.
      destruct (u_isUWhiteSpace (code_of sp)); [reflexivity|].
      destruct Htail as [Hws|Hp]; [discriminate|].
      rewrite Hp, Z.add_0_r. reflexivity.
  - destruct (decode_byte pos ch (rest ++ tail) Hpos Hskip)
      as [Hlt [Hdecode _]].
    inversion Hword as [|ch' rest' [Hws Hp] Hrest]; subst ch' rest'.
    destruct fuel as [|fuel]; [lia|]. cbn [skip_loop].
    apply Z.ltb_lt in Hlt. rewrite Hlt, Hdecode, Hws, Hp.
    rewrite (IH tail fuel (pos + 1)).
    + assert (Hsize : size (ch :: rest) = size rest + 1)
        by (unfold size; cbn [length]; lia).
      rewrite Hsize.
      replace (pos + 1 + size rest) with (pos + (size rest + 1)) by lia.
      reflexivity.
    + lia.
    + replace (Z.to_nat (pos + 1)) with (S (Z.to_nat pos)) by lia.
      eapply skipn_tail. exact Hskip.
    + exact Hrest.
    + cbn [length] in Hfuel. lia.
    + exact Htail.
Qed.

End WordInText.

Lemma match_word_consumed :
  forall (utils : Utils) this kGetPieces kGetIds kGetOffsets fuel word woff
         rest cur node out c nd o,
    rest <> [] ->
    match_word this kGetPieces kGetIds kGetOffsets fuel word woff rest cur
      node out = Ok (true, (c, nd, o)) ->
    exists n ch, TryTraverseOneStep (trie_ this) n ch = Some nd.
Proof.
  intros utils this kP kI kO fuel word woff.
  induction rest as [|ch rest IH]; intros cur node out c nd o Hne;
    [contradiction|].
  cbn [match_word].
  destruct (follow_failure_links this kP kI kO fuel
              (fun n => TryTraverseOneStep (trie_ this) n ch) word woff cur
              node out) as [[consumed [[c1 n1] o1]]|] eqn:Hf;
    cbn [bind]; [|discriminate].
  destruct consumed; [|discriminate].
  destruct rest as [|ch2 rest].
  - cbn [match_word]. intro H; inversion H; subst.
    apply follow_failure_links_consumed in Hf. destruct Hf as [n Hn].
    exists n, ch. exact Hn.
  - apply IH. discriminate.
Qed.

Lemma trie_match_loop_at_the_end :
  forall (utils : Utils) (icu : ICU) this kGetPieces kGetIds kGetOffsets fuel
         input_text input_substr woff pos next prev cur_char len cur node out,
    size input_text <= pos ->
    trie_match_loop this kGetPieces kGetIds kGetOffsets fuel input_text
      input_substr woff pos next prev cur_char len cur node out
    = Ok {| exit_pos := pos; exit_next_pos := next;
            exit_prev_unicode_char := prev;
            exit_cur_unicode_char := cur_char;
            exit_node := node;
            exit_offset_in_input_word := cur;
            exit_outputs := out |}.
Proof.
  intros utils icu this kP kI kO fuel text input_substr woff pos next prev
         cur_char len cur node out Hend.
  destruct fuel; cbn [trie_match_loop];
    (destruct (pos <? size text) eqn:Hlt;
     [apply Z.ltb_lt in Hlt; lia | reflexivity]).
Qed.

Lemma firstn_exact : forall (A : Type) (a b : list A),
  firstn (length a) (a ++ b) = a.
Proof.
  intros A a b. rewrite firstn_app, firstn_all, Nat.sub_diag.
  cbn [firstn]. apply app_nil_r.
Qed.

Lemma extends_more_ids : forall kGetPieces kGetOffsets out out',
  extends kGetPieces true kGetOffsets out out' ->
  GetCurrentOutputSize false out <= GetCurrentOutputSize false out'.
Proof.
  intros kP kO out out' [_ [[appended [Hids _]] _]].
  unfold GetCurrentOutputSize, size. rewrite Hids, length_app. lia.
Qed.

Section OffTheRoot.

Context {utils : Utils}.
Variable this : FastWordpieceTokenizer.
Variables kGetPieces kGetIds kGetOffsets : bool.

Hypothesis no_link_to_root : forall node node_aux,
  Get (failure_struct_array (config_ this)) node = Ok node_aux ->
  failure_link node_aux <> kRootNodeId (trie_ this).

(** Away from the root, only the traversals from the nodes other than the
    root count. *)
Lemma follow_failure_links_off_the_root :
  forall fuel (f g : Z -> option Z) input_word woff cur node out,
    (forall n, n <> kRootNodeId (trie_ this) -> f n = g n) ->
    node <> kRootNodeId (trie_ this) ->
    follow_failure_links this kGetPieces kGetIds kGetOffsets fuel f input_word
      woff cur node out
    = follow_failure_links this kGetPieces kGetIds kGetOffsets fuel g
        input_word woff cur node out.
Proof.
  induction fuel as [|fuel IH]; intros f g word woff cur node out Hext Hnode;
    cbn [follow_failure_links]; rewrite <- (Hext node Hnode);
    destruct (f node); try reflexivity.
  destruct (TryFollowFailureLinkAndCollectTokens this kGetPieces kGetIds
              kGetOffsets word woff cur node out)
    as [[followed [[c nd] o]]|] eqn:Hf; cbn [bind]; [|reflexivity].
  destruct followed; [|reflexivity].
  destruct (TryFollowFailureLinkAndCollectTokens_target this kGetPieces
              kGetIds kGetOffsets no_link_to_root _ _ _ _ _ _ _ _ _ Hf)
    as [[_ Hnd]|[Hb _]]; [|discriminate].
  apply IH; assumption.
Qed.

End OffTheRoot.

Section WordByWord.

Context {utils : Utils} {icu : ICU}.
Variable this : FastWordpieceTokenizer.
Variable kGetOffsets : bool.
Variable input_text : bytes.

Hypothesis seven_bit : seven_bit_text input_text.
Hypothesis no_edge_to_root : forall node ch,
  TryTraverseOneStep (trie_ this) node ch <> Some (kRootNodeId (trie_ this)).
Hypothesis no_link_to_root : forall node node_aux,
  Get (failure_struct_array (config_ this)) node = Ok node_aux ->
  failure_link node_aux <> kRootNodeId (trie_ this).
Hypothesis suffix_root_is_dead_end :
  dead_end this (trie_suffix_root (config_ this)).
Hypothesis punct_node_is_dead_end :
  dead_end this (trie_punct_failure_link_node (config_ this)).
Hypothesis pops_are_not_empty :
  forall x, 0 < snd (GetFailurePopsOffsetAndLength x).

(** One iteration of the outer loop at the start of a word that is followed
    by a whitespace, by a punctuation character or by the end of the text
    does what single-word mode does on the word at its offset, and moves
    past the whitespace. *)
Lemma tokenize_next_word_at_a_word : forall w tail fuel more_fuel s out1,
  0 <= cur_pos s ->
  skipn (Z.to_nat (cur_pos s)) input_text = w ++ tail ->
  is_word this w ->
  match tail with
  | [] => True
  | ch :: _ =>
      (u_isUWhiteSpace (code_of ch) = true
       \/ IsPunctuationOrChineseChar (code_of ch) = true)
      /\ forall node, node <> kRootNodeId (trie_ this) ->
           TryTraverseOneStep (trie_ this) node ch = None
  end ->
  original_num_tokens s = GetCurrentOutputSize false (outputs s) ->
  cur_pos s = 0 \/ IsPunctuationOrChineseChar (cur_unicode_char s) = false ->
  (fuel + length w + 2 < more_fuel)%nat ->
  TokenizeSingleWordImpl this false true kGetOffsets fuel w (cur_pos s)
    (outputs s) = Ok out1 ->
  exists r,
    tokenize_next_word this false true kGetOffsets more_fuel input_text s
    = Ok r
    /\ match r with
       | inr out' => tail = [] /\ out' = out1
       | inl s' =>
           outputs s' = out1
           /\ original_num_tokens s' = GetCurrentOutputSize false out1
           /\ cur_pos s'
              = cur_pos s + size w
                + match tail with
                  | [] => 0
                  | ch :: _ => if u_isUWhiteSpace (code_of ch) then 1 else 0
                  end
           /\ (IsPunctuationOrChineseChar (cur_unicode_char s') = false
               \/ match tail with
                  | [] => False
                  | ch :: _ => cur_unicode_char s' = code_of ch
                  end)
       end.
Proof.
  intros w tail fuel F [p next0 prev0 cur_char0 orig out] out1.
  cbn [cur_pos next_pos prev_unicode_char cur_unicode_char
       original_num_tokens outputs].
  intros Hp Hskip [Hne [Hlimit Hword]] Htail Horig Hprev Hfuel.
  subst orig.
  assert (Hw_size : 0 < size w).
  { unfold size. destruct w; [contradiction | cbn [length]; lia]. }
  assert (Hinside : p + size w + size tail = size input_text).
  { pose proof Hskip as Hlen. apply (f_equal (@length ascii)) in Hlen.
    rewrite length_skipn, length_app in Hlen. unfold size in *. lia. }
  pose proof (size_nonneg _ tail) as Htail_size.
  assert (Horig : 0 <= GetCurrentOutputSize false out)
    by apply size_nonneg.
  rewrite TokenizeSingleWordImpl_nonempty by exact Hne.
  destruct (size w >? max_bytes_per_token (config_ this)) eqn:Hgt;
    [apply Z.gtb_lt in Hgt; lia|].
  destruct (match_word this false true kGetOffsets fuel w p w 0
              (kRootNodeId (trie_ this)) out)
    as [[matched [[c nd] o]]|] eqn:Hm; cbn [bind]; [|discriminate].
  unfold tokenize_next_word, match_next_word.
  cbn [cur_pos next_pos prev_unicode_char cur_unicode_char
       original_num_tokens outputs].
  destruct matched.
  - (* the trie consumed the word *)
    destruct (HandleTheRemainingStringOnTriePath this false true kGetOffsets
                fuel w p nd (GetCurrentOutputSize false out) c o)
      as [[[[orig1 c1] n1] o1]|] eqn:Hh; cbn [bind]; [|discriminate].
    intro H; inversion H; subst o1; clear H.
    assert (Hnd : nd <> kRootNodeId (trie_ this)).
    { destruct (match_word_consumed _ _ _ _ _ _ _ _ _ _ _ _ _ _ _ Hne Hm)
        as [n [ch Hstep]].
      intro Heq. apply (no_edge_to_root n ch). rewrite Hstep, Heq.
      reflexivity. }
    assert (Hmarker : orig1 = GetCurrentOutputSize false out1).
    { eapply HandleTheRemainingStringOnTriePath_advances_marker;
        [| |exact Hnd|exact Hh]; [reflexivity | exact Horig]. }
    assert (Hgrown : GetCurrentOutputSize false out
                     <= GetCurrentOutputSize false o).
    { eapply extends_more_ids. eapply match_word_extends. exact Hm. }
    destruct (trie_match_loop_along_word this kGetOffsets input_text seven_bit
                w tail fuel F (skipn (Z.to_nat p) input_text) w p p next0
                prev0 cur_char0 0 (kRootNodeId (trie_ this)) out c nd o
                ltac:(lia) Hskip Hword ltac:(lia) ltac:(lia) Hprev Hm)
      as [next' [prev' [cur_char' [Hloop Hprev']]]].
    replace (p - p) with 0 in Hloop by lia.
    rewrite Hloop.
    destruct tail as [|sp tail].
    + (* the word ends the text *)
      change (size (@nil ascii)) with 0 in Hinside.
      rewrite trie_match_loop_at_the_end by lia.
      cbn [bind exit_pos exit_node exit_offset_in_input_word exit_outputs].
      destruct (p + size w >=? size input_text) eqn:Hge;
        [|rewrite Z.geb_leb, Z.leb_gt in Hge; lia].
      rewrite Hskip, app_nil_r.
      rewrite (HandleTheRemainingStringOnTriePath_fuel this false true
                 kGetOffsets fuel F w p nd (GetCurrentOutputSize false out) c
                 o _ ltac:(lia) Hh).
      cbn [bind]. eexists. split; [reflexivity|]. split; reflexivity.
    + (* a whitespace or a punctuation character follows the word *)
      destruct Htail as [Hsp Hedge].
      assert (Hboundary :
                u_isUWhiteSpace (code_of sp)
                || IsPunctuationOrChineseChar (code_of sp) = true).
      { destruct Hsp as [Hsp|Hsp]; rewrite Hsp;
          [reflexivity | apply orb_true_r]. }
      assert (Hsep : skipn (Z.to_nat (p + size w)) input_text = sp :: tail).
      { replace (Z.to_nat (p + size w)) with (Z.to_nat p + length w)%nat
          by (unfold size; lia).
        apply skipn_past. exact Hskip. }
      destruct (decode_byte input_text seven_bit (p + size w) sp tail
                  ltac:(lia) Hsep) as [Hlt [Hdecode Hsub]].
      assert (Hword_again :
                firstn (Z.to_nat (p + size w - p))
                  (skipn (Z.to_nat p) input_text) = w).
      { replace (Z.to_nat (p + size w - p)) with (length w)
          by (unfold size; lia).
        rewrite Hskip. apply firstn_exact. }
      destruct (F - length w)%nat as [|F'] eqn:HF; [lia|].
      cbn [trie_match_loop].
      destruct (p + size w <? size input_text) eqn:Hltb;
        [|apply Z.ltb_ge in Hltb; lia].
      rewrite Hdecode.
      destruct (p + size w - p + (p + size w + 1) - (p + size w)
                >? max_bytes_per_token (config_ this)).
      * (* the character is past the length limit *)
        cbn [bind exit_pos exit_node exit_offset_in_input_word exit_outputs].
        destruct (p + size w >=? size input_text) eqn:Hge;
          [apply Z.geb_le in Hge; lia|].
        unfold at_word_boundary. cbn [exit_cur_unicode_char].
        rewrite Hboundary. cbn [orb].
        unfold flush_word_at_boundary.
        cbn [cur_pos original_num_tokens exit_pos exit_next_pos exit_node
             exit_offset_in_input_word exit_outputs exit_cur_unicode_char
             exit_prev_unicode_char].
        rewrite Hword_again.
        rewrite (HandleTheRemainingStringOnTriePath_fuel this false true
                   kGetOffsets fuel F w p nd
                   (GetCurrentOutputSize false out) c o _ ltac:(lia) Hh).
        cbn [bind].
        eexists. split; [reflexivity|].
        cbn [outputs original_num_tokens cur_pos cur_unicode_char].
        repeat split; try assumption;
          [destruct (u_isUWhiteSpace (code_of sp)); lia
          |right; reflexivity].
      * (* the failure links are followed at the character *)
        rewrite Hsub.
        rewrite (follow_failure_links_off_the_root this false true kGetOffsets
                   no_link_to_root F'
                   (fun n => TryTraverseSeveralSteps (trie_ this) n [sp])
                   (fun _ => None))
          by (try exact Hnd; intros n Hn; rewrite one_step_traversal;
              apply Hedge; exact Hn).
        destruct (HandleTheRemainingStringOnTriePath_after_failure_links
                    this kGetOffsets no_link_to_root suffix_root_is_dead_end
                    punct_node_is_dead_end pops_are_not_empty fuel F'
                    (skipn (Z.to_nat p) input_text) w p
                    (GetCurrentOutputSize false out) c nd o _ ltac:(lia)
                    Hnd Hgrown Hh)
          as [c2 [n2 [o2 [c3 [n3 [Hfollow Hhandle]]]]]].
        cbn [fst snd] in Hhandle.
        rewrite Hfollow.
        cbn [bind exit_pos exit_node exit_offset_in_input_word exit_outputs].
        destruct (p + size w >=? size input_text) eqn:Hge;
          [apply Z.geb_le in Hge; lia|].
        unfold at_word_boundary. cbn [exit_cur_unicode_char].
        rewrite Hboundary. cbn [orb].
        unfold flush_word_at_boundary.
        cbn [cur_pos original_num_tokens exit_pos exit_next_pos exit_node
             exit_offset_in_input_word exit_outputs exit_cur_unicode_char
             exit_prev_unicode_char].
        rewrite Hword_again.
        rewrite (HandleTheRemainingStringOnTriePath_fuel this false true
                   kGetOffsets F' F w p n2
                   (GetCurrentOutputSize false out) c2 o2 _ ltac:(lia)
                   Hhandle).
        cbn [bind].
        eexists. split; [reflexivity|].
        cbn [outputs original_num_tokens cur_pos cur_unicode_char].
        repeat split; try assumption;
          [destruct (u_isUWhiteSpace (code_of sp)); lia
          |right; reflexivity].
  - (* no failure link could be followed inside the word *)
    intro H.
    assert (Hout1 : out1
                    = snd (ResetOutputAppendUnknownToken this false true
                             kGetOffsets p (size w)
                             (GetCurrentOutputSize false out) o))
      by congruence.
    clear H. subst out1.
    destruct (trie_match_loop_inside_word this kGetOffsets input_text seven_bit
                w tail fuel F (skipn (Z.to_nat p) input_text) w p p next0
                prev0 cur_char0 0 (kRootNodeId (trie_ this)) out c nd o
                ltac:(lia) Hskip Hword ltac:(lia) ltac:(lia) Hprev Hm)
      as [m [rest' [Hloop [Hout [Hin [Hnext [Hboundary [Hcur
            [Hskip' [Hword' Hend]]]]]]]]]].
    replace (p - p) with 0 in Hloop by lia.
    rewrite Hloop. cbn [bind].
    destruct (exit_pos m >=? size input_text) eqn:Hge;
      [apply Z.geb_le in Hge; lia|].
    rewrite Hboundary.
    unfold map_word_to_unknown, SkipTheRemainingOfWordAndTrailingWhiteSpaces.
    assert (Hrest_size : size rest' <= size w).
    { pose proof (size_nonneg _ rest'). lia. }
    rewrite (skip_loop_to_the_boundary input_text seven_bit rest' tail F
               (exit_next_pos m) ltac:(lia) Hskip' Hword'
               ltac:(unfold size in *; lia)
               ltac:(destruct tail; [exact I | apply Htail])).
    cbn [bind cur_pos original_num_tokens].
    rewrite Hout, Hend.
    replace (p + size w - p) with (size w) by lia.
    pose proof (ResetOutputAppendUnknownToken_size this false true kGetOffsets
                  p (size w) (GetCurrentOutputSize false out) o eq_refl Horig)
      as Hreset.
    destruct (ResetOutputAppendUnknownToken this false true kGetOffsets p
                (size w) (GetCurrentOutputSize false out) o)
      as [orig2 o2] eqn:Hr.
    assert (Horig2 : orig2 = GetCurrentOutputSize false out + 1).
    { unfold ResetOutputAppendUnknownToken in Hr. inversion Hr.
      reflexivity. }
    cbn [snd bind] in *.
    eexists. split; [reflexivity|].
    cbn [outputs original_num_tokens cur_pos cur_unicode_char].
    split; [reflexivity|]. split; [lia|].
    split; [reflexivity | left; exact Hcur].
Qed.


Lemma tokenize_words_word_by_word :
  forall sp words fuel more_fuel s out',
    words <> [] ->
    0 <= cur_pos s ->
    skipn (Z.to_nat (cur_pos s)) input_text = StrJoin words [sp] ->
    Forall (is_word this) words ->
    space_byte sp ->
    (forall node, TryTraverseOneStep (trie_ this) node sp = None) ->
    original_num_tokens s = GetCurrentOutputSize false (outputs s) ->
    cur_pos s = 0 \/ IsPunctuationOrChineseChar (cur_unicode_char s) = false ->
    (fuel + length (StrJoin words [sp]) + 3 < more_fuel)%nat ->
    tokenize_each_word this true kGetOffsets fuel words (cur_pos s)
      (outputs s) = Ok out' ->
    tokenize_words this false true kGetOffsets more_fuel input_text s
    = Ok out'.
Proof.
  intros sp word_list.
  induction word_list as [|w words IH];
    intros fuel more_fuel s out' Hne Hpos Hskip Hwords Hsp Hedge Horig Hprev
           Hfuel; [contradiction|].
  inversion Hwords as [|w' words' Hw Hrest]; subst w' words'.
  cbn [tokenize_each_word].
  destruct (TokenizeSingleWordImpl this false true kGetOffsets fuel w
              (cur_pos s) (outputs s)) as [out1|] eqn:Hsingle; cbn [bind];
    [|discriminate].
  assert (Hw_size : 0 < size w).
  { destruct Hw as [Hw _]. unfold size.
    destruct w; [contradiction | cbn [length]; lia]. }
  destruct more_fuel as [|more_fuel]; [lia|].
  cbn [tokenize_words].
  destruct words as [|w2 words].
  - (* the last word *)
    cbn [StrJoin] in Hskip, Hfuel.
    rewrite <- (app_nil_r w) in Hskip.
    assert (Hinside : cur_pos s + size w = size input_text).
    { pose proof Hskip as Hlen. apply (f_equal (@length ascii)) in Hlen.
      rewrite length_skipn, length_app in Hlen. cbn [length] in Hlen.
      unfold size in *. lia. }
    destruct (cur_pos s <? size input_text) eqn:Hlt;
      [|apply Z.ltb_ge in Hlt; lia].
    destruct (tokenize_next_word_at_a_word w [] fuel more_fuel s out1 Hpos
                Hskip Hw I Horig Hprev ltac:(lia) Hsingle)
      as [r [Hstep Hr]].
    rewrite Hstep. cbn [bind tokenize_each_word].
    intro H; inversion H; subst out'.
    destruct r as [s'|out''].
    + destruct Hr as [Hout [_ [Hpos' _]]].
      rewrite tokenize_words_at_the_end by lia.
      rewrite Hout. reflexivity.
    + destruct Hr as [_ Hout]. rewrite Hout. reflexivity.
  - (* a separator and more words follow *)
    change (StrJoin (w :: w2 :: words) [sp])
      with (w ++ sp :: StrJoin (w2 :: words) [sp]) in *.
    assert (Hinside : cur_pos s + size w < size input_text).
    { pose proof Hskip as Hlen. apply (f_equal (@length ascii)) in Hlen.
      rewrite length_skipn, length_app in Hlen. cbn [length] in Hlen.
      unfold size in *. lia. }
    destruct (cur_pos s <? size input_text) eqn:Hlt;
      [|apply Z.ltb_ge in Hlt; lia].
    rewrite length_app in Hfuel. cbn [length] in Hfuel.
    destruct (tokenize_next_word_at_a_word w
                (sp :: StrJoin (w2 :: words) [sp]) fuel more_fuel s out1 Hpos
                Hskip Hw
                (conj (or_introl (proj1 Hsp)) (fun node _ => Hedge node))
                Horig Hprev ltac:(lia) Hsingle)
      as [r [Hstep Hr]].
    rewrite Hstep. cbn [bind].
    destruct r as [s'|out'']; [|destruct Hr as [Hr _]; discriminate].
    destruct Hr as [Hout [Horig' [Hpos' Hcur]]].
    rewrite (proj1 Hsp) in Hpos'.
    assert (Hprev' : IsPunctuationOrChineseChar (cur_unicode_char s')
                     = false).
    { destruct Hcur as [Hcur|Hcur];
        [exact Hcur | rewrite Hcur; exact (proj2 Hsp)]. }
    intro H.
    apply IH with (fuel := fuel).
    + discriminate.
    + lia.
    + rewrite Hpos'.
      replace (Z.to_nat (cur_pos s + size w + 1))
        with (Z.to_nat (cur_pos s) + length (w ++ [sp]))%nat
        by (rewrite length_app; cbn [length]; unfold size; lia).
      apply skipn_past. rewrite <- app_assoc. exact Hskip.
    + exact Hrest.
    + exact Hsp.
    + exact Hedge.
    + rewrite Horig', Hout. reflexivity.
    + right. exact Hprev'.
    + lia.
    + rewrite Hpos', Hout. exact H.
Qed.

End WordByWord.

(** X17.  End-to-end mode tokenizes word by word.  On a 7-bit text of
    words with one whitespace between two words, and on a model in which
    the whitespace is no edge of the trie, the root is never entered again,
    the failure transition fails at [trie_suffix_root] and at
    [trie_punct_failure_link_node] and no list of failure pops is empty,
    what single-word mode returns for the words one after the other, each
    at its offset in the text, is what [TokenizeTextImpl] returns for the
    text, given one more unit of fuel per byte, and four more.  Ids, and
    offsets if asked for, are compared; the pieces are not in use. *)
Theorem end_to_end_mode_tokenizes_word_by_word :
  forall (utils : Utils) (icu : ICU) (this : FastWordpieceTokenizer)
         (kGetOffsets : bool) (fuel : nat) (sp : ascii) (words : list bytes)
         (out out' : Outputs),
    seven_bit_text (StrJoin words [sp]) ->
    Forall (is_word this) words ->
    space_byte sp ->
    end_to_end_model this sp ->
    tokenize_each_word this true kGetOffsets fuel words 0 out = Ok out' ->
    TokenizeTextImpl this false true kGetOffsets
      (fuel + length (StrJoin words [sp]) + 4) (StrJoin words [sp]) out
    = Ok out'.
Proof.
  intros utils icu this kO fuel sp words out out' Hseven Hwords Hsp
         [Hedge [Hroot [Hlink [Hsuffix [Hpunct Hpops]]]]] Heach.
  destruct words as [|w words].
  { cbn in *. exact Heach. }
  assert (Hne : StrJoin (w :: words) [sp] <> []).
  { inversion Hwords as [|w' words' [Hw _] _]; subst.
    destruct w; [contradiction|].
    destruct words; cbn; discriminate. }
  rewrite TokenizeTextImpl_nonempty by exact Hne.
  apply (tokenize_words_word_by_word this kO (StrJoin (w :: words) [sp])
           Hseven Hroot Hlink Hsuffix Hpunct Hpops sp (w :: words) fuel);
    cbn [cur_pos original_num_tokens outputs cur_unicode_char
         initial_text_state Z.to_nat skipn];
    try assumption; try reflexivity; try discriminate; lia.
Qed.

(** The concrete end-to-end model meets the conditions, with the space as
    the separator. *)
Lemma example_end_to_end_model :
  end_to_end_model (utils := example_utils) (example_tokenizer true) " "%char.
Proof.
  unfold end_to_end_model. repeat split.
  - intro node.
    unfold example_tokenizer, trie_, trie_of, TryTraverseOneStep, lookup_edge.
    destruct (find _ _) as [e|] eqn:Hfind; [|reflexivity].
    apply find_some in Hfind. destruct Hfind as [Hin Hcond].
    cbn in Hin.
    repeat (destruct Hin as [Hin|Hin];
            [subst e; cbn in Hcond; rewrite andb_false_r in Hcond;
             discriminate|]).
    destruct Hin.
  - intros node ch H.
    unfold example_tokenizer, trie_, trie_of, TryTraverseOneStep, lookup_edge
      in H.
    destruct (find _ _) as [e|] eqn:Hfind; [|discriminate].
    apply find_some in Hfind. destruct Hfind as [Hin _].
    cbn in Hin.
    repeat (destruct Hin as [Hin|Hin]; [subst e; discriminate|]).
    destruct Hin.
  - intros node aux H. unfold Get in H.
    destruct (node <? 0); [discriminate|].
    destruct (nth_error _ _) as [a|] eqn:Hnth; [|discriminate].
    inversion H; subst a. apply nth_error_In in Hnth.
    cbn in Hnth.
    repeat (destruct Hnth as [Hnth|Hnth]; [subst aux; discriminate|]).
    destruct Hnth.
  - exists (link 4294967295). split; reflexivity.
  - exists (link 4294967295). split; reflexivity.
  - intro x. cbn [GetFailurePopsOffsetAndLength example_utils snd].
    assert (H : 0 <= Z.land x 255) by (apply Z.land_nonneg; right; lia).
    lia.
Qed.

(** The concrete end-to-end model reads [abcz ab x]. *)
Lemma end_to_end_mode_tokenizes_word_by_word_witness :
  TokenizeTextImpl (utils := example_utils) (icu := example_icu)
    (example_tokenizer true) false true true
    (20 + length (StrJoin [bytes_of "abcz"; bytes_of "ab"; bytes_of "x"]
                    [" "%char]) + 4)
    (StrJoin [bytes_of "abcz"; bytes_of "ab"; bytes_of "x"] [" "%char])
    no_outputs
  = Ok {| output_pieces := [];
          output_ids := [0; 3; 4; 0; 2; 5];
          output_start_offsets := [0; 1; 3; 5; 6; 8];
          output_end_offsets := [1; 3; 4; 6; 7; 9] |}.
Proof.
  apply (end_to_end_mode_tokenizes_word_by_word example_utils example_icu
           (example_tokenizer true) true 20 " "%char
           [bytes_of "abcz"; bytes_of "ab"; bytes_of "x"] no_outputs).
  - intros i Hi. reflexivity.
  - repeat constructor; try discriminate; cbn; lia.
  - split; reflexivity.
  - exact example_end_to_end_model.
  - reflexivity.
Defined.

(** ** From a text to its tokens and back *)

Lemma has_prefix_itself : forall prefix t,
  has_prefix prefix (prefix ++ t) = true.
Proof.
  induction prefix as [|x prefix IH]; intro t; cbn [has_prefix app];
    [reflexivity|].
  rewrite Ascii.eqb_refl. apply IH.
Qed.

Section TextRoundTrip.

Context {utils : Utils}.
Variable this : FastWordpieceTokenizer.

Hypothesis support : support_detokenization (config_ this) = true.

Lemma detokenized_word_entries : forall new_ids w,
  DetokenizeToTokens this new_ids = Ok [w] ->
  has_prefix (suffix_indicator (config_ this)) w = false ->
  exists entries,
    lookup_tokens (config_ this) new_ids = Ok entries
    /\ spec_detokenize_to_tokens (suffix_indicator (config_ this)) entries
       = [w]
    /\ entries <> []
    /\ starts_with_suffix entries = false.
Proof.
  intros new_ids w H Hprefix.
  apply DetokenizeToTokens_entries in H. destruct H as [entries [Hl Hw]].
  exists entries. split; [exact Hl|]. split; [symmetry; exact Hw|].
  split.
  - intro Hnil. subst entries. discriminate.
  - destruct (starts_with_suffix entries) eqn:Hs; [|reflexivity].
    pose proof (detokenize_concat (suffix_indicator (config_ this)) entries)
      as Hconcat.
    rewrite <- Hw, Hs in Hconcat. cbn [concat] in Hconcat.
    rewrite app_nil_r in Hconcat.
    rewrite Hconcat, has_prefix_itself in Hprefix. discriminate.
Qed.

Lemma detokenized_words_entries : forall words news,
  Forall2 (fun w new_ids => DetokenizeToTokens this new_ids = Ok [w]) words
    news ->
  Forall (fun w => has_prefix (suffix_indicator (config_ this)) w = false)
    words ->
  exists entries,
    lookup_tokens (config_ this) (concat news) = Ok entries
    /\ spec_detokenize_to_tokens (suffix_indicator (config_ this)) entries
       = words
    /\ starts_with_suffix entries = false.
Proof.
  intros word_list news Hall.
  induction Hall as [|w new_ids word_list news Hw Hall IH]; intro Hprefix.
  - exists []. repeat split; reflexivity.
  - inversion Hprefix as [|w' l' Hpw Hprest]; subst w' l'.
    destruct (detokenized_word_entries new_ids w Hw Hpw)
      as [e1 [Hl1 [Hd1 [Hne Hs1]]]].
    destruct (IH Hprest) as [er [Hlr [Hdr Hsr]]].
    exists (e1 ++ er). cbn [concat]. split; [|split].
    + apply lookup_tokens_app; assumption.
    + rewrite detokenize_app by exact Hsr. rewrite Hd1, Hdr. reflexivity.
    + destruct e1 as [|[v s] e1]; [contradiction | exact Hs1].
Qed.

Lemma tokenize_each_word_round_trips : forall kGetOffsets fuel words,
  Forall (word_round_trips this kGetOffsets fuel) words ->
  forall offset out,
    exists out' news,
      tokenize_each_word this true kGetOffsets fuel words offset out = Ok out'
      /\ output_ids out' = output_ids out ++ concat news
      /\ Forall2 (fun w new_ids => DetokenizeToTokens this new_ids = Ok [w])
           words news.
Proof.
  intros kO fuel word_list Hall.
  induction Hall as [|w word_list Hw Hall IH]; intros offset out.
  - exists out, []. cbn [tokenize_each_word concat].
    rewrite app_nil_r. repeat split; constructor.
  - destruct (Hw offset out) as [out1 [new_ids [Hrun [Hids Hdetok]]]].
    destruct (IH (offset + size w + 1) out1) as [out' [news [Hruns [Hids'
      Hdetoks]]]].
    exists out', (new_ids :: news).
    cbn [tokenize_each_word concat]. rewrite Hrun. cbn [bind].
    split; [exact Hruns|]. split.
    + rewrite Hids', Hids, <- app_assoc. reflexivity.
    + constructor; assumption.
Qed.

End TextRoundTrip.

(** X18.  The round trip through the detokenizer lifts from words to texts.
    On a 7-bit text of words with one space between two words, on a model
    with [support_detokenization] that meets the conditions of X17, if
    single-word mode turns each of the words into ids that detokenize to
    the word, and no word begins with the suffix indicator, then
    [TokenizeTextImpl] returns ids for the text, and [Detokenize] turns the
    ids that were appended back into the text. *)
Theorem detokenize_tokenized_text :
  forall (utils : Utils) (icu : ICU) (this : FastWordpieceTokenizer)
         (kGetOffsets : bool) (fuel : nat) (words : list bytes)
         (out : Outputs),
    support_detokenization (config_ this) = true ->
    seven_bit_text (StrJoin words (bytes_of " ")) ->
    Forall (is_word this) words ->
    space_byte " "%char ->
    end_to_end_model this " "%char ->
    Forall (word_round_trips this kGetOffsets fuel) words ->
    Forall (fun w => has_prefix (suffix_indicator (config_ this)) w = false)
      words ->
    exists out',
      TokenizeTextImpl this false true kGetOffsets
        (fuel + length (StrJoin words (bytes_of " ")) + 4)
        (StrJoin words (bytes_of " ")) out = Ok out'
      /\ Detokenize this (skipn (length (output_ids out)) (output_ids out'))
         = Ok (StrJoin words (bytes_of " ")).
Proof.
  intros utils icu this kO fuel word_list out Hsupport Hseven Hwords Hsp
         [Hedge [Hroot [Hlink [Hsuffix [Hpunct Hpops]]]]] Htrips Hprefix.
  change (bytes_of " ") with [" "%char] in *.
  destruct (tokenize_each_word_round_trips this kO fuel word_list Htrips 0 out)
    as [out' [news [Hrun [Hids Hdetoks]]]].
  exists out'. split.
  - destruct word_list as [|w word_list].
    { cbn in *. exact Hrun. }
    assert (Hne : StrJoin (w :: word_list) [" "%char] <> []).
    { inversion Hwords as [|w' l' [Hw _] _]; subst.
      destruct w; [contradiction|].
      destruct word_list; cbn; discriminate. }
    rewrite TokenizeTextImpl_nonempty by exact Hne.
    apply (tokenize_words_word_by_word this kO
             (StrJoin (w :: word_list) [" "%char]) Hseven Hroot Hlink
             Hsuffix Hpunct Hpops " "%char (w :: word_list) fuel);
      cbn [cur_pos original_num_tokens outputs cur_unicode_char
           initial_text_state Z.to_nat skipn];
      try assumption; try reflexivity; try discriminate; lia.
  - rewrite Hids, skipn_exact.
    destruct (detokenized_words_entries this word_list news Hdetoks Hprefix)
      as [entries [Hlookup [Hspelled _]]].
    unfold Detokenize.
    rewrite DetokenizeToTokens_rule by exact Hsupport.
    rewrite Hlookup. cbn [bind]. rewrite Hspelled. reflexivity.
Qed.

(** The concrete end-to-end model reads [abcz ab]; both words are in its
    vocabulary. *)
Lemma detokenize_tokenized_text_witness :
  exists out',
    TokenizeTextImpl (utils := example_utils) (icu := example_icu)
      (example_tokenizer true) false true true
      (20 + length (StrJoin [bytes_of "abcz"; bytes_of "ab"] (bytes_of " "))
       + 4)
      (StrJoin [bytes_of "abcz"; bytes_of "ab"] (bytes_of " ")) no_outputs
    = Ok out'
    /\ Detokenize (example_tokenizer true)
         (skipn (length (output_ids no_outputs)) (output_ids out'))
       = Ok (StrJoin [bytes_of "abcz"; bytes_of "ab"] (bytes_of " ")).
Proof.
  apply (detokenize_tokenized_text example_utils example_icu
           (example_tokenizer true) true 20
           [bytes_of "abcz"; bytes_of "ab"] no_outputs).
  - reflexivity.
  - intros i Hi. reflexivity.
  - repeat constructor; try discriminate; cbn; lia.
  - split; reflexivity.
  - exact example_end_to_end_model.
  - repeat constructor.
    + intros offset [ps ids ss es]. eexists. exists [0; 3; 4].
      split; [reflexivity|]. split; [|reflexivity].
      cbn. rewrite <- !app_assoc. reflexivity.
    + intros offset [ps ids ss es]. eexists. exists [0; 2].
      split; [reflexivity|]. split; [|reflexivity].
      cbn. rewrite <- !app_assoc. reflexivity.
  - repeat constructor.
Defined.

(** ** End-to-end mode splits the text and tokenizes the words *)


Lemma follow_failure_links_at_an_edge :
  forall (utils : Utils) this kGetPieces kGetIds kGetOffsets fuel
         (try_traverse : Z -> option Z) input_word woff cur node out next,
    try_traverse node = Some next ->
    follow_failure_links this kGetPieces kGetIds kGetOffsets fuel try_traverse
      input_word woff cur node out
    = Ok (true, (cur, next, out)).
Proof.
  intros utils this kP kI kO fuel f word woff cur node out next Hstep.
  destruct fuel; cbn [follow_failure_links]; rewrite Hstep; reflexivity.
Qed.

Section SplitText.

Context {utils : Utils} {icu : ICU}.
Variable this : FastWordpieceTokenizer.
Variable kGetOffsets : bool.
Variable input_text : bytes.

Hypothesis seven_bit : seven_bit_text input_text.
Hypothesis no_edge_to_root : forall node ch,
  TryTraverseOneStep (trie_ this) node ch <> Some (kRootNodeId (trie_ this)).
Hypothesis no_link_to_root : forall node node_aux,
  Get (failure_struct_array (config_ this)) node = Ok node_aux ->
  failure_link node_aux <> kRootNodeId (trie_ this).
Hypothesis root_is_dead_end : dead_end this (kRootNodeId (trie_ this)).
Hypothesis suffix_root_is_dead_end :
  dead_end this (trie_suffix_root (config_ this)).
Hypothesis punct_node_is_dead_end :
  dead_end this (trie_punct_failure_link_node (config_ this)).
Hypothesis punct_node_has_no_edge : forall ch,
  TryTraverseOneStep (trie_ this)
    (trie_punct_failure_link_node (config_ this)) ch = None.
Hypothesis pops_are_not_empty :
  forall x, 0 < snd (GetFailurePopsOffsetAndLength x).



(** One iteration of the outer loop at a whitespace moves past it. *)
Lemma tokenize_next_word_at_a_whitespace : forall sp tail fuel s,
  0 <= cur_pos s ->
  skipn (Z.to_nat (cur_pos s)) input_text = sp :: tail ->
  u_isUWhiteSpace (code_of sp) = true ->
  TryTraverseOneStep (trie_ this) (kRootNodeId (trie_ this)) sp = None ->
  tokenize_next_word this false true kGetOffsets (S (S fuel)) input_text s
  = Ok (inl {| cur_pos := cur_pos s + 1;
               next_pos := cur_pos s + 1;
               prev_unicode_char := cur_unicode_char s;
               cur_unicode_char := code_of sp;
               original_num_tokens := original_num_tokens s;
               outputs := outputs s |}).
Proof.
  intros sp tail fuel s Hpos Hskip Hws Hstep.
  destruct (decode_byte input_text seven_bit (cur_pos s) sp tail Hpos Hskip)
    as [Hlt [Hdecode Hsub]].
  unfold tokenize_next_word, match_next_word.
  cbn [trie_match_loop].
  destruct (cur_pos s <? size input_text) eqn:Hltb;
    [|apply Z.ltb_ge in Hltb; lia].
  rewrite Hdecode.
  assert (Hexit :
            forall m,
              exit_pos m = cur_pos s -> exit_next_pos m = cur_pos s + 1 ->
              exit_prev_unicode_char m = cur_unicode_char s ->
              exit_cur_unicode_char m = code_of sp ->
              exit_node m = kRootNodeId (trie_ this) ->
              exit_outputs m = outputs s ->
              (if exit_pos m >=? size input_text
               then '(_, _, _, out) <-
                      HandleTheRemainingStringOnTriePath this false true
                        kGetOffsets (S (S fuel))
                        (skipn (Z.to_nat (cur_pos s)) input_text) (cur_pos s)
                        (exit_node m) (original_num_tokens s)
                        (exit_offset_in_input_word m) (exit_outputs m) ;;
                    Ok (inr out)
               else if at_word_boundary m
                    then s' <- flush_word_at_boundary this false true
                                 kGetOffsets (S (S fuel)) input_text s m ;;
                         Ok (inl s')
                    else s' <- map_word_to_unknown this false true
                                 kGetOffsets (S (S fuel)) input_text s m ;;
                         Ok (inl s'))
              = Ok (inl {| cur_pos := cur_pos s + 1;
                           next_pos := cur_pos s + 1;
                           prev_unicode_char := cur_unicode_char s;
                           cur_unicode_char := code_of sp;
                           original_num_tokens := original_num_tokens s;
                           outputs := outputs s |})).
  { intros m E1 E2 E3 E4 E5 E6.
    rewrite E1.
    destruct (cur_pos s >=? size input_text) eqn:Hge;
      [apply Z.geb_le in Hge; lia|].
    unfold at_word_boundary. rewrite E4, Hws. cbn [orb].
    unfold flush_word_at_boundary, HandleTheRemainingStringOnTriePath.
    rewrite E5, Z.eqb_refl. cbn [bind]. rewrite E4, Hws, E2, E3, E6.
    reflexivity. }
  destruct (0 + (cur_pos s + 1) - cur_pos s
            >? max_bytes_per_token (config_ this)).
  { cbn [bind]. apply Hexit; reflexivity. }
  cbn [follow_failure_links]. rewrite Hsub, one_step_traversal, Hstep.
  rewrite (dead_end_fails this kGetOffsets false true _ _ _ _ _
             root_is_dead_end).
  cbn [bind]. apply Hexit; reflexivity.
Qed.

Section Punctuation.

Variable pc : ascii.
Variables node encoded_token_value : Z.
Variable node_aux : FailureStruct.

Hypothesis edge_from_root :
  TryTraverseOneStep (trie_ this) (kRootNodeId (trie_ this)) pc = Some node.
Hypothesis node_has_no_edge :
  forall ch, TryTraverseOneStep (trie_ this) node ch = None.
Hypothesis node_has_token :
  TryGetData (trie_ this) node = Some encoded_token_value.
Hypothesis node_has_aux :
  Get (failure_struct_array (config_ this)) node = Ok node_aux.
Hypothesis link_to_punct_node :
  failure_link node_aux = trie_punct_failure_link_node (config_ this).

(** The failure transition at the node of a punctuation character emits its
    token and leads to [trie_punct_failure_link_node]. *)
Lemma punctuation_failure_link : forall word woff cur out,
  TryFollowFailureLinkAndCollectTokens this false true kGetOffsets word woff
    cur node out
  = Ok (true,
        (fst (AppendTokenToOutput this false true kGetOffsets [pc] woff cur
                encoded_token_value out),
         trie_punct_failure_link_node (config_ this),
         snd (AppendTokenToOutput this false true kGetOffsets [pc] woff cur
                encoded_token_value out))).
Proof.
  intros word woff cur out.
  unfold TryFollowFailureLinkAndCollectTokens.
  rewrite node_has_token.
  rewrite (AppendTokenToOutput_without_pieces this true kGetOffsets word
             [pc]).
  destruct (AppendTokenToOutput this false true kGetOffsets [pc] woff cur
              encoded_token_value out) as [c o].
  rewrite node_has_aux. cbn [bind fst snd]. rewrite link_to_punct_node.
  reflexivity.
Qed.

Lemma punctuation_node_is_no_dead_end : forall n,
  dead_end this n -> node <> n.
Proof.
  intros n [Hdata _] Heq. subst n. rewrite node_has_token in Hdata.
  discriminate.
Qed.

(** What is left on the trie path at the node of a punctuation character is
    its token. *)
Lemma HandleTheRemainingStringOnTriePath_at_punctuation :
  forall fuel word woff original cur out,
    HandleTheRemainingStringOnTriePath this false true kGetOffsets (S fuel)
      word woff node original cur out
    = Ok (GetCurrentOutputSize false
            (snd (AppendTokenToOutput this false true kGetOffsets [pc] woff
                    cur encoded_token_value out)),
          fst (AppendTokenToOutput this false true kGetOffsets [pc] woff cur
                 encoded_token_value out),
          trie_punct_failure_link_node (config_ this),
          snd (AppendTokenToOutput this false true kGetOffsets [pc] woff cur
                 encoded_token_value out)).
Proof.
  intros fuel word woff orig cur out.
  assert (Hroot : node <> kRootNodeId (trie_ this)).
  { intro Heq. apply (no_edge_to_root (kRootNodeId (trie_ this)) pc).
    rewrite edge_from_root, Heq. reflexivity. }
  pose proof (punctuation_node_is_no_dead_end _ suffix_root_is_dead_end)
    as Hsuffix.
  pose proof (punctuation_node_is_no_dead_end _ punct_node_is_dead_end)
    as Hpunct.
  unfold HandleTheRemainingStringOnTriePath,
    TryHandleTheInputWordBeingSuffixIndicatorItself.
  apply Z.eqb_neq in Hroot, Hsuffix, Hpunct.
  rewrite Hroot, Hsuffix. cbn [negb].
  cbn [collect_remaining_tokens]. rewrite Hsuffix, Hpunct. cbn [negb andb].
  rewrite punctuation_failure_link. cbn [bind].
  destruct fuel; cbn [collect_remaining_tokens]; rewrite Z.eqb_refl;
    cbn [negb]; rewrite andb_false_r; reflexivity.
Qed.

(** One iteration of the outer loop at a punctuation character does what
    single-word mode does on the character at its offset, and moves past a
    whitespace that follows it. *)
Lemma tokenize_next_word_at_a_punctuation :
  forall tail fuel more_fuel s out1,
    0 <= cur_pos s ->
    skipn (Z.to_nat (cur_pos s)) input_text = pc :: tail ->
    IsPunctuationOrChineseChar (code_of pc) = true ->
    1 <= max_bytes_per_token (config_ this) ->
    original_num_tokens s = GetCurrentOutputSize false (outputs s) ->
    (fuel + 3 < more_fuel)%nat ->
    TokenizeSingleWordImpl this false true kGetOffsets fuel [pc] (cur_pos s)
      (outputs s) = Ok out1 ->
    exists r,
      tokenize_next_word this false true kGetOffsets more_fuel input_text s
      = Ok r
      /\ match r with
         | inr out' => tail = [] /\ out' = out1
         | inl s' =>
             outputs s' = out1
             /\ original_num_tokens s' = GetCurrentOutputSize false out1
             /\ cur_pos s'
                = cur_pos s + 1
                  + match tail with
                    | [] => 0
                    | ch :: _ =>
                        if u_isUWhiteSpace (code_of ch) then 1 else 0
                    end
             /\ match tail with
                | [] => False
                | ch :: _ => cur_unicode_char s' = code_of ch
                end
         end.
Proof.
  intros tail fuel F [p next0 prev0 cur_char0 orig out] out1.
  cbn [cur_pos next_pos prev_unicode_char cur_unicode_char
       original_num_tokens outputs].
  intros Hp Hskip Hpunct Hmax Horig Hfuel.
  subst orig.
  rewrite TokenizeSingleWordImpl_nonempty by discriminate.
  change (size [pc]) with 1.
  destruct (1 >? max_bytes_per_token (config_ this)) eqn:Hgt;
    [apply Z.gtb_lt in Hgt; lia|].
  cbn [match_word].
  rewrite follow_failure_links_at_an_edge with (next := node)
    by exact edge_from_root.
  cbn [bind match_word].
  destruct fuel as [|fuel].
  { unfold HandleTheRemainingStringOnTriePath,
      TryHandleTheInputWordBeingSuffixIndicatorItself.
    assert (Hroot : node <> kRootNodeId (trie_ this)).
    { intro Heq. apply (no_edge_to_root (kRootNodeId (trie_ this)) pc).
      rewrite edge_from_root, Heq. reflexivity. }
    pose proof (punctuation_node_is_no_dead_end _ suffix_root_is_dead_end)
      as Hsuffix.
    pose proof (punctuation_node_is_no_dead_end _ punct_node_is_dead_end)
      as Hnp.
    apply Z.eqb_neq in Hroot, Hsuffix, Hnp.
    rewrite Hroot, Hsuffix. cbn [negb collect_remaining_tokens].
    rewrite Hsuffix, Hnp. cbn [negb andb bind]. discriminate. }
  rewrite HandleTheRemainingStringOnTriePath_at_punctuation. cbn [bind].
  intro H; inversion H; clear H.
  destruct (AppendTokenToOutput this false true kGetOffsets [pc] p 0
              encoded_token_value out) as [c1 o1] eqn:Happend.
  cbn [fst snd] in *. subst out1.
  assert (Hmore : GetCurrentOutputSize false o1
                  = GetCurrentOutputSize false out + 1).
  { pose proof (AppendTokenToOutput_one_more this kGetOffsets [pc] p 0
                  encoded_token_value out) as Hone.
    rewrite Happend in Hone. exact Hone. }
  destruct (decode_byte input_text seven_bit p pc tail Hp Hskip)
    as [Hlt [Hdecode Hsub]].
  unfold tokenize_next_word, match_next_word.
  cbn [cur_pos next_pos prev_unicode_char cur_unicode_char
       original_num_tokens outputs].
  destruct F as [|F]; [lia|].
  cbn [trie_match_loop].
  destruct (p <? size input_text) eqn:Hltb; [|apply Z.ltb_ge in Hltb; lia].
  rewrite Hdecode.
  destruct (0 + (p + 1) - p >? max_bytes_per_token (config_ this)) eqn:Hgt1;
    [apply Z.gtb_lt in Hgt1; lia|].
  rewrite Hsub.
  rewrite follow_failure_links_at_an_edge with (next := node)
    by (rewrite one_step_traversal; exact edge_from_root).
  cbn [bind].
  destruct tail as [|ch tail].
  - (* the character ends the text *)
    assert (Hend : size input_text = p + 1).
    { pose proof Hskip as Hlen. apply (f_equal (@length ascii)) in Hlen.
      rewrite length_skipn in Hlen. cbn [length] in Hlen.
      unfold size in *. lia. }
    rewrite trie_match_loop_at_the_end by lia.
    cbn [bind exit_pos exit_node exit_offset_in_input_word exit_outputs].
    destruct (p + 1 >=? size input_text) eqn:Hge;
      [|rewrite Z.geb_leb, Z.leb_gt in Hge; lia].
    rewrite HandleTheRemainingStringOnTriePath_at_punctuation.
    rewrite Happend. cbn [bind snd].
    eexists. split; [reflexivity|]. split; reflexivity.
  - (* a character follows *)
    assert (Hnext : skipn (Z.to_nat (p + 1)) input_text = ch :: tail).
    { replace (Z.to_nat (p + 1)) with (S (Z.to_nat p)) by lia.
      eapply skipn_tail. exact Hskip. }
    destruct (decode_byte input_text seven_bit (p + 1) ch tail ltac:(lia)
                Hnext) as [Hlt2 [Hdecode2 Hsub2]].
    assert (Hword_again :
              firstn (Z.to_nat (p + 1 - p)) (skipn (Z.to_nat p) input_text)
              = [pc]).
    { replace (Z.to_nat (p + 1 - p)) with 1%nat by lia.
      rewrite Hskip. reflexivity. }
    assert (Hboundary :
              forall m,
                exit_pos m = p + 1 ->
                exit_prev_unicode_char m = code_of pc ->
                at_word_boundary m = true).
    { intros m E1 E2. unfold at_word_boundary. rewrite E1, E2, Hpunct.
      destruct (p + 1 =? 0) eqn:Hz; [apply Z.eqb_eq in Hz; lia|].
      cbn [negb andb]. apply orb_true_r. }
    destruct F as [|[|[|F]]]; try lia.
    cbn [trie_match_loop].
    destruct (p + 1 <? size input_text) eqn:Hltb2;
      [|apply Z.ltb_ge in Hltb2; lia].
    rewrite Hdecode2.
    destruct (0 + (p + 1 - p) + (p + 1 + 1) - (p + 1)
              >? max_bytes_per_token (config_ this)).
    + (* the character is past the length limit *)
      cbn [bind exit_pos].
      destruct (p + 1 >=? size input_text) eqn:Hge;
        [apply Z.geb_le in Hge; lia|].
      rewrite Hboundary by reflexivity.
      unfold flush_word_at_boundary.
      cbn [cur_pos original_num_tokens exit_pos exit_next_pos exit_node
           exit_offset_in_input_word exit_outputs exit_cur_unicode_char
           exit_prev_unicode_char].
      rewrite Hword_again.
      rewrite HandleTheRemainingStringOnTriePath_at_punctuation.
      rewrite Happend. cbn [bind fst snd].
      eexists. split; [reflexivity|].
      cbn [outputs original_num_tokens cur_pos cur_unicode_char].
      repeat split.
      destruct (u_isUWhiteSpace (code_of ch)); lia.
    + (* the failure links are followed at the character *)
      rewrite Hsub2. cbn [follow_failure_links].
      rewrite one_step_traversal, node_has_no_edge.
      rewrite punctuation_failure_link, Happend.
      cbn [bind fst snd follow_failure_links].
      rewrite one_step_traversal, punct_node_has_no_edge.
      rewrite (dead_end_fails this kGetOffsets false true _ _ _ _ _
                 punct_node_is_dead_end).
      cbn [bind exit_pos].
      destruct (p + 1 >=? size input_text) eqn:Hge;
        [apply Z.geb_le in Hge; lia|].
      rewrite Hboundary by reflexivity.
      unfold flush_word_at_boundary.
      cbn [cur_pos original_num_tokens exit_pos exit_next_pos exit_node
           exit_offset_in_input_word exit_outputs exit_cur_unicode_char
           exit_prev_unicode_char].
      rewrite Hword_again.
      rewrite (HandleTheRemainingStringOnTriePath_at_dead_end this
                 kGetOffsets).
      * cbn [bind].
        eexists. split; [reflexivity|].
        cbn [outputs original_num_tokens cur_pos cur_unicode_char].
        repeat split.
        destruct (u_isUWhiteSpace (code_of ch)); lia.
      * rewrite <- link_to_punct_node.
        apply (no_link_to_root node). exact node_has_aux.
      * rewrite Z.eqb_refl. cbn [negb]. apply andb_false_r.
      * intros [_ Heq]. lia.
Qed.

End Punctuation.

(** A text begins with the bytes of a word, which are followed by a
    whitespace, by a punctuation character or by the end of the text. *)
Lemma word_then_boundary : forall rest : bytes,
  exists w tail,
    rest = w ++ tail
    /\ Forall word_byte w
    /\ match tail with
       | [] => True
       | ch :: _ =>
           u_isUWhiteSpace (code_of ch) = true
           \/ IsPunctuationOrChineseChar (code_of ch) = true
       end.
Proof.
  induction rest as [|ch rest [w [tail [Hrest [Hword Htail]]]]].
  - exists [], []. repeat split. constructor.
  - destruct (u_isUWhiteSpace (code_of ch)) eqn:Hws.
    { exists [], (ch :: rest). repeat split; [constructor | left; exact Hws]. }
    destruct (IsPunctuationOrChineseChar (code_of ch)) eqn:Hp.
    { exists [], (ch :: rest). repeat split; [constructor | right; exact Hp]. }
    exists (ch :: w), tail. subst rest. repeat split; [|exact Htail].
    constructor; [split; assumption | exact Hword].
Qed.

Lemma words_of_text_along_a_word : forall w tail offset word,
  Forall word_byte w ->
  words_of_text (w ++ tail) offset word
  = words_of_text tail (offset + size w) (word ++ w).
Proof.
  induction w as [|ch w IH]; intros tail offset word Hword.
  - change (size (@nil ascii)) with 0.
    rewrite Z.add_0_r, app_nil_r. reflexivity.
  - inversion Hword as [|ch' w' [Hws Hp] Hrest]; subst ch' w'.
    cbn [app words_of_text]. rewrite Hws, Hp.
    rewrite IH by exact Hrest.
    rewrite <- app_assoc.
    replace (offset + 1 + size w) with (offset + size (ch :: w))
      by (unfold size; cbn [length]; lia).
    reflexivity.
Qed.

Lemma words_of_text_at_a_boundary : forall tail offset word,
  match tail with
  | [] => True
  | ch :: _ =>
      u_isUWhiteSpace (code_of ch) = true
      \/ IsPunctuationOrChineseChar (code_of ch) = true
  end ->
  words_of_text tail offset word
  = pending_word offset word ++ words_of_text tail offset [].
Proof.
  intros [|ch tail] offset word Htail; cbn [words_of_text pending_word app].
  - rewrite app_nil_r. reflexivity.
  - destruct (u_isUWhiteSpace (code_of ch)); [reflexivity|].
    destruct Htail as [Hws|Hp]; [discriminate|].
    rewrite Hp. reflexivity.
Qed.

Lemma words_of_text_at_a_word : forall w tail offset,
  w <> [] ->
  Forall word_byte w ->
  match tail with
  | [] => True
  | ch :: _ =>
      u_isUWhiteSpace (code_of ch) = true
      \/ IsPunctuationOrChineseChar (code_of ch) = true
  end ->
  words_of_text (w ++ tail) offset []
  = (offset, w) :: words_of_text tail (offset + size w) [].
Proof.
  intros w tail offset Hne Hword Htail.
  rewrite words_of_text_along_a_word by exact Hword.
  rewrite words_of_text_at_a_boundary by exact Htail.
  cbn [app]. unfold pending_word.
  destruct w as [|ch w]; [contradiction|].
  replace (offset + size (ch :: w) - size (ch :: w)) with offset by lia.
  reflexivity.
Qed.

Lemma skipn_In : forall (A : Type) (n : nat) (l : list A) x rest,
  skipn n l = x :: rest -> In x l.
Proof.
  intros A n l x rest H.
  rewrite <- (firstn_skipn n l), H. apply in_or_app. right. left.
  reflexivity.
Qed.

Hypothesis whitespace_is_apart : forall ch,
  In ch input_text -> u_isUWhiteSpace (code_of ch) = true ->
  IsPunctuationOrChineseChar (code_of ch) = false
  /\ forall node, TryTraverseOneStep (trie_ this) node ch = None.
Hypothesis punctuation_has_nodes : forall ch,
  In ch input_text -> punct_byte ch -> punctuation_node this ch.

(** The outer loop from the start of a word, from a whitespace or from a
    punctuation character on. *)
Lemma tokenize_words_splits_the_text :
  forall n rest fuel more_fuel s out',
    (length rest <= n)%nat ->
    0 <= cur_pos s ->
    skipn (Z.to_nat (cur_pos s)) input_text = rest ->
    original_num_tokens s = GetCurrentOutputSize false (outputs s) ->
    cur_pos s = 0
    \/ IsPunctuationOrChineseChar (cur_unicode_char s) = false
    \/ match rest with
       | [] => True
       | ch :: _ =>
           u_isUWhiteSpace (code_of ch) = true
           \/ IsPunctuationOrChineseChar (code_of ch) = true
       end ->
    (fuel + length rest + 3 < more_fuel)%nat ->
    Forall (fun w => size (snd w) <= max_bytes_per_token (config_ this))
      (words_of_text rest (cur_pos s) []) ->
    tokenize_words_at this true kGetOffsets fuel
      (words_of_text rest (cur_pos s) []) (outputs s) = Ok out' ->
    tokenize_words this false true kGetOffsets more_fuel input_text s
    = Ok out'.
Proof.
  induction n as [|n IH];
    intros rest fuel more_fuel s out' Hn Hpos Hskip Horig Hprev Hfuel Hmax.
  { destruct rest; [|cbn [length] in Hn; lia].
    rewrite tokenize_words_at_the_end.
    - cbn. intro H; exact H.
    - apply (f_equal (@length ascii)) in Hskip.
      rewrite length_skipn in Hskip. cbn [length] in Hskip.
      unfold size. lia. }
  destruct rest as [|ch rest].
  { rewrite tokenize_words_at_the_end.
    - cbn. intro H; exact H.
    - apply (f_equal (@length ascii)) in Hskip.
      rewrite length_skipn in Hskip. cbn [length] in Hskip.
      unfold size. lia. }
  assert (Hlt : cur_pos s < size input_text).
  { apply skipn_some_left in Hskip. unfold size. lia. }
  destruct more_fuel as [|more_fuel]; [lia|].
  cbn [tokenize_words].
  destruct (cur_pos s <? size input_text) eqn:Hltb;
    [|apply Z.ltb_ge in Hltb; lia].
  cbn [length] in Hn, Hfuel.
  destruct (u_isUWhiteSpace (code_of ch)) eqn:Hws.
  - (* a whitespace *)
    destruct (whitespace_is_apart ch (skipn_In _ _ _ _ _ Hskip) Hws)
      as [Hno_punct Hno_edge].
    cbn [words_of_text pending_word app] in *. rewrite Hws in *.
    destruct more_fuel as [|[|more_fuel]]; [lia|lia|].
    rewrite (tokenize_next_word_at_a_whitespace ch rest more_fuel s Hpos
               Hskip Hws (Hno_edge _)).
    cbn [bind]. intro H.
    apply (IH rest fuel); cbn [cur_pos original_num_tokens outputs
                               cur_unicode_char];
      try assumption; try lia.
    + replace (Z.to_nat (cur_pos s + 1)) with (S (Z.to_nat (cur_pos s)))
        by lia.
      eapply skipn_tail. exact Hskip.
    + right. left. exact Hno_punct.
  - destruct (IsPunctuationOrChineseChar (code_of ch)) eqn:Hp.
    + (* a punctuation character *)
      destruct (punctuation_has_nodes ch (skipn_In _ _ _ _ _ Hskip)
                  (conj Hws Hp))
        as [_ [node [e [aux [Hedge [Hleaf [Hdata [Haux Hlink]]]]]]]].
      cbn [words_of_text pending_word app] in *. rewrite Hws, Hp in *.
      inversion Hmax as [|w ws Hone Hmax']; subst w ws.
      cbn [snd] in Hone. change (size [ch]) with 1 in Hone.
      cbn [tokenize_words_at].
      destruct (TokenizeSingleWordImpl this false true kGetOffsets fuel [ch]
                  (cur_pos s) (outputs s)) as [out1|] eqn:Hsingle;
        cbn [bind]; [|discriminate].
      destruct (tokenize_next_word_at_a_punctuation ch node e aux Hedge Hleaf
                  Hdata Haux Hlink rest fuel more_fuel s out1 Hpos Hskip Hp
                  Hone Horig ltac:(lia) Hsingle) as [r [Hstep Hr]].
      rewrite Hstep. cbn [bind].
      destruct r as [s'|out''].
      * destruct Hr as [Hout [Horig' [Hpos' Hcur]]].
        destruct rest as [|ch2 rest]; [contradiction|].
        assert (Hskip' : skipn (Z.to_nat (cur_pos s + 1)) input_text
                         = ch2 :: rest).
        { replace (Z.to_nat (cur_pos s + 1))
            with (S (Z.to_nat (cur_pos s))) by lia.
          eapply skipn_tail. exact Hskip. }
        cbn [length] in Hn, Hfuel.
        destruct (u_isUWhiteSpace (code_of ch2)) eqn:Hws2.
        -- destruct (whitespace_is_apart ch2 (skipn_In _ _ _ _ _ Hskip') Hws2)
             as [Hno_punct _].
           cbn [words_of_text pending_word app] in *. rewrite Hws2 in *.
           intro H.
           apply (IH rest fuel); try lia.
           ++ rewrite Hpos'.
              replace (Z.to_nat (cur_pos s + 1 + 1))
                with (S (Z.to_nat (cur_pos s + 1))) by lia.
              eapply skipn_tail. exact Hskip'.
           ++ rewrite Horig', Hout. reflexivity.
           ++ right. left. rewrite Hcur. exact Hno_punct.
           ++ rewrite Hpos'. exact Hmax'.
           ++ rewrite Hpos', Hout. exact H.
        -- rewrite Z.add_0_r in Hpos'.
           intro H.
           apply (IH (ch2 :: rest) fuel); cbn [length]; try lia.
           ++ rewrite Hpos'. exact Hskip'.
           ++ rewrite Horig', Hout. reflexivity.
           ++ rewrite Hcur.
              destruct (IsPunctuationOrChineseChar (code_of ch2)) eqn:Hp2.
              ** right. right. right. reflexivity.
              ** right. left. reflexivity.
           ++ rewrite Hpos'. exact Hmax'.
           ++ rewrite Hpos', Hout. exact H.
      * destruct Hr as [Hnil Hout]. subst rest out''.
        cbn [words_of_text pending_word tokenize_words_at].
        intro H; exact H.
    + (* a word *)
      destruct (word_then_boundary (ch :: rest))
        as [w [tail [Hrest [Hword Htail]]]].
      assert (Hne : w <> []).
      { intro Hnil. subst w. cbn [app] in Hrest. subst tail.
        destruct Htail as [H|H]; congruence. }
      assert (Hlen : (length (ch :: rest) = length w + length tail)%nat).
      { rewrite Hrest. apply length_app. }
      assert (Hw_len : (0 < length w)%nat).
      { destruct w; [contradiction | cbn [length]; lia]. }
      pose proof (size_nonneg _ w) as Hw_nonneg.
      cbn [length] in Hlen.
      rewrite Hrest in *. clear Hrest.
      rewrite (words_of_text_at_a_word w tail (cur_pos s) Hne Hword Htail)
        in *.
      inversion Hmax as [|w0 ws Hsize Hmax']; subst w0 ws.
      cbn [snd] in Hsize.
      cbn [tokenize_words_at].
      destruct (TokenizeSingleWordImpl this false true kGetOffsets fuel w
                  (cur_pos s) (outputs s)) as [out1|] eqn:Hsingle;
        cbn [bind]; [|discriminate].
      assert (Hprev' : cur_pos s = 0
                       \/ IsPunctuationOrChineseChar (cur_unicode_char s)
                          = false).
      { destruct Hprev as [H|[H|H]]; [left; exact H | right; exact H|].
        destruct w as [|ch0 w]; [contradiction|].
        inversion Hword as [|ch' w' [Hws0 Hp0] _]; subst ch' w'.
        cbn [app] in H. destruct H as [H|H]; congruence. }
      assert (Htail' :
                match tail with
                | [] => True
                | ch2 :: _ =>
                    (u_isUWhiteSpace (code_of ch2) = true
                     \/ IsPunctuationOrChineseChar (code_of ch2) = true)
                    /\ forall node, node <> kRootNodeId (trie_ this) ->
                         TryTraverseOneStep (trie_ this) node ch2 = None
                end).
      { destruct tail as [|ch2 tail]; [exact I|].
        split; [exact Htail|].
        assert (Hin : In ch2 input_text).
        { apply (skipn_In _ (Z.to_nat (cur_pos s) + length w) _ _ tail).
          apply skipn_past. exact Hskip. }
        destruct (u_isUWhiteSpace (code_of ch2)) eqn:Hws2.
        - intros node _. apply (whitespace_is_apart ch2 Hin Hws2).
        - destruct Htail as [H|Hp2]; [discriminate|].
          apply (punctuation_has_nodes ch2 Hin (conj Hws2 Hp2)). }
      destruct (tokenize_next_word_at_a_word this kGetOffsets input_text
                  seven_bit no_edge_to_root no_link_to_root
                  suffix_root_is_dead_end punct_node_is_dead_end
                  pops_are_not_empty w tail fuel more_fuel s out1
                  Hpos Hskip (conj Hne (conj Hsize Hword)) Htail' Horig
                  Hprev' ltac:(lia) Hsingle) as [r [Hstep Hr]].
      rewrite Hstep. cbn [bind].
      destruct r as [s'|out''].
      * destruct Hr as [Hout [Horig' [Hpos' Hcur]]].
        destruct tail as [|ch2 tail].
        -- rewrite Z.add_0_r in Hpos'.
           cbn [words_of_text pending_word tokenize_words_at].
           intro H; inversion H; subst out'.
           rewrite tokenize_words_at_the_end; [rewrite Hout; reflexivity|].
           apply (f_equal (@length ascii)) in Hskip.
           rewrite length_skipn, length_app in Hskip.
           cbn [length] in Hskip. unfold size in *. lia.
        -- assert (Hskip' :
                     skipn (Z.to_nat (cur_pos s + size w)) input_text
                     = ch2 :: tail).
           { replace (Z.to_nat (cur_pos s + size w))
               with (Z.to_nat (cur_pos s) + length w)%nat
               by (unfold size; lia).
             apply skipn_past. exact Hskip. }
           cbn [length] in Hlen.
           destruct (u_isUWhiteSpace (code_of ch2)) eqn:Hws2.
           ++ destruct (whitespace_is_apart ch2 (skipn_In _ _ _ _ _ Hskip')
                          Hws2) as [Hno_punct _].
              cbn [words_of_text pending_word app] in *. rewrite Hws2 in *.
              intro H.
              apply (IH tail fuel); try lia.
              ** rewrite Hpos'.
                 replace (Z.to_nat (cur_pos s + size w + 1))
                   with (S (Z.to_nat (cur_pos s + size w)))
                   by (unfold size; lia).
                 eapply skipn_tail. exact Hskip'.
              ** rewrite Horig', Hout. reflexivity.
              ** right. left.
                 destruct Hcur as [Hcur|Hcur];
                   [exact Hcur | rewrite Hcur; exact Hno_punct].
              ** rewrite Hpos'. exact Hmax'.
              ** rewrite Hpos', Hout. exact H.
           ++ rewrite Z.add_0_r in Hpos'.
              intro H.
              apply (IH (ch2 :: tail) fuel); cbn [length]; try lia.
              ** rewrite Hpos'. exact Hskip'.
              ** rewrite Horig', Hout. reflexivity.
              ** right. right. right.
                 destruct Htail as [Hw|Hp2]; [discriminate | exact Hp2].
              ** rewrite Hpos'. exact Hmax'.
              ** rewrite Hpos', Hout. exact H.
      * destruct Hr as [Hnil Hout]. subst tail out''.
        cbn [words_of_text pending_word tokenize_words_at].
        intro H; exact H.
Qed.

End SplitText.

(** X19.  End-to-end mode splits the text and tokenizes the words.  On a
    7-bit text, a whitespace ends a word and a punctuation or CJK character
    ends a word and is a word of its own.  When no word is longer than
    [max_bytes_per_token], no whitespace of the text is a punctuation
    character or an edge of the trie, every punctuation character of the
    text is an edge from the root only, to a node with a token, no edge and
    a failure link to [trie_punct_failure_link_node], the failure
    transition fails at the root, at [trie_suffix_root] and at
    [trie_punct_failure_link_node], which has no edge, the root is never
    entered again and no list of failure pops is empty, then what
    single-word mode returns for the words one after the other, each at its
    offset in the text, is what [TokenizeTextImpl] returns for the text,
    given one more unit of fuel per byte, and four more.  Ids, and offsets
    if asked for, are compared; the pieces are not in use. *)
Theorem end_to_end_mode_splits_the_text :
  forall (utils : Utils) (icu : ICU) (this : FastWordpieceTokenizer)
         (kGetOffsets : bool) (fuel : nat) (input_text : bytes)
         (out out' : Outputs),
    seven_bit_text input_text ->
    end_to_end_model_of this input_text ->
    Forall (fun w => size (snd w) <= max_bytes_per_token (config_ this))
      (words_of_text input_text 0 []) ->
    tokenize_words_at this true kGetOffsets fuel
      (words_of_text input_text 0 []) out = Ok out' ->
    TokenizeTextImpl this false true kGetOffsets
      (fuel + length input_text + 4) input_text out
    = Ok out'.
Proof.
  intros utils icu this kO fuel text out out' Hseven
         [Hspace [Hpunct [Hroot [Hleaf [Hedge [Hlink [Hsuffix [Hnode
            Hpops]]]]]]]] Hmax Heach.
  destruct text as [|ch text].
  { cbn in *. exact Heach. }
  rewrite TokenizeTextImpl_nonempty by discriminate.
  apply (tokenize_words_splits_the_text this kO (ch :: text) Hseven Hedge
           Hlink Hroot Hsuffix Hnode Hleaf Hpops Hspace Hpunct
           (length (ch :: text)) (ch :: text) fuel);
    cbn [cur_pos original_num_tokens outputs cur_unicode_char
         initial_text_state Z.to_nat skipn];
    try assumption; try reflexivity; try lia.
Qed.

(** The concrete end-to-end model meets the conditions on a text whose
    only whitespace is the space and whose only punctuation character is
    the exclamation mark. *)
Lemma example_end_to_end_model_of : forall text : bytes,
  (forall ch, In ch text ->
     u_isUWhiteSpace (ICU := example_icu) (code_of ch) = true ->
     ch = " "%char) ->
  (forall ch, In ch text ->
     IsPunctuationOrChineseChar (Utils := example_utils) (code_of ch) = true ->
     ch = "!"%char) ->
  end_to_end_model_of (utils := example_utils) (icu := example_icu)
    (example_tokenizer true) text.
Proof.
  intros text Hspace Hpunct.
  destruct example_end_to_end_model
    as [Hedge [Hroot [Hlink [Hsuffix [Hnode Hpops]]]]].
  assert (Hno_edge :
            forall node ch,
              (forall e, In e (example_edges true) ->
                 (fst (fst e) =? node) && Ascii.eqb (snd (fst e)) ch
                 = false) ->
              TryTraverseOneStep (trie_ (example_tokenizer true)) node ch
              = None).
  { intros node ch Hall.
    unfold example_tokenizer, trie_, trie_of, TryTraverseOneStep, lookup_edge.
    destruct (find _ _) as [e|] eqn:Hfind; [|reflexivity].
    apply find_some in Hfind. destruct Hfind as [Hin Hcond].
    rewrite (Hall e Hin) in Hcond. discriminate. }
  unfold end_to_end_model_of.
  split; [|split; [|split; [|split; [|split; [exact Hroot|]]]]].
  - intros ch Hin Hws. rewrite (Hspace ch Hin Hws).
    split; [reflexivity | exact Hedge].
  - intros ch Hin [_ Hp]. rewrite (Hpunct ch Hin Hp). split.
    + intros node Hnode_root. apply Hno_edge.
      intros e He. cbn in He.
      repeat (destruct He as [He|He];
              [subst e; cbn; try apply andb_false_r|]);
        [|destruct He].
      rewrite andb_true_r.
      destruct node; [exfalso; apply Hnode_root|..]; reflexivity.
    + exists 10, (EncodeToken 5 1 false), (link 11).
      repeat split.
  - split; [reflexivity|].
    exists (link 4294967295). split; reflexivity.
  - intro ch. apply Hno_edge.
    intros e He. cbn in He.
    repeat (destruct He as [He|He]; [subst e; reflexivity|]).
    destruct He.
  - split; [exact Hlink|]. split; [exact Hsuffix|].
    split; [exact Hnode | exact Hpops].
Qed.

(** The concrete end-to-end model reads [ab!  abcz !x]. *)
Lemma end_to_end_mode_splits_the_text_witness :
  TokenizeTextImpl (utils := example_utils) (icu := example_icu)
    (example_tokenizer true) false true true
    (20 + length (bytes_of "ab!  abcz !x") + 4) (bytes_of "ab!  abcz !x")
    no_outputs
  = Ok {| output_pieces := [];
          output_ids := [0; 2; 5; 0; 3; 4; 5; 5];
          output_start_offsets := [0; 1; 2; 5; 6; 8; 10; 11];
          output_end_offsets := [1; 2; 3; 6; 8; 9; 11; 12] |}.
Proof.
  apply (end_to_end_mode_splits_the_text example_utils example_icu
           (example_tokenizer true) true 20 (bytes_of "ab!  abcz !x")
           no_outputs).
  - intros i Hi. reflexivity.
  - apply example_end_to_end_model_of; intros ch Hin; cbn in Hin;
      repeat (destruct Hin as [Hin|Hin];
              [subst ch; try reflexivity; discriminate|]);
      destruct Hin.
  - repeat constructor; cbn; lia.
  - reflexivity.
Defined.

(** * The offsets of the tokens

    The offsets that the tokenizers record are byte offsets in the text:
    in single-word mode by the word offset of the call, in end-to-end mode
    by the position at which the outer loop starts the word. *)

Section TextOffsets.

Context {utils : Utils} {icu : ICU}.
Variable this : FastWordpieceTokenizer.
Variables kGetPieces kGetIds : bool.










Hypothesis static_assert : kGetPieces || kGetIds = true.


End TextOffsets.



